(** * V3Scope: scope creation for every cell of the hierarchy

    A shallow embedding of [src/V3Scope.cpp] (the [ScopeVisitor] and the
    [ScopeCleanupVisitor]) and the properties of the pass.

    The AST is a tree of nodes that carry an address.  Objects that the
    pass reaches through a pointer other than the traversal cursor live in
    stores keyed by address: variable declarations, variable references,
    modules, and the scopes under construction.  *)

From stdpp Require Import base option list gmap strings.
From Stdlib Require Import Lia.

(** * V3Scope: scope creation for every cell of the hierarchy

    A shallow embedding of [src/V3Scope.cpp] (the [ScopeVisitor] and the
    [ScopeCleanupVisitor]) and the properties of the pass.

    The AST is a tree of nodes that carry an address.  Objects that the
    pass reaches through a pointer other than the traversal cursor live in
    stores keyed by address: variable declarations, variable references,
    modules, and the scopes under construction.  *)

(** ** Addresses, results *)

Abbreviation ptr := nat.

(** Outcome of a visitor call: normal return, a fatal diagnostic
    ([v3fatalSrc], a failed [UASSERT_OBJ]), a dereference of a null or
    dangling pointer, or exhausted recursion budget of the model. *)
Inductive result (A : Type) : Type :=
| Ok (a : A)
| Fatal (msg : string)
| NullDeref
| OutOfFuel.
Arguments Ok {A} a.
Arguments Fatal {A} msg.
Arguments NullDeref {A}.
Arguments OutOfFuel {A}.

#[global] Instance result_ret : MRet result := λ A a, Ok a.
#[global] Instance result_bind : MBind result := λ A B k r,
  match r with
  | Ok a => k a
  | Fatal m => Fatal m
  | NullDeref => NullDeref
  | OutOfFuel => OutOfFuel
  end.

#[global] Instance result_fmap : FMap result := λ A B f r,
  match r with
  | Ok a => Ok (f a)
  | Fatal m => Fatal m
  | NullDeref => NullDeref
  | OutOfFuel => OutOfFuel
  end.

Definition deref {A} (o : option A) : result A :=
  match o with Some a => Ok a | None => NullDeref end.

Definition UASSERT_OBJ (c : bool) (msg : string) : result unit :=
  if c then Ok () else Fatal msg.

(** ** The AST *)

Inductive VVarAttrClocker := CLOCKER_UNKNOWN | CLOCKER_YES | CLOCKER_NO.

(** Node types the two visitors distinguish, with the fields they read or
    write on the visited node itself.  [KOther] stands for every node type
    that reaches the generic [visit] of [AstNode]. *)
Inductive AstKind :=
| KCell (name : string) (modp : option ptr) (isTrace : bool)
| KClass (name : string)
| KCellInline (scopep : option ptr)
| KActive
| KNodeProcedure
| KAssignAlias
| KAssignVarScope
| KAssignW
| KAlwaysPublic
| KCoverToggle
| KCFunc (scopep : option ptr)
| KNodeFTask (classMethod : bool)
| KVar
| KVarRef
| KScopeName
| KScope
| KTopScope
| KText (text : string)
| KVarScope
| KVarXRef (varp : option ptr)
| KNodeFTaskRef (isMethodCall : bool) (taskp packagep : option ptr)
| KModportFTaskRef (ftaskp : option ptr)
| KOther.

#[global] Instance AstKind_eq_dec : EqDecision AstKind.
Proof. solve_decision. Defined.

#[warnings="-register-all"]
Inductive AstNode := Node {
  kind : AstKind;
  self : ptr;
  op1p : list AstNode;
  op2p : list AstNode;
  op3p : list AstNode;
  op4p : list AstNode }.

(** The eight statement blocks both visitors treat alike. *)
Definition clonable (k : AstKind) : bool :=
  match k with
  | KNodeProcedure | KAssignAlias | KAssignVarScope | KAssignW
  | KAlwaysPublic | KCoverToggle | KCFunc _ | KNodeFTask _ => true
  | _ => false
  end.

(** [AstVar], reached through [AstVarRef::varp()] and the side tables. *)
Record AstVar := mkVar {
  var_name : string;
  isIfaceRef : bool;
  isClassMember : bool;
  attrClocker : VVarAttrClocker }.

(** [AstVarRef], reached through the deferred worklist. *)
Record AstVarRef := mkVarRef {
  varp : option ptr;
  packagep : option ptr;
  varScopep : option ptr }.

(** What the pass reads of an [AstCell] through [m_aboveCellp]. *)
Record AstCell := mkCell {
  cell_self : ptr;
  cell_name : string;
  cell_isTrace : bool }.

Record AstVarScope := mkVarScope {
  vsc_self : ptr;
  vsc_scopep : ptr;
  vsc_varp : ptr;
  vsc_trace : bool }.

Record AstScope := mkScope {
  scope_name : string;
  scope_modp : option ptr;
  aboveScopep : option ptr;
  aboveCellp : option AstCell;
  varsp : list AstVarScope;
  blocksp : list AstNode }.

(** [AstNodeModule]; modules sit directly under the netlist and are
    reached through [AstCell::modp()]. *)
Record AstNodeModule := mkModule {
  mod_self : ptr;
  mod_name : string;
  isPackage : bool;
  isTop : bool;
  inlinesp : list AstNode;
  stmtsp : list AstNode;
  activesp : list AstNode }.

Record AstNetlist := mkNetlist {
  modulesp : list AstNodeModule;
  net_vars : gmap ptr AstVar;
  net_varrefs : gmap ptr AstVarRef }.

(** ** External collaborators *)

(** The global configuration [v3Global.opt] and the name prettifier,
    both declared outside this file; [prettyName] receives the scope
    name and the variable name of an [AstVarScope]. *)
Record V3Global := mkGlobal {
  isClocker : string → bool;
  isNoClocker : string → bool;
  prettyName : string → string → string }.

(** ** State of the pass *)

Record State := mkState {
  next : ptr;
  vars : gmap ptr AstVar;
  varrefs : gmap ptr AstVarRef;
  modules : gmap ptr AstNodeModule;
  scopes : gmap ptr AstScope;
  user1p : gmap ptr ptr;
  user2p : gmap ptr ptr;
  errors : list string;
  m_modp : option ptr;
  m_scopep : option ptr;
  m_aboveCellp : option AstCell;
  m_aboveScopep : option ptr;
  m_packageScopes : gmap ptr ptr;
  m_varScopes : gmap (ptr * ptr) ptr;
  m_varRefScopes : list (ptr * option ptr) }.

Definition set_next (v : ptr) (s : State) : State :=
  mkState v (vars s) (varrefs s) (modules s) (scopes s) (user1p s) (user2p s) (errors s) (m_modp s) (m_scopep s) (m_aboveCellp s) (m_aboveScopep s) (m_packageScopes s) (m_varScopes s) (m_varRefScopes s).
Definition set_vars (v : gmap ptr AstVar) (s : State) : State :=
  mkState (next s) v (varrefs s) (modules s) (scopes s) (user1p s) (user2p s) (errors s) (m_modp s) (m_scopep s) (m_aboveCellp s) (m_aboveScopep s) (m_packageScopes s) (m_varScopes s) (m_varRefScopes s).
Definition set_varrefs (v : gmap ptr AstVarRef) (s : State) : State :=
  mkState (next s) (vars s) v (modules s) (scopes s) (user1p s) (user2p s) (errors s) (m_modp s) (m_scopep s) (m_aboveCellp s) (m_aboveScopep s) (m_packageScopes s) (m_varScopes s) (m_varRefScopes s).
Definition set_modules (v : gmap ptr AstNodeModule) (s : State) : State :=
  mkState (next s) (vars s) (varrefs s) v (scopes s) (user1p s) (user2p s) (errors s) (m_modp s) (m_scopep s) (m_aboveCellp s) (m_aboveScopep s) (m_packageScopes s) (m_varScopes s) (m_varRefScopes s).
Definition set_scopes (v : gmap ptr AstScope) (s : State) : State :=
  mkState (next s) (vars s) (varrefs s) (modules s) v (user1p s) (user2p s) (errors s) (m_modp s) (m_scopep s) (m_aboveCellp s) (m_aboveScopep s) (m_packageScopes s) (m_varScopes s) (m_varRefScopes s).
Definition set_user1p (v : gmap ptr ptr) (s : State) : State :=
  mkState (next s) (vars s) (varrefs s) (modules s) (scopes s) v (user2p s) (errors s) (m_modp s) (m_scopep s) (m_aboveCellp s) (m_aboveScopep s) (m_packageScopes s) (m_varScopes s) (m_varRefScopes s).
Definition set_user2p (v : gmap ptr ptr) (s : State) : State :=
  mkState (next s) (vars s) (varrefs s) (modules s) (scopes s) (user1p s) v (errors s) (m_modp s) (m_scopep s) (m_aboveCellp s) (m_aboveScopep s) (m_packageScopes s) (m_varScopes s) (m_varRefScopes s).
Definition set_errors (v : list string) (s : State) : State :=
  mkState (next s) (vars s) (varrefs s) (modules s) (scopes s) (user1p s) (user2p s) v (m_modp s) (m_scopep s) (m_aboveCellp s) (m_aboveScopep s) (m_packageScopes s) (m_varScopes s) (m_varRefScopes s).
Definition set_m_modp (v : option ptr) (s : State) : State :=
  mkState (next s) (vars s) (varrefs s) (modules s) (scopes s) (user1p s) (user2p s) (errors s) v (m_scopep s) (m_aboveCellp s) (m_aboveScopep s) (m_packageScopes s) (m_varScopes s) (m_varRefScopes s).
Definition set_m_scopep (v : option ptr) (s : State) : State :=
  mkState (next s) (vars s) (varrefs s) (modules s) (scopes s) (user1p s) (user2p s) (errors s) (m_modp s) v (m_aboveCellp s) (m_aboveScopep s) (m_packageScopes s) (m_varScopes s) (m_varRefScopes s).
Definition set_m_aboveCellp (v : option AstCell) (s : State) : State :=
  mkState (next s) (vars s) (varrefs s) (modules s) (scopes s) (user1p s) (user2p s) (errors s) (m_modp s) (m_scopep s) v (m_aboveScopep s) (m_packageScopes s) (m_varScopes s) (m_varRefScopes s).
Definition set_m_aboveScopep (v : option ptr) (s : State) : State :=
  mkState (next s) (vars s) (varrefs s) (modules s) (scopes s) (user1p s) (user2p s) (errors s) (m_modp s) (m_scopep s) (m_aboveCellp s) v (m_packageScopes s) (m_varScopes s) (m_varRefScopes s).
Definition set_m_packageScopes (v : gmap ptr ptr) (s : State) : State :=
  mkState (next s) (vars s) (varrefs s) (modules s) (scopes s) (user1p s) (user2p s) (errors s) (m_modp s) (m_scopep s) (m_aboveCellp s) (m_aboveScopep s) v (m_varScopes s) (m_varRefScopes s).
Definition set_m_varScopes (v : gmap (ptr * ptr) ptr) (s : State) : State :=
  mkState (next s) (vars s) (varrefs s) (modules s) (scopes s) (user1p s) (user2p s) (errors s) (m_modp s) (m_scopep s) (m_aboveCellp s) (m_aboveScopep s) (m_packageScopes s) v (m_varRefScopes s).
Definition set_m_varRefScopes (v : list (ptr * option ptr)) (s : State) : State :=
  mkState (next s) (vars s) (varrefs s) (modules s) (scopes s) (user1p s) (user2p s) (errors s) (m_modp s) (m_scopep s) (m_aboveCellp s) (m_aboveScopep s) (m_packageScopes s) (m_varScopes s) v.

(** ** AST plumbing *)

(** [new]: the next unused address. *)
Definition alloc (s : State) : ptr * State := (next s, set_next (S (next s)) s).

(** [AstNode::user1ClearTree()]. *)
Definition user1ClearTree (s : State) : State := set_user1p ∅ s.

(** [std::map::insert] and [unordered_map::insert]: an existing key keeps
    its value. *)
Definition map_insert_new `{Countable K} {V} (k : K) (v : V) (m : gmap K V) : gmap K V :=
  match m !! k with Some _ => m | None => <[k := v]> m end.

(** [std::set<std::pair<AstVarRef*, AstScope*>>]: a strictly increasing
    list under the lexicographic order of addresses, null first. *)
Definition scope_ltb (a b : option ptr) : bool :=
  match a, b with
  | None, None => false
  | None, Some _ => true
  | Some _, None => false
  | Some x, Some y => x <? y
  end.

Definition pair_ltb (a b : ptr * option ptr) : bool :=
  (a.1 <? b.1) || ((a.1 =? b.1) && scope_ltb a.2 b.2).

Fixpoint set_insert (x : ptr * option ptr) (l : list (ptr * option ptr))
  : list (ptr * option ptr) :=
  match l with
  | [] => [x]
  | y :: l' =>
      if pair_ltb x y then x :: y :: l'
      else if pair_ltb y x then y :: set_insert x l'
      else y :: l'
  end.

(** The nodes of a subtree in preorder, their addresses, and the addresses
    of the variable declarations among them. *)
Fixpoint subnodes (n : AstNode) : list AstNode :=
  match n with
  | Node _ _ o1 o2 o3 o4 =>
      let go :=
        fix go (l : list AstNode) : list AstNode :=
          match l with
          | [] => []
          | x :: l' => subnodes x ++ go l'
          end in
      n :: go o1 ++ go o2 ++ go o3 ++ go o4
  end.

Definition node_ptrs (n : AstNode) : list ptr := self <$> subnodes n.
Definition var_ptrs (n : AstNode) : list ptr :=
  self <$> filter (λ x, kind x = KVar) (subnodes n).

Definition nodes_ptrs (l : list AstNode) : list ptr := l ≫= node_ptrs.
Definition vars_ptrs (l : list AstNode) : list ptr := l ≫= var_ptrs.

(** Modelled from the spec: the cloning primitive [AstNode::cloneTree] is
    generic AST plumbing kept outside this file.  A clone is a deep copy
    of the subtree in which every node is a new object; the copies of
    [AstVar] and [AstVarRef] objects are made with it, and a copied
    reference whose declaration was copied too is relinked to the copy. *)
Fixpoint cloneTreeIter (n : AstNode) (nx : ptr) : AstNode * (ptr * list (ptr * ptr)) :=
  match n with
  | Node k p o1 o2 o3 o4 =>
      let cloneList :=
        fix cloneList (l : list AstNode) (nx : ptr) : list AstNode * (ptr * list (ptr * ptr)) :=
          match l with
          | [] => ([], (nx, []))
          | x :: l' =>
              let '(x', (nx1, m1)) := cloneTreeIter x nx in
              let '(l'', (nx2, m2)) := cloneList l' nx1 in
              (x' :: l'', (nx2, m1 ++ m2))
          end in
      let '(o1', (n1, m1)) := cloneList o1 (S nx) in
      let '(o2', (n2, m2)) := cloneList o2 n1 in
      let '(o3', (n3, m3)) := cloneList o3 n2 in
      let '(o4', (n4, m4)) := cloneList o4 n3 in
      (Node k nx o1' o2' o3' o4', (n4, (p, nx) :: m1 ++ m2 ++ m3 ++ m4))
  end.

Definition cloneRelinkRef (m : gmap ptr ptr) (r : AstVarRef) : AstVarRef :=
  mkVarRef ((λ v, default v (m !! v)) <$> varp r) (packagep r) (varScopep r).

Definition cloneRelinkStep (m : gmap ptr ptr) (s : State) (on : ptr * ptr) : State :=
  let s := match vars s !! on.1 with
           | Some v => set_vars (<[on.2 := v]> (vars s)) s
           | None => s
           end in
  match varrefs s !! on.1 with
  | Some r => set_varrefs (<[on.2 := cloneRelinkRef m r]> (varrefs s)) s
  | None => s
  end.

Definition cloneRelink (m : list (ptr * ptr)) (s : State) : State :=
  foldl (cloneRelinkStep (list_to_map m)) s m.

Definition cloneTree (n : AstNode) (s : State) : AstNode * State :=
  let '(n', (nx, m)) := cloneTreeIter n (next s) in
  (n', cloneRelink m (set_next nx s)).

(** [iterateAndNext]: each node of a sibling list is visited in order; a
    visit yields the nodes that stand in its place afterwards (none when
    the node unlinked itself).  [iterateChildren] runs it over the four
    operand lists of a node. *)
Section Iterate.
Context {St : Type}.
#[local] Abbreviation visitor := (AstNode → St → result (list AstNode * St)).

Fixpoint iterateAndNext (visit : visitor) (l : list AstNode) (st : St)
  : result (list AstNode * St) :=
  match l with
  | [] => Ok ([], st)
  | nodep :: l' =>
      '(ns, st) ← visit nodep st;
      '(ns', st) ← iterateAndNext visit l' st;
      Ok (ns ++ ns', st)
  end.

Definition iterateChildren (visit : visitor) (nodep : AstNode) (st : St)
  : result (AstNode * St) :=
  '(o1, st) ← iterateAndNext visit (op1p nodep) st;
  '(o2, st) ← iterateAndNext visit (op2p nodep) st;
  '(o3, st) ← iterateAndNext visit (op3p nodep) st;
  '(o4, st) ← iterateAndNext visit (op4p nodep) st;
  Ok (Node (kind nodep) (self nodep) o1 o2 o3 o4, st).
End Iterate.

(** ** ScopeVisitor *)

Section ScopeVisitor.
Context (opt : V3Global).

(** [AstScope::addVarp], [AstScope::addActivep], and the write-back of a
    block that was edited in place after it was linked under its scope. *)
Definition addVarp (varscp : AstVarScope) (sc : AstScope) : AstScope :=
  mkScope (scope_name sc) (scope_modp sc) (aboveScopep sc) (aboveCellp sc)
          (varsp sc ++ [varscp]) (blocksp sc).

Definition addActivep (clonep : AstNode) (sc : AstScope) : AstScope :=
  mkScope (scope_name sc) (scope_modp sc) (aboveScopep sc) (aboveCellp sc)
          (varsp sc) (blocksp sc ++ [clonep]).

Definition setActivep (i : nat) (clonep : AstNode) (sc : AstScope) : AstScope :=
  mkScope (scope_name sc) (scope_modp sc) (aboveScopep sc) (aboveCellp sc)
          (varsp sc) (<[i := clonep]> (blocksp sc)).

(** [m_scopep = new AstScope(fl, modp, scopename, m_aboveScopep, m_aboveCellp)]. *)
Definition newScope (scopename : string) (modp : option ptr) (st : State) : State :=
  let '(p, st) := alloc st in
  set_m_scopep (Some p)
    (set_scopes (<[p := mkScope scopename modp (m_aboveScopep st) (m_aboveCellp st) [] []]>
                   (scopes st)) st).

(** The scope name both [visit(AstNodeModule)] and [visit(AstClass)]
    compute: "TOP" without a parent scope, else the parent's name, a dot
    and [leaf]. *)
Definition scopeName (leaf : result string) (st : State) : result string :=
  match m_aboveScopep st with
  | None => Ok "TOP"
  | Some a =>
      sc ← deref (scopes st !! a);
      l ← leaf;
      Ok (scope_name sc +:+ "." +:+ l)
  end.

(** Tail shared by the block visitors: link [clonep] under the current
    scope, then iterate under the clone. *)
Definition linkAndIterate (visit : AstNode → State → result (list AstNode * State))
    (clonep : AstNode) (st : State) : result State :=
  scp ← deref (m_scopep st);
  sc ← deref (scopes st !! scp);
  let i := length (blocksp sc) in
  let st := set_scopes (<[scp := addActivep clonep sc]> (scopes st)) st in
  '(clonep, st) ← iterateChildren visit clonep st;
  sc ← deref (scopes st !! scp);
  Ok (set_scopes (<[scp := setActivep i clonep sc]> (scopes st)) st).

Definition visit_AstClass (visit : AstNode → State → result (list AstNode * State))
    (name : string) (nodep : AstNode) (st : State) : result (list AstNode * State) :=
  let oldScopep := m_scopep st in
  let oldAbCellp := m_aboveCellp st in
  let oldAbScopep := m_aboveScopep st in
  let st := set_m_aboveScopep (m_scopep st) st in
  scopename ← scopeName (Ok name) st;
  let st := user1ClearTree st in
  let st := newScope scopename (m_modp st) st in
  let st := user1ClearTree st in
  scp ← deref (m_scopep st);
  let nodep := Node (kind nodep) (self nodep)
                    (op1p nodep ++ [Node KScope scp [] [] [] []])
                    (op2p nodep) (op3p nodep) (op4p nodep) in
  '(nodep, st) ← iterateChildren visit nodep st;
  let st := set_m_scopep oldScopep st in
  let st := set_m_aboveCellp oldAbCellp st in
  let st := set_m_aboveScopep oldAbScopep st in
  Ok ([nodep], st).

Definition visit_AstCellInline (nodep : AstNode) (st : State)
  : result (list AstNode * State) :=
  Ok ([Node (KCellInline (m_scopep st)) (self nodep)
            (op1p nodep) (op2p nodep) (op3p nodep) (op4p nodep)], st).

Definition visit_AstActive (nodep : AstNode) (st : State)
  : result (list AstNode * State) :=
  Fatal "Actives now made after scoping".

(** [visit] of [AstNodeProcedure], [AstAssignAlias], [AstAssignVarScope],
    [AstAssignW], [AstAlwaysPublic] and [AstCoverToggle]: six bodies of
    the same text. *)
Definition visit_block (visit : AstNode → State → result (list AstNode * State))
    (nodep : AstNode) (st : State) : result (list AstNode * State) :=
  let '(clonep, st) := cloneTree nodep st in
  let st := set_user2p (<[self nodep := self clonep]> (user2p st)) st in
  st ← linkAndIterate visit clonep st;
  Ok ([nodep], st).

(** [visit(AstCFunc)]: as above, and the clone is told its scope.  The
    two writes [addActivep(clonep)] and [clonep->scopep(m_scopep)]
    touch different objects; the clone is shown here with its scope set
    when it is linked. *)
Definition visit_AstCFunc (visit : AstNode → State → result (list AstNode * State))
    (nodep : AstNode) (st : State) : result (list AstNode * State) :=
  let '(clonep, st) := cloneTree nodep st in
  let st := set_user2p (<[self nodep := self clonep]> (user2p st)) st in
  let clonep := Node (KCFunc (m_scopep st)) (self clonep)
                     (op1p clonep) (op2p clonep) (op3p clonep) (op4p clonep) in
  st ← linkAndIterate visit clonep st;
  Ok ([nodep], st).

Definition visit_AstNodeFTask (visit : AstNode → State → result (list AstNode * State))
    (classMethod : bool) (nodep : AstNode) (st : State) : result (list AstNode * State) :=
  if classMethod then
    (* nodep->unlinkFrBack(); clonep = nodep *)
    let st := set_user2p (<[self nodep := self nodep]> (user2p st)) st in
    st ← linkAndIterate visit nodep st;
    Ok ([], st)
  else
    let '(clonep, st) := cloneTree nodep st in
    let st := set_user2p (<[self nodep := self clonep]> (user2p st)) st in
    st ← linkAndIterate visit clonep st;
    Ok ([nodep], st).

Definition set_attrClocker (a : VVarAttrClocker) (v : AstVar) : AstVar :=
  mkVar (var_name v) (isIfaceRef v) (isClassMember v) a.

Definition visit_AstVar (nodep : AstNode) (st : State) : result (list AstNode * State) :=
  match user1p st !! self nodep with
  | Some _ => Ok ([nodep], st)
  | None =>
      let '(p, st) := alloc st in
      let trace := match m_aboveCellp st with
                   | Some c => if negb (cell_isTrace c) then false else true
                   | None => true
                   end in
      let st := set_user1p (<[self nodep := p]> (user1p st)) st in
      (* varscp->prettyName() reads the scope and the variable *)
      scp ← deref (m_scopep st);
      sc ← deref (scopes st !! scp);
      v ← deref (vars st !! self nodep);
      let pretty := prettyName opt (scope_name sc) (var_name v) in
      let v := if isClocker opt pretty then set_attrClocker CLOCKER_YES v else v in
      let v := if isNoClocker opt pretty then set_attrClocker CLOCKER_NO v else v in
      let st := set_vars (<[self nodep := v]> (vars st)) st in
      _ ← UASSERT_OBJ (bool_decide (is_Some (m_scopep st))) "No scope for var";
      let st := set_m_varScopes (map_insert_new (self nodep, scp) p (m_varScopes st)) st in
      let varscp := mkVarScope p scp (self nodep) trace in
      Ok ([nodep], set_scopes (<[scp := addVarp varscp sc]> (scopes st)) st)
  end.

Definition set_varScopep (vs : option ptr) (r : AstVarRef) : AstVarRef :=
  mkVarRef (varp r) (packagep r) vs.

Definition visit_AstVarRef (nodep : AstNode) (st : State) : result (list AstNode * State) :=
  r ← deref (varrefs st !! self nodep);
  match varp r with
  | None => Fatal "Unlinked"
  | Some vp =>
      v ← deref (vars st !! vp);
      if isIfaceRef v then
        Ok ([nodep], set_varrefs (<[self nodep := set_varScopep None r]> (varrefs st)) st)
      else
        Ok ([nodep], set_m_varRefScopes
                       (set_insert (self nodep, m_scopep st) (m_varRefScopes st)) st)
  end.

Definition visit_AstScopeName (visit : AstNode → State → result (list AstNode * State))
    (nodep : AstNode) (st : State) : result (list AstNode * State) :=
  scp ← deref (m_scopep st);
  sc ← deref (scopes st !! scp);
  let prefix := "__DOT__" +:+ scope_name sc in
  let '(t1, st) := alloc st in
  let '(t2, st) := alloc st in
  let nodep := Node (kind nodep) (self nodep)
                    (Node (KText prefix) t1 [] [] [] [] :: op1p nodep)
                    (Node (KText prefix) t2 [] [] [] [] :: op2p nodep)
                    (op3p nodep) (op4p nodep) in
  '(nodep, st) ← iterateChildren visit nodep st;
  Ok ([nodep], st).

Definition visit_AstScope (nodep : AstNode) (st : State) : result (list AstNode * State) :=
  Ok ([nodep], st).

Definition visit_AstNode (visit : AstNode → State → result (list AstNode * State))
    (nodep : AstNode) (st : State) : result (list AstNode * State) :=
  '(nodep, st) ← iterateChildren visit nodep st;
  Ok ([nodep], st).

(** The visitor's dispatch on the node type, for every node below a
    module.  The clones it iterates are no subterms of the node it was
    called on, so the recursion runs on a budget. *)
Fixpoint visit (fuel : nat) (nodep : AstNode) (st : State)
  : result (list AstNode * State) :=
  match fuel with
  | O => OutOfFuel
  | S fuel =>
      match kind nodep with
      | KClass name => visit_AstClass (visit fuel) name nodep st
      | KCellInline _ => visit_AstCellInline nodep st
      | KActive => visit_AstActive nodep st
      | KNodeProcedure | KAssignAlias | KAssignVarScope | KAssignW
      | KAlwaysPublic | KCoverToggle => visit_block (visit fuel) nodep st
      | KCFunc _ => visit_AstCFunc (visit fuel) nodep st
      | KNodeFTask classMethod => visit_AstNodeFTask (visit fuel) classMethod nodep st
      | KVar => visit_AstVar nodep st
      | KVarRef => visit_AstVarRef nodep st
      | KScopeName => visit_AstScopeName (visit fuel) nodep st
      | KScope => visit_AstScope nodep st
      | _ => visit_AstNode (visit fuel) nodep st
      end
  end.

(** The loop of [visit(AstNodeModule)] over the module's statements that
    descends into the module of each cell.  The statement list of the
    visited module is unchanged while the loop runs. *)
Fixpoint visit_cells (visitModule : ptr → State → result State)
    (l : list AstNode) (st : State) : result State :=
  match l with
  | [] => Ok st
  | cellnextp :: l' =>
      match kind cellnextp with
      | KCell name modp isTrace =>
          let oldScopep := m_scopep st in
          let oldAbCellp := m_aboveCellp st in
          let oldAbScopep := m_aboveScopep st in
          let st := set_m_aboveCellp (Some (mkCell (self cellnextp) name isTrace)) st in
          let st := set_m_aboveScopep (m_scopep st) st in
          match modp with
          | None => Fatal "Unlinked mod"
          | Some modp =>
              st ← visitModule modp st;
              let st := set_m_scopep oldScopep st in
              let st := set_m_aboveCellp oldAbCellp st in
              let st := set_m_aboveScopep oldAbScopep st in
              visit_cells visitModule l' st
          end
      | _ => visit_cells visitModule l' st
      end
  end.

Definition addStmtp (n : AstNode) (m : AstNodeModule) : AstNodeModule :=
  mkModule (mod_self m) (mod_name m) (isPackage m) (isTop m)
           (inlinesp m) (stmtsp m ++ [n]) (activesp m).

Fixpoint visit_AstNodeModule (fuel : nat) (modp : ptr) (st : State) : result State :=
  match fuel with
  | O => OutOfFuel
  | S fuel =>
      nodep ← deref (modules st !! modp);
      scopename ← scopeName (cell_name <$> deref (m_aboveCellp st)) st;
      let st := user1ClearTree st in
      let st := newScope scopename (Some modp) st in
      scp ← deref (m_scopep st);
      let st := if isPackage nodep
                then set_m_packageScopes (map_insert_new modp scp (m_packageScopes st)) st
                else st in
      (* Now for each child cell, iterate the module this cell points to *)
      st ← visit_cells (visit_AstNodeModule fuel) (stmtsp nodep) st;
      (* Create scope for the current usage of this module *)
      let st := user1ClearTree st in
      let st := set_m_modp (Some modp) st in
      nodep ← deref (modules st !! modp);
      scp ← deref (m_scopep st);
      let '(scopeNode, st) :=
        if isTop nodep then
          let '(p, st) := alloc st in
          (Node KTopScope p [] [Node KScope scp [] [] [] []] [] [], st)
        else (Node KScope scp [] [] [] [], st) in
      let nodep := addStmtp scopeNode nodep in
      let st := set_modules (<[modp := nodep]> (modules st)) st in
      (* Copy blocks into this scope *)
      '(o1, st) ← iterateAndNext (visit fuel) (inlinesp nodep) st;
      '(o2, st) ← iterateAndNext (visit fuel) (stmtsp nodep) st;
      '(o3, st) ← iterateAndNext (visit fuel) (activesp nodep) st;
      let nodep := mkModule (mod_self nodep) (mod_name nodep) (isPackage nodep)
                            (isTop nodep) o1 o2 o3 in
      Ok (set_modules (<[modp := nodep]> (modules st)) st)
  end.

(** One turn of the loop of [cleanupVarRefs]: the binding found for a
    queued reference. *)
Definition effectiveScope (st : State) (r : AstVarRef) (scopep : option ptr)
  : result (option ptr) :=
  match packagep r with
  | Some pkg =>
      vp ← deref (varp r);
      v ← deref (vars st !! vp);
      if negb (isClassMember v) then
        match m_packageScopes st !! pkg with
        | None => Fatal "Can't locate package scope"
        | Some s => Ok (Some s)
        end
      else Ok scopep
  | None => Ok scopep
  end.

Definition findVarScope (st : State) (r : AstVarRef) (scopep : option ptr) : result ptr :=
  match varp r, scopep with
  | Some vp, Some s =>
      match m_varScopes st !! (vp, s) with
      | None => Fatal "Can't locate varref scope"
      | Some varscp => Ok varscp
      end
  | _, _ => Fatal "Can't locate varref scope"
  end.

Definition resolve (st : State) (it : ptr * option ptr) : result ptr :=
  r ← deref (varrefs st !! it.1);
  scopep ← effectiveScope st r it.2;
  findVarScope st r scopep.

Definition cleanupVarRef (st : State) (it : ptr * option ptr) : result State :=
  r ← deref (varrefs st !! it.1);
  varscp ← resolve st it;
  Ok (set_varrefs (<[it.1 := set_varScopep (Some varscp) r]> (varrefs st)) st).

Fixpoint cleanupVarRefs_from (l : list (ptr * option ptr)) (st : State) : result State :=
  match l with
  | [] => Ok st
  | it :: l' => st ← cleanupVarRef st it; cleanupVarRefs_from l' st
  end.

Definition cleanupVarRefs (st : State) : result State :=
  cleanupVarRefs_from (m_varRefScopes st) st.

Definition v3error (msg : string) (st : State) : State :=
  set_errors (errors st ++ [msg]) st.

(** Modelled from the spec: [AstNetlist::topModulep] is declared outside
    this file; the top module is the first module of the netlist. *)
Definition topModulep (nodep : AstNetlist) : option ptr :=
  mod_self <$> head (modulesp nodep).

Definition visit_AstNetlist (fuel : nat) (nodep : AstNetlist) (st : State) : result State :=
  match topModulep nodep with
  | None => Ok (v3error "No top level module found" st)
  | Some modp =>
      (* Operate starting at the top of the hierarchy *)
      let st := set_m_aboveCellp None st in
      let st := set_m_aboveScopep None st in
      st ← visit_AstNodeModule fuel modp st;
      cleanupVarRefs st
  end.
End ScopeVisitor.

(** ** The constructor of [ScopeVisitor] *)

(** Every address in use before the pass: the pass allocates above them. *)
Definition module_ptrs (m : AstNodeModule) : list ptr :=
  mod_self m :: nodes_ptrs (inlinesp m) ++ nodes_ptrs (stmtsp m) ++ nodes_ptrs (activesp m).

Definition netlist_ptrs (nodep : AstNetlist) : list ptr :=
  concat (module_ptrs <$> modulesp nodep)
  ++ (map_to_list (net_vars nodep)).*1 ++ (map_to_list (net_varrefs nodep)).*1.

Definition initState (nodep : AstNetlist) : State :=
  mkState (S (max_list (netlist_ptrs nodep)))
          (net_vars nodep) (net_varrefs nodep)
          (list_to_map ((λ m, (mod_self m, m)) <$> modulesp nodep))
          ∅ ∅ ∅ [] None None None None ∅ ∅ [].

Definition ScopeVisitor (opt : V3Global) (fuel : nat) (nodep : AstNetlist) : result State :=
  visit_AstNetlist opt fuel nodep (initState nodep).

(** ** ScopeCleanupVisitor *)

Module ScopeCleanupVisitor.

Record State := mkState {
  m_scopep : option ptr;      (* Current scope we are building *)
  deleteps : list AstNode }.  (* nodes handed to pushDeletep *)

Section Visitor.
(** [AstNode::user2p] as the first visitor left it. *)
Context (user2p : gmap ptr ptr).

Definition movedDeleteOrIterate
    (iterateChildren : AstNode → State → result (AstNode * State))
    (nodep : AstNode) (st : State) : result (list AstNode * State) :=
  match m_scopep st with
  | Some _ =>
      (* The new block; repair varrefs *)
      '(nodep, st) ← iterateChildren nodep st;
      Ok ([nodep], st)
  | None =>
      (* A block that was just moved under a scope, Kill it. *)
      Ok ([], mkState (m_scopep st) (deleteps st ++ [nodep]))
  end.

Definition visit_AstScope
    (iterateChildren : AstNode → State → result (AstNode * State))
    (nodep : AstNode) (st : State) : result (list AstNode * State) :=
  let st := mkState (Some (self nodep)) (deleteps st) in
  '(nodep, st) ← iterateChildren nodep st;
  Ok ([nodep], mkState None (deleteps st)).

Definition visit_AstVarXRef (nodep : AstNode) (st : State)
  : result (list AstNode * State) :=
  Ok ([Node (KVarXRef None) (self nodep)
            (op1p nodep) (op2p nodep) (op3p nodep) (op4p nodep)], st).

Definition visit_AstNodeFTaskRef
    (iterateChildren : AstNode → State → result (AstNode * State))
    (isMethodCall : bool) (taskp packagep : option ptr)
    (nodep : AstNode) (st : State) : result (list AstNode * State) :=
  taskp' ←
    match packagep with
    | Some _ =>
        match taskp with
        | None => Fatal "Unlinked"
        | Some t =>
            match user2p !! t with
            | None => Fatal "No clone for package function"
            | Some newp => Ok (Some newp)
            end
        end
    | None => Ok (if negb isMethodCall then None else taskp)
    end;
  let nodep := Node (KNodeFTaskRef isMethodCall taskp' packagep) (self nodep)
                    (op1p nodep) (op2p nodep) (op3p nodep) (op4p nodep) in
  '(nodep, st) ← iterateChildren nodep st;
  Ok ([nodep], st).

Definition visit_AstModportFTaskRef
    (iterateChildren : AstNode → State → result (AstNode * State))
    (nodep : AstNode) (st : State) : result (list AstNode * State) :=
  let nodep := Node (KModportFTaskRef None) (self nodep)
                    (op1p nodep) (op2p nodep) (op3p nodep) (op4p nodep) in
  '(nodep, st) ← iterateChildren nodep st;
  Ok ([nodep], st).

Definition visit_AstNode
    (iterateChildren : AstNode → State → result (AstNode * State))
    (nodep : AstNode) (st : State) : result (list AstNode * State) :=
  '(nodep, st) ← iterateChildren nodep st;
  Ok ([nodep], st).

(** The second visitor copies nothing, so its recursion follows the
    tree. *)
Fixpoint visit (nodep : AstNode) (st : State) {struct nodep}
  : result (list AstNode * State) :=
  match nodep with
  | Node k p o1 o2 o3 o4 =>
      let iterate :=
        fix iterate (l : list AstNode) (st : State) : result (list AstNode * State) :=
          match l with
          | [] => Ok ([], st)
          | n :: l' =>
              '(ns, st) ← visit n st;
              '(ns', st) ← iterate l' st;
              Ok (ns ++ ns', st)
          end in
      let iterateChildren (nodep : AstNode) (st : State) : result (AstNode * State) :=
        '(o1, st) ← iterate o1 st;
        '(o2, st) ← iterate o2 st;
        '(o3, st) ← iterate o3 st;
        '(o4, st) ← iterate o4 st;
        Ok (Node (kind nodep) (self nodep) o1 o2 o3 o4, st) in
      match k with
      | KScope => visit_AstScope iterateChildren nodep st
      | KNodeProcedure | KAssignAlias | KAssignVarScope | KAssignW
      | KAlwaysPublic | KCoverToggle | KNodeFTask _ | KCFunc _ =>
          movedDeleteOrIterate iterateChildren nodep st
      | KVarXRef _ => visit_AstVarXRef nodep st
      | KNodeFTaskRef isMethodCall taskp packagep =>
          visit_AstNodeFTaskRef iterateChildren isMethodCall taskp packagep nodep st
      | KModportFTaskRef _ => visit_AstModportFTaskRef iterateChildren nodep st
      | _ => visit_AstNode iterateChildren nodep st
      end
  end.

(** A module is a node without a visitor of its own here: its children
    are iterated. *)
Definition visit_module (m : AstNodeModule) (st : State)
  : result (AstNodeModule * State) :=
  '(o1, st) ← iterateAndNext visit (inlinesp m) st;
  '(o2, st) ← iterateAndNext visit (stmtsp m) st;
  '(o3, st) ← iterateAndNext visit (activesp m) st;
  Ok (mkModule (mod_self m) (mod_name m) (isPackage m) (isTop m) o1 o2 o3, st).

Fixpoint visit_modules (l : list AstNodeModule) (st : State)
  : result (list AstNodeModule * State) :=
  match l with
  | [] => Ok ([], st)
  | m :: l' =>
      '(m, st) ← visit_module m st;
      '(l', st) ← visit_modules l' st;
      Ok (m :: l', st)
  end.

(** The constructor: [m_scopep = NULL; iterate(nodep)]. *)
Definition ScopeCleanupVisitor (modulesp : list AstNodeModule)
  : result (list AstNodeModule * State) :=
  visit_modules modulesp (mkState None []).
End Visitor.
End ScopeCleanupVisitor.

(** ** Invariants of the first visitor *)

Abbreviation visitor := (AstNode → State → result (list AstNode * State)).

(** What [visit(AstVar)] puts into [AstVarScope::trace] under the
    instantiating cell [c]. *)
Definition traceOf (c : option AstCell) : bool :=
  match c with
  | Some c => if negb (cell_isTrace c) then false else true
  | None => true
  end.

Definition module_var_ptrs (m : AstNodeModule) : list ptr :=
  vars_ptrs (inlinesp m) ++ vars_ptrs (stmtsp m) ++ vars_ptrs (activesp m).
Definition module_node_ptrs (m : AstNodeModule) : list ptr :=
  nodes_ptrs (inlinesp m) ++ nodes_ptrs (stmtsp m) ++ nodes_ptrs (activesp m).

(** The stores are consistent: every object lies below the allocation
    mark, a binding sits in the scope it names, the side tables point
    into the stores, and no scope holds two bindings of one declaration. *)
Record wf_on (nx : ptr) (scs : gmap ptr AstScope)
    (vsm : gmap (ptr * ptr) ptr) (pkm : gmap ptr ptr)
    (mods : gmap ptr AstNodeModule)
    (vrs : gmap ptr AstVar) (rfs : gmap ptr AstVarRef) : Prop := {
  wf_scope_lt : ∀ s sc, scs !! s = Some sc → s < nx;
  wf_vsc : ∀ s sc vs, scs !! s = Some sc → vs ∈ varsp sc →
      vsc_scopep vs = s ∧ vsc_self vs < nx ∧ vsc_varp vs < nx;
  wf_trace : ∀ s sc vs, scs !! s = Some sc → vs ∈ varsp sc →
      vsc_trace vs = traceOf (aboveCellp sc);
  wf_nodup : ∀ s sc, scs !! s = Some sc → NoDup (vsc_varp <$> varsp sc);
  wf_self_inj : ∀ s1 s2 sc1 sc2 vs1 vs2,
      scs !! s1 = Some sc1 → scs !! s2 = Some sc2 →
      vs1 ∈ varsp sc1 → vs2 ∈ varsp sc2 →
      vsc_self vs1 = vsc_self vs2 → vs1 = vs2;
  wf_varScopes : ∀ v s p, vsm !! (v, s) = Some p →
      ∃ sc vs, scs !! s = Some sc ∧ vs ∈ varsp sc ∧ vsc_self vs = p ∧ vsc_varp vs = v;
  wf_recorded : ∀ s sc vs, scs !! s = Some sc → vs ∈ varsp sc →
      vsm !! (vsc_varp vs, s) = Some (vsc_self vs);
  wf_packageScopes : ∀ pkg s, pkm !! pkg = Some s →
      ∃ sc, scs !! s = Some sc ∧ scope_modp sc = Some pkg;
  wf_modules : ∀ p m, mods !! p = Some m →
      NoDup (module_var_ptrs m) ∧ ∀ x, x ∈ module_node_ptrs m → x < nx;
  wf_vars : ∀ p, is_Some (vrs !! p) → p < nx;
  wf_varrefs : ∀ p, is_Some (rfs !! p) → p < nx }.

Definition wf (st : State) : Prop :=
  wf_on (next st) (scopes st) (m_varScopes st) (m_packageScopes st)
        (modules st) (vars st) (varrefs st).

(** A scope keeps its header and the bindings it has; blocks may be added
    or edited. *)
Definition scope_ext (sc sc' : AstScope) : Prop :=
  scope_name sc' = scope_name sc ∧ scope_modp sc' = scope_modp sc
  ∧ aboveScopep sc' = aboveScopep sc ∧ aboveCellp sc' = aboveCellp sc
  ∧ varsp sc `prefix_of` varsp sc'
  ∧ length (blocksp sc) ≤ length (blocksp sc').

Definition var_ext (v v' : AstVar) : Prop :=
  var_name v' = var_name v ∧ isIfaceRef v' = isIfaceRef v
  ∧ isClassMember v' = isClassMember v.

Definition varref_ext (r r' : AstVarRef) : Prop :=
  varp r' = varp r ∧ packagep r' = packagep r.

(** What the walk never undoes. *)
Record ext_on (nx : ptr) (scs : gmap ptr AstScope)
    (vsm : gmap (ptr * ptr) ptr) (pkm : gmap ptr ptr)
    (wl : list (ptr * option ptr))
    (vrs : gmap ptr AstVar) (rfs : gmap ptr AstVarRef)
    (nx' : ptr) (scs' : gmap ptr AstScope)
    (vsm' : gmap (ptr * ptr) ptr) (pkm' : gmap ptr ptr)
    (wl' : list (ptr * option ptr))
    (vrs' : gmap ptr AstVar) (rfs' : gmap ptr AstVarRef) : Prop := {
  ext_next : nx ≤ nx';
  ext_scopes : ∀ s sc, scs !! s = Some sc →
      ∃ sc', scs' !! s = Some sc' ∧ scope_ext sc sc';
  ext_varScopes : vsm ⊆ vsm';
  ext_packageScopes : pkm ⊆ pkm';
  ext_varRefScopes : ∀ x, x ∈ wl → x ∈ wl';
  ext_vars : ∀ p v, vrs !! p = Some v → ∃ v', vrs' !! p = Some v' ∧ var_ext v v';
  ext_varrefs : ∀ p r, rfs !! p = Some r →
      ∃ r', rfs' !! p = Some r' ∧ varref_ext r r' }.

Definition ext (st st' : State) : Prop :=
  ext_on (next st) (scopes st) (m_varScopes st) (m_packageScopes st)
         (m_varRefScopes st) (vars st) (varrefs st)
         (next st') (scopes st') (m_varScopes st') (m_packageScopes st')
         (m_varRefScopes st') (vars st') (varrefs st').

(** The current scope was made for the current instantiating cell. *)
Definition cursor_ok (st : State) : Prop :=
  ∀ s, m_scopep st = Some s →
    ∃ sc, scopes st !! s = Some sc ∧ aboveCellp sc = m_aboveCellp st.

(** No reference is bound. *)
Definition unbound (st : State) : Prop :=
  ∀ p r, varrefs st !! p = Some r → varScopep r = None.

Definition same_cursor (st st' : State) : Prop :=
  m_scopep st' = m_scopep st ∧ m_aboveCellp st' = m_aboveCellp st
  ∧ m_aboveScopep st' = m_aboveScopep st ∧ m_modp st' = m_modp st.

(** Entry and exit conditions of a visit below a module, for nodes whose
    declarations have the addresses [vp] and whose nodes have the
    addresses [np]. *)
Record pre (vp np : list ptr) (st : State) : Prop := {
  pre_wf : wf st;
  pre_cursor : cursor_ok st;
  pre_nodup : NoDup vp;
  pre_lt : ∀ p, p ∈ np → p < next st;
  pre_vp : vp ⊆ np;
  pre_disj : ∀ s sc vs, m_scopep st = Some s → scopes st !! s = Some sc →
      vs ∈ varsp sc → vsc_varp vs ∉ vp }.

Record post (vp np : list ptr) (st : State) (vp' np' : list ptr) (st' : State)
  : Prop := {
  post_wf : wf st';
  post_ext : ext st st';
  post_cursor : same_cursor st st';
  post_modules : modules st' = modules st;
  post_pkg : m_packageScopes st' = m_packageScopes st;
  post_frame : ∀ s, s < next st → m_scopep st ≠ Some s →
      scopes st' !! s = scopes st !! s;
  post_cur : ∀ s sc sc' vs, m_scopep st = Some s →
      scopes st !! s = Some sc → scopes st' !! s = Some sc' → vs ∈ varsp sc' →
      vs ∈ varsp sc ∨ vsc_varp vs ∈ vp ∨ next st ≤ vsc_varp vs;
  post_user2p : ∀ p, p < next st → p ∉ np → user2p st' !! p = user2p st !! p;
  post_vp : vp' `sublist_of` vp;
  post_np : ∀ p, p ∈ np' → p < next st';
  post_vp_np : vp' ⊆ np';
  post_unbound : unbound st → unbound st' }.

(** ** Cloning keeps the stores consistent *)

Record same_but_heap (st st' : State) : Prop := {
  sbh_modules : modules st' = modules st;
  sbh_scopes : scopes st' = scopes st;
  sbh_user1p : user1p st' = user1p st;
  sbh_user2p : user2p st' = user2p st;
  sbh_errors : errors st' = errors st;
  sbh_cursor : same_cursor st st';
  sbh_pkg : m_packageScopes st' = m_packageScopes st;
  sbh_vsm : m_varScopes st' = m_varScopes st;
  sbh_wl : m_varRefScopes st' = m_varRefScopes st }.

(** ** The visitor, node type by node type *)

Definition visit_ok (visit : AstNode → State → result (list AstNode * State)) : Prop :=
  ∀ n st ns st',
    pre (var_ptrs n) (node_ptrs n) st → visit n st = Ok (ns, st') →
    post (var_ptrs n) (node_ptrs n) st (vars_ptrs ns) (nodes_ptrs ns) st'.

(** ** Steps *)

(** The part of an exit condition that speaks of the states only, with the
    bound [lo] in place of the allocation mark at entry. *)
Record step (lo : ptr) (vp np : list ptr) (st st' : State) : Prop := {
  step_wf : wf st';
  step_ext : ext st st';
  step_cursor : same_cursor st st';
  step_modules : modules st' = modules st;
  step_pkg : m_packageScopes st' = m_packageScopes st;
  step_frame : ∀ s, s < lo → m_scopep st ≠ Some s →
      scopes st' !! s = scopes st !! s;
  step_cur : ∀ s sc sc' vs, m_scopep st = Some s →
      scopes st !! s = Some sc → scopes st' !! s = Some sc' → vs ∈ varsp sc' →
      vs ∈ varsp sc ∨ vsc_varp vs ∈ vp ∨ lo ≤ vsc_varp vs;
  step_user2p : ∀ p, p < lo → p ∉ np → user2p st' !! p = user2p st !! p;
  step_unbound : unbound st → unbound st' }.

(** ** Children *)

Definition head_vp (n : AstNode) : list ptr :=
  if decide (kind n = KVar) then [self n] else [].
Definition children_vp (n : AstNode) : list ptr :=
  vars_ptrs (op1p n) ++ vars_ptrs (op2p n) ++ vars_ptrs (op3p n) ++ vars_ptrs (op4p n).
Definition children_np (n : AstNode) : list ptr :=
  nodes_ptrs (op1p n) ++ nodes_ptrs (op2p n) ++ nodes_ptrs (op3p n) ++ nodes_ptrs (op4p n).

(** ** Module visits *)

(** What a module visit, and the loop over the cells of a module, do to
    the state they start in: scopes that exist stay as they are. *)
Record mstep (st st' : State) : Prop := {
  ms_wf : wf st';
  ms_ext : ext st st';
  ms_frame : ∀ s, s < next st → scopes st' !! s = scopes st !! s;
  ms_cell : m_aboveCellp st' = m_aboveCellp st;
  ms_above : m_aboveScopep st' = m_aboveScopep st;
  ms_unbound : unbound st → unbound st' }.

Definition module_ok (vm : ptr → State → result State) : Prop :=
  ∀ modp st st', wf st → vm modp st = Ok st' → mstep st st'.

(** ** What a module visit leaves under the module *)

(** An inlined-cell marker names the scope [s]. *)
Definition inline_in (s : option ptr) (n : AstNode) : Prop :=
  ∀ sp, kind n = KCellInline sp → sp = s.

(** The node a module visit puts under the module for the scope [scp]:
    the scope, below a top scope at [p] when the module is the top one. *)
Definition scopeNodeOf (top : bool) (p scp : ptr) : AstNode :=
  if top then Node KTopScope p [] [Node KScope scp [] [] [] []] [] []
  else Node KScope scp [] [] [] [].

(** The state of a module visit once the scope is made and, for a
    package, entered in the table of package scopes. *)
Definition scopeMade (modp : ptr) (nodep : AstNodeModule) (scopename : string)
    (st : State) : State :=
  let st1 := newScope scopename (Some modp) (user1ClearTree st) in
  if isPackage nodep
  then set_m_packageScopes (map_insert_new modp (next st) (m_packageScopes st1)) st1
  else st1.

(** ** What a visit leaves in place of a node *)

(** The one node that unlinks itself when visited: a task or function
    with [classMethod()] set. *)
Definition unlinksItself (n : AstNode) : bool :=
  match kind n with KNodeFTask true => true | _ => false end.

(** The object a node is and its type, without the fields the walk
    writes ([AstCellInline::scopep]). *)
Definition header (n : AstNode) : ptr * AstKind :=
  (self n, match kind n with KCellInline _ => KCellInline None | k => k end).

(** ** Cells and instantiation paths *)

(** The module a cell points to, for a node that is a cell. *)
Definition cellOf (n : AstNode) : option (option ptr) :=
  match kind n with KCell _ modp _ => Some modp | _ => None end.

(** The modules the cells directly under a module point to, in the
    order of the cells. *)
Definition cellsOf (l : list AstNode) : list (option ptr) := omap cellOf l.

Definition cells (o : option AstNodeModule) : list (option ptr) :=
  match o with Some m => cellsOf (stmtsp m) | None => [] end.

(** The number of instantiation paths that lead from module [q] down to
    module [p] through the cells of the design, followed through at
    most [fuel] modules: the number of times a visit of [q] visits
    [p]. *)
Fixpoint paths (fuel : nat) (mods : gmap ptr AstNodeModule) (q p : ptr) : nat :=
  match fuel with
  | O => 0
  | S fuel =>
      (if decide (q = p) then 1 else 0)
      + sum_list ((λ c, match c with
                        | Some c => paths fuel mods c p
                        | None => 0
                        end) <$> cells (mods !! q))
  end.

(** The scopes a module visit put under a module: a scope node stands
    directly among the statements, or below the top scope node. *)
Definition scopesOf (n : AstNode) : list ptr :=
  match kind n with
  | KScope => [self n]
  | KTopScope => self <$> filter (λ x, kind x = KScope) (op2p n)
  | _ => []
  end.

Definition module_scopes (m : AstNodeModule) : list ptr := stmtsp m ≫= scopesOf.

(** The declarations that are children of a module. *)
Definition kvars (m : AstNodeModule) : list ptr :=
  self <$> filter (λ n, kind n = KVar) (inlinesp m ++ stmtsp m ++ activesp m).

(** What module visits leave of the modules: the cells of every module,
    whether it is a package, the declarations that are its children, and
    no declaration below it that it did not have. *)
Definition mstat (st st' : State) : Prop :=
  ∀ x, cells (modules st' !! x) = cells (modules st !! x)
       ∧ (is_Some (modules st !! x) → is_Some (modules st' !! x))
       ∧ ∀ m', modules st' !! x = Some m' →
           ∃ m, modules st !! x = Some m ∧ isPackage m' = isPackage m
                ∧ kvars m' = kvars m
                ∧ module_var_ptrs m' `sublist_of` module_var_ptrs m.

(** ** The whole first visitor *)

(** The declarations below a module are distinct objects. *)
Definition wf_netlist (nodep : AstNetlist) : Prop :=
  Forall (λ m, NoDup (module_var_ptrs m)) (modulesp nodep).

Definition refs_agree (m m' : gmap ptr AstVarRef) : Prop :=
  ∀ p, match m !! p, m' !! p with
       | Some r, Some r' => varp r' = varp r ∧ packagep r' = packagep r
       | None, None => True
       | _, _ => False
       end.

(** What [cleanupVarRefs] leaves of a state: everything but the bindings
    of the references. *)
Record resolved (l : list (ptr * option ptr)) (st st' : State) : Prop := {
  rs_state : st' = set_varrefs (varrefs st') st;
  rs_agree : refs_agree (varrefs st) (varrefs st');
  rs_all : ∀ it, it ∈ l → ∃ b, resolve st it = Ok b;
  rs_bound : ∀ p r', varrefs st' !! p = Some r' →
      (p ∉ l.*1 ∧ varrefs st !! p = Some r')
      ∨ (∃ s b, (p, s) ∈ l ∧ resolve st (p, s) = Ok b ∧ varScopep r' = Some b) }.

(** ** Example designs *)

Definition leaf (k : AstKind) (p : ptr) : AstNode := Node k p [] [] [] [].

(** Names are prettified as "scope.variable"; "TOP.a.x" is an explicit
    clock. *)
Definition opt_ab : V3Global :=
  mkGlobal (λ s, bool_decide (s = "TOP.a.x")) (λ _, false) (λ sc v, sc +:+ "." +:+ v).

(** Top module "Top" instantiates "Leaf" through cells "a" (traced) and
    "b" (not traced); "Leaf" declares "x" and a block that refers to it. *)
Definition net_ab : AstNetlist :=
  mkNetlist
    [ mkModule 1 "Top" false true []
        [leaf (KCell "a" (Some 2) true) 3; leaf (KCell "b" (Some 2) false) 4] [];
      mkModule 2 "Leaf" false false []
        [leaf KVar 5; Node KNodeProcedure 6 [] [leaf KVarRef 7] [] []] [] ]
    {[ 5 := mkVar "x" false false CLOCKER_UNKNOWN ]}
    {[ 7 := mkVarRef (Some 5) None None ]}.

Definition run_ab : result State := Eval vm_compute in ScopeVisitor opt_ab 10 net_ab.

Ltac solve_NoDup :=
  repeat (apply NoDup_cons; split;
          [rewrite ?elem_of_cons, elem_of_nil; intros ?; intuition discriminate|]);
  apply NoDup_nil; exact I.

Ltac solve_wf_netlist :=
  unfold wf_netlist; simpl;
  repeat (apply Forall_cons; split; [vm_compute; solve_NoDup|]);
  apply Forall_nil; exact I.

Definition st_ab : State :=
  Eval vm_compute in match run_ab with Ok st => st | _ => initState net_ab end.

(** ** C6: tracing *)

(** Every binding sits in the scope it names and has tracing disabled
    exactly when the cell that instantiates that scope exists and opted
    out of tracing. *)
Definition trace_by_cell (st : State) : Prop :=
  ∀ s sc vs, scopes st !! s = Some sc → vs ∈ varsp sc →
    vsc_scopep vs = s
    ∧ (vsc_trace vs = false ↔ ∃ c, aboveCellp sc = Some c ∧ cell_isTrace c = false).

(** ** C1: one binding per declaration and scope *)

(** No scope holds two bindings of one declaration, and each binding
    names the scope that holds it. *)
Definition one_binding_per_scope (st : State) : Prop :=
  ∀ s sc, scopes st !! s = Some sc →
    NoDup (vsc_varp <$> varsp sc) ∧ ∀ vs, vs ∈ varsp sc → vsc_scopep vs = s.

(** The table [m_varScopes] holds exactly the bindings: the entry of a
    declaration and a scope is the binding of that declaration in that
    scope. *)
Definition table_is_bindings (st : State) : Prop :=
  ∀ v s b, m_varScopes st !! (v, s) = Some b ↔
    ∃ sc vs, scopes st !! s = Some sc ∧ vs ∈ varsp sc
             ∧ vsc_self vs = b ∧ vsc_varp vs = v.

(** Every queued reference resolves, and the reference ends up bound to
    what one of its entries resolves to. *)
Definition worklist_bound (st : State) : Prop :=
  ∀ it, it ∈ m_varRefScopes st →
    (∃ b, resolve st it = Ok b)
    ∧ ∃ r s b, varrefs st !! it.1 = Some r ∧ (it.1, s) ∈ m_varRefScopes st
               ∧ resolve st (it.1, s) = Ok b ∧ varScopep r = Some b.

(** Two resolved references to one declaration get the same binding
    exactly when they are resolved in the same scope. *)
Definition same_scope_same_binding (st : State) : Prop :=
  ∀ it1 it2 r1 r2 e1 e2 b1 b2,
    varrefs st !! it1.1 = Some r1 → varrefs st !! it2.1 = Some r2 →
    varp r1 = varp r2 →
    effectiveScope st r1 it1.2 = Ok e1 → effectiveScope st r2 it2.2 = Ok e2 →
    resolve st it1 = Ok b1 → resolve st it2 = Ok b2 →
    (e1 = e2 ↔ b1 = b2).

(** The same for references without a package qualifier, which are
    resolved in the scope they were queued under. *)
Definition unqualified_same_scope_same_binding (st : State) : Prop :=
  ∀ it1 it2 r1 r2 b1 b2,
    varrefs st !! it1.1 = Some r1 → varrefs st !! it2.1 = Some r2 →
    packagep r1 = None → packagep r2 = None → varp r1 = varp r2 →
    resolve st it1 = Ok b1 → resolve st it2 = Ok b2 →
    (it1.2 = it2.2 ↔ b1 = b2).

(** A visit of a declaration whose [user1p] is set changes nothing. *)
Definition revisit_changes_nothing (opt : V3Global) (fuel : nat) : Prop :=
  ∀ n st0, kind n = KVar → is_Some (user1p st0 !! self n) →
    visit opt (S fuel) n st0 = Ok ([n], st0).

(** A visit of a declaration whose [user1p] is clear makes one binding,
    links it under the current scope, notes it in [user1p] and enters it
    in the table. *)
Definition first_visit_binds (opt : V3Global) (fuel : nat) : Prop :=
  ∀ n st0 ns st1, kind n = KVar → user1p st0 !! self n = None →
    visit opt (S fuel) n st0 = Ok (ns, st1) →
    ∃ scp sc, m_scopep st0 = Some scp ∧ scopes st0 !! scp = Some sc
      ∧ scopes st1 = <[scp := addVarp (mkVarScope (next st0) scp (self n)
                                         (traceOf (m_aboveCellp st0))) sc]>
                       (scopes st0)
      ∧ user1p st1 !! self n = Some (next st0)
      ∧ m_varScopes st1
        = map_insert_new (self n, scp) (next st0) (m_varScopes st0).

(** ** Packages *)

(** Top module "Top" instantiates package "Pkg" once and module "M"
    through cells "m1" and "m2"; "M" has a block that refers to
    "Pkg::cnt". *)
Definition net_pkg : AstNetlist :=
  mkNetlist
    [ mkModule 1 "Top" false true []
        [leaf (KCell "Pkg" (Some 2) true) 4; leaf (KCell "m1" (Some 3) true) 5;
         leaf (KCell "m2" (Some 3) true) 6] [];
      mkModule 2 "Pkg" true false [] [leaf KVar 7] [];
      mkModule 3 "M" false false []
        [Node KNodeProcedure 8 [] [leaf KVarRef 9] [] []] [] ]
    {[ 7 := mkVar "cnt" false false CLOCKER_UNKNOWN ]}
    {[ 9 := mkVarRef (Some 7) (Some 2) None ]}.

Definition st_pkg : State :=
  Eval vm_compute in
    match ScopeVisitor opt_ab 10 net_pkg with Ok st => st | _ => initState net_pkg end.

(** A resolved reference with a package qualifier, to a declaration that
    is no class member, is bound to the binding of the declaration in the
    scope the table records for the package, whatever scope it was
    queued under. *)
Definition package_refs_in_recorded_scope (st : State) : Prop :=
  ∀ it r pkg vp v b,
    varrefs st !! it.1 = Some r → packagep r = Some pkg → varp r = Some vp →
    vars st !! vp = Some v → isClassMember v = false →
    resolve st it = Ok b →
    ∃ s sc vs, m_packageScopes st !! pkg = Some s ∧ scopes st !! s = Some sc
               ∧ vs ∈ varsp sc ∧ vsc_self vs = b ∧ vsc_varp vs = vp
               ∧ vsc_scopep vs = s.

(** ** C8: the clock annotation *)

(** The annotation a binding reports: [AstVarScope] has no annotation of
    its own, the one of its declaration is read. *)
Definition clockerOf (st : State) (vs : AstVarScope) : option VVarAttrClocker :=
  attrClocker <$> vars st !! vsc_varp vs.

(** The two tests of [visit(AstVar)] on a pretty name, applied to the
    annotation [a] the declaration has. *)
Definition annotate (opt : V3Global) (pretty : string) (a : VVarAttrClocker)
  : VVarAttrClocker :=
  if isNoClocker opt pretty then CLOCKER_NO
  else if isClocker opt pretty then CLOCKER_YES else a.

(** The claim as the specification words it: the annotation of a binding
    is what the two lists say of the binding's own pretty name. *)
Definition annotation_by_own_name (opt : V3Global) (nodep : AstNetlist) (st : State)
  : Prop :=
  ∀ s sc vs v0, scopes st !! s = Some sc → vs ∈ varsp sc →
    net_vars nodep !! vsc_varp vs = Some v0 →
    clockerOf st vs
    = Some (annotate opt (prettyName opt (scope_name sc) (var_name v0)) (attrClocker v0)).

(** A state in which scope 8, "TOP.a", is being populated, and the
    declaration "x" at address 5 has no binding yet. *)
Definition st_var0 : State :=
  mkState 10 {[ 5 := mkVar "x" false false CLOCKER_UNKNOWN ]} ∅ ∅
          {[ 8 := mkScope "TOP.a" (Some 2) None None [] [] ]}
          ∅ ∅ [] (Some 2) (Some 8) None None ∅ ∅ [].

Definition st_var1 : State :=
  Eval vm_compute in
    match visit opt_ab 1 (leaf KVar 5) st_var0 with Ok (_, st) => st | _ => st_var0 end.

(** ** C4: references are queued, and bound at the end *)

(** What one visit of a reference does: a reference to an interface has
    its binding cleared and the worklist stays as it is; any other
    reference is left as it is and enters the worklist with the current
    scope. *)
Definition visit_varref_defers (opt : V3Global) (fuel : nat) : Prop :=
  ∀ n st ns st', kind n = KVarRef → visit opt (S fuel) n st = Ok (ns, st') →
    ∃ r vp v,
      varrefs st !! self n = Some r ∧ varp r = Some vp ∧ vars st !! vp = Some v
      ∧ ns = [n]
      ∧ if isIfaceRef v
        then m_varRefScopes st' = m_varRefScopes st
             ∧ varrefs st' !! self n = Some (set_varScopep None r)
             ∧ (∀ p, p ≠ self n → varrefs st' !! p = varrefs st !! p)
        else varrefs st' = varrefs st
             ∧ (∀ x, x ∈ m_varRefScopes st'
                     ↔ x = (self n, m_scopep st) ∨ x ∈ m_varRefScopes st).

Definition stw_ab : State :=
  Eval vm_compute in
    match visit_AstNodeModule opt_ab 10 1 (initState net_ab) with
    | Ok st => st
    | _ => initState net_ab
    end.

(** ** C5: the path name of a scope *)

(** The name as the specification words it: "TOP" without a parent
    scope, else the parent's name, a dot and [leaf]. *)
Definition pathName (st : State) (above : option ptr) (leaf : option string)
  : option string :=
  match above with
  | None => Some "TOP"
  | Some a =>
      sc ← scopes st !! a; l ← leaf; Some (scope_name sc +:+ "." +:+ l)
  end.

(** Scope 8, "TOP", instantiates through cell "a" the module at address
    2, which declares "x". *)
Definition st_mod0 : State :=
  mkState 10 {[ 5 := mkVar "x" false false CLOCKER_UNKNOWN ]} ∅
          {[ 2 := mkModule 2 "Leaf" false false [] [leaf KVar 5] [] ]}
          {[ 8 := mkScope "TOP" (Some 1) None None [] [] ]}
          ∅ ∅ [] None (Some 8) (Some (mkCell 3 "a" true)) (Some 8) ∅ ∅ [].

Definition st_mod1 : State :=
  Eval vm_compute in
    match visit_AstNodeModule opt_ab 3 2 st_mod0 with Ok st => st | _ => st_mod0 end.

(** Scope 8, "TOP", is being populated for the module at address 1. *)
Definition st_cls0 : State :=
  mkState 10 {[ 5 := mkVar "x" false false CLOCKER_UNKNOWN ]} ∅ ∅
          {[ 8 := mkScope "TOP" (Some 1) None None [] [] ]}
          ∅ ∅ [] (Some 1) (Some 8) None None ∅ ∅ [].

Definition class_C : AstNode := Node (KClass "C") 3 [leaf KVar 5] [] [] [].

Definition st_cls1 : State :=
  Eval vm_compute in
    match visit opt_ab 3 class_C st_cls0 with Ok (_, st) => st | _ => st_cls0 end.

Definition ns_cls1 : list AstNode :=
  Eval vm_compute in
    match visit opt_ab 3 class_C st_cls0 with Ok (ns, _) => ns | _ => [] end.







(** ** The second visitor *)

(** A cross reference has no children. *)
Fixpoint xref_leaves (n : AstNode) : bool :=
  match n with
  | Node k _ o1 o2 o3 o4 =>
      match k, o1, o2, o3, o4 with
      | KVarXRef _, [], [], [], [] => true
      | KVarXRef _, _, _, _, _ => false
      | _, _, _, _, _ => true
      end
      && forallb xref_leaves o1 && forallb xref_leaves o2
      && forallb xref_leaves o3 && forallb xref_leaves o4
  end.

(** The nodes directly under a module. *)
Definition module_children (m : AstNodeModule) : list AstNode :=
  inlinesp m ++ stmtsp m ++ activesp m.

(** A module with a block and the scope that holds the copy of the
    block, as the first visitor leaves them. *)
Definition mods_c3 : list AstNodeModule :=
  [ mkModule 1 "Top" false true []
      [ Node KNodeProcedure 6 [] [Node KVarRef 7 [] [] [] []] [] [];
        Node KScope 9 [Node KVarScope 10 [] [] [] []]
             [Node KNodeProcedure 11 [] [Node KVarRef 12 [] [] [] []] [] []] [] [] ]
      [] ].

Definition mods_c3' : list AstNodeModule :=
  Eval vm_compute in
    match ScopeCleanupVisitor.ScopeCleanupVisitor ∅ mods_c3 with
    | Ok (l, _) => l
    | _ => []
    end.

Definition st_c3' : ScopeCleanupVisitor.State :=
  Eval vm_compute in
    match ScopeCleanupVisitor.ScopeCleanupVisitor ∅ mods_c3 with
    | Ok (_, st) => st
    | _ => ScopeCleanupVisitor.mkState None []
    end.

(** The path to the top of the hierarchy that a module visit needs: no
    scope above, or a scope above that exists and a cell. *)
Definition above_ok (st : State) : Prop :=
  match m_aboveScopep st with
  | None => True
  | Some a => is_Some (scopes st !! a) ∧ is_Some (m_aboveCellp st)
  end.

Definition unlinked_cell : AstNode := leaf (KCell "u" None true) 4.

(** Module 1 declares "x" and then instantiates, through cell "u", a
    module that was never linked. *)
Definition st_unlinked : State :=
  mkState 10 {[ 5 := mkVar "x" false false CLOCKER_UNKNOWN ]} ∅
          {[ 1 := mkModule 1 "Top" false true [] [leaf KVar 5; unlinked_cell] [] ]}
          ∅ ∅ ∅ [] None None None None ∅ ∅ [].

(** A reference to "Pkg::cnt" is queued, and no scope was made for the
    package. *)
Definition st_nopkg : State :=
  mkState 10 {[ 7 := mkVar "cnt" false false CLOCKER_UNKNOWN ]}
          {[ 9 := mkVarRef (Some 7) (Some 2) None ]} ∅
          {[ 8 := mkScope "TOP" (Some 1) None None [] [] ]}
          ∅ ∅ [] (Some 1) (Some 8) None None ∅ ∅ [(9, Some 8)].

(** ** References to class members *)

(** Module "Top" declares the class member "m" and has a block that
    refers to it with a package qualifier. *)
Definition net_cm : AstNetlist :=
  mkNetlist
    [ mkModule 1 "Top" false true []
        [leaf KVar 5; Node KNodeProcedure 6 [] [leaf KVarRef 7] [] []] [] ]
    {[ 5 := mkVar "m" false true CLOCKER_UNKNOWN ]}
    {[ 7 := mkVarRef (Some 5) (Some 1) None ]}.

Definition st_cm : State :=
  Eval vm_compute in
    match ScopeVisitor opt_ab 10 net_cm with Ok st => st | _ => initState net_cm end.

(** A resolved reference to a class member is bound to the binding of
    the member in the scope the reference was queued under. *)
Definition class_member_refs_in_queued_scope (st : State) : Prop :=
  ∀ p s r vp v b,
    varrefs st !! p = Some r → varp r = Some vp →
    vars st !! vp = Some v → isClassMember v = true →
    resolve st (p, s) = Ok b →
    ∃ s0 sc vs, s = Some s0 ∧ scopes st !! s0 = Some sc ∧ vs ∈ varsp sc
                ∧ vsc_self vs = b ∧ vsc_varp vs = vp ∧ vsc_scopep vs = s0.

(** Scope 8 is being populated; a compiled function and an always block,
    each with a local declaration. *)
Definition cfunc_f : AstNode := Node (KCFunc None) 3 [] [leaf KVar 5] [] [].
Definition always_a : AstNode := Node KNodeProcedure 3 [] [leaf KVar 5] [] [].

Definition st_cfunc1 : State :=
  Eval vm_compute in
    match visit opt_ab 3 cfunc_f st_cls0 with Ok (_, st) => st | _ => st_cls0 end.
Definition st_always1 : State :=
  Eval vm_compute in
    match visit opt_ab 3 always_a st_cls0 with Ok (_, st) => st | _ => st_cls0 end.

(** The six kinds of block that share one visitor body. *)
Definition plain_block (k : AstKind) : bool :=
  match k with
  | KNodeProcedure | KAssignAlias | KAssignVarScope | KAssignW
  | KAlwaysPublic | KCoverToggle => true
  | _ => false
  end.

(** ** Scope names in display text *)

Definition scopename_n : AstNode :=
  Node KScopeName 3 [leaf (KText "attr") 4] [leaf (KText "entr") 6] [] [].

Definition st_scopename1 : State :=
  Eval vm_compute in
    match visit opt_ab 3 scopename_n st_cls0 with Ok (_, st) => st | _ => st_cls0 end.

Definition ns_scopename1 : list AstNode :=
  Eval vm_compute in
    match visit opt_ab 3 scopename_n st_cls0 with Ok (ns, _) => ns | _ => [] end.

(** Scope 8 is current; the reference at address 7 points to "x". *)
Definition st_ref0 : State :=
  mkState 10 {[ 5 := mkVar "x" false false CLOCKER_UNKNOWN ]}
          {[ 7 := mkVarRef (Some 5) None None ]} ∅
          {[ 8 := mkScope "TOP" (Some 1) None None [] [] ]}
          ∅ ∅ [] (Some 1) (Some 8) None None ∅ ∅ [].

Definition st_ref1 : State :=
  Eval vm_compute in
    match visit opt_ab 1 (leaf KVarRef 7) st_ref0 with Ok (_, st) => st | _ => st_ref0 end.

(** ** The second visitor: references to tasks and functions *)

(** The target the second visitor gives a reference to a task or
    function: the copy of the target when the reference names a package,
    nothing when it names no package and is no method call, and the
    target it had when it is a method call without a package. *)
Definition newTaskp (user2p : gmap ptr ptr) (isMethodCall : bool)
    (taskp packagep : option ptr) : option ptr :=
  match packagep with
  | Some _ => t ← taskp; user2p !! t
  | None => if isMethodCall then taskp else None
  end.

Definition ftaskref_pkg : AstNode :=
  Node (KNodeFTaskRef false (Some 20) (Some 2)) 30 [] [] [] [].

(** ** The second visitor: no cross reference keeps its target *)

(** A cross reference to a variable and a reference to a task of a
    modport have no target; a reference to a task or function points to
    a copy when it names a package and has no target when it names no
    package, unless it is a method call. *)
Definition ref_clean (user2p : gmap ptr ptr) (k : AstKind) : Prop :=
  match k with
  | KVarXRef v => v = None
  | KModportFTaskRef f => f = None
  | KNodeFTaskRef isMethodCall t packagep =>
      match packagep with
      | Some _ => ∃ t0 c, user2p !! t0 = Some c ∧ t = Some c
      | None => isMethodCall = true ∨ t = None
      end
  | _ => True
  end.

Definition refs_clean (user2p : gmap ptr ptr) (n : AstNode) : Prop :=
  Forall (λ x, ref_clean user2p (kind x)) (subnodes n).

Definition visit_clean (user2p : gmap ptr ptr) (n : AstNode) : Prop :=
  ∀ st ns st', ScopeCleanupVisitor.visit user2p n st = Ok (ns, st') →
    Forall (refs_clean user2p) ns.

(** A module with a cross reference, a task reference of a modport and a
    call of a function that names no package. *)
Definition mods_xref : list AstNodeModule :=
  [ mkModule 1 "Top" false true []
      [ Node (KVarXRef (Some 5)) 6 [] [] [] [];
        Node KOther 7 [Node (KModportFTaskRef (Some 20)) 8 [] [] [] []]
             [Node (KNodeFTaskRef false (Some 20) None) 9 [] [] [] []] [] [] ]
      [] ].

Definition mods_xref' : list AstNodeModule :=
  Eval vm_compute in
    match ScopeCleanupVisitor.ScopeCleanupVisitor ∅ mods_xref with
    | Ok (l, _) => l
    | _ => []
    end.

Definition st_xref' : ScopeCleanupVisitor.State :=
  Eval vm_compute in
    match ScopeCleanupVisitor.ScopeCleanupVisitor ∅ mods_xref with
    | Ok (_, st) => st
    | _ => ScopeCleanupVisitor.mkState None []
    end.

(** ** The second visitor: every node is kept or handed to deletion *)

(** The nodes a visit of the second visitor hands to [pushDeletep], and
    the addresses of the nodes it leaves and of those it hands over,
    which together are the addresses [np] it started from. *)
Definition conserves (np : list ptr) (st st' : ScopeCleanupVisitor.State)
    (ns : list AstNode) : Prop :=
  ∃ ds, ScopeCleanupVisitor.deleteps st' = ScopeCleanupVisitor.deleteps st ++ ds
        ∧ nodes_ptrs ns ++ nodes_ptrs ds ≡ₚ np.

Definition visit_conserves (user2p : gmap ptr ptr) (n : AstNode) : Prop :=
  ∀ st ns st', ScopeCleanupVisitor.visit user2p n st = Ok (ns, st') →
    conserves (node_ptrs n) st st' ns.

(** ** The second visitor: scopes *)

Definition scope_s : AstNode :=
  Node KScope 9 [] [Node KNodeProcedure 11 [] [] [] []] [] [].
Definition block_b : AstNode := Node KAssignW 12 [] [] [] [].

(** The visitor is inside scope 50 and has deleted nothing. *)
Definition st_in50 : ScopeCleanupVisitor.State :=
  ScopeCleanupVisitor.mkState (Some 50) [].

Definition ns_scope1 : list AstNode :=
  Eval vm_compute in
    match ScopeCleanupVisitor.visit ∅ scope_s st_in50 with
    | Ok (ns, _) => ns
    | _ => []
    end.
Definition st_scope1 : ScopeCleanupVisitor.State :=
  Eval vm_compute in
    match ScopeCleanupVisitor.visit ∅ scope_s st_in50 with
    | Ok (_, st) => st
    | _ => st_in50
    end.

(** ** The second visitor: inside a scope nothing is deleted *)

(** No scope node in the subtree. *)
Fixpoint scope_free (n : AstNode) : bool :=
  match n with
  | Node k _ o1 o2 o3 o4 =>
      match k with KScope => false | _ => true end
      && forallb scope_free o1 && forallb scope_free o2
      && forallb scope_free o3 && forallb scope_free o4
  end.

Definition kept (st st' : ScopeCleanupVisitor.State) : Prop :=
  ScopeCleanupVisitor.m_scopep st' = ScopeCleanupVisitor.m_scopep st
  ∧ ScopeCleanupVisitor.deleteps st' = ScopeCleanupVisitor.deleteps st.

Definition visit_keeps (user2p : gmap ptr ptr) (n : AstNode) : Prop :=
  ∀ st ns st', is_Some (ScopeCleanupVisitor.m_scopep st) →
    ScopeCleanupVisitor.visit user2p n st = Ok (ns, st') →
    kept st st' ∧ ∃ n', ns = [n'] ∧ self n' = self n.

Definition ns_scope2 : list AstNode :=
  Eval vm_compute in
    match ScopeCleanupVisitor.visit ∅ scope_s (ScopeCleanupVisitor.mkState None [])
    with Ok (ns, _) => ns | _ => [] end.
Definition st_scope2 : ScopeCleanupVisitor.State :=
  Eval vm_compute in
    match ScopeCleanupVisitor.visit ∅ scope_s (ScopeCleanupVisitor.mkState None [])
    with Ok (_, st) => st | _ => ScopeCleanupVisitor.mkState None [] end.

(** ** The second visitor: blocks and the scopes above them *)

(** The operands of a node. *)
Definition children (n : AstNode) : list AstNode :=
  op1p n ++ op2p n ++ op3p n ++ op4p n.

(** The clonable blocks of a subtree in preorder, each with the scope
    nodes that lie above it in the tree, innermost first; [above] are the
    scope nodes above the subtree itself. *)
Fixpoint block_owners (above : list ptr) (n : AstNode) : list (ptr * list ptr) :=
  match n with
  | Node k p o1 o2 o3 o4 =>
      let inner := match k with KScope => p :: above | _ => above end in
      let go :=
        fix go (l : list AstNode) : list (ptr * list ptr) :=
          match l with
          | [] => []
          | x :: l' => block_owners inner x ++ go l'
          end in
      (if clonable k then [(p, above)] else []) ++ go o1 ++ go o2 ++ go o3 ++ go o4
  end.

(** The clonable blocks of a subtree that have neither a scope node nor
    another clonable block above them, in preorder. *)
Fixpoint outer_blocks (n : AstNode) : list AstNode :=
  match n with
  | Node k p o1 o2 o3 o4 =>
      let go :=
        fix go (l : list AstNode) : list AstNode :=
          match l with
          | [] => []
          | x :: l' => outer_blocks x ++ go l'
          end in
      if clonable k then [Node k p o1 o2 o3 o4]
      else match k with
           | KScope => []
           | _ => go o1 ++ go o2 ++ go o3 ++ go o4
           end
  end.

(** Scope nodes are not nested and none lies below a clonable block. *)
Fixpoint shallow (n : AstNode) : bool :=
  match n with
  | Node k _ o1 o2 o3 o4 =>
      if clonable k || bool_decide (k = KScope)
      then forallb scope_free o1 && forallb scope_free o2
           && forallb scope_free o3 && forallb scope_free o4
      else forallb shallow o1 && forallb shallow o2
           && forallb shallow o3 && forallb shallow o4
  end.

(** The blocks of a design with the scopes above them, and the blocks
    of a design outside every scope. *)
Definition design_block_owners (l : list AstNodeModule) : list (ptr * list ptr) :=
  l ≫= λ m, module_children m ≫= block_owners [].

Definition design_outer_blocks (l : list AstNodeModule) : list AstNode :=
  l ≫= λ m, module_children m ≫= outer_blocks.

Definition in_scope (x : ptr * list ptr) : Prop := x.2 ≠ [].

#[global] Instance in_scope_dec x : Decision (in_scope x).
Proof. unfold in_scope. apply _. Defined.

(** What a visit does to a subtree met inside a scope, and to one met
    outside every scope. *)
Definition inside_ok (user2p : gmap ptr ptr) (n : AstNode) : Prop :=
  ∀ st ns st', is_Some (ScopeCleanupVisitor.m_scopep st) →
    ScopeCleanupVisitor.visit user2p n st = Ok (ns, st') →
    kept st st' ∧ ∀ above, ns ≫= block_owners above = block_owners above n.

Definition outside_ok (user2p : gmap ptr ptr) (n : AstNode) : Prop :=
  ∀ st ns st', ScopeCleanupVisitor.m_scopep st = None →
    ScopeCleanupVisitor.visit user2p n st = Ok (ns, st') →
    ScopeCleanupVisitor.m_scopep st' = None
    ∧ ScopeCleanupVisitor.deleteps st'
      = ScopeCleanupVisitor.deleteps st ++ outer_blocks n
    ∧ ns ≫= block_owners [] = filter in_scope (block_owners [] n).

(** A module with a block and the scope that holds the copy of the
    block, as the first visitor leaves them; the copy holds a cross
    reference that still has its target. *)
Definition mods_c3x : list AstNodeModule :=
  [ mkModule 1 "Top" false true []
      [ Node KNodeProcedure 6 [] [Node (KVarXRef (Some 5)) 7 [] [] [] []] [] [];
        Node KScope 9 [Node KVarScope 10 [] [] [] []]
             [Node KNodeProcedure 11 [] [Node (KVarXRef (Some 5)) 12 [] [] [] []] [] []]
             [] [] ]
      [] ].

Definition mods_c3x' : list AstNodeModule :=
  Eval vm_compute in
    match ScopeCleanupVisitor.ScopeCleanupVisitor ∅ mods_c3x with
    | Ok (l, _) => l
    | _ => []
    end.

Definition st_c3x' : ScopeCleanupVisitor.State :=
  Eval vm_compute in
    match ScopeCleanupVisitor.ScopeCleanupVisitor ∅ mods_c3x with
    | Ok (_, st) => st
    | _ => ScopeCleanupVisitor.mkState None []
    end.

(** ** Module visits: the cursor and the tree *)

(** Scope 8, "TOP", instantiates through cell "a" the module at address
    2, which has an inlined-cell marker and declares "x". *)
Definition st_modi0 : State :=
  mkState 10 {[ 5 := mkVar "x" false false CLOCKER_UNKNOWN ]} ∅
          {[ 2 := mkModule 2 "Leaf" false false
                    [leaf (KCellInline None) 4] [leaf KVar 5] [] ]}
          {[ 8 := mkScope "TOP" (Some 1) None None [] [] ]}
          ∅ ∅ [] None (Some 8) (Some (mkCell 3 "a" true)) (Some 8) ∅ ∅ [].

Definition st_modi1 : State :=
  Eval vm_compute in
    match visit_AstNodeModule opt_ab 3 2 st_modi0 with Ok st => st | _ => st_modi0 end.

(** ** Classes *)

(** Class "D" with the declaration at address 5 and a method, at
    address 6, that has [classMethod()] set. *)
Definition class_D : AstNode :=
  Node (KClass "D") 3 [leaf KVar 5; leaf (KNodeFTask true) 6] [] [] [].

Definition st_clsD1 : State :=
  Eval vm_compute in
    match visit opt_ab 3 class_D st_cls0 with Ok (_, st) => st | _ => st_cls0 end.

Definition ns_clsD1 : list AstNode :=
  Eval vm_compute in
    match visit opt_ab 3 class_D st_cls0 with Ok (ns, _) => ns | _ => [] end.

(** ** Every declaration under a module gets a binding *)

(** What a visit does to [user1p]: the declarations it marks are
    declarations of the visited subtree or objects at or above [lo]. *)
Definition user1_ok (lo : ptr) (vp : list ptr) (st st' : State) : Prop :=
  next st ≤ next st'
  ∧ ∀ p, is_Some (user1p st' !! p) → is_Some (user1p st !! p) ∨ p ∈ vp ∨ lo ≤ p.

Definition visit_u1 (v : visitor) : Prop :=
  ∀ lo n st ns st', lo ≤ next st → v n st = Ok (ns, st') →
    user1_ok lo (var_ptrs n) st st' ∧ Forall (λ x, kind x = KVar → x = n) ns.

(** ** Declarations of a visited module *)

(** Every declaration directly under module [m] has a binding in scope
    [s], entered in the table of bindings. *)
Definition declarations_bound (m : AstNodeModule) (s : ptr) (st : State) : Prop :=
  ∀ n, n ∈ inlinesp m ++ stmtsp m ++ activesp m → kind n = KVar →
    ∃ sc vs, scopes st !! s = Some sc ∧ vs ∈ varsp sc
             ∧ vsc_varp vs = self n ∧ vsc_scopep vs = s
             ∧ m_varScopes st !! (self n, s) = Some (vsc_self vs).

(** ** Counting the bindings of a declaration *)

(** The number of times a declaration occurs in a list of declarations,
    and the number of scopes in which the table of bindings has a
    binding for the declaration. *)
Definition occ (v : ptr) (l : list ptr) : nat := length (filter (λ x, x = v) l).

Definition nkeys (v : ptr) (st : State) : nat :=
  length (filter (λ kv : ptr * ptr * ptr, kv.1.1 = v) (map_to_list (m_varScopes st))).

(** A visit of nodes with the declarations [vp] makes at most one
    binding of [v] for each time [v] is among them. *)
Definition keys_ok (v : ptr) (vp : list ptr) (st st' : State) : Prop :=
  next st ≤ next st' ∧ nkeys v st' ≤ nkeys v st + occ v vp.

Definition visit_keys (v lo : ptr) (vis : visitor) : Prop :=
  ∀ n st ns st', lo ≤ next st → vis n st = Ok (ns, st') →
    keys_ok v (var_ptrs n) st st'.

(** ** Module visits counted along the instantiation paths *)

(** The scopes put under the module at address [p]. *)
Definition mscopes (st : State) (p : ptr) : list ptr :=
  match modules st !! p with Some m => module_scopes m | None => [] end.

Definition is_pkg (st : State) (p : ptr) : Prop :=
  ∃ m, modules st !! p = Some m ∧ isPackage m = true.

(** The declaration [v] is below no module other than [p]. *)
Definition foreign (st : State) (p v : ptr) : Prop :=
  ∀ x m, modules st !! x = Some m → x ≠ p → v ∉ module_var_ptrs m.

(** Every declaration that is a child of the module [p] has a binding
    in the scope [s]. *)
Definition bound_in (st : State) (p s : ptr) : Prop :=
  ∀ m a, modules st !! p = Some m → a ∈ kvars m →
    is_Some (m_varScopes st !! (a, s)).

(** What [k] visits of the module [p] do: [k] scopes are put under [p]
    after the ones it had, the table of package scopes keeps what it has
    and is given one of the new scopes when it had none for [p], and at
    most [k] bindings of the declaration [v] of [p] are made. *)
Record pstep (p v : ptr) (k : nat) (st st' : State) : Prop := {
  ps_next : next st ≤ next st';
  ps_mstat : mstat st st';
  ps_vmono : m_varScopes st ⊆ m_varScopes st';
  ps_foreign : foreign st p v → foreign st' p v;
  ps_mono : m_packageScopes st ⊆ m_packageScopes st';
  ps_pkg : is_pkg st p → is_pkg st' p;
  ps_scopes : ∃ news,
      mscopes st' p = mscopes st p ++ news ∧ length news = k
      ∧ (m_packageScopes st !! p = None →
         m_packageScopes st' !! p = None
         ∨ ∃ s, s ∈ news ∧ m_packageScopes st' !! p = Some s)
      ∧ ∀ s, s ∈ news → bound_in st' p s;
  ps_recorded : is_pkg st p → k ≠ 0 → is_Some (m_packageScopes st' !! p);
  ps_keys : v < next st → foreign st p v → nkeys v st' ≤ nkeys v st + k }.

(** ** C2: packages *)

(** The package at address [p] is not instantiated hierarchically: one
    instantiation path leads from the top module to it. *)
Definition instantiated_once (fuel : nat) (nodep : AstNetlist) (p : ptr) : Prop :=
  ∃ top, topModulep nodep = Some top
         ∧ paths fuel (modules (initState nodep)) top p = 1.

(** The declarations below the module [m] at address [p] are below no
    other module of the design. *)
Definition declares_alone (nodep : AstNetlist) (p : ptr) (m : AstNodeModule) : Prop :=
  Forall (λ mx, mod_self mx = p
                ∨ Forall (λ v, v ∉ module_var_ptrs mx) (module_var_ptrs m))
         (modulesp nodep).

(** A resolved reference that names the package [p], to a declaration
    that is no class member, is bound to the binding of the declaration
    in the scope [s], whatever scope it was queued under. *)
Definition package_refs_in_scope (st : State) (p s : ptr) (sc : AstScope) : Prop :=
  ∀ it r vp v b,
    varrefs st !! it.1 = Some r → packagep r = Some p → varp r = Some vp →
    vars st !! vp = Some v → isClassMember v = false →
    resolve st it = Ok b →
    ∃ vs, vs ∈ varsp sc ∧ vsc_self vs = b ∧ vsc_varp vs = vp ∧ vsc_scopep vs = s.

(** A declaration below the module [m] has at most one binding in the
    whole design. *)
Definition one_binding_per_member (st : State) (m : AstNodeModule) : Prop :=
  ∀ sa sb sca scb va vb,
    scopes st !! sa = Some sca → scopes st !! sb = Some scb →
    va ∈ varsp sca → vb ∈ varsp scb →
    vsc_varp va ∈ module_var_ptrs m → vsc_varp va = vsc_varp vb → va = vb.

(** Every declaration that is a child of the module [m] has a binding
    in the scope [s], entered in the table of bindings. *)
Definition members_bound (st : State) (m : AstNodeModule) (s : ptr) (sc : AstScope)
  : Prop :=
  ∀ a, a ∈ kvars m →
    ∃ vs, vs ∈ varsp sc ∧ vsc_varp vs = a ∧ vsc_scopep vs = s
          ∧ m_varScopes st !! (a, s) = Some (vsc_self vs).

(** The claim: one scope was made for the package [p], whose module was
    [m] before the pass; the table of package scopes records it;
    references that name the package are bound in it; every declaration
    of the package has at most one binding, and the declarations that
    are children of the package have theirs in that scope. *)
Definition single_package_scope (st : State) (p : ptr) (m : AstNodeModule) : Prop :=
  ∃ s sc m',
    modules st !! p = Some m' ∧ module_scopes m' = module_scopes m ++ [s]
    ∧ scopes st !! s = Some sc ∧ scope_modp sc = Some p
    ∧ m_packageScopes st !! p = Some s
    ∧ package_refs_in_scope st p s sc
    ∧ one_binding_per_member st m
    ∧ members_bound st m s sc.

(** The package of the design [net_pkg] before the pass. *)
Definition mod_pkg : AstNodeModule := mkModule 2 "Pkg" true false [] [leaf KVar 7] [].

(** * Proofs *)

(** ** Trees *)

Lemma AstNode_ind' (P : AstNode → Prop) :
  (∀ k p o1 o2 o3 o4,
      Forall P o1 → Forall P o2 → Forall P o3 → Forall P o4 →
      P (Node k p o1 o2 o3 o4)) →
  ∀ n, P n.
Proof.
  intros H. fix IH 1. intros [k p o1 o2 o3 o4].
  apply H; match goal with |- Forall P ?l => induction l; constructor; auto end.
Qed.

Lemma subnodes_eq n :
  subnodes n = n :: (op1p n ≫= subnodes) ++ (op2p n ≫= subnodes)
                 ++ (op3p n ≫= subnodes) ++ (op4p n ≫= subnodes).
Proof.
  by destruct n.
Qed.

Lemma fmap_bind_list {A B C} (f : B → C) (g : A → list B) (l : list A) :
  f <$> (l ≫= g) = l ≫= (λ x, f <$> g x).
Proof.
  induction l as [|x l IHl]; [done|].
  rewrite !bind_cons, fmap_app, IHl. done.
Qed.

Lemma node_ptrs_eq n :
  node_ptrs n = self n :: nodes_ptrs (op1p n) ++ nodes_ptrs (op2p n)
                       ++ nodes_ptrs (op3p n) ++ nodes_ptrs (op4p n).
Proof.
  unfold node_ptrs at 1. rewrite subnodes_eq. simpl. f_equal.
  rewrite !fmap_app. unfold nodes_ptrs, node_ptrs.
  by rewrite !fmap_bind_list.
Qed.

Lemma var_ptrs_eq n :
  var_ptrs n = (if decide (kind n = KVar) then [self n] else [])
               ++ vars_ptrs (op1p n) ++ vars_ptrs (op2p n)
               ++ vars_ptrs (op3p n) ++ vars_ptrs (op4p n).
Proof.
  unfold var_ptrs at 1. rewrite subnodes_eq.
  rewrite filter_cons, !filter_app.
  assert (Hb : ∀ l : list AstNode,
             self <$> filter (λ x, kind x = KVar) (l ≫= subnodes) = vars_ptrs l).
  { induction l as [|x l IHl]; [done|].
    rewrite bind_cons, filter_app, fmap_app, IHl. done. }
  destruct (decide (kind n = KVar)); simpl; rewrite !fmap_app, !Hb; done.
Qed.

Lemma nodes_ptrs_cons n l : nodes_ptrs (n :: l) = node_ptrs n ++ nodes_ptrs l.
Proof. done. Qed.
Lemma nodes_ptrs_app l1 l2 : nodes_ptrs (l1 ++ l2) = nodes_ptrs l1 ++ nodes_ptrs l2.
Proof. unfold nodes_ptrs. by rewrite bind_app. Qed.
Lemma vars_ptrs_cons n l : vars_ptrs (n :: l) = var_ptrs n ++ vars_ptrs l.
Proof. done. Qed.
Lemma vars_ptrs_app l1 l2 : vars_ptrs (l1 ++ l2) = vars_ptrs l1 ++ vars_ptrs l2.
Proof. unfold vars_ptrs. by rewrite bind_app. Qed.

Lemma nodes_ptrs_singleton n : nodes_ptrs [n] = node_ptrs n.
Proof. unfold nodes_ptrs. simpl. by rewrite app_nil_r. Qed.
Lemma vars_ptrs_singleton n : vars_ptrs [n] = var_ptrs n.
Proof. unfold vars_ptrs. simpl. by rewrite app_nil_r. Qed.

Lemma var_ptrs_subseteq n : var_ptrs n ⊆ node_ptrs n.
Proof.
  unfold var_ptrs, node_ptrs. intros p Hp.
  apply list_elem_of_fmap in Hp as (x & -> & Hx).
  apply list_elem_of_filter in Hx as [_ Hx]. by apply list_elem_of_fmap_2.
Qed.

Lemma vars_ptrs_subseteq l : vars_ptrs l ⊆ nodes_ptrs l.
Proof.
  induction l as [|n l IHl]; [done|].
  rewrite vars_ptrs_cons, nodes_ptrs_cons. intros p Hp.
  apply elem_of_app in Hp as [Hp|Hp]; apply elem_of_app; [left|right]; auto.
  by apply var_ptrs_subseteq.
Qed.

(** ** Cloning *)

Lemma cloneTreeIter_spec n : ∀ nx,
  ∃ c m, cloneTreeIter n nx = (c, (nx + length (subnodes n), m))
         ∧ kind c = kind n ∧ self c = nx
         ∧ node_ptrs c = seq nx (length (subnodes n))
         ∧ m.*2 = seq nx (length (subnodes n))
         ∧ var_ptrs c ⊆ node_ptrs c.
Proof.
  induction n as [k p o1 o2 o3 o4 IH1 IH2 IH3 IH4] using AstNode_ind'. intros nx.
  set (cloneList := fix cloneList (l : list AstNode) (nx : ptr)
        : list AstNode * (ptr * list (ptr * ptr)) :=
          match l with
          | [] => ([], (nx, []))
          | x :: l' =>
              let '(x', (nx1, m1)) := cloneTreeIter x nx in
              let '(l'', (nx2, m2)) := cloneList l' nx1 in
              (x' :: l'', (nx2, m1 ++ m2))
          end).
  assert (HL : ∀ l, Forall (λ n, ∀ nx, ∃ c m,
                 cloneTreeIter n nx = (c, (nx + length (subnodes n), m))
                 ∧ kind c = kind n ∧ self c = nx
                 ∧ node_ptrs c = seq nx (length (subnodes n))
                 ∧ m.*2 = seq nx (length (subnodes n))
                 ∧ var_ptrs c ⊆ node_ptrs c) l →
               ∀ nx, ∃ l' m, cloneList l nx = (l', (nx + length (l ≫= subnodes), m))
                 ∧ nodes_ptrs l' = seq nx (length (l ≫= subnodes))
                 ∧ m.*2 = seq nx (length (l ≫= subnodes))).
  { induction 1 as [|x l Hx Hl IHl]; intros nx'.
    - exists [], []. simpl. rewrite Nat.add_0_r. done.
    - destruct (Hx nx') as (c & m1 & Hc & _ & _ & Hp & Hm & _).
      destruct (IHl (nx' + length (subnodes x))) as (l' & m2 & Hl' & Hp' & Hm').
      exists (c :: l'), (m1 ++ m2).
      rewrite bind_cons, length_app, nodes_ptrs_cons, Hp, Hp', fmap_app, Hm, Hm'.
      rewrite <- !seq_app. split; [|done].
      simpl. rewrite Hc, Hl', Nat.add_assoc. done. }
  destruct (HL _ IH1 (S nx)) as (o1' & m1 & E1 & P1 & M1).
  destruct (HL _ IH2 (S nx + length (o1 ≫= subnodes))) as (o2' & m2 & E2 & P2 & M2).
  destruct (HL _ IH3 (S nx + length (o1 ≫= subnodes) + length (o2 ≫= subnodes)))
    as (o3' & m3 & E3 & P3 & M3).
  destruct (HL _ IH4 (S nx + length (o1 ≫= subnodes) + length (o2 ≫= subnodes)
                      + length (o3 ≫= subnodes))) as (o4' & m4 & E4 & P4 & M4).
  exists (Node k nx o1' o2' o3' o4'), ((p, nx) :: m1 ++ m2 ++ m3 ++ m4).
  rewrite (subnodes_eq (Node k p o1 o2 o3 o4)).
  cbn [op1p op2p op3p op4p length]. rewrite !length_app.
  split.
  { cbn [cloneTreeIter]. fold cloneList. rewrite E1, E2, E3, E4.
    apply (f_equal (λ x, (_, (x, _)))). lia. }
  split; [done|]. split; [done|].
  split; [|split; [|apply var_ptrs_subseteq]].
  - rewrite node_ptrs_eq. cbn [op1p op2p op3p op4p self seq]. f_equal.
    rewrite P1, P2, P3, P4. rewrite <- !seq_app. f_equal.
  - rewrite fmap_cons. cbn [snd seq]. f_equal.
    rewrite !fmap_app, M1, M2, M3, M4. rewrite <- !seq_app. f_equal.
Qed.

(** ** Basic facts *)

Lemma scope_ext_refl sc : scope_ext sc sc.
Proof. unfold scope_ext. naive_solver. Qed.

Lemma scope_ext_trans a b c : scope_ext a b → scope_ext b c → scope_ext a c.
Proof.
  unfold scope_ext. intros (?&?&?&?&?&?) (?&?&?&?&?&?).
  repeat split; try congruence; [by etrans | lia].
Qed.

Lemma ext_refl st : ext st st.
Proof.
  split; try done.
  - intros s sc ?. exists sc. split; [done | apply scope_ext_refl].
  - intros p v ?. exists v. by repeat split.
  - intros p r ?. exists r. by repeat split.
Qed.

Lemma ext_trans a b c : ext a b → ext b c → ext a c.
Proof.
  intros [] []. split.
  - lia.
  - intros s sc Hs. destruct (ext_scopes0 _ _ Hs) as (sc' & Hs' & E1).
    destruct (ext_scopes1 _ _ Hs') as (sc'' & Hs'' & E2).
    exists sc''. split; [done | by eapply scope_ext_trans].
  - by etrans.
  - by etrans.
  - auto.
  - intros p v Hp. destruct (ext_vars0 _ _ Hp) as (v' & Hp' & (?&?&?)).
    destruct (ext_vars1 _ _ Hp') as (v'' & Hp'' & (?&?&?)).
    exists v''. split; [done|]. repeat split; congruence.
  - intros p r Hp. destruct (ext_varrefs0 _ _ Hp) as (r' & Hp' & (?&?)).
    destruct (ext_varrefs1 _ _ Hp') as (r'' & Hp'' & (?&?)).
    exists r''. split; [done|]. split; congruence.
Qed.

Lemma wf_next_mono nx nx' scs vsm pkm mods vrs rfs :
  nx ≤ nx' → wf_on nx scs vsm pkm mods vrs rfs → wf_on nx' scs vsm pkm mods vrs rfs.
Proof.
  intros Hle []. split; eauto.
  - intros s sc Hs. specialize (wf_scope_lt0 _ _ Hs). lia.
  - intros s sc vs Hs Hvs. destruct (wf_vsc0 _ _ _ Hs Hvs) as (?&?&?).
    split; [done|]. lia.
  - intros p m Hm. destruct (wf_modules0 _ _ Hm) as [? Hlt].
    split; [done|]. intros x Hx. specialize (Hlt _ Hx). lia.
  - intros p Hp. specialize (wf_vars0 _ Hp). lia.
  - intros p Hp. specialize (wf_varrefs0 _ Hp). lia.
Qed.

(** ** The stores under the elementary updates *)

Lemma map_insert_new_subseteq `{Countable K} {V} (k : K) (v : V) (m : gmap K V) :
  m ⊆ map_insert_new k v m.
Proof.
  unfold map_insert_new. destruct (m !! k) eqn:E; [done|].
  by apply insert_subseteq.
Qed.

Section updates.
Context (nx : ptr) (scs : gmap ptr AstScope)
  (vsm : gmap (ptr * ptr) ptr) (pkm : gmap ptr ptr)
  (mods : gmap ptr AstNodeModule)
  (vrs : gmap ptr AstVar) (rfs : gmap ptr AstVarRef).
Context (Hwf : wf_on nx scs vsm pkm mods vrs rfs).

Lemma wf_fresh_scope : scs !! nx = None.
Proof.
  destruct (scs !! nx) as [sc|] eqn:E; [|done].
  apply (wf_scope_lt _ _ _ _ _ _ _ Hwf) in E. lia.
Qed.

(** A new, empty scope at the allocation mark. *)
Lemma wf_new_scope name modp abv cell :
  wf_on (S nx) (<[nx := mkScope name modp abv cell [] []]> scs) vsm pkm mods vrs rfs.
Proof.
  pose proof wf_fresh_scope as Hfresh.
  destruct Hwf. split.
  - intros s sc [[<- <-]|[? Hs]]%lookup_insert_Some; [lia|].
    specialize (wf_scope_lt0 _ _ Hs). lia.
  - intros s sc vs [[<- <-]|[? Hs]]%lookup_insert_Some Hvs.
    { by apply elem_of_nil in Hvs. }
    destruct (wf_vsc0 _ _ _ Hs Hvs) as (?&?&?). split; [done|lia].
  - intros s sc vs [[<- <-]|[? Hs]]%lookup_insert_Some Hvs.
    { by apply elem_of_nil in Hvs. }
    eauto.
  - intros s sc [[<- <-]|[? Hs]]%lookup_insert_Some; [constructor|eauto].
  - intros s1 s2 sc1 sc2 vs1 vs2
      [[<- <-]|[? Hs1]]%lookup_insert_Some [[<- <-]|[? Hs2]]%lookup_insert_Some H1 H2;
      try (by apply elem_of_nil in H1); try (by apply elem_of_nil in H2).
    eauto.
  - intros v s p Hp. destruct (wf_varScopes0 _ _ _ Hp) as (sc & vs & Hs & ?).
    exists sc, vs. split; [|done].
    rewrite lookup_insert_ne; [done|]. intros <-. congruence.
  - intros s sc vs [[<- <-]|[? Hs]]%lookup_insert_Some Hvs.
    { by apply elem_of_nil in Hvs. }
    eauto.
  - intros pkg s Hp. destruct (wf_packageScopes0 _ _ Hp) as (sc & Hs & ?).
    exists sc. split; [|done].
    rewrite lookup_insert_ne; [done|]. intros <-. congruence.
  - intros p m Hm. destruct (wf_modules0 _ _ Hm) as [? Hlt].
    split; [done|]. intros x Hx. specialize (Hlt _ Hx). lia.
  - intros p Hp. specialize (wf_vars0 _ Hp). lia.
  - intros p Hp. specialize (wf_varrefs0 _ Hp). lia.
Qed.

(** A scope whose blocks were edited. *)
Lemma wf_scope_blocks s sc sc' :
  scs !! s = Some sc →
  aboveCellp sc' = aboveCellp sc → scope_modp sc' = scope_modp sc →
  varsp sc' = varsp sc →
  wf_on nx (<[s := sc']> scs) vsm pkm mods vrs rfs.
Proof.
  intros Hs Hc Hm Hv. destruct Hwf. split; eauto.
  - intros s0 sc0 [[<- <-]|[? Hs0]]%lookup_insert_Some; eauto.
  - intros s0 sc0 vs [[<- <-]|[? Hs0]]%lookup_insert_Some Hvs; eauto.
    rewrite Hv in Hvs. eauto.
  - intros s0 sc0 vs [[<- <-]|[? Hs0]]%lookup_insert_Some Hvs; eauto.
    rewrite Hv in Hvs. rewrite Hc. eauto.
  - intros s0 sc0 [[<- <-]|[? Hs0]]%lookup_insert_Some; eauto.
    rewrite Hv. eauto.
  - intros s1 s2 sc1 sc2 vs1 vs2
      [[<- <-]|[? Hs1]]%lookup_insert_Some [[<- <-]|[? Hs2]]%lookup_insert_Some H1 H2;
      rewrite ?Hv in *; eauto.
  - intros v s0 p Hp. destruct (wf_varScopes0 _ _ _ Hp) as (sc0 & vs & Hs0 & Hvs & ?).
    destruct (decide (s = s0)) as [<-|Hne].
    + exists sc', vs. rewrite lookup_insert_eq, Hv. split; [done|].
      split; [congruence|done].
    + exists sc0, vs. rewrite lookup_insert_ne by done. done.
  - intros s0 sc0 vs [[<- <-]|[? Hs0]]%lookup_insert_Some Hvs; eauto.
    rewrite Hv in Hvs. eauto.
  - intros pkg s0 Hp. destruct (wf_packageScopes0 _ _ Hp) as (sc0 & Hs0 & ?).
    destruct (decide (s = s0)) as [<-|Hne].
    + exists sc'. rewrite lookup_insert_eq. split; [done|]. congruence.
    + exists sc0. rewrite lookup_insert_ne by done. done.
Qed.

(** The binding [visit(AstVar)] makes. *)
Lemma wf_new_binding s sc v a :
  scs !! s = Some sc → v < nx → v ∉ (vsc_varp <$> varsp sc) →
  wf_on (S nx)
    (<[s := addVarp (mkVarScope nx s v (traceOf (aboveCellp sc))) sc]> scs)
    (map_insert_new (v, s) nx vsm) pkm mods (<[v := a]> vrs) rfs.
Proof.
  intros Hs Hv Hnew. destruct Hwf. split.
  - intros s0 sc0 [[<- <-]|[? Hs0]]%lookup_insert_Some.
    + specialize (wf_scope_lt0 _ _ Hs). lia.
    + specialize (wf_scope_lt0 _ _ Hs0). lia.
  - intros s0 sc0 vs [[<- <-]|[? Hs0]]%lookup_insert_Some Hvs.
    + simpl in Hvs. apply elem_of_app in Hvs as [Hvs|Hvs].
      * destruct (wf_vsc0 _ _ _ Hs Hvs) as (?&?&?). split; [done|lia].
      * apply list_elem_of_singleton in Hvs as ->. simpl. split; [done|lia].
    + destruct (wf_vsc0 _ _ _ Hs0 Hvs) as (?&?&?). split; [done|lia].
  - intros s0 sc0 vs [[<- <-]|[? Hs0]]%lookup_insert_Some Hvs; eauto.
    simpl in Hvs. apply elem_of_app in Hvs as [Hvs|Hvs]; simpl; eauto.
    by apply list_elem_of_singleton in Hvs as ->.
  - intros s0 sc0 [[<- <-]|[? Hs0]]%lookup_insert_Some; eauto.
    simpl. rewrite fmap_app. apply NoDup_app. split; [eauto|].
    split; [|apply NoDup_singleton].
    intros x Hx Hx'. apply list_elem_of_singleton in Hx'. simpl in Hx'. by subst.
  - assert (Hold : ∀ s0 sc0 vs, scs !! s0 = Some sc0 → vs ∈ varsp sc0 →
                                vsc_self vs ≠ nx).
    { intros s0 sc0 vs Hs0 Hvs. destruct (wf_vsc0 _ _ _ Hs0 Hvs) as (?&?&?). lia. }
    intros s1 s2 sc1 sc2 vs1 vs2
      [[<- <-]|[? Hs1]]%lookup_insert_Some [[<- <-]|[? Hs2]]%lookup_insert_Some H1 H2 E;
      simpl in *;
      repeat match goal with
      | H : _ ∈ _ ++ _ |- _ => apply elem_of_app in H as [H|H]
      | H : _ ∈ [_] |- _ => apply list_elem_of_singleton in H; subst
      end; simpl in *; try done; eauto;
      try (exfalso; eapply Hold; [| |eassumption]; eassumption);
      try (exfalso; eapply Hold; [| |symmetry; eassumption]; eassumption).
  - intros v0 s0 p Hp.
    assert (Hcase : (v0 = v ∧ s0 = s ∧ p = nx) ∨ vsm !! (v0, s0) = Some p).
    { unfold map_insert_new in Hp.
      match type of Hp with context [match ?x with _ => _ end] =>
        destruct x eqn:E end; [by right|].
      apply lookup_insert_Some in Hp as [[Heq <-]|[? ?]]; [left|right; done].
      injection Heq as <- <-. auto. }
    destruct Hcase as [(-> & -> & ->)|Hp'].
    + eexists _, _. rewrite lookup_insert_eq. split; [done|]. simpl.
      split; [apply elem_of_app; right; apply list_elem_of_singleton; done|done].
    + destruct (wf_varScopes0 _ _ _ Hp') as (sc0 & vs & Hs0 & Hvs & ?).
      destruct (decide (s = s0)) as [<-|Hne].
      * eexists _, vs. rewrite lookup_insert_eq. split; [done|]. simpl.
        split; [apply elem_of_app; left; congruence|done].
      * exists sc0, vs. rewrite lookup_insert_ne by done. done.
  - assert (Hnone : vsm !! (v, s) = None).
    { destruct (vsm !! (v, s)) as [p|] eqn:E; [|done].
      destruct (wf_varScopes0 _ _ _ E) as (sc0 & vs & Hs0 & Hvs & _ & Hvp).
      exfalso. apply Hnew. assert (sc0 = sc) as -> by congruence.
      apply list_elem_of_fmap. eauto. }
    pose proof (map_insert_new_subseteq (v, s) nx vsm) as Hsub.
    intros s0 sc0 vs [[<- <-]|[? Hs0]]%lookup_insert_Some Hvs.
    + simpl in Hvs. apply elem_of_app in Hvs as [Hvs|Hvs].
      * eapply lookup_weaken; [|exact Hsub]. eauto.
      * apply list_elem_of_singleton in Hvs as ->. simpl.
        unfold map_insert_new. rewrite Hnone. by rewrite lookup_insert_eq.
    + eapply lookup_weaken; [|exact Hsub]. eauto.
  - intros pkg s0 Hp. destruct (wf_packageScopes0 _ _ Hp) as (sc0 & Hs0 & ?).
    destruct (decide (s = s0)) as [<-|Hne].
    + eexists. rewrite lookup_insert_eq. split; [done|]. simpl. congruence.
    + exists sc0. rewrite lookup_insert_ne by done. done.
  - intros p m Hm. destruct (wf_modules0 _ _ Hm) as [? Hlt].
    split; [done|]. intros x Hx. specialize (Hlt _ Hx). lia.
  - intros p [x [[<- <-]|[? Hp]]%lookup_insert_Some]; [lia|].
    assert (p < nx) by eauto. lia.
  - intros p Hp. specialize (wf_varrefs0 _ Hp). lia.
Qed.

(** A package entry for a scope of the package. *)
Lemma wf_insert_package pkg s sc :
  scs !! s = Some sc → scope_modp sc = Some pkg →
  wf_on nx scs vsm (map_insert_new pkg s pkm) mods vrs rfs.
Proof.
  intros Hs Hm. destruct Hwf. split; eauto.
  intros pkg0 s0 Hp. unfold map_insert_new in Hp.
  match type of Hp with context [match ?x with _ => _ end] =>
    destruct x eqn:E end; [eauto|].
  apply lookup_insert_Some in Hp as [[<- <-]|[? ?]]; eauto.
Qed.

(** A module rewritten in place. *)
Lemma wf_set_module p m :
  NoDup (module_var_ptrs m) → (∀ x, x ∈ module_node_ptrs m → x < nx) →
  wf_on nx scs vsm pkm (<[p := m]> mods) vrs rfs.
Proof.
  intros Hm Hlt. destruct Hwf. split; eauto.
  intros p0 m0 [[<- <-]|[? Hp]]%lookup_insert_Some; eauto.
Qed.

(** A reference rewritten in place. *)
Lemma wf_set_varref p r :
  is_Some (rfs !! p) → wf_on nx scs vsm pkm mods vrs (<[p := r]> rfs).
Proof.
  intros Hp. destruct Hwf. split; eauto.
  intros p0 [x [[<- <-]|[? Hp0]]%lookup_insert_Some]; eauto.
Qed.
End updates.

(** ** Extension under the elementary updates *)

Lemma elem_of_set_insert x y l : x ∈ set_insert y l ↔ x = y ∨ x ∈ l.
Proof.
  induction l as [|z l IHl]; simpl.
  - rewrite list_elem_of_singleton, elem_of_nil. naive_solver.
  - destruct (pair_ltb y z) eqn:E1; [rewrite !elem_of_cons; naive_solver|].
    destruct (pair_ltb z y) eqn:E2.
    + rewrite !elem_of_cons, IHl. naive_solver.
    + assert (y = z) as ->; [|rewrite !elem_of_cons; naive_solver].
      unfold pair_ltb, scope_ltb in E1, E2.
      destruct y as [a [b|]], z as [c [d|]]; simpl in *;
        destruct (a <? c) eqn:?, (c <? a) eqn:?, (a =? c) eqn:?, (c =? a) eqn:?;
        simpl in *; try done;
        repeat match goal with
        | H : (_ <? _) = true |- _ => apply Nat.ltb_lt in H
        | H : (_ <? _) = false |- _ => apply Nat.ltb_ge in H
        | H : (_ =? _) = true |- _ => apply Nat.eqb_eq in H
        | H : (_ =? _) = false |- _ => apply Nat.eqb_neq in H
        end; try lia; repeat f_equal; lia.
Qed.

Lemma ext_alloc st : ext st (set_next (S (next st)) st).
Proof. destruct (ext_refl st). split; eauto. simpl. lia. Qed.

Lemma ext_newScope st name modp : wf st → ext st (newScope name modp st).
Proof.
  intros Hwf. pose proof (wf_fresh_scope _ _ _ _ _ _ _ Hwf) as Hfresh.
  destruct (ext_refl st). split; eauto.
  - simpl. lia.
  - intros s sc Hs. exists sc. split; [|apply scope_ext_refl].
    simpl. rewrite lookup_insert_ne; [done|]. intros <-. congruence.
Qed.

Lemma ext_set_scope st s sc sc' :
  scopes st !! s = Some sc → scope_ext sc sc' →
  ext st (set_scopes (<[s := sc']> (scopes st)) st).
Proof.
  intros Hs Hext. destruct (ext_refl st). split; eauto.
  intros s0 sc0 Hs0. simpl. destruct (decide (s = s0)) as [<-|Hne].
  - exists sc'. rewrite lookup_insert_eq. split; [done|]. congruence.
  - exists sc0. rewrite lookup_insert_ne by done. split; [done|apply scope_ext_refl].
Qed.

Lemma scope_ext_addActivep n sc : scope_ext sc (addActivep n sc).
Proof.
  unfold scope_ext. simpl. rewrite length_app. repeat split; try done. lia.
Qed.

Lemma scope_ext_setActivep i n sc : scope_ext sc (setActivep i n sc).
Proof.
  unfold scope_ext. simpl. rewrite length_insert. repeat split; done.
Qed.

Lemma scope_ext_addVarp vs sc : scope_ext sc (addVarp vs sc).
Proof.
  unfold scope_ext. simpl. repeat split; try done. by apply prefix_app_r.
Qed.

Lemma cloneRelink_spec (m0 : gmap ptr ptr) lo hi : ∀ m st,
  (∀ p, p ∈ m.*2 → lo ≤ p < hi) →
  let st' := foldl (cloneRelinkStep m0) st m in
  same_but_heap st st' ∧ next st' = next st
  ∧ (∀ p, p < lo → vars st' !! p = vars st !! p)
  ∧ (∀ p, p < lo → varrefs st' !! p = varrefs st !! p)
  ∧ (∀ p, is_Some (vars st' !! p) → is_Some (vars st !! p) ∨ p < hi)
  ∧ (∀ p, is_Some (varrefs st' !! p) → is_Some (varrefs st !! p) ∨ p < hi)
  ∧ (unbound st → unbound st').
Proof.
  induction m as [|[old new] m IHm]; intros st Hm; simpl.
  { repeat split; auto. }
  pose (s1 := match vars st !! old with
              | Some v => set_vars (<[new := v]> (vars st)) st
              | None => st
              end).
  pose (s2 := match varrefs s1 !! old with
              | Some r => set_varrefs (<[new:=cloneRelinkRef m0 r]> (varrefs s1)) s1
              | None => s1
              end).
  change (cloneRelinkStep m0 st (old, new)) with s2.
  assert (Hnew : lo ≤ new < hi) by (apply Hm; simpl; left).
  assert (Hm' : ∀ p, p ∈ m.*2 → lo ≤ p < hi).
  { intros p Hp. apply Hm. simpl. by right. }
  destruct (IHm s2 Hm') as (Hs & Hn & Hv & Hr & Hvd & Hrd & Hu).
  assert (H1 : same_but_heap st s1 ∧ next s1 = next st ∧ varrefs s1 = varrefs st
               ∧ (∀ p, p < lo → vars s1 !! p = vars st !! p)
               ∧ (∀ p, is_Some (vars s1 !! p) → is_Some (vars st !! p) ∨ p < hi)).
  { subst s1. destruct (vars st !! old) eqn:E; simpl.
    - repeat split; auto.
      + intros p Hp. rewrite lookup_insert_ne; [done|lia].
      + intros p [x [[<- <-]|[? Hp]]%lookup_insert_Some]; [right; lia|left; eauto].
    - repeat split; auto. }
  destruct H1 as (Hs1 & Hn1 & Hr1 & Hv1 & Hvd1).
  assert (H2 : same_but_heap s1 s2 ∧ next s2 = next s1 ∧ vars s2 = vars s1
               ∧ (∀ p, p < lo → varrefs s2 !! p = varrefs s1 !! p)
               ∧ (∀ p, is_Some (varrefs s2 !! p) → is_Some (varrefs s1 !! p) ∨ p < hi)
               ∧ (unbound s1 → unbound s2)).
  { subst s2. destruct (varrefs s1 !! old) eqn:E; simpl.
    - repeat split; auto.
      + intros p Hp. rewrite lookup_insert_ne; [done|lia].
      + intros p [x [[<- <-]|[? Hp]]%lookup_insert_Some]; [right; lia|left; eauto].
      + intros Hub p r Hp. simpl in Hp.
        apply lookup_insert_Some in Hp as [[<- <-]|[? Hp]]; [|eauto].
        simpl. eauto.
    - repeat split; auto. }
  destruct H2 as (Hs2 & Hn2 & Hv2 & Hr2 & Hrd2 & Hu2).
  set (st' := foldl _ s2 m) in *. clearbody st' s2 s1.
  destruct Hs, Hs1, Hs2.
  split; [|split; [congruence|repeat split]].
  - split; try congruence.
    unfold same_cursor in *. intuition congruence.
  - intros p Hp. rewrite Hv, Hv2, Hv1 by done. done.
  - intros p Hp. rewrite Hr, Hr2, Hr1 by done. done.
  - intros p Hp. destruct (Hvd _ Hp) as [Hp'|?]; [|by right].
    rewrite Hv2 in Hp'. auto.
  - intros p Hp. destruct (Hrd _ Hp) as [Hp'|?]; [|by right].
    destruct (Hrd2 _ Hp') as [Hp''|?]; [|by right]. rewrite Hr1 in Hp''. auto.
  - intros Hub. apply Hu, Hu2. unfold unbound. rewrite Hr1. done.
Qed.

Lemma var_ptrs_sublist n : var_ptrs n `sublist_of` node_ptrs n.
Proof. unfold var_ptrs, node_ptrs. apply fmap_sublist, sublist_filter. Qed.

Lemma subnodes_length_pos n : 0 < length (subnodes n).
Proof. rewrite subnodes_eq. simpl. lia. Qed.

Lemma cloneTree_ok n st c st1 :
  wf st → cloneTree n st = (c, st1) →
  wf st1 ∧ ext st st1 ∧ same_but_heap st st1 ∧ (unbound st → unbound st1)
  ∧ kind c = kind n ∧ self c = next st ∧ next st < next st1
  ∧ (∀ p, p ∈ node_ptrs c → next st ≤ p < next st1)
  ∧ NoDup (node_ptrs c).
Proof.
  intros Hwf Hc. unfold cloneTree in Hc.
  destruct (cloneTreeIter_spec n (next st)) as (c' & m & E & Hk & Hs & Hp & Hm & _).
  rewrite E in Hc. injection Hc as <- <-.
  unfold cloneRelink.
  assert (Hrange : ∀ p, p ∈ m.*2 → next st ≤ p < next st + length (subnodes n)).
  { intros p. rewrite Hm, elem_of_seq. done. }
  pose proof (cloneRelink_spec (list_to_map m) (next st)
                (next st + length (subnodes n)) m
                (set_next (next st + length (subnodes n)) st) Hrange) as Hspec.
  cbv zeta in Hspec.
  set (st1 := foldl _ _ m) in *. clearbody st1.
  destruct Hspec as (Hsbh & Hn & Hv & Hr & Hvd & Hrd & Hu). simpl in *.
  pose proof (subnodes_length_pos n) as Hpos.
  assert (Hlt : next st < next st1) by lia.
  assert (Hsbh' : same_but_heap st st1).
  { destruct Hsbh. split; done. }
  destruct Hsbh as [? Hsc ? ? ? ? Hpk Hvs Hwl]. simpl in *.
  split; [|split; [|split; [|split; [|split; [|split; [|split; [|split]]]]]]];
    try done.
  - unfold wf. rewrite Hsc, Hpk, Hvs, sbh_modules0.
    apply (wf_next_mono (next st) (next st1)) in Hwf; [|lia].
    destruct Hwf. split; eauto.
    + intros p Hp'. destruct (Hvd _ Hp') as [?|?]; [|lia]. eauto.
    + intros p Hp'. destruct (Hrd _ Hp') as [?|?]; [|lia]. eauto.
  - unfold ext. rewrite Hsc, Hpk, Hvs, Hwl.
    destruct (ext_refl st). split; eauto; [lia| |].
    + intros p v Hp'. exists v. rewrite Hv; [by repeat split|].
      apply (wf_vars _ _ _ _ _ _ _ Hwf). eauto.
    + intros p r Hp'. exists r. rewrite Hr; [by repeat split|].
      apply (wf_varrefs _ _ _ _ _ _ _ Hwf). eauto.
  - intros p. rewrite Hp, elem_of_seq. lia.
  - rewrite Hp. apply NoDup_seq.
Qed.

(** ** Sequencing visits *)

Lemma cursor_ok_ext st st' :
  cursor_ok st → ext st st' → same_cursor st st' → cursor_ok st'.
Proof.
  intros Hc Hext (Hs & Hcell & _) s Hs'. rewrite Hs in Hs'.
  destruct (Hc _ Hs') as (sc & Hsc & Hab).
  destruct (ext_scopes _ _ _ _ _ _ _ _ _ _ _ _ _ _ Hext _ _ Hsc)
    as (sc' & Hsc' & (_&_&_&Hab'&_)).
  exists sc'. split; [done|]. congruence.
Qed.

Lemma pre_app_l vp1 vp2 np1 np2 st :
  vp1 ⊆ np1 → pre (vp1 ++ vp2) (np1 ++ np2) st → pre vp1 np1 st.
Proof.
  intros Hsub []. split; try done.
  - by apply NoDup_app in pre_nodup0 as (?&_&_).
  - intros p Hp. apply pre_lt0, elem_of_app. by left.
  - intros s sc vs Hs Hsc Hvs Hin. eapply pre_disj0; [done..|].
    apply elem_of_app. by left.
Qed.

Lemma pre_app_r vp1 vp2 np1 np2 st vp1' np1' st1 :
  vp2 ⊆ np2 → pre (vp1 ++ vp2) (np1 ++ np2) st →
  post vp1 np1 st vp1' np1' st1 → pre vp2 np2 st1.
Proof.
  intros Hsub [] []. pose proof (ext_next _ _ _ _ _ _ _ _ _ _ _ _ _ _ post_ext0) as Hn.
  split; try done.
  - by eapply cursor_ok_ext.
  - by apply NoDup_app in pre_nodup0 as (?&?&?).
  - intros p Hp. assert (p < next st); [|lia]. apply pre_lt0, elem_of_app. by right.
  - intros s sc1 vs Hs Hsc1 Hvs Hin.
    destruct post_cursor0 as (Hs' & _). rewrite Hs' in Hs.
    destruct (pre_cursor0 _ Hs) as (sc & Hsc & _).
    destruct (post_cur0 _ _ _ _ Hs Hsc Hsc1 Hvs) as [Hold|[Hvp|Hge]].
    + eapply pre_disj0; [done..|]. apply elem_of_app. by right.
    + apply NoDup_app in pre_nodup0 as (_&Hd&_). by eapply Hd.
    + assert (vsc_varp vs < next st); [|lia].
      apply pre_lt0, elem_of_app. right. by apply Hsub.
Qed.

Lemma post_app vp1 vp2 np1 np2 st vp1' np1' st1 vp2' np2' st2 :
  pre (vp1 ++ vp2) (np1 ++ np2) st →
  post vp1 np1 st vp1' np1' st1 → post vp2 np2 st1 vp2' np2' st2 →
  post (vp1 ++ vp2) (np1 ++ np2) st (vp1' ++ vp2') (np1' ++ np2') st2.
Proof.
  intros Hpre [] [].
  pose proof (ext_next _ _ _ _ _ _ _ _ _ _ _ _ _ _ post_ext0) as Hn.
  pose proof (ext_next _ _ _ _ _ _ _ _ _ _ _ _ _ _ post_ext1) as Hn'.
  destruct post_cursor0 as (C1 & C2 & C3 & C4).
  destruct post_cursor1 as (D1 & D2 & D3 & D4).
  split.
  - done.
  - by eapply ext_trans.
  - unfold same_cursor. repeat split; congruence.
  - congruence.
  - congruence.
  - intros s Hs Hne. rewrite post_frame1, post_frame0; [done..|lia|congruence].
  - intros s sc sc2 vs Hs Hsc Hsc2 Hvs.
    destruct (ext_scopes _ _ _ _ _ _ _ _ _ _ _ _ _ _ post_ext0 _ _ Hsc)
      as (sc1 & Hsc1 & _).
    assert (Hs1 : m_scopep st1 = Some s) by congruence.
    destruct (post_cur1 _ _ _ _ Hs1 Hsc1 Hsc2 Hvs) as [Hold|[Hvp|Hge]].
    + destruct (post_cur0 _ _ _ _ Hs Hsc Hsc1 Hold) as [?|[?|?]]; auto.
      right. left. apply elem_of_app. by left.
    + right. left. apply elem_of_app. by right.
    + right. right. lia.
  - intros p Hp Hnp. rewrite post_user2p1, post_user2p0; [done|done| |lia|].
    + intros ?. apply Hnp, elem_of_app. by left.
    + intros ?. apply Hnp, elem_of_app. by right.
  - by apply sublist_app.
  - intros p [Hp|Hp]%elem_of_app; [|auto].
    specialize (post_np0 _ Hp). lia.
  - intros p [Hp|Hp]%elem_of_app; apply elem_of_app; auto.
  - auto.
Qed.

(** A visit that left everything as it was. *)
Lemma post_refl vp np st :
  wf st → (∀ p, p ∈ np → p < next st) → vp ⊆ np → post vp np st vp np st.
Proof.
  intros Hwf Hlt Hsub. split; auto using ext_refl.
  - unfold same_cursor. done.
  - intros s sc sc' vs _ Hs Hs' Hvs. left. congruence.
Qed.

(** The exit condition under larger address sets. *)
Lemma post_mono vp np VP NP st vp' np' st' :
  vp `sublist_of` VP → np ⊆ NP →
  post vp np st vp' np' st' → post VP NP st vp' np' st'.
Proof.
  intros Hv Hn []. split; try done.
  - intros s sc sc' vs Hs Hsc Hsc' Hvs.
    destruct (post_cur0 _ _ _ _ Hs Hsc Hsc' Hvs) as [?|[?|?]]; auto.
    right. left. by eapply elem_of_sublist.
  - intros p Hp Hnp. apply post_user2p0; [done|]. intros ?. by apply Hnp, Hn.
  - by etrans.
Qed.

Lemma bind_Ok {A B} (r : result A) (k : A → result B) b :
  r ≫= k = Ok b → ∃ a, r = Ok a ∧ k a = Ok b.
Proof. destruct r; simpl; try done. eauto. Qed.

Lemma deref_Ok {A} (o : option A) a : deref o = Ok a → o = Some a.
Proof. destruct o; simpl; congruence. Qed.

Lemma iterateAndNext_ok visit :
  visit_ok visit →
  ∀ l st ns st',
    pre (vars_ptrs l) (nodes_ptrs l) st → iterateAndNext visit l st = Ok (ns, st') →
    post (vars_ptrs l) (nodes_ptrs l) st (vars_ptrs ns) (nodes_ptrs ns) st'.
Proof.
  intros Hv. induction l as [|n l IHl]; intros st ns st' Hpre Hit; simpl in Hit.
  - injection Hit as <- <-. destruct Hpre. by apply post_refl.
  - apply bind_Ok in Hit as ([ns1 st1] & E1 & Hit).
    apply bind_Ok in Hit as ([ns2 st2] & E2 & Hit).
    injection Hit as <- <-.
    rewrite vars_ptrs_cons, nodes_ptrs_cons in Hpre.
    rewrite vars_ptrs_app, nodes_ptrs_app.
    rewrite vars_ptrs_cons, nodes_ptrs_cons.
    assert (P1 : post (var_ptrs n) (node_ptrs n) st (vars_ptrs ns1) (nodes_ptrs ns1) st1).
    { eapply Hv; [|done]. eapply pre_app_l; [|done]. apply var_ptrs_subseteq. }
    eapply post_app; [done..|].
    eapply IHl; [|done]. eapply pre_app_r; [|done..]. apply vars_ptrs_subseteq.
Qed.

Lemma post_step vp np st vp' np' st' :
  post vp np st vp' np' st' → step (next st) vp np st st'.
Proof. intros []. split; done. Qed.

Lemma step_post vp np st vp' np' st' :
  step (next st) vp np st st' →
  vp' `sublist_of` vp → (∀ p, p ∈ np' → p < next st') → vp' ⊆ np' →
  post vp np st vp' np' st'.
Proof. intros [] ???. split; done. Qed.

Lemma step_refl lo vp np st : wf st → step lo vp np st st.
Proof.
  intros Hwf. split; auto using ext_refl.
  - unfold same_cursor. done.
  - intros s sc sc' vs _ Hs Hs' Hvs. left. congruence.
Qed.

Lemma step_trans lo vp np st st1 st2 :
  step lo vp np st st1 → step lo vp np st1 st2 → step lo vp np st st2.
Proof.
  intros [] [].
  destruct step_cursor0 as (C1 & C2 & C3 & C4).
  destruct step_cursor1 as (D1 & D2 & D3 & D4).
  split.
  - done.
  - by eapply ext_trans.
  - unfold same_cursor. repeat split; congruence.
  - congruence.
  - congruence.
  - intros s Hs Hne. rewrite step_frame1, step_frame0; [done..|congruence].
  - intros s sc sc2 vs Hs Hsc Hsc2 Hvs.
    destruct (ext_scopes _ _ _ _ _ _ _ _ _ _ _ _ _ _ step_ext0 _ _ Hsc)
      as (sc1 & Hsc1 & _).
    assert (Hs1 : m_scopep st1 = Some s) by congruence.
    destruct (step_cur1 _ _ _ _ Hs1 Hsc1 Hsc2 Hvs) as [Hold|[Hvp|Hge]]; auto.
    eapply step_cur0; eauto.
  - intros p Hp Hnp. rewrite step_user2p1, step_user2p0; done.
  - auto.
Qed.

Lemma step_weaken lo vp np lo' vp' np' st st' :
  step lo vp np st st' → lo' ≤ lo →
  (∀ p, p ∈ vp → p ∈ vp' ∨ lo' ≤ p) →
  (∀ p, p ∈ np → p ∈ np' ∨ lo' ≤ p) →
  step lo' vp' np' st st'.
Proof.
  intros [] Hlo Hvp Hnp. split; try done.
  - intros s Hs Hne. apply step_frame0; [lia|done].
  - intros s sc sc' vs Hs Hsc Hsc' Hvs.
    destruct (step_cur0 _ _ _ _ Hs Hsc Hsc' Hvs) as [?|[Hin|?]].
    + by left.
    + destruct (Hvp _ Hin); auto.
    + right. right. lia.
  - intros p Hp Hn. apply step_user2p0; [lia|].
    intros Hin. destruct (Hnp _ Hin); [done|lia].
Qed.

(** A step that leaves scopes, cursor, modules and breadcrumbs alone. *)
Lemma step_heap lo vp np st st' :
  wf st' → ext st st' → same_cursor st st' →
  modules st' = modules st → m_packageScopes st' = m_packageScopes st →
  scopes st' = scopes st → user2p st' = user2p st →
  (unbound st → unbound st') →
  step lo vp np st st'.
Proof.
  intros ????? Hsc Hu ?. split; try done.
  - intros. by rewrite Hsc.
  - intros s sc sc' vs _ Hs Hs' Hvs. left. rewrite Hsc in Hs'. congruence.
  - intros. by rewrite Hu.
Qed.

Lemma var_ptrs_children n : var_ptrs n = head_vp n ++ children_vp n.
Proof. apply var_ptrs_eq. Qed.
Lemma node_ptrs_children n : node_ptrs n = [self n] ++ children_np n.
Proof. apply node_ptrs_eq. Qed.

Lemma self_node_ptrs n : self n ∈ node_ptrs n.
Proof. rewrite node_ptrs_children. apply elem_of_app. left. by apply list_elem_of_singleton. Qed.

Lemma children_np_node_ptrs n : children_np n ⊆ node_ptrs n.
Proof. intros p Hp. rewrite node_ptrs_children. apply elem_of_app. by right. Qed.

Lemma children_vp_var_ptrs n : children_vp n ⊆ var_ptrs n.
Proof. intros p Hp. rewrite var_ptrs_children. apply elem_of_app. by right. Qed.

Lemma head_vp_subseteq n : head_vp n ⊆ [self n].
Proof. unfold head_vp. case_decide; set_solver. Qed.

Lemma children_vp_subseteq n : children_vp n ⊆ children_np n.
Proof.
  unfold children_vp, children_np.
  pose proof (vars_ptrs_subseteq (op1p n)). pose proof (vars_ptrs_subseteq (op2p n)).
  pose proof (vars_ptrs_subseteq (op3p n)). pose proof (vars_ptrs_subseteq (op4p n)).
  set_solver.
Qed.

Lemma pre_tail vp1 vp2 np1 np2 st :
  vp2 ⊆ np2 → pre (vp1 ++ vp2) (np1 ++ np2) st → pre vp2 np2 st.
Proof.
  intros Hsub [Hwf Hcur Hnd Hlt Hvp Hdisj]. split; try done.
  - by apply NoDup_app in Hnd as (?&?&?).
  - intros p Hp. apply Hlt, elem_of_app. by right.
  - intros s sc vs Hs Hsc Hvs Hin. eapply Hdisj; [done..|].
    apply elem_of_app. by right.
Qed.

Lemma pre_children n st :
  pre (var_ptrs n) (node_ptrs n) st → pre (children_vp n) (children_np n) st.
Proof.
  rewrite var_ptrs_children, node_ptrs_children.
  apply pre_tail, children_vp_subseteq.
Qed.

Lemma seq_post vp1 vp2 np1 np2 st vp1' np1' st1 vp2' np2' st2 :
  vp1 ⊆ np1 → vp2 ⊆ np2 →
  pre (vp1 ++ vp2) (np1 ++ np2) st →
  (pre vp1 np1 st → post vp1 np1 st vp1' np1' st1) →
  (pre vp2 np2 st1 → post vp2 np2 st1 vp2' np2' st2) →
  post (vp1 ++ vp2) (np1 ++ np2) st (vp1' ++ vp2') (np1' ++ np2') st2.
Proof.
  intros H1 H2 Hpre Hp1 Hp2.
  assert (P1 : post vp1 np1 st vp1' np1' st1).
  { apply Hp1. by eapply pre_app_l. }
  eapply post_app; [done..|]. apply Hp2. by eapply pre_app_r.
Qed.

Lemma iterateChildren_ok visit :
  visit_ok visit →
  ∀ n st n' st',
    pre (children_vp n) (children_np n) st →
    iterateChildren visit n st = Ok (n', st') →
    post (children_vp n) (children_np n) st (children_vp n') (children_np n') st'
    ∧ kind n' = kind n ∧ self n' = self n.
Proof.
  intros Hv n st n' st' Hpre Hit. unfold iterateChildren in Hit.
  apply bind_Ok in Hit as ([o1 st1] & E1 & Hit).
  apply bind_Ok in Hit as ([o2 st2] & E2 & Hit).
  apply bind_Ok in Hit as ([o3 st3] & E3 & Hit).
  apply bind_Ok in Hit as ([o4 st4] & E4 & Hit).
  injection Hit as <- <-. split; [|done].
  unfold children_vp, children_np in *. simpl.
  pose proof (vars_ptrs_subseteq (op1p n)). pose proof (vars_ptrs_subseteq (op2p n)).
  pose proof (vars_ptrs_subseteq (op3p n)). pose proof (vars_ptrs_subseteq (op4p n)).
  eapply seq_post; [done|set_solver|done| |].
  { intros. by eapply iterateAndNext_ok. }
  intros. eapply seq_post; [done|set_solver|done| |].
  { intros. by eapply iterateAndNext_ok. }
  intros. eapply seq_post; [done|set_solver|done| |].
  { intros. by eapply iterateAndNext_ok. }
  intros. by eapply iterateAndNext_ok.
Qed.

(** The exit condition of the children is that of the node, when the
    visit left the node's own address and being-a-declaration alone. *)
Lemma post_node n n' st st' :
  pre (var_ptrs n) (node_ptrs n) st →
  post (children_vp n) (children_np n) st (children_vp n') (children_np n') st' →
  head_vp n' = head_vp n → self n' = self n →
  post (var_ptrs n) (node_ptrs n) st (vars_ptrs [n']) (nodes_ptrs [n']) st'.
Proof.
  intros Hpre Hpost Hh Hs.
  unfold vars_ptrs, nodes_ptrs. simpl. rewrite !app_nil_r.
  rewrite (var_ptrs_children n'), (node_ptrs_children n'), Hh, Hs.
  rewrite var_ptrs_children, node_ptrs_children in *.
  eapply seq_post; [apply head_vp_subseteq|apply children_vp_subseteq|done| |done].
  intros []. apply post_refl; done.
Qed.

Lemma post_same n st :
  pre (var_ptrs n) (node_ptrs n) st →
  post (var_ptrs n) (node_ptrs n) st (vars_ptrs [n]) (nodes_ptrs [n]) st.
Proof.
  intros []. unfold vars_ptrs, nodes_ptrs. simpl. rewrite !app_nil_r.
  by apply post_refl.
Qed.

Section visit.
Context (opt : V3Global).

Lemma visit_AstNode_ok (v : visitor) : visit_ok v → visit_ok (visit_AstNode v).
Proof.
  intros Hv n st ns st' Hpre Hvis. unfold visit_AstNode in Hvis.
  apply bind_Ok in Hvis as ([n' st1] & E & Hvis). injection Hvis as <- <-.
  destruct (iterateChildren_ok _ Hv _ _ _ _ (pre_children _ _ Hpre) E) as (Hpost & Hk & Hs).
  apply post_node; [done..| |done]. unfold head_vp. by rewrite Hk, Hs.
Qed.

Lemma visit_AstScope_ok : visit_ok visit_AstScope.
Proof.
  intros n st ns st' Hpre Hvis. injection Hvis as <- <-. by apply post_same.
Qed.

Lemma visit_AstCellInline_ok n st ns st' :
  kind n ≠ KVar →
  pre (var_ptrs n) (node_ptrs n) st → visit_AstCellInline n st = Ok (ns, st') →
  post (var_ptrs n) (node_ptrs n) st (vars_ptrs ns) (nodes_ptrs ns) st'.
Proof.
  intros Hk Hpre Hvis. injection Hvis as <- <-.
  rewrite vars_ptrs_singleton, nodes_ptrs_singleton.
  rewrite (var_ptrs_children (Node _ _ _ _ _ _)), (node_ptrs_children (Node _ _ _ _ _ _)).
  rewrite (var_ptrs_children n), (node_ptrs_children n) in *.
  unfold head_vp in *. simpl. rewrite decide_False in * by done.
  destruct Hpre. by apply post_refl.
Qed.

(** [visit(AstVar)]. *)
Lemma visit_AstVar_ok n st ns st' :
  kind n = KVar →
  pre (var_ptrs n) (node_ptrs n) st → visit_AstVar opt n st = Ok (ns, st') →
  post (var_ptrs n) (node_ptrs n) st (vars_ptrs ns) (nodes_ptrs ns) st'.
Proof.
  intros Hk Hpre Hvis. unfold visit_AstVar in Hvis.
  destruct (user1p st !! self n) eqn:Hu.
  { injection Hvis as <- <-. by apply post_same. }
  simpl in Hvis.
  apply bind_Ok in Hvis as (scp & Escp%deref_Ok & Hvis).
  apply bind_Ok in Hvis as (sc & Esc%deref_Ok & Hvis).
  apply bind_Ok in Hvis as (v & Ev%deref_Ok & Hvis).
  apply bind_Ok in Hvis as ([] & _ & Hvis).
  injection Hvis as <- <-. rewrite vars_ptrs_singleton, nodes_ptrs_singleton.
  simpl in *.
  set (v' := if isNoClocker opt _ then _ else _).
  assert (Hvext : var_ext v v').
  { subst v'. unfold var_ext.
    destruct (isClocker opt _), (isNoClocker opt _); simpl; done. }
  clearbody v'.
  destruct Hpre as [Hwf Hcur Hnd Hlt Hvp Hdisj].
  assert (Hself : self n ∈ var_ptrs n).
  { rewrite var_ptrs_children. unfold head_vp. rewrite decide_True by done.
    apply elem_of_app. left. by apply list_elem_of_singleton. }
  assert (Hself_lt : self n < next st) by (by apply Hlt, Hvp).
  destruct (Hcur _ Escp) as (sc0 & Hsc0 & Habove).
  assert (sc0 = sc) as -> by congruence.
  assert (Hnew : self n ∉ vsc_varp <$> varsp sc).
  { intros (vs & Hvs & Hin)%list_elem_of_fmap.
    eapply (Hdisj _ _ vs); [done..|]. by rewrite <- Hvs. }
  assert (Htr : match m_aboveCellp st with
                | Some c => if negb (cell_isTrace c) then false else true
                | None => true
                end = traceOf (aboveCellp sc)).
  { rewrite Habove. done. }
  rewrite Htr.
  apply step_post.
  - split; simpl.
    + by apply wf_new_binding.
    + destruct (ext_refl st). split; simpl; eauto.
      * intros s sc0 Hs. destruct (decide (scp = s)) as [<-|Hne].
        -- eexists. rewrite lookup_insert_eq. split; [done|].
           assert (sc0 = sc) as -> by congruence. apply scope_ext_addVarp.
        -- exists sc0. rewrite lookup_insert_ne by done.
           split; [done|apply scope_ext_refl].
      * apply map_insert_new_subseteq.
      * intros p v0 Hp. destruct (decide (self n = p)) as [<-|Hne].
        -- exists v'. rewrite lookup_insert_eq. split; [done|]. congruence.
        -- exists v0. rewrite lookup_insert_ne by done. by repeat split.
    + unfold same_cursor. done.
    + done.
    + done.
    + intros s Hs Hne. rewrite lookup_insert_ne; [done|]. congruence.
    + intros s sc1 sc' vs Hs Hsc1 Hsc' Hvs.
      assert (s = scp) as -> by congruence.
      rewrite lookup_insert_eq in Hsc'. injection Hsc' as <-.
      assert (sc1 = sc) as -> by congruence.
      simpl in Hvs. apply elem_of_app in Hvs as [?|Hvs]; [by left|].
      apply list_elem_of_singleton in Hvs as ->. right. left. done.
    + done.
    + done.
  - done.
  - intros p Hp. specialize (Hlt _ Hp). simpl. lia.
  - done.
Qed.

(** [visit(AstVarRef)]. *)
Lemma visit_AstVarRef_ok n st ns st' :
  pre (var_ptrs n) (node_ptrs n) st → visit_AstVarRef n st = Ok (ns, st') →
  post (var_ptrs n) (node_ptrs n) st (vars_ptrs ns) (nodes_ptrs ns) st'.
Proof.
  intros Hpre Hvis. unfold visit_AstVarRef in Hvis.
  apply bind_Ok in Hvis as (r & Er%deref_Ok & Hvis).
  destruct (varp r) as [vp|] eqn:Evp; [|done].
  apply bind_Ok in Hvis as (v & Ev%deref_Ok & Hvis).
  destruct Hpre as [Hwf Hcur Hnd Hlt Hvp Hdisj].
  assert (Hout : ∀ st', next st' = next st →
            step (next st) (var_ptrs n) (node_ptrs n) st st' →
            post (var_ptrs n) (node_ptrs n) st (vars_ptrs [n]) (nodes_ptrs [n]) st').
  { intros st0 Hn Hst. rewrite vars_ptrs_singleton, nodes_ptrs_singleton.
    apply step_post; [done..| |done]. intros p Hp. rewrite Hn. auto. }
  destruct (isIfaceRef v); injection Hvis as <- <-; apply Hout; try done.
  - apply step_heap; try done.
    + simpl. apply wf_set_varref; [done|]. by eexists.
    + destruct (ext_refl st). split; simpl; eauto.
      intros p r0 Hp. destruct (decide (self n = p)) as [<-|Hne].
      * eexists. rewrite lookup_insert_eq. split; [done|].
        assert (r0 = r) as -> by congruence. by split.
      * exists r0. rewrite lookup_insert_ne by done. by split.
    + intros Hub p r0 Hp. simpl in Hp.
      apply lookup_insert_Some in Hp as [[_ <-]|[_ Hp]]; [done|eauto].
  - apply step_heap; try done.
    + destruct (ext_refl st). split; simpl; eauto.
      intros x Hx. apply elem_of_set_insert. by right.
Qed.
End visit.

Lemma ext_next' st st' : ext st st' → next st ≤ next st'.
Proof. intros []. done. Qed.

Lemma ext_scope st st' s sc :
  ext st st' → scopes st !! s = Some sc →
  ∃ sc', scopes st' !! s = Some sc' ∧ scope_ext sc sc'.
Proof. intros [] ?. eauto. Qed.

(** The blocks of the current scope edited. *)
Lemma step_set_blocks lo vp np st s sc sc' :
  wf st → m_scopep st = Some s → scopes st !! s = Some sc →
  scope_ext sc sc' → varsp sc' = varsp sc →
  step lo vp np st (set_scopes (<[s := sc']> (scopes st)) st).
Proof.
  intros Hwf Hs Hsc Hext Hv. pose proof Hext as (?&?&?&?&?&?). split; simpl; try done.
  - eapply (wf_scope_blocks _ _ _ _ _ _ _ Hwf s sc sc'); done.
  - by apply (ext_set_scope st s sc sc').
  - intros s0 _ Hne. rewrite lookup_insert_ne; [done|]. congruence.
  - intros s0 sc0 sc0' vs Hs0 Hsc0 Hsc0' Hvs. left.
    assert (s0 = s) as -> by congruence.
    rewrite lookup_insert_eq in Hsc0'. injection Hsc0' as <-.
    rewrite Hv in Hvs. congruence.
Qed.

Lemma pre_step vp np st st1 lo vp0 np0 :
  pre vp np st → step lo vp0 np0 st st1 → next st ≤ lo →
  (∀ p, p ∈ vp0 → p ∉ vp) → pre vp np st1.
Proof.
  intros [Hwf Hcur Hnd Hlt Hvp Hdisj]
         [step_wf0 step_ext0 step_cursor0 ? ? step_frame0 step_cur0 ? ?] Hlo Hvp0.
  pose proof (ext_next' _ _ step_ext0) as Hn.
  split; try done.
  - by eapply cursor_ok_ext.
  - intros p Hp. specialize (Hlt _ Hp). lia.
  - intros s sc1 vs Hs Hsc1 Hvs Hin.
    destruct step_cursor0 as (Hs' & _). rewrite Hs' in Hs.
    destruct (Hcur _ Hs) as (sc & Hsc & _).
    destruct (step_cur0 _ _ _ _ Hs Hsc Hsc1 Hvs) as [Hold|[Hin0|Hge]].
    + by eapply Hdisj.
    + by eapply Hvp0.
    + assert (vsc_varp vs < next st); [|lia]. by apply Hlt, Hvp.
Qed.

Lemma linkAndIterate_step (v : visitor) lo c st st' :
  visit_ok v → pre (children_vp c) (children_np c) st → lo ≤ next st →
  linkAndIterate v c st = Ok st' →
  step lo (children_vp c) (children_np c) st st'.
Proof.
  intros Hv Hpre Hlo Hl. unfold linkAndIterate in Hl.
  apply bind_Ok in Hl as (scp & Escp%deref_Ok & Hl).
  apply bind_Ok in Hl as (sc & Esc%deref_Ok & Hl).
  apply bind_Ok in Hl as ([c' st4] & Eit & Hl).
  apply bind_Ok in Hl as (sc4 & Esc4%deref_Ok & Hl).
  injection Hl as <-.
  set (st3 := set_scopes (<[scp:=addActivep c sc]> (scopes st)) st) in *.
  assert (S1 : ∀ lo vp np, step lo vp np st st3).
  { intros lo0 vp np. eapply step_set_blocks; [by destruct Hpre|done..| |done].
    apply scope_ext_addActivep. }
  assert (Hpre3 : pre (children_vp c) (children_np c) st3).
  { eapply pre_step; [done|apply (S1 (next st) [] [])|done|].
    intros p Hp. by apply elem_of_nil in Hp. }
  destruct (iterateChildren_ok _ Hv _ _ _ _ Hpre3 Eit) as (Hpost & Hk & Hself).
  apply post_step in Hpost.
  assert (S2 : step lo (children_vp c) (children_np c) st3 st4).
  { eapply step_weaken; [done|done|auto..]. }
  eapply step_trans; [apply S1|]. eapply step_trans; [done|].
  destruct Hpost as [step_wf0 step_ext0 step_cursor0 ? ? step_frame0 step_cur0 ? ?].
  eapply step_set_blocks; [done| |done| |done].
  - destruct step_cursor0 as (-> & _). done.
  - apply scope_ext_setActivep.
Qed.

(** The clone of a subtree can be iterated where the original could. *)
Lemma clone_pre n st c st1 :
  pre (var_ptrs n) (node_ptrs n) st → cloneTree n st = (c, st1) →
  pre (children_vp c) (children_np c)
      (set_user2p (<[self n := self c]> (user2p st1)) st1).
Proof.
  intros Hpre Hc.
  pose proof Hpre as [Hwf Hcur Hnd Hlt Hvp Hdisj].
  destruct (cloneTree_ok _ _ _ _ Hwf Hc)
    as (Hwf1 & Hext1 & Hsbh & Hub & Hk & Hself & Hnext & Hrange & Hndc).
  assert (Hsub : children_np c ⊆ node_ptrs c).
  { apply children_np_node_ptrs. }
  destruct Hsbh as [_ Hscopes _ _ _ (C1 & C2 & _) _ _ _]. split.
  - done.
  - intros s Hs. simpl in *.
    rewrite C1 in Hs. destruct (Hcur _ Hs) as (sc & ? & ?).
    exists sc. rewrite Hscopes, C2. done.
  - eapply sublist_NoDup; [apply Hndc|].
    etrans; [|apply var_ptrs_sublist]. rewrite var_ptrs_children.
    by apply sublist_inserts_l.
  - intros p Hp. simpl. apply Hsub, Hrange in Hp. lia.
  - apply children_vp_subseteq.
  - intros s sc vs Hs Hsc Hvs Hin. simpl in *. rewrite Hscopes in Hsc.
    destruct (wf_vsc _ _ _ _ _ _ _ Hwf _ _ _ Hsc Hvs) as (_ & _ & Hlt').
    apply children_vp_subseteq, Hsub, Hrange in Hin. lia.
Qed.

(** The visitors that clone: the original stays, the clone is linked
    under the current scope and iterated. *)
Lemma clone_link_ok (v : visitor) n st c st1 c' st' :
  visit_ok v → pre (var_ptrs n) (node_ptrs n) st →
  cloneTree n st = (c, st1) →
  children_vp c' = children_vp c → children_np c' = children_np c →
  linkAndIterate v c' (set_user2p (<[self n := self c]> (user2p st1)) st1) = Ok st' →
  post (var_ptrs n) (node_ptrs n) st (vars_ptrs [n]) (nodes_ptrs [n]) st'.
Proof.
  intros Hv Hpre Hc Hcv Hcn Hl.
  pose proof Hpre as [Hwf Hcur Hnd Hlt Hvp Hdisj].
  destruct (cloneTree_ok _ _ _ _ Hwf Hc)
    as (Hwf1 & Hext1 & Hsbh & Hub & Hk & Hself & Hnext & Hrange & Hndc).
  set (st2 := set_user2p _ st1) in *.
  assert (S1 : step (next st) (var_ptrs n) (node_ptrs n) st st1).
  { destruct Hsbh. by apply step_heap. }
  assert (S2 : step (next st) (var_ptrs n) (node_ptrs n) st1 st2).
  { split; try done.
    - exact (ext_refl st1).
    - intros s sc sc' vs _ Hs Hs' Hvs. left. simpl in Hs'. congruence.
    - intros p _ Hp. simpl. rewrite lookup_insert_ne; [done|].
      intros <-. apply Hp, self_node_ptrs. }
  assert (Hsub : children_np c ⊆ node_ptrs c).
  { apply children_np_node_ptrs. }
  assert (Hpre2 : pre (children_vp c') (children_np c') st2).
  { rewrite Hcv, Hcn. exact (clone_pre n st c st1 Hpre Hc). }
  assert (S3 : step (next st) (var_ptrs n) (node_ptrs n) st2 st').
  { eapply step_weaken; [eapply (linkAndIterate_step v (next st)); [done..| |done]| | |].
    - simpl. lia.
    - done.
    - intros p Hp. right. rewrite Hcv in Hp.
      apply children_vp_subseteq, Hsub, Hrange in Hp. lia.
    - intros p Hp. right. rewrite Hcn in Hp. apply Hsub, Hrange in Hp. lia. }
  rewrite vars_ptrs_singleton, nodes_ptrs_singleton.
  apply step_post; [|done| |done].
  - eapply step_trans; [done|]. eapply step_trans; done.
  - intros p Hp. specialize (Hlt _ Hp).
    pose proof (ext_next' _ _ (step_ext _ _ _ _ _ S3)). simpl in *. lia.
Qed.

Lemma visit_block_ok (v : visitor) : visit_ok v → visit_ok (visit_block v).
Proof.
  intros Hv n st ns st' Hpre Hvis. unfold visit_block in Hvis.
  destruct (cloneTree n st) as [c st1] eqn:Hc.
  apply bind_Ok in Hvis as (st2 & Hl & Hvis). injection Hvis as <- <-.
  by eapply clone_link_ok.
Qed.

Lemma visit_AstCFunc_ok (v : visitor) : visit_ok v → visit_ok (visit_AstCFunc v).
Proof.
  intros Hv n st ns st' Hpre Hvis. unfold visit_AstCFunc in Hvis.
  destruct (cloneTree n st) as [c st1] eqn:Hc.
  apply bind_Ok in Hvis as (st2 & Hl & Hvis). injection Hvis as <- <-.
  eapply clone_link_ok; [done..| | |done]; done.
Qed.

Lemma visit_AstNodeFTask_ok (v : visitor) classMethod :
  visit_ok v → visit_ok (visit_AstNodeFTask v classMethod).
Proof.
  intros Hv n st ns st' Hpre Hvis. unfold visit_AstNodeFTask in Hvis.
  destruct classMethod.
  - apply bind_Ok in Hvis as (st2 & Hl & Hvis). injection Hvis as <- <-.
    pose proof Hpre as [Hwf Hcur Hnd Hlt Hvp Hdisj].
    set (st1 := set_user2p _ st) in *.
    assert (S0 : step (next st) [] [self n] st st1).
    { split; try done.
      - exact (ext_refl st).
      - intros s sc sc' vs _ Hs Hs' Hvs. left. simpl in Hs'. congruence.
      - intros p _ Hp. simpl. rewrite lookup_insert_ne; [done|].
        intros <-. apply Hp, list_elem_of_singleton. done. }
    assert (S1 : step (next st) (var_ptrs n) (node_ptrs n) st st1).
    { eapply step_weaken; [exact S0|done| |].
      - intros p Hp. by apply elem_of_nil in Hp.
      - intros p Hp. left. apply list_elem_of_singleton in Hp as ->.
        apply self_node_ptrs. }
    assert (S2 : step (next st) (var_ptrs n) (node_ptrs n) st1 st2).
    { assert (Hpre1 : pre (children_vp n) (children_np n) st1).
      { eapply pre_step; [by apply pre_children|exact S0|done|].
        intros p Hp. by apply elem_of_nil in Hp. }
      assert (Hle : next st ≤ next st1) by (simpl; lia).
      pose proof (linkAndIterate_step v (next st) n st1 st2 Hv Hpre1 Hle Hl) as S.
      eapply step_weaken; [exact S|done| |].
      - intros p Hp. left. by apply children_vp_var_ptrs.
      - intros p Hp. left. by apply children_np_node_ptrs. }
    apply step_post.
    + by eapply step_trans.
    + apply sublist_nil_l.
    + intros p Hp. by apply elem_of_nil in Hp.
    + done.
  - destruct (cloneTree n st) as [c st1] eqn:Hc.
    apply bind_Ok in Hvis as (st2 & Hl & Hvis). injection Hvis as <- <-.
    by eapply clone_link_ok.
Qed.

Lemma var_ptrs_leaf k p : k ≠ KVar → var_ptrs (Node k p [] [] [] []) = [].
Proof. intros Hk. rewrite var_ptrs_eq. simpl. by rewrite decide_False. Qed.

Lemma node_ptrs_leaf k p : node_ptrs (Node k p [] [] [] []) = [p].
Proof. by rewrite node_ptrs_eq. Qed.

Lemma visit_AstScopeName_ok (v : visitor) n st ns st' :
  visit_ok v → kind n ≠ KVar →
  pre (var_ptrs n) (node_ptrs n) st → visit_AstScopeName v n st = Ok (ns, st') →
  post (var_ptrs n) (node_ptrs n) st (vars_ptrs ns) (nodes_ptrs ns) st'.
Proof.
  intros Hv Hk Hpre Hvis. unfold visit_AstScopeName in Hvis.
  apply bind_Ok in Hvis as (scp & Escp%deref_Ok & Hvis).
  apply bind_Ok in Hvis as (sc & Esc%deref_Ok & Hvis).
  simpl in Hvis.
  apply bind_Ok in Hvis as ([n' st3] & Eit & Hvis). injection Hvis as <- <-.
  set (st2 := set_next (S (S (next st))) _) in *.
  set (n0 := Node (kind n) (self n) _ _ (op3p n) (op4p n)) in *.
  pose proof Hpre as [Hwf Hcur Hnd Hlt Hvp Hdisj].
  assert (Hcv : children_vp n0 = children_vp n).
  { unfold children_vp. simpl op1p. simpl op2p. simpl op3p. simpl op4p.
    rewrite !vars_ptrs_cons. rewrite !var_ptrs_leaf by done. done. }
  assert (Hcn : ∀ p, p ∈ children_np n0 →
                     p ∈ children_np n ∨ next st ≤ p < S (S (next st))).
  { intros p. unfold children_np. simpl op1p. simpl op2p. simpl op3p. simpl op4p.
    rewrite !nodes_ptrs_cons, !node_ptrs_leaf.
    rewrite !elem_of_app, !list_elem_of_singleton. simpl.
    naive_solver lia. }
  assert (S1 : step (next st) (var_ptrs n) (node_ptrs n) st st2).
  { apply step_heap; try done.
    - apply (wf_next_mono (next st)); [unfold st2; simpl; lia|done].
    - destruct (ext_refl st). split; eauto. unfold st2; simpl. lia. }
  assert (Hpre2 : pre (children_vp n0) (children_np n0) st2).
  { rewrite Hcv. apply pre_children in Hpre.
    destruct Hpre as [? ? ? Hlt' Hvp' ?]. split; try done.
    - apply (wf_next_mono (next st)); [unfold st2; simpl; lia|done].
    - intros p Hp. unfold st2; simpl. destruct (Hcn _ Hp) as [?|?]; [|lia].
      assert (p < next st) by auto. lia.
    - intros p Hp. apply Hvp' in Hp. clear -Hp. unfold children_np in *.
      simpl op1p. simpl op2p. simpl op3p. simpl op4p.
      rewrite !nodes_ptrs_cons. set_solver. }
  destruct (iterateChildren_ok _ Hv _ _ _ _ Hpre2 Eit) as (Hpost & Hk' & Hself).
  rewrite vars_ptrs_singleton, nodes_ptrs_singleton.
  rewrite (var_ptrs_children n'), (node_ptrs_children n').
  assert (Hh : head_vp n' = []).
  { unfold head_vp. rewrite Hk'. simpl. by rewrite decide_False. }
  rewrite Hh. simpl.
  destruct Hpost as [? Pext ? ? ? ? ? ? Pvp Pnp Pvpnp ?].
  apply step_post.
  - eapply step_trans; [done|]. eapply step_weaken.
    + split; done.
    + simpl. lia.
    + intros p Hp. left. rewrite Hcv in Hp. by apply children_vp_var_ptrs.
    + intros p Hp. destruct (Hcn _ Hp) as [?|?]; [left|right; lia].
      by apply children_np_node_ptrs.
  - rewrite var_ptrs_children. apply sublist_inserts_l. by rewrite <- Hcv.
  - intros p [->|Hp]%elem_of_cons; [|auto].
    rewrite Hself. simpl.
    assert (self n < next st) by apply Hlt, self_node_ptrs.
    pose proof (ext_next' _ _ Pext) as Hn. unfold st2 in Hn. simpl in *. lia.
  - clear -Pvpnp. set_solver.
Qed.

Lemma scopeName_Ok leaf st name :
  scopeName leaf st = Ok name →
  match m_aboveScopep st with
  | None => name = "TOP"
  | Some a => ∃ sc l, scopes st !! a = Some sc ∧ leaf = Ok l
                      ∧ name = scope_name sc +:+ "." +:+ l
  end.
Proof.
  unfold scopeName. destruct (m_aboveScopep st) as [a|]; [|congruence].
  intros H. apply bind_Ok in H as (sc & Hsc%deref_Ok & H).
  apply bind_Ok in H as (l & Hl & H). injection H as <-. eauto.
Qed.

Lemma visit_AstClass_ok (v : visitor) name n st ns st' :
  visit_ok v → kind n = KClass name →
  pre (var_ptrs n) (node_ptrs n) st → visit_AstClass v name n st = Ok (ns, st') →
  post (var_ptrs n) (node_ptrs n) st (vars_ptrs ns) (nodes_ptrs ns) st'.
Proof.
  intros Hv Hk Hpre Hvis. unfold visit_AstClass in Hvis.
  apply bind_Ok in Hvis as (scopename & Ename & Hvis).
  apply bind_Ok in Hvis as (scp & Escp%deref_Ok & Hvis).
  apply bind_Ok in Hvis as ([n' st5] & Eit & Hvis). injection Hvis as <- <-.
  simpl in Escp. injection Escp as <-.
  set (st4 := user1ClearTree (newScope _ _ _)) in *.
  set (n0 := Node (kind n) (self n) _ (op2p n) (op3p n) (op4p n)) in *.
  pose proof Hpre as [Hwf Hcur Hnd Hlt Hvp Hdisj].
  assert (Hwf4 : wf st4) by (by apply wf_new_scope).
  assert (Hext4 : ext st st4).
  { exact (ext_newScope (user1ClearTree (set_m_aboveScopep (m_scopep st) st))
             scopename (m_modp st) Hwf). }
  assert (Hcv : children_vp n0 = children_vp n).
  { unfold children_vp. simpl op1p. simpl op2p. simpl op3p. simpl op4p.
    rewrite vars_ptrs_app, vars_ptrs_singleton, var_ptrs_leaf by done.
    by rewrite app_nil_r. }
  assert (Hcn : ∀ p, p ∈ children_np n0 ↔ p ∈ children_np n ∨ p = next st).
  { intros p. unfold children_np. simpl op1p. simpl op2p. simpl op3p. simpl op4p.
    rewrite nodes_ptrs_app, nodes_ptrs_singleton, node_ptrs_leaf.
    rewrite !elem_of_app, !list_elem_of_singleton. naive_solver. }
  assert (Hpre4 : pre (children_vp n0) (children_np n0) st4).
  { rewrite Hcv. apply pre_children in Hpre.
    destruct Hpre as [? ? ? Hlt' Hvp' ?]. split; try done.
    - intros s Hs. simpl in Hs. injection Hs as <-. eexists.
      unfold st4. simpl. rewrite lookup_insert_eq. done.
    - intros p Hp. unfold st4. simpl. apply Hcn in Hp as [Hp| ->]; [|lia].
      assert (p < next st) by auto. lia.
    - intros p Hp. apply Hcn. left. auto.
    - intros s sc vs Hs Hsc Hvs. unfold st4 in Hs, Hsc. simpl in Hs, Hsc.
      injection Hs as <-. rewrite lookup_insert_eq in Hsc. injection Hsc as <-.
      by apply elem_of_nil in Hvs. }
  destruct (iterateChildren_ok _ Hv _ _ _ _ Hpre4 Eit) as (Hpost & Hk' & Hself).
  destruct Hpost as [Pwf Pext Pcur Pmod Ppkg Pframe Pcurv Pu2 Pvp Pnp Pvpnp Pub].
  destruct Pcur as (C1 & C2 & C3 & C4).
  rewrite vars_ptrs_singleton, nodes_ptrs_singleton.
  rewrite (var_ptrs_children n'), (node_ptrs_children n').
  assert (Hh : head_vp n' = []).
  { unfold head_vp. rewrite Hk'. simpl. rewrite Hk. by rewrite decide_False. }
  rewrite Hh. simpl.
  assert (Hframe : ∀ s, s < next st → scopes st5 !! s = scopes st !! s).
  { intros s Hs. rewrite Pframe.
    - unfold st4. simpl. rewrite lookup_insert_ne; [done|lia].
    - unfold st4. simpl. lia.
    - unfold st4. simpl. intros [= Heq]. lia. }
  apply step_post.
  - split; simpl; try done.
    + exact (ext_trans _ _ _ Hext4 Pext).
    + intros s Hs _. by apply Hframe.
    + intros s sc sc' vs Hs Hsc Hsc' Hvs. left.
      rewrite Hframe in Hsc'; [congruence|].
      by eapply (wf_scope_lt _ _ _ _ _ _ _ Hwf).
    + intros p Hp Hnp. rewrite Pu2; [done|unfold st4; simpl; lia|].
      rewrite Hcn. intros [?| ->]; [|lia].
      apply Hnp. by apply children_np_node_ptrs.
  - rewrite var_ptrs_children. apply sublist_inserts_l. by rewrite <- Hcv.
  - intros p [->|Hp]%elem_of_cons; [|by apply Pnp].
    rewrite Hself. simpl.
    assert (self n < next st) by apply Hlt, self_node_ptrs.
    pose proof (ext_next' _ _ Pext) as Hn. unfold st4 in Hn. simpl in *. lia.
  - clear -Pvpnp. set_solver.
Qed.

(** ** The visitor below a module *)

Lemma visit_visit_ok opt fuel : visit_ok (visit opt fuel).
Proof.
  induction fuel as [|fuel IH]; intros n st ns st' Hpre Hvis; [done|].
  simpl in Hvis. destruct (kind n) eqn:Hk.
  all: try (by eapply visit_AstNode_ok).
  all: try (by eapply visit_block_ok).
  - by eapply visit_AstClass_ok.
  - eapply visit_AstCellInline_ok; [|done..]. congruence.
  - by eapply visit_AstCFunc_ok.
  - by eapply visit_AstNodeFTask_ok.
  - by eapply visit_AstVar_ok.
  - by eapply visit_AstVarRef_ok.
  - eapply visit_AstScopeName_ok; [done| |done..]. congruence.
  - by eapply visit_AstScope_ok.
Qed.

Lemma mstep_refl st : wf st → mstep st st.
Proof. intros. split; auto using ext_refl. Qed.

Lemma mstep_trans st st1 st2 : mstep st st1 → mstep st1 st2 → mstep st st2.
Proof.
  intros [? E1 F1 ? ? ?] [? E2 F2 ? ? ?]. split; try done; try congruence.
  - by eapply ext_trans.
  - intros s Hs. rewrite F2, F1; [done..|].
    pose proof (ext_next' _ _ E1). lia.
  - auto.
Qed.

Lemma visit_cells_ok vm l : module_ok vm →
  ∀ st st', wf st → visit_cells vm l st = Ok st' →
    mstep st st' ∧ m_scopep st' = m_scopep st.
Proof.
  intros Hvm. induction l as [|n l IHl]; intros st st' Hwf Hvis; simpl in Hvis.
  { injection Hvis as <-. split; [by apply mstep_refl|done]. }
  destruct (kind n) eqn:Hk; try (by apply IHl).
  destruct modp as [modp|]; [|done].
  apply bind_Ok in Hvis as (st1 & Evm & Hvis).
  set (st0 := set_m_aboveScopep _ (set_m_aboveCellp _ st)) in *.
  destruct (Hvm modp st0 st1 Hwf Evm) as [W1 E1 F1 C1 A1 U1].
  apply IHl in Hvis as [[W2 E2 F2 C2 A2 U2] S2]; [|exact W1].
  split; [|exact S2]. split.
  - exact W2.
  - exact (ext_trans st st1 st' E1 E2).
  - intros s Hs. rewrite F2; [by apply F1|].
    pose proof (ext_next' _ _ E1) as Hn. simpl in *. lia.
  - exact C2.
  - exact A2.
  - intros Hub. apply U2, U1, Hub.
Qed.

Lemma module_var_ptrs_addStmtp n m :
  var_ptrs n = [] → module_var_ptrs (addStmtp n m) = module_var_ptrs m.
Proof.
  intros Hn. unfold module_var_ptrs. simpl.
  by rewrite vars_ptrs_app, vars_ptrs_singleton, Hn, app_nil_r.
Qed.

Lemma module_node_ptrs_addStmtp n m p :
  p ∈ module_node_ptrs (addStmtp n m) ↔ p ∈ module_node_ptrs m ∨ p ∈ node_ptrs n.
Proof.
  unfold module_node_ptrs. simpl.
  rewrite nodes_ptrs_app, nodes_ptrs_singleton, !elem_of_app. naive_solver.
Qed.

(** The second half of a module visit: the scope is put under the
    module and the module's children are iterated. *)
Lemma module_tail opt fuel stC modp nodep' scopeNode stE cur sc0 st' top :
  wf stC → m_scopep stC = Some cur → scopes stC !! cur = Some sc0 →
  varsp sc0 = [] → aboveCellp sc0 = m_aboveCellp stC →
  modules stC !! modp = Some nodep' →
  var_ptrs scopeNode = [] → (∀ p, p ∈ node_ptrs scopeNode → p < next stE) →
  next stC ≤ next stE →
  stE = set_next (next stE) (set_m_modp (Some modp) (user1ClearTree stC)) →
  (let nodep := addStmtp scopeNode nodep' in
   let st := set_modules (<[modp := nodep]> (modules stE)) stE in
   '(o1, st) ← iterateAndNext (visit opt fuel) (inlinesp nodep) st;
   '(o2, st) ← iterateAndNext (visit opt fuel) (stmtsp nodep) st;
   '(o3, st) ← iterateAndNext (visit opt fuel) (activesp nodep) st;
   let nodep := mkModule (mod_self nodep) (mod_name nodep) (isPackage nodep)
                         top o1 o2 o3 in
   Ok (set_modules (<[modp := nodep]> (modules st)) st)) = Ok st' →
  wf st' ∧ ext stC st'
  ∧ (∀ s, s < next stC → s ≠ cur → scopes st' !! s = scopes stC !! s)
  ∧ m_aboveCellp st' = m_aboveCellp stC ∧ m_aboveScopep st' = m_aboveScopep stC
  ∧ (unbound stC → unbound st').
Proof.
  intros WC Hcur Hsc0 Hvars Hcell Enodep' Hsv Hsn HnE HstE Hvis.
  cbv zeta in Hvis.
  set (nodep2 := addStmtp scopeNode nodep') in *.
  set (stF := set_modules _ stE) in *.
  apply bind_Ok in Hvis as ([o1 st1] & E1 & Hvis).
  apply bind_Ok in Hvis as ([o2 st2] & E2 & Hvis).
  apply bind_Ok in Hvis as ([o3 st3] & E3 & Hvis).
  injection Hvis as <-.
  destruct (wf_modules _ _ _ _ _ _ _ WC _ _ Enodep') as [Hnd Hlt].
  assert (HwfF : wf stF).
  { unfold stF. rewrite HstE. simpl.
    apply wf_set_module.
    - apply (wf_next_mono (next stC)); [done|exact WC].
    - unfold nodep2. by rewrite module_var_ptrs_addStmtp.
    - intros x [Hx|Hx]%module_node_ptrs_addStmtp; [|auto].
      specialize (Hlt _ Hx). simpl. lia. }
  assert (HextF : ext stC stF).
  { unfold stF. rewrite HstE. destruct (ext_refl stC). split; eauto. }
  assert (HpreF : pre (module_var_ptrs nodep2) (module_node_ptrs nodep2) stF).
  { split.
    - done.
    - intros s Hs. unfold stF in Hs. rewrite HstE in Hs. simpl in Hs.
      rewrite Hcur in Hs. injection Hs as <-.
      exists sc0. unfold stF. rewrite HstE. simpl. done.
    - unfold nodep2. by rewrite module_var_ptrs_addStmtp.
    - unfold stF. rewrite HstE. simpl.
      intros x [Hx|Hx]%module_node_ptrs_addStmtp; [|auto].
      specialize (Hlt _ Hx). lia.
    - unfold module_var_ptrs, module_node_ptrs.
      pose proof (vars_ptrs_subseteq (inlinesp nodep2)).
      pose proof (vars_ptrs_subseteq (stmtsp nodep2)).
      pose proof (vars_ptrs_subseteq (activesp nodep2)). set_solver.
    - intros s sc vs Hs Hsc Hvs. unfold stF in Hs, Hsc. rewrite HstE in Hs, Hsc.
      simpl in Hs, Hsc. rewrite Hcur in Hs. injection Hs as <-.
      rewrite Hsc0 in Hsc. injection Hsc as <-. rewrite Hvars in Hvs.
      by apply elem_of_nil in Hvs. }
  assert (Hpost : post (module_var_ptrs nodep2) (module_node_ptrs nodep2) stF
                       (vars_ptrs o1 ++ vars_ptrs o2 ++ vars_ptrs o3)
                       (nodes_ptrs o1 ++ nodes_ptrs o2 ++ nodes_ptrs o3) st3).
  { pose proof (visit_visit_ok opt fuel) as Hv.
    pose proof (vars_ptrs_subseteq (inlinesp nodep2)).
    pose proof (vars_ptrs_subseteq (stmtsp nodep2)).
    pose proof (vars_ptrs_subseteq (activesp nodep2)).
    eapply seq_post; [done|set_solver|done| |].
    { intros. by eapply iterateAndNext_ok. }
    intros. eapply seq_post; [done|set_solver|done| |].
    { intros. by eapply iterateAndNext_ok. }
    intros. by eapply iterateAndNext_ok. }
  destruct Hpost as [Pwf Pext Pcur Pmod Ppkg Pframe Pcurv Pu2 Pvp Pnp Pvpnp Pub].
  destruct Pcur as (P1 & P2 & P3 & P4).
  split; [|split; [|split; [|split; [|split]]]].
  - simpl. apply wf_set_module; [done| |].
    + unfold module_var_ptrs. simpl. eapply sublist_NoDup; [|exact Pvp].
      by destruct HpreF.
    + unfold module_node_ptrs. simpl. done.
  - eapply ext_trans; [exact HextF|]. destruct Pext. split; eauto.
  - intros s Hs Hne. simpl. rewrite Pframe.
    + unfold stF. rewrite HstE. simpl. done.
    + unfold stF. rewrite HstE. simpl. lia.
    + unfold stF. rewrite HstE. simpl. rewrite Hcur. congruence.
  - simpl. rewrite P2. unfold stF. rewrite HstE. simpl. done.
  - simpl. rewrite P3. unfold stF. rewrite HstE. simpl. done.
  - intros Hub. apply Pub. unfold stF. rewrite HstE. exact Hub.
Qed.

Lemma iterateAndNext_app {St} (v : AstNode → St → result (list AstNode * St))
    l1 l2 st ns st' :
  iterateAndNext v (l1 ++ l2) st = Ok (ns, st') →
  ∃ ns1 st1 ns2,
    iterateAndNext v l1 st = Ok (ns1, st1)
    ∧ iterateAndNext v l2 st1 = Ok (ns2, st') ∧ ns = ns1 ++ ns2.
Proof.
  revert st ns. induction l1 as [|n l1 IH]; intros st ns Hit.
  - exists [], st, ns. done.
  - rewrite <- app_comm_cons in Hit. cbn [iterateAndNext] in *.
    apply bind_Ok in Hit as ([a st0] & E0 & Hit).
    apply bind_Ok in Hit as ([b st2] & E2 & Hit). injection Hit as <- <-.
    destruct (IH _ _ E2) as (ns1 & st1 & ns2 & F1 & F2 & ->).
    exists (a ++ ns1), st1, ns2. rewrite E0. cbn [mbind result_bind].
    rewrite F1. cbn [mbind result_bind]. by rewrite app_assoc.
Qed.

Lemma iterateAndNext_app_intro {St} (v : AstNode → St → result (list AstNode * St))
    l1 l2 st ns1 st1 ns2 st2 :
  iterateAndNext v l1 st = Ok (ns1, st1) →
  iterateAndNext v l2 st1 = Ok (ns2, st2) →
  iterateAndNext v (l1 ++ l2) st = Ok (ns1 ++ ns2, st2).
Proof.
  revert st ns1. induction l1 as [|n l1 IH]; intros st ns1 H1 H2.
  - cbn [iterateAndNext] in H1. injection H1 as <- <-. done.
  - rewrite <- app_comm_cons. cbn [iterateAndNext] in *.
    apply bind_Ok in H1 as ([a st0] & E0 & H1).
    apply bind_Ok in H1 as ([b st3] & E3 & H1). injection H1 as <- <-.
    rewrite E0. cbn [mbind result_bind].
    rewrite (IH _ _ E3 H2). cbn [mbind result_bind]. by rewrite app_assoc.
Qed.

Lemma iterateChildren_kind {St} (v : AstNode → St → result (list AstNode * St))
    n st n' st' :
  iterateChildren v n st = Ok (n', st') → kind n' = kind n ∧ self n' = self n.
Proof.
  unfold iterateChildren. intros H.
  apply bind_Ok in H as ([o1 s1] & _ & H). apply bind_Ok in H as ([o2 s2] & _ & H).
  apply bind_Ok in H as ([o3 s3] & _ & H). apply bind_Ok in H as ([o4 s4] & _ & H).
  by injection H as <- <-.
Qed.

(** Whatever a visit leaves in place of a node, the markers among it
    name the scope that was current. *)
Lemma visit_inline_out opt fuel n st ns st' :
  visit opt fuel n st = Ok (ns, st') → Forall (inline_in (m_scopep st)) ns.
Proof.
  destruct fuel as [|fuel]; [done|]. cbn [visit].
  assert (Hsame : (∀ sp, kind n ≠ KCellInline sp) →
                  Forall (inline_in (m_scopep st)) [n]).
  { intros Hk. apply Forall_singleton. intros sp Hsp. by destruct (Hk sp). }
  assert (Hic : ∀ m s m' s', (∀ sp, kind m ≠ KCellInline sp) →
              iterateChildren (visit opt fuel) m s = Ok (m', s') →
              Forall (inline_in (m_scopep st)) [m']).
  { intros m s m' s' Hk Hit. apply iterateChildren_kind in Hit as [E _].
    apply Forall_singleton. intros sp Hsp. destruct (Hk sp). congruence. }
  destruct (kind n) eqn:Hk; intros Hvis;
    try (unfold visit_AstNode in Hvis;
         apply bind_Ok in Hvis as ([n' s1] & Eit & Hvis); injection Hvis as <- <-;
         refine (Hic _ _ _ _ _ Eit); intros sp; rewrite Hk; discriminate);
    try (unfold visit_block in Hvis; destruct (cloneTree n st);
         apply bind_Ok in Hvis as (s2 & _ & Hvis); injection Hvis as <- <-;
         apply Hsame; intros sp; discriminate).
  - (* AstClass *)
    unfold visit_AstClass in Hvis.
    apply bind_Ok in Hvis as (nm & _ & Hvis).
    apply bind_Ok in Hvis as (scp & _ & Hvis).
    apply bind_Ok in Hvis as ([n' s1] & Eit & Hvis). injection Hvis as <- <-.
    refine (Hic _ _ _ _ _ Eit). intros sp. cbn [kind]. rewrite Hk. discriminate.
  - (* AstCellInline *)
    unfold visit_AstCellInline in Hvis. injection Hvis as <- <-.
    apply Forall_singleton. intros sp Hsp. cbn [kind] in Hsp. congruence.
  - (* AstActive *) done.
  - (* AstCFunc *)
    unfold visit_AstCFunc in Hvis. destruct (cloneTree n st).
    apply bind_Ok in Hvis as (s2 & _ & Hvis). injection Hvis as <- <-.
    apply Hsame; intros sp; discriminate.
  - (* AstNodeFTask *)
    unfold visit_AstNodeFTask in Hvis. destruct classMethod.
    + apply bind_Ok in Hvis as (s2 & _ & Hvis). injection Hvis as <- <-. constructor.
    + destruct (cloneTree n st).
      apply bind_Ok in Hvis as (s2 & _ & Hvis). injection Hvis as <- <-.
      apply Hsame; intros sp; discriminate.
  - (* AstVar *)
    unfold visit_AstVar in Hvis. destruct (user1p st !! self n).
    + injection Hvis as <- <-. apply Hsame; intros sp; discriminate.
    + cbn [alloc] in Hvis.
      apply bind_Ok in Hvis as (scp & _ & Hvis).
      apply bind_Ok in Hvis as (sc & _ & Hvis).
      apply bind_Ok in Hvis as (v & _ & Hvis).
      apply bind_Ok in Hvis as ([] & _ & Hvis). injection Hvis as <- <-.
      apply Hsame; intros sp; discriminate.
  - (* AstVarRef *)
    unfold visit_AstVarRef in Hvis.
    apply bind_Ok in Hvis as (r & _ & Hvis).
    destruct (varp r); [|done].
    apply bind_Ok in Hvis as (v & _ & Hvis).
    destruct (isIfaceRef v); injection Hvis as <- <-;
      apply Hsame; intros sp; discriminate.
  - (* AstScopeName *)
    unfold visit_AstScopeName in Hvis.
    apply bind_Ok in Hvis as (scp & _ & Hvis).
    apply bind_Ok in Hvis as (sc & _ & Hvis). cbn [alloc] in Hvis.
    apply bind_Ok in Hvis as ([n' s1] & Eit & Hvis). injection Hvis as <- <-.
    refine (Hic _ _ _ _ _ Eit). intros sp. cbn [kind]. rewrite Hk. discriminate.
  - (* AstScope *)
    unfold visit_AstScope in Hvis. injection Hvis as <- <-.
    apply Hsame; intros sp; discriminate.
Qed.

Lemma iterateAndNext_inline opt fuel l : ∀ st ns st',
  pre (vars_ptrs l) (nodes_ptrs l) st →
  iterateAndNext (visit opt fuel) l st = Ok (ns, st') →
  Forall (inline_in (m_scopep st)) ns.
Proof.
  induction l as [|n l IHl]; intros st ns st' Hpre Hit; cbn [iterateAndNext] in Hit.
  - injection Hit as <- <-. constructor.
  - apply bind_Ok in Hit as ([ns1 st1] & E1 & Hit).
    apply bind_Ok in Hit as ([ns2 st2] & E2 & Hit). injection Hit as <- <-.
    rewrite vars_ptrs_cons, nodes_ptrs_cons in Hpre.
    pose proof (visit_visit_ok opt fuel n st ns1 st1
                  (pre_app_l _ _ _ _ _ (var_ptrs_subseteq n) Hpre) E1) as Hpost.
    pose proof (pre_app_r _ _ _ _ _ _ _ _ (vars_ptrs_subseteq l) Hpre Hpost) as Hpre1.
    destruct Hpost as [_ _ (C1 & _) _ _ _ _ _ _ _ _ _].
    apply Forall_app. split; [by eapply visit_inline_out|].
    rewrite <- C1. by eapply IHl.
Qed.

(** The state in which the children of a visited module are iterated. *)
Lemma module_tail_pre stC modp nodep' scopeNode stE cur sc0 :
  wf stC → m_scopep stC = Some cur → scopes stC !! cur = Some sc0 →
  varsp sc0 = [] → aboveCellp sc0 = m_aboveCellp stC →
  modules stC !! modp = Some nodep' →
  var_ptrs scopeNode = [] → (∀ p, p ∈ node_ptrs scopeNode → p < next stE) →
  next stC ≤ next stE →
  stE = set_next (next stE) (set_m_modp (Some modp) (user1ClearTree stC)) →
  pre (module_var_ptrs (addStmtp scopeNode nodep'))
      (module_node_ptrs (addStmtp scopeNode nodep'))
      (set_modules (<[modp := addStmtp scopeNode nodep']> (modules stE)) stE).
Proof.
  intros WC Hcur Hsc0 Hvars Hcell Enodep' Hsv Hsn HnE HstE.
  set (nodep2 := addStmtp scopeNode nodep') in *.
  set (stF := set_modules _ stE) in *.
  destruct (wf_modules _ _ _ _ _ _ _ WC _ _ Enodep') as [Hnd Hlt].
  assert (HwfF : wf stF).
  { unfold stF. rewrite HstE. simpl.
    apply wf_set_module.
    - apply (wf_next_mono (next stC)); [done|exact WC].
    - unfold nodep2. by rewrite module_var_ptrs_addStmtp.
    - intros x [Hx|Hx]%module_node_ptrs_addStmtp; [|auto].
      specialize (Hlt _ Hx). simpl. lia. }
  split.
  - done.
  - intros s Hs. unfold stF in Hs. rewrite HstE in Hs. simpl in Hs.
    rewrite Hcur in Hs. injection Hs as <-.
    exists sc0. unfold stF. rewrite HstE. simpl. done.
  - unfold nodep2. by rewrite module_var_ptrs_addStmtp.
  - unfold stF. rewrite HstE. simpl.
    intros x [Hx|Hx]%module_node_ptrs_addStmtp; [|auto].
    specialize (Hlt _ Hx). lia.
  - unfold module_var_ptrs, module_node_ptrs.
    pose proof (vars_ptrs_subseteq (inlinesp nodep2)).
    pose proof (vars_ptrs_subseteq (stmtsp nodep2)).
    pose proof (vars_ptrs_subseteq (activesp nodep2)).
    clear -H H0 H1. set_solver.
  - intros s sc vs Hs Hsc Hvs. unfold stF in Hs, Hsc. rewrite HstE in Hs, Hsc.
    simpl in Hs, Hsc. rewrite Hcur in Hs. injection Hs as <-.
    rewrite Hsc0 in Hsc. injection Hsc as <-. rewrite Hvars in Hvs.
    by apply elem_of_nil in Hvs.
Qed.

(** The second half of a module visit, seen from the module: the cursor
    it leaves and the children it puts under the module. *)
Lemma module_tail_tree opt fuel stC modp nodep' scopeNode stE cur sc0 st' top :
  wf stC → m_scopep stC = Some cur → scopes stC !! cur = Some sc0 →
  varsp sc0 = [] → aboveCellp sc0 = m_aboveCellp stC →
  modules stC !! modp = Some nodep' →
  var_ptrs scopeNode = [] → (∀ p, p ∈ node_ptrs scopeNode → p < next stE) →
  next stC ≤ next stE →
  stE = set_next (next stE) (set_m_modp (Some modp) (user1ClearTree stC)) →
  (let nodep := addStmtp scopeNode nodep' in
   let st := set_modules (<[modp := nodep]> (modules stE)) stE in
   '(o1, st) ← iterateAndNext (visit opt fuel) (inlinesp nodep) st;
   '(o2, st) ← iterateAndNext (visit opt fuel) (stmtsp nodep) st;
   '(o3, st) ← iterateAndNext (visit opt fuel) (activesp nodep) st;
   let nodep := mkModule (mod_self nodep) (mod_name nodep) (isPackage nodep)
                         top o1 o2 o3 in
   Ok (set_modules (<[modp := nodep]> (modules st)) st)) = Ok st' →
  m_scopep st' = Some cur ∧ m_modp st' = Some modp
  ∧ ∃ m', modules st' !! modp = Some m'
          ∧ mod_self m' = mod_self nodep' ∧ mod_name m' = mod_name nodep'
          ∧ isPackage m' = isPackage nodep' ∧ isTop m' = top
          ∧ Forall (inline_in (Some cur)) (inlinesp m')
          ∧ (∃ rest r stX stY,
              visit opt fuel scopeNode stX = Ok (r, stY)
              ∧ stmtsp m' = rest ++ r)
          ∧ ∃ l stF stG,
              pre (vars_ptrs l) (nodes_ptrs l) stF
              ∧ m_scopep stF = Some cur ∧ user1p stF = ∅
              ∧ iterateAndNext (visit opt fuel) l stF
                = Ok (inlinesp m' ++ stmtsp m' ++ activesp m', stG)
              ∧ m_varScopes st' = m_varScopes stG.
Proof.
  intros WC Hcur Hsc0 Hvars Hcell Enodep' Hsv Hsn HnE HstE Hvis.
  pose proof (module_tail_pre stC modp nodep' scopeNode stE cur sc0
                WC Hcur Hsc0 Hvars Hcell Enodep' Hsv Hsn HnE HstE) as HpreF.
  cbv zeta in Hvis.
  set (nodep2 := addStmtp scopeNode nodep') in *.
  set (stF := set_modules _ stE) in *.
  apply bind_Ok in Hvis as ([o1 st1] & E1 & Hvis).
  apply bind_Ok in Hvis as ([o2 st2] & E2 & Hvis).
  apply bind_Ok in Hvis as ([o3 st3] & E3 & Hvis).
  injection Hvis as <-.
  pose proof (visit_visit_ok opt fuel) as Hv.
  pose proof (vars_ptrs_subseteq (inlinesp nodep2)) as S1.
  pose proof (vars_ptrs_subseteq (stmtsp nodep2)) as S2.
  pose proof (vars_ptrs_subseteq (activesp nodep2)) as S3.
  assert (S23 : vars_ptrs (stmtsp nodep2) ++ vars_ptrs (activesp nodep2)
                ⊆ nodes_ptrs (stmtsp nodep2) ++ nodes_ptrs (activesp nodep2)).
  { clear -S2 S3. set_solver. }
  unfold module_var_ptrs, module_node_ptrs in HpreF.
  pose proof (pre_app_l _ _ _ _ _ S1 HpreF) as Hpre1.
  pose proof (iterateAndNext_ok _ Hv _ _ _ _ Hpre1 E1) as P1.
  pose proof (pre_app_r _ _ _ _ _ _ _ _ S23 HpreF P1) as Hpre23.
  pose proof (pre_app_l _ _ _ _ _ S2 Hpre23) as Hpre2.
  pose proof (iterateAndNext_ok _ Hv _ _ _ _ Hpre2 E2) as P2.
  pose proof (pre_app_r _ _ _ _ _ _ _ _ S3 Hpre23 P2) as Hpre3.
  pose proof (iterateAndNext_ok _ Hv _ _ _ _ Hpre3 E3) as P3.
  destruct P1 as [_ _ (A1 & _ & _ & A4) _ _ _ _ _ _ _ _ _].
  destruct P2 as [_ _ (B1 & _ & _ & B4) _ _ _ _ _ _ _ _ _].
  destruct P3 as [_ _ (C1 & _ & _ & C4) _ _ _ _ _ _ _ _ _].
  assert (HsF : m_scopep stF = Some cur).
  { unfold stF. rewrite HstE. simpl. done. }
  assert (HmF : m_modp stF = Some modp).
  { unfold stF. rewrite HstE. simpl. done. }
  split; [simpl; congruence|]. split; [simpl; congruence|].
  eexists. split; [simpl; apply lookup_insert_eq|]. cbn.
  repeat (split; [done|]).
  split; [|split].
  - rewrite <- HsF. by eapply iterateAndNext_inline.
  - unfold nodep2 in E2. cbn [stmtsp addStmtp] in E2.
    apply iterateAndNext_app in E2 as (rest & stX & r & F1 & F2 & ->).
    cbn [iterateAndNext] in F2.
    apply bind_Ok in F2 as ([r1 stY] & G1 & F2).
    injection F2 as <- <-. exists rest, r1, stX, stY.
    split; [done|]. by rewrite app_nil_r.
  - exists (inlinesp nodep2 ++ stmtsp nodep2 ++ activesp nodep2), stF, st3.
    split; [by rewrite !vars_ptrs_app, !nodes_ptrs_app|].
    split; [done|]. split; [unfold stF; rewrite HstE; reflexivity|].
    split; [|reflexivity].
    apply (iterateAndNext_app_intro _ _ _ _ _ _ _ _ E1).
    exact (iterateAndNext_app_intro _ _ _ _ _ _ _ _ E2 E3).
Qed.

Lemma visit_scopeNodeOf opt fuel top p scp st r st' :
  visit opt fuel (scopeNodeOf top p scp) st = Ok (r, st') →
  r = [scopeNodeOf top p scp].
Proof.
  destruct top; cbn [scopeNodeOf].
  - destruct fuel as [|[|fuel]]; [done..|]. intros H. by injection H as <- <-.
  - destruct fuel as [|fuel]; [done|]. intros H. by injection H as <- <-.
Qed.

Lemma visit_AstNodeModule_body opt fuel :
  module_ok (visit_AstNodeModule opt fuel) →
  ∀ modp st st', wf st → visit_AstNodeModule opt (S fuel) modp st = Ok st' →
    ∃ nodep scopename,
      modules st !! modp = Some nodep
      ∧ scopeName (cell_name <$> deref (m_aboveCellp st)) st = Ok scopename
      ∧ wf (scopeMade modp nodep scopename st)
      ∧ ext (scopeMade modp nodep scopename st) st'
      ∧ mstep st st'
      ∧ m_scopep st' = Some (next st) ∧ m_modp st' = Some modp
      ∧ ∃ m' rest p,
          modules st' !! modp = Some m'
          ∧ Forall (inline_in (Some (next st))) (inlinesp m')
          ∧ stmtsp m' = rest ++ [scopeNodeOf (isTop m') p (next st)]
          ∧ next st < p
          ∧ ∃ l stF stG,
              pre (vars_ptrs l) (nodes_ptrs l) stF
              ∧ m_scopep stF = Some (next st) ∧ user1p stF = ∅
              ∧ iterateAndNext (visit opt fuel) l stF
                = Ok (inlinesp m' ++ stmtsp m' ++ activesp m', stG)
              ∧ m_varScopes st' = m_varScopes stG.
Proof.
  intros IH modp st st' Hwf Hvis.
  simpl in Hvis.
  apply bind_Ok in Hvis as (nodep & Enodep%deref_Ok & Hvis).
  apply bind_Ok in Hvis as (scopename & Ename & Hvis).
  set (stA := newScope scopename (Some modp) (user1ClearTree st)) in *.
  set (stB := if isPackage nodep then _ else stA) in *.
  apply bind_Ok in Hvis as (stC & Ecells & Hvis).
  apply bind_Ok in Hvis as (nodep' & Enodep'%deref_Ok & Hvis).
  apply bind_Ok in Hvis as (scp' & Escp'%deref_Ok & Hvis).
  simpl in Enodep', Escp'.
  (* the scope is made *)
  assert (HwfA : wf stA) by (by apply wf_new_scope).
  assert (HextA : ext st stA) by exact (ext_newScope (user1ClearTree st) _ _ Hwf).
  assert (HscA : scopes stA !! next st
                 = Some (mkScope scopename (Some modp) (m_aboveScopep st)
                                 (m_aboveCellp st) [] [])).
  { unfold stA. simpl. by rewrite lookup_insert_eq. }
  assert (HB : wf stB ∧ ext stA stB ∧ scopes stB = scopes stA
               ∧ next stB = next stA ∧ m_scopep stB = Some (next st)
               ∧ m_aboveCellp stB = m_aboveCellp st
               ∧ m_aboveScopep stB = m_aboveScopep st
               ∧ varrefs stB = varrefs st).
  { unfold stB. destruct (isPackage nodep); [|by auto 10 using ext_refl].
    split; [|split; [|done]].
    - eapply (wf_insert_package _ _ _ _ _ _ _ HwfA); [exact HscA|done].
    - destruct (ext_refl stA). split; eauto. apply map_insert_new_subseteq. }
  destruct HB as (HwfB & HextB & HscB & HnB & HcurB & HcellB & HabB & HrefB).
  assert (HstB : stB = scopeMade modp nodep scopename st).
  { reflexivity. }
  clearbody stB.
  (* the cells *)
  destruct (visit_cells_ok _ _ IH _ _ HwfB Ecells) as [[WC EC FC CC AC UC] SC].
  assert (HscC : scopes stC !! next st
                 = Some (mkScope scopename (Some modp) (m_aboveScopep st)
                                 (m_aboveCellp st) [] [])).
  { rewrite FC, HscB; [done|]. rewrite HnB. unfold stA. simpl. lia. }
  assert (Hscp' : scp' = next st) by congruence. subst scp'.
  assert (HnC : S (next st) ≤ next stC).
  { pose proof (ext_next' _ _ EC) as Hn. rewrite HnB in Hn. unfold stA in Hn.
    simpl in Hn. done. }
  assert (Htail : wf st' ∧ ext stC st'
    ∧ (∀ s, s < next stC → s ≠ next st → scopes st' !! s = scopes stC !! s)
    ∧ m_aboveCellp st' = m_aboveCellp stC ∧ m_aboveScopep st' = m_aboveScopep stC
    ∧ (unbound stC → unbound st')).
  { destruct (isTop nodep').
    - eapply (module_tail opt fuel stC modp nodep'
                (Node KTopScope (next stC) [] [Node KScope (next st) [] [] [] []] [] [])
                (set_next (S (next stC)) (set_m_modp (Some modp) (user1ClearTree stC)))
                (next st) _ st' true WC);
        [by rewrite SC|exact HscC|done|simpl; by rewrite CC| exact Enodep'
        | | | | |exact Hvis]; simpl.
      + reflexivity.
      + intros p. cbn. set_solver by lia.
      + lia.
      + done.
    - eapply (module_tail opt fuel stC modp nodep'
                (Node KScope (next st) [] [] [] [])
                (set_m_modp (Some modp) (user1ClearTree stC))
                (next st) _ st' false WC);
        [by rewrite SC|exact HscC|done|simpl; by rewrite CC| exact Enodep'
        | | | | |exact Hvis]; simpl.
      + reflexivity.
      + intros p. cbn. set_solver by lia.
      + lia.
      + by destruct stC. }
  assert (Htree : m_scopep st' = Some (next st) ∧ m_modp st' = Some modp
    ∧ ∃ m' rest p,
        modules st' !! modp = Some m'
        ∧ Forall (inline_in (Some (next st))) (inlinesp m')
        ∧ stmtsp m' = rest ++ [scopeNodeOf (isTop m') p (next st)]
        ∧ next st < p
        ∧ ∃ l stF stG,
            pre (vars_ptrs l) (nodes_ptrs l) stF
            ∧ m_scopep stF = Some (next st) ∧ user1p stF = ∅
            ∧ iterateAndNext (visit opt fuel) l stF
              = Ok (inlinesp m' ++ stmtsp m' ++ activesp m', stG)
            ∧ m_varScopes st' = m_varScopes stG).
  { destruct (isTop nodep').
    - destruct (module_tail_tree opt fuel stC modp nodep'
                  (scopeNodeOf true (next stC) (next st))
                  (set_next (S (next stC)) (set_m_modp (Some modp) (user1ClearTree stC)))
                  (next st)
                  (mkScope scopename (Some modp) (m_aboveScopep st) (m_aboveCellp st) [] [])
                  st' true WC)
        as (T1 & T2 & m' & Tm & _ & _ & _ & Ttop & Tin & (rest & r & stX & stY & Tv & Ts) & Tl);
        [by rewrite SC|exact HscC|done|simpl; by rewrite CC|exact Enodep'
        |reflexivity| |simpl; lia|done|exact Hvis|].
      + intros p. cbn. clear -HnC. set_solver by lia.
      + split; [done|]. split; [done|]. exists m', rest, (next stC).
        apply visit_scopeNodeOf in Tv as ->. rewrite Ttop.
        repeat (split; [done|]). first [exact Tl|split; [lia|exact Tl]].
    - destruct (module_tail_tree opt fuel stC modp nodep'
                  (scopeNodeOf false (S (next st)) (next st))
                  (set_m_modp (Some modp) (user1ClearTree stC))
                  (next st)
                  (mkScope scopename (Some modp) (m_aboveScopep st) (m_aboveCellp st) [] [])
                  st' false WC)
        as (T1 & T2 & m' & Tm & _ & _ & _ & Ttop & Tin & (rest & r & stX & stY & Tv & Ts) & Tl);
        [by rewrite SC|exact HscC|done|simpl; by rewrite CC|exact Enodep'
        |reflexivity| |simpl; lia|by destruct stC|exact Hvis|].
      + intros p. cbn. clear -HnC. set_solver by lia.
      + split; [done|]. split; [done|]. exists m', rest, (S (next st)).
        apply visit_scopeNodeOf in Tv as ->. rewrite Ttop.
        repeat (split; [done|]). first [exact Tl|split; [lia|exact Tl]]. }
  destruct Htail as (Wt & Et & Ft & Ct & At & Ut).
  exists nodep, scopename. split; [done|]. split; [done|].
  rewrite <- HstB. split; [done|]. split; [by eapply ext_trans|].
  split; [|exact Htree].
  split.
  - done.
  - eapply ext_trans; [exact HextA|]. eapply ext_trans; [exact HextB|].
    eapply ext_trans; [exact EC|]. done.
  - intros s Hs. rewrite Ft, FC, HscB; [|rewrite HnB; unfold stA; simpl; lia|lia..].
    unfold stA. simpl. rewrite lookup_insert_ne; [done|lia].
  - by rewrite Ct, CC.
  - by rewrite At, AC.
  - intros Hub. apply Ut, UC. unfold unbound. rewrite HrefB. exact Hub.
Qed.

Lemma visit_AstNodeModule_ok opt fuel : module_ok (visit_AstNodeModule opt fuel).
Proof.
  induction fuel as [|fuel IH]; intros modp st st' Hwf Hvis; [done|].
  by destruct (visit_AstNodeModule_body opt fuel IH modp st st' Hwf Hvis)
    as (? & ? & _ & _ & _ & _ & ? & _).
Qed.

Lemma header_self a b : header a = header b → self a = self b.
Proof. unfold header. by intros [= ? _]. Qed.

Lemma header_same n n' : kind n' = kind n → self n' = self n → header n' = header n.
Proof. unfold header. by intros -> ->. Qed.

Lemma visit_out opt fuel n st ns st' :
  visit opt fuel n st = Ok (ns, st') → header <$> ns = header <$> filter (λ x, unlinksItself x = false) [n].
Proof.
  destruct fuel as [|fuel]; [done|]. cbn [visit].
  assert (Hstay : ∀ n', kind n' = kind n → self n' = self n →
            unlinksItself n = false →
            header <$> [n'] = header <$> filter (λ x, unlinksItself x = false) [n]).
  { intros n' Hk Hs Hu. rewrite filter_cons_True by done. rewrite filter_nil.
    cbn. by rewrite (header_same _ _ Hk Hs). }
  assert (Hic : ∀ m s m' s', kind m = kind n → self m = self n →
              unlinksItself n = false →
              iterateChildren (visit opt fuel) m s = Ok (m', s') →
              header <$> [m'] = header <$> filter (λ x, unlinksItself x = false) [n]).
  { intros m s m' s' Hk Hs Hu Hit. apply iterateChildren_kind in Hit as [E1 E2].
    apply Hstay; [congruence|congruence|done]. }
  unfold unlinksItself in Hstay, Hic.
  destruct (kind n) eqn:Hk; intros Hvis;
    try (unfold visit_AstNode in Hvis;
         apply bind_Ok in Hvis as ([n' s1] & Eit & Hvis); injection Hvis as <- <-;
         exact (Hic _ _ _ _ Hk eq_refl eq_refl Eit));
    try (unfold visit_block in Hvis; destruct (cloneTree n st);
         apply bind_Ok in Hvis as (s2 & _ & Hvis); injection Hvis as <- <-;
         exact (Hstay n Hk eq_refl eq_refl)).
  - (* AstClass *)
    unfold visit_AstClass in Hvis.
    apply bind_Ok in Hvis as (nm & _ & Hvis).
    apply bind_Ok in Hvis as (scp & _ & Hvis).
    apply bind_Ok in Hvis as ([n' s1] & Eit & Hvis). injection Hvis as <- <-.
    refine (Hic _ _ _ _ _ _ eq_refl Eit); [cbn [kind]; by rewrite Hk|done].
  - (* AstCellInline *)
    unfold visit_AstCellInline in Hvis. injection Hvis as <- <-.
    rewrite filter_cons_True by (unfold unlinksItself; by rewrite Hk).
    rewrite filter_nil. cbn. unfold header. cbn. by rewrite Hk.
  - (* AstActive *) done.
  - (* AstCFunc *)
    unfold visit_AstCFunc in Hvis. destruct (cloneTree n st).
    apply bind_Ok in Hvis as (s2 & _ & Hvis). injection Hvis as <- <-.
    exact (Hstay n Hk eq_refl eq_refl).
  - (* AstNodeFTask *)
    unfold visit_AstNodeFTask in Hvis. destruct classMethod.
    + apply bind_Ok in Hvis as (s2 & _ & Hvis). injection Hvis as <- <-.
      rewrite filter_cons_False; [done|]. unfold unlinksItself. by rewrite Hk.
    + destruct (cloneTree n st).
      apply bind_Ok in Hvis as (s2 & _ & Hvis). injection Hvis as <- <-.
      exact (Hstay n Hk eq_refl eq_refl).
  - (* AstVar *)
    unfold visit_AstVar in Hvis. destruct (user1p st !! self n).
    + injection Hvis as <- <-. exact (Hstay n Hk eq_refl eq_refl).
    + cbn [alloc] in Hvis.
      apply bind_Ok in Hvis as (scp & _ & Hvis).
      apply bind_Ok in Hvis as (sc & _ & Hvis).
      apply bind_Ok in Hvis as (v & _ & Hvis).
      apply bind_Ok in Hvis as ([] & _ & Hvis). injection Hvis as <- <-.
      exact (Hstay n Hk eq_refl eq_refl).
  - (* AstVarRef *)
    unfold visit_AstVarRef in Hvis.
    apply bind_Ok in Hvis as (r & _ & Hvis).
    destruct (varp r); [|done].
    apply bind_Ok in Hvis as (v & _ & Hvis).
    destruct (isIfaceRef v); injection Hvis as <- <-;
      exact (Hstay n Hk eq_refl eq_refl).
  - (* AstScopeName *)
    unfold visit_AstScopeName in Hvis.
    apply bind_Ok in Hvis as (scp & _ & Hvis).
    apply bind_Ok in Hvis as (sc & _ & Hvis). cbn [alloc] in Hvis.
    apply bind_Ok in Hvis as ([n' s1] & Eit & Hvis). injection Hvis as <- <-.
    refine (Hic _ _ _ _ _ _ eq_refl Eit); [cbn [kind]; by rewrite Hk|done].
  - (* AstScope *)
    unfold visit_AstScope in Hvis. injection Hvis as <- <-.
    exact (Hstay n Hk eq_refl eq_refl).
Qed.

(** Iterating over siblings keeps them in order, the same objects of the
    same types, except for the nodes that unlink themselves. *)
Lemma iterateAndNext_out opt fuel l : ∀ st ns st',
  iterateAndNext (visit opt fuel) l st = Ok (ns, st') →
  header <$> ns = header <$> filter (λ x, unlinksItself x = false) l.
Proof.
  induction l as [|n l IHl]; intros st ns st' Hit; cbn [iterateAndNext] in Hit.
  { by injection Hit as <- <-. }
  apply bind_Ok in Hit as ([ns1 st1] & E1 & Hit).
  apply bind_Ok in Hit as ([ns2 st2] & E2 & Hit). injection Hit as <- <-.
  rewrite fmap_app, (visit_out _ _ _ _ _ _ E1), (IHl _ _ _ E2).
  change (n :: l) with ([n] ++ l). by rewrite filter_app, fmap_app.
Qed.

(** ** The steps of a module visit *)

Lemma scopeMade_modules modp nodep scopename st :
  modules (scopeMade modp nodep scopename st) = modules st.
Proof. unfold scopeMade. by destruct (isPackage nodep). Qed.

Lemma scopeMade_varScopes modp nodep scopename st :
  m_varScopes (scopeMade modp nodep scopename st) = m_varScopes st.
Proof. unfold scopeMade. by destruct (isPackage nodep). Qed.

Lemma scopeMade_next modp nodep scopename st :
  next (scopeMade modp nodep scopename st) = S (next st).
Proof. unfold scopeMade. by destruct (isPackage nodep). Qed.

Lemma scopeMade_packageScopes modp nodep scopename st :
  m_packageScopes (scopeMade modp nodep scopename st)
  = if isPackage nodep
    then map_insert_new modp (next st) (m_packageScopes st)
    else m_packageScopes st.
Proof. unfold scopeMade. by destruct (isPackage nodep). Qed.

(** A module visit taken apart: the scope is made, the cells of the
    module are visited, the scope is put under the module and the three
    lists of children are iterated. *)
Lemma visit_AstNodeModule_parts opt fuel modp st st' :
  wf st → visit_AstNodeModule opt (S fuel) modp st = Ok st' →
  ∃ nodep scopename stC nodep' stF st1 st2 stG o1 o2 o3,
    modules st !! modp = Some nodep
    ∧ wf (scopeMade modp nodep scopename st)
    ∧ visit_cells (visit_AstNodeModule opt fuel) (stmtsp nodep)
        (scopeMade modp nodep scopename st) = Ok stC
    ∧ mstep (scopeMade modp nodep scopename st) stC
    ∧ modules stC !! modp = Some nodep'
    ∧ (let nodep2 :=
         addStmtp (scopeNodeOf (isTop nodep') (next stC) (next st)) nodep' in
       modules stF = <[modp := nodep2]> (modules stC)
       ∧ m_varScopes stF = m_varScopes stC
       ∧ m_packageScopes stF = m_packageScopes stC
       ∧ next stC ≤ next stF
       ∧ m_scopep stF = Some (next st) ∧ user1p stF = ∅
       ∧ pre (module_var_ptrs nodep2) (module_node_ptrs nodep2) stF
       ∧ iterateAndNext (visit opt fuel) (inlinesp nodep2) stF = Ok (o1, st1)
       ∧ iterateAndNext (visit opt fuel) (stmtsp nodep2) st1 = Ok (o2, st2)
       ∧ iterateAndNext (visit opt fuel) (activesp nodep2) st2 = Ok (o3, stG)
       ∧ modules stG = modules stF
       ∧ m_packageScopes stG = m_packageScopes stF
       ∧ vars_ptrs o1 ++ vars_ptrs o2 ++ vars_ptrs o3
         `sublist_of` module_var_ptrs nodep'
       ∧ st' = set_modules
                 (<[modp := mkModule (mod_self nodep2) (mod_name nodep2)
                              (isPackage nodep2) (isTop nodep2) o1 o2 o3]>
                    (modules stG)) stG).
Proof.
  intros Hwf Hvis. simpl in Hvis.
  apply bind_Ok in Hvis as (nodep & Enodep%deref_Ok & Hvis).
  apply bind_Ok in Hvis as (scopename & Ename & Hvis).
  set (stA := newScope scopename (Some modp) (user1ClearTree st)) in *.
  set (stB := if isPackage nodep then _ else stA) in *.
  apply bind_Ok in Hvis as (stC & Ecells & Hvis).
  apply bind_Ok in Hvis as (nodep' & Enodep'%deref_Ok & Hvis).
  apply bind_Ok in Hvis as (scp' & Escp'%deref_Ok & Hvis).
  simpl in Enodep', Escp'.
  assert (HwfA : wf stA) by (by apply wf_new_scope).
  assert (HscA : scopes stA !! next st
                 = Some (mkScope scopename (Some modp) (m_aboveScopep st)
                                 (m_aboveCellp st) [] [])).
  { unfold stA. simpl. by rewrite lookup_insert_eq. }
  assert (HB : wf stB ∧ scopes stB = scopes stA
               ∧ next stB = next stA ∧ m_scopep stB = Some (next st)
               ∧ m_aboveCellp stB = m_aboveCellp st).
  { unfold stB. destruct (isPackage nodep); [|done].
    split; [|done].
    eapply (wf_insert_package _ _ _ _ _ _ _ HwfA); [exact HscA|done]. }
  destruct HB as (HwfB & HscB & HnB & HcurB & HcellB).
  assert (HstB : stB = scopeMade modp nodep scopename st) by reflexivity.
  clearbody stB.
  pose proof (visit_cells_ok _ _ (visit_AstNodeModule_ok opt fuel) _ _ HwfB Ecells)
    as [HmC SC].
  pose proof HmC as [WC EC FC CC AC UC].
  assert (HscC : scopes stC !! next st
                 = Some (mkScope scopename (Some modp) (m_aboveScopep st)
                                 (m_aboveCellp st) [] [])).
  { rewrite FC, HscB; [done|]. rewrite HnB. unfold stA. simpl. lia. }
  assert (Hscp' : scp' = next st) by congruence. subst scp'.
  assert (HnC : S (next st) ≤ next stC).
  { pose proof (ext_next' _ _ EC) as Hn. rewrite HnB in Hn. unfold stA in Hn.
    simpl in Hn. done. }
  set (scopeNode := scopeNodeOf (isTop nodep') (next stC) (next st)).
  set (stE := if isTop nodep'
              then set_next (S (next stC)) (set_m_modp (Some modp) (user1ClearTree stC))
              else set_m_modp (Some modp) (user1ClearTree stC)).
  assert (HE : stE = set_next (next stE) (set_m_modp (Some modp) (user1ClearTree stC))
               ∧ next stC ≤ next stE
               ∧ (∀ x, x ∈ node_ptrs scopeNode → x < next stE)
               ∧ var_ptrs scopeNode = []).
  { unfold stE, scopeNode. destruct (isTop nodep'); cbn [scopeNodeOf].
    - split; [reflexivity|]. split; [simpl; lia|]. split; [|reflexivity].
      intros x. cbn. clear -HnC. set_solver by lia.
    - split; [by destruct stC|]. split; [simpl; lia|]. split; [|reflexivity].
      intros x. cbn. clear -HnC. set_solver by lia. }
  destruct HE as (HstE & HnE & Hsn & Hsv).
  assert (Hvis' :
    (let nodep := addStmtp scopeNode nodep' in
     let st := set_modules (<[modp := nodep]> (modules stE)) stE in
     '(o1, st) ← iterateAndNext (visit opt fuel) (inlinesp nodep) st;
     '(o2, st) ← iterateAndNext (visit opt fuel) (stmtsp nodep) st;
     '(o3, st) ← iterateAndNext (visit opt fuel) (activesp nodep) st;
     let nodep := mkModule (mod_self nodep) (mod_name nodep) (isPackage nodep)
                           (isTop nodep) o1 o2 o3 in
     Ok (set_modules (<[modp := nodep]> (modules st)) st)) = Ok st').
  { unfold stE, scopeNode. destruct (isTop nodep') eqn:Htop; cbn [scopeNodeOf];
      simpl; rewrite ?Htop; exact Hvis. }
  clear Hvis.
  assert (Hcur : m_scopep stC = Some (next st)) by (by rewrite SC).
  pose proof (module_tail_pre stC modp nodep' scopeNode stE (next st) _
                WC Hcur HscC eq_refl
                (ltac:(simpl; by rewrite CC) : aboveCellp
                   (mkScope scopename (Some modp) (m_aboveScopep st)
                      (m_aboveCellp st) [] []) = m_aboveCellp stC)
                Enodep' Hsv Hsn HnE HstE) as HpreF.
  cbv zeta in Hvis'.
  set (nodep2 := addStmtp scopeNode nodep') in *.
  set (stF := set_modules _ stE) in *.
  apply bind_Ok in Hvis' as ([o1 st1] & E1 & Hvis').
  apply bind_Ok in Hvis' as ([o2 st2] & E2 & Hvis').
  apply bind_Ok in Hvis' as ([o3 st3] & E3 & Hvis').
  injection Hvis' as <-.
  pose proof (visit_visit_ok opt fuel) as Hv.
  pose proof (vars_ptrs_subseteq (inlinesp nodep2)) as S1.
  pose proof (vars_ptrs_subseteq (stmtsp nodep2)) as S2.
  pose proof (vars_ptrs_subseteq (activesp nodep2)) as S3.
  assert (S23 : vars_ptrs (stmtsp nodep2) ++ vars_ptrs (activesp nodep2)
                ⊆ nodes_ptrs (stmtsp nodep2) ++ nodes_ptrs (activesp nodep2)).
  { clear -S2 S3. set_solver. }
  pose proof HpreF as HpreF'.
  unfold module_var_ptrs, module_node_ptrs in HpreF'.
  pose proof (pre_app_l _ _ _ _ _ S1 HpreF') as Hpre1.
  pose proof (iterateAndNext_ok _ Hv _ _ _ _ Hpre1 E1) as P1.
  pose proof (pre_app_r _ _ _ _ _ _ _ _ S23 HpreF' P1) as Hpre23.
  pose proof (pre_app_l _ _ _ _ _ S2 Hpre23) as Hpre2.
  pose proof (iterateAndNext_ok _ Hv _ _ _ _ Hpre2 E2) as P2.
  pose proof (pre_app_r _ _ _ _ _ _ _ _ S3 Hpre23 P2) as Hpre3.
  pose proof (iterateAndNext_ok _ Hv _ _ _ _ Hpre3 E3) as P3.
  destruct P1 as [_ _ _ M1 K1 _ _ _ V1 _ _ _].
  destruct P2 as [_ _ _ M2 K2 _ _ _ V2 _ _ _].
  destruct P3 as [_ _ _ M3 K3 _ _ _ V3 _ _ _].
  exists nodep, scopename, stC, nodep', stF, st1, st2, st3, o1, o2, o3.
  rewrite <- HstB.
  split; [done|]. split; [done|]. split; [done|]. split; [done|]. split; [done|].
  cbv zeta. fold scopeNode. fold nodep2.
  assert (HmF : modules stF = <[modp := nodep2]> (modules stC)).
  { unfold stF. rewrite HstE. reflexivity. }
  assert (HvF : m_varScopes stF = m_varScopes stC).
  { unfold stF. rewrite HstE. reflexivity. }
  assert (HpF : m_packageScopes stF = m_packageScopes stC).
  { unfold stF. rewrite HstE. reflexivity. }
  split; [done|]. split; [done|]. split; [done|].
  split; [unfold stF; simpl; lia|].
  split; [unfold stF; rewrite HstE; exact Hcur|].
  split; [unfold stF; rewrite HstE; reflexivity|].
  split; [done|]. split; [done|]. split; [done|]. split; [done|].
  split; [congruence|]. split; [congruence|]. split; [|reflexivity].
  rewrite <- (module_var_ptrs_addStmtp scopeNode nodep' Hsv). fold nodep2.
  unfold module_var_ptrs. by repeat apply sublist_app.
Qed.

Lemma cons_inv {A} (x y : A) l l' : x :: l = y :: l' → x = y ∧ l = l'.
Proof. by intros [= -> ->]. Qed.

Lemma cellOf_header a b : header a = header b → cellOf a = cellOf b.
Proof.
  unfold header, cellOf. intros [= _ Hk].
  destruct (kind a), (kind b); try discriminate Hk; try done; by injection Hk as -> -> ->.
Qed.

Lemma cellsOf_header l : ∀ l', header <$> l = header <$> l' → cellsOf l = cellsOf l'.
Proof.
  induction l as [|a l IH]; intros [|b l'] H; try done.
  rewrite !fmap_cons in H. apply cons_inv in H as [Hh Ht]. unfold cellsOf. cbn [omap list_omap].
  rewrite (cellOf_header _ _ Hh). fold (cellsOf l). fold (cellsOf l').
  by rewrite (IH _ Ht).
Qed.

Lemma cellsOf_stays l :
  cellsOf (filter (λ x, unlinksItself x = false) l) = cellsOf l.
Proof.
  induction l as [|a l IH]; [done|]. rewrite filter_cons.
  destruct (decide (unlinksItself a = false)) as [E|E].
  - unfold cellsOf in *. cbn [omap list_omap]. by rewrite IH.
  - unfold cellsOf in *. cbn [omap list_omap]. rewrite IH.
    unfold unlinksItself, cellOf in *. by destruct (kind a).
Qed.

Lemma cellsOf_app l1 l2 : cellsOf (l1 ++ l2) = cellsOf l1 ++ cellsOf l2.
Proof. apply omap_app. Qed.

Lemma iterateAndNext_cells opt fuel l st ns st' :
  iterateAndNext (visit opt fuel) l st = Ok (ns, st') → cellsOf ns = cellsOf l.
Proof.
  intros Hit. rewrite (cellsOf_header _ _ (iterateAndNext_out _ _ _ _ _ _ Hit)).
  apply cellsOf_stays.
Qed.

Lemma paths_ext fuel mods mods' p :
  (∀ x, cells (mods' !! x) = cells (mods !! x)) →
  ∀ q, paths fuel mods' q p = paths fuel mods q p.
Proof.
  intros H. induction fuel as [|fuel IH]; intros q; [done|].
  cbn [paths]. rewrite H. f_equal. f_equal.
  apply list_fmap_ext. intros _ [c|] _; [apply IH|done].
Qed.

Lemma mstat_refl st : mstat st st.
Proof. intros x. split; [done|]. split; [done|]. intros m Hm. by exists m. Qed.

Lemma mstat_trans a b c : mstat a b → mstat b c → mstat a c.
Proof.
  intros H1 H2 x. destruct (H1 x) as (C1 & S1 & V1), (H2 x) as (C2 & S2 & V2).
  split; [congruence|]. split; [auto|].
  intros m'' Hm''. destruct (V2 _ Hm'') as (m' & Hm' & P2 & L2).
  destruct (V1 _ Hm') as (m & Hm & P1 & L1).
  exists m. split; [done|]. split; [congruence|].
  destruct L1 as [? ?], L2 as [? ?]. split; [congruence|]. by etrans.
Qed.

Lemma mstat_same st st' : modules st' = modules st → mstat st st'.
Proof. intros E x. rewrite E. apply mstat_refl. Qed.

Lemma kscopes_header (l : list AstNode) : ∀ l' : list AstNode,
  header <$> l = header <$> l' →
  self <$> filter (λ x, kind x = KScope) l = self <$> filter (λ x, kind x = KScope) l'.
Proof.
  induction l as [|a l IH]; intros [|b l'] H; try done.
  rewrite !fmap_cons in H. apply cons_inv in H as [Hh Ht]. rewrite !filter_cons.
  assert (Hs : self a = self b) by (by apply header_self).
  assert (Hk : kind a = KScope ↔ kind b = KScope).
  { unfold header in Hh. injection Hh as _ Hk.
    destruct (kind a), (kind b); try discriminate Hk; done. }
  destruct (decide (kind a = KScope)) as [E|E], (decide (kind b = KScope)) as [E'|E'];
    try tauto; cbn; rewrite (IH _ Ht); congruence.
Qed.

Lemma kvars_header (l : list AstNode) : ∀ l' : list AstNode,
  header <$> l = header <$> l' →
  self <$> filter (λ x, kind x = KVar) l = self <$> filter (λ x, kind x = KVar) l'.
Proof.
  induction l as [|a l IH]; intros [|b l'] H; try done.
  rewrite !fmap_cons in H. apply cons_inv in H as [Hh Ht]. rewrite !filter_cons.
  assert (Hs : self a = self b) by (by apply header_self).
  assert (Hk : kind a = KVar ↔ kind b = KVar).
  { unfold header in Hh. injection Hh as _ Hk.
    destruct (kind a), (kind b); try discriminate Hk; done. }
  destruct (decide (kind a = KVar)) as [E|E], (decide (kind b = KVar)) as [E'|E'];
    try tauto; cbn; rewrite (IH _ Ht); congruence.
Qed.

Lemma kvars_stays (l : list AstNode) :
  self <$> filter (λ x, kind x = KVar) (filter (λ x, unlinksItself x = false) l)
  = self <$> filter (λ x, kind x = KVar) l.
Proof.
  induction l as [|a l IH]; [done|]. rewrite !filter_cons.
  destruct (decide (unlinksItself a = false)) as [E|E].
  - rewrite filter_cons. destruct (decide (kind a = KVar)); cbn; by rewrite IH.
  - rewrite IH. destruct (decide (kind a = KVar)) as [Hk|Hk]; [|done].
    unfold unlinksItself in E. by rewrite Hk in E.
Qed.

Lemma iterateAndNext_kvars opt fuel l st ns st' :
  iterateAndNext (visit opt fuel) l st = Ok (ns, st') →
  self <$> filter (λ x, kind x = KVar) ns = self <$> filter (λ x, kind x = KVar) l.
Proof.
  intros Hit. rewrite (kvars_header _ _ (iterateAndNext_out _ _ _ _ _ _ Hit)).
  apply kvars_stays.
Qed.

Lemma kscopes_stays (l : list AstNode) :
  self <$> filter (λ x, kind x = KScope) (filter (λ x, unlinksItself x = false) l)
  = self <$> filter (λ x, kind x = KScope) l.
Proof.
  induction l as [|a l IH]; [done|]. rewrite !filter_cons.
  destruct (decide (unlinksItself a = false)) as [E|E].
  - rewrite filter_cons. destruct (decide (kind a = KScope)); cbn; by rewrite IH.
  - rewrite IH. destruct (decide (kind a = KScope)) as [Hk|Hk]; [|done].
    unfold unlinksItself in E. by rewrite Hk in E.
Qed.

Lemma scopesOf_header_nil a b :
  header a = header b → kind b ≠ KScope → kind b ≠ KTopScope → scopesOf a = [].
Proof.
  unfold header, scopesOf. intros [= _ Hk] H1 H2.
  destruct (kind a), (kind b); try discriminate Hk; done.
Qed.

(** A visit keeps the scope nodes a node stands for. *)
Lemma visit_scopesOf opt fuel n st ns st' :
  visit opt fuel n st = Ok (ns, st') → ns ≫= scopesOf = scopesOf n.
Proof.
  intros Hvis. pose proof (visit_out _ _ _ _ _ _ Hvis) as Hout.
  destruct fuel as [|fuel]; [done|]. cbn [visit] in Hvis.
  destruct (decide (kind n = KScope)) as [Hk|Hk1].
  { rewrite Hk in Hvis. unfold visit_AstScope in Hvis. injection Hvis as <- <-.
    by rewrite bind_singleton. }
  destruct (decide (kind n = KTopScope)) as [Hk|Hk2].
  { rewrite Hk in Hvis. unfold visit_AstNode, iterateChildren in Hvis.
    apply bind_Ok in Hvis as ([n' s0] & Hit & Hvis). injection Hvis as <- <-.
    apply bind_Ok in Hit as ([o1 s1] & _ & Hit).
    apply bind_Ok in Hit as ([o2 s2] & E2 & Hit).
    apply bind_Ok in Hit as ([o3 s3] & _ & Hit).
    apply bind_Ok in Hit as ([o4 s4] & _ & Hit). injection Hit as <- <-.
    rewrite bind_singleton. unfold scopesOf. cbn [kind op2p]. rewrite Hk.
    rewrite (kscopes_header _ _ (iterateAndNext_out _ _ _ _ _ _ E2)).
    apply kscopes_stays. }
  assert (E : scopesOf n = []).
  { unfold scopesOf. by destruct (kind n). }
  rewrite E. clear Hvis.
  assert (Hall : Forall (λ x, scopesOf x = []) ns).
  { apply Forall_forall. intros x Hx.
    assert (Hh : header x ∈ header <$> filter (λ y, unlinksItself y = false) [n]).
    { rewrite <- Hout. by apply list_elem_of_fmap_2. }
    apply list_elem_of_fmap in Hh as (y & Hy & Hin).
    apply list_elem_of_filter in Hin as [_ Hin].
    apply list_elem_of_singleton in Hin as ->.
    by apply (scopesOf_header_nil x n). }
  clear Hout. induction Hall as [|x l Hx Hl IH]; [done|].
  by rewrite bind_cons, Hx, IH.
Qed.

Lemma iterateAndNext_scopesOf opt fuel l : ∀ st ns st',
  iterateAndNext (visit opt fuel) l st = Ok (ns, st') →
  ns ≫= scopesOf = l ≫= scopesOf.
Proof.
  induction l as [|n l IHl]; intros st ns st' Hit; cbn [iterateAndNext] in Hit.
  { by injection Hit as <- <-. }
  apply bind_Ok in Hit as ([ns1 st1] & E1 & Hit).
  apply bind_Ok in Hit as ([ns2 st2] & E2 & Hit). injection Hit as <- <-.
  by rewrite bind_app, bind_cons, (visit_scopesOf _ _ _ _ _ _ E1), (IHl _ _ _ E2).
Qed.

Lemma visit_cells_mstat vm l :
  module_ok vm →
  (∀ modp st st', wf st → vm modp st = Ok st' → mstat st st') →
  ∀ st st', wf st → visit_cells vm l st = Ok st' → mstat st st'.
Proof.
  intros Hvm Hms. induction l as [|n l IHl]; intros st st' Hwf Hvis; simpl in Hvis.
  { injection Hvis as <-. apply mstat_refl. }
  destruct (kind n) eqn:Hk; try (by apply IHl).
  destruct modp as [modp|]; [|done].
  apply bind_Ok in Hvis as (st1 & Evm & Hvis).
  set (st0 := set_m_aboveScopep _ (set_m_aboveCellp _ st)) in *.
  destruct (Hvm modp st0 st1 Hwf Evm) as [W1 _ _ _ _ _].
  pose proof (Hms modp st0 st1 Hwf Evm) as M1.
  apply IHl in Hvis; [|exact W1].
  exact (mstat_trans st st1 st' M1 Hvis).
Qed.

Lemma module_scopes_addStmtp n m :
  module_scopes (addStmtp n m) = module_scopes m ++ scopesOf n.
Proof. unfold module_scopes. simpl. by rewrite bind_app, bind_singleton. Qed.

Lemma scopesOf_scopeNodeOf top p s : scopesOf (scopeNodeOf top p s) = [s].
Proof. by destruct top. Qed.

Lemma cellOf_scopeNodeOf top p s : cellOf (scopeNodeOf top p s) = None.
Proof. by destruct top. Qed.

Lemma var_ptrs_scopeNodeOf top p s : var_ptrs (scopeNodeOf top p s) = [].
Proof. by destruct top. Qed.

(** The module a module visit leaves under the visited address. *)
Lemma module_tail_mstat stC st' modp nodep' m' (top : bool) p s :
  modules stC !! modp = Some nodep' →
  modules st' = <[modp := m']> (<[modp := addStmtp (scopeNodeOf top p s) nodep']>
                                  (modules stC)) →
  cellsOf (stmtsp m') = cellsOf (stmtsp (addStmtp (scopeNodeOf top p s) nodep')) →
  isPackage m' = isPackage nodep' →
  kvars m' = kvars (addStmtp (scopeNodeOf top p s) nodep') →
  module_var_ptrs m' `sublist_of` module_var_ptrs nodep' →
  mstat stC st'.
Proof.
  intros Hn Hm Hc Hp Hkv Hv x. rewrite Hm.
  destruct (decide (x = modp)) as [->|Hne].
  - rewrite lookup_insert_eq, Hn. cbn [cells]. split.
    + rewrite Hc. cbn [stmtsp addStmtp]. rewrite cellsOf_app.
      unfold cellsOf at 2. cbn [omap list_omap]. rewrite cellOf_scopeNodeOf.
      by rewrite app_nil_r.
    + split; [by eexists|]. intros m0 [= <-]. exists nodep'.
      split; [done|]. split; [done|]. split; [|done].
      rewrite Hkv. unfold kvars. cbn [inlinesp stmtsp activesp addStmtp].
      rewrite !filter_app. f_equal. f_equal. f_equal. f_equal.
      rewrite filter_cons_False; [by rewrite app_nil_r|]. by destruct top.
  - rewrite !lookup_insert_ne by done. apply mstat_refl.
Qed.

(** The second half of a module visit, from the state the cells left. *)
Lemma tail_mstat opt fuel modp stC nodep' stF st1 st2 stG o1 o2 o3 st'
    (top : bool) pp s :
  let nodep2 := addStmtp (scopeNodeOf top pp s) nodep' in
  modules stC !! modp = Some nodep' →
  modules stF = <[modp := nodep2]> (modules stC) →
  iterateAndNext (visit opt fuel) (inlinesp nodep2) stF = Ok (o1, st1) →
  iterateAndNext (visit opt fuel) (stmtsp nodep2) st1 = Ok (o2, st2) →
  iterateAndNext (visit opt fuel) (activesp nodep2) st2 = Ok (o3, stG) →
  modules stG = modules stF →
  vars_ptrs o1 ++ vars_ptrs o2 ++ vars_ptrs o3 `sublist_of` module_var_ptrs nodep' →
  st' = set_modules
          (<[modp := mkModule (mod_self nodep2) (mod_name nodep2)
                       (isPackage nodep2) (isTop nodep2) o1 o2 o3]>
             (modules stG)) stG →
  mstat stC st'.
Proof.
  intros nodep2 Hn' HmF E1 E2 E3 HmG Hsub ->.
  match goal with |- mstat _ (set_modules (<[_ := ?m]> _) _) =>
    eapply (module_tail_mstat stC _ modp nodep' m)
  end.
  - done.
  - cbn [modules set_modules]. rewrite HmG, HmF. reflexivity.
  - cbn [stmtsp]. exact (iterateAndNext_cells _ _ _ _ _ _ E2).
  - reflexivity.
  - unfold kvars. cbn [inlinesp stmtsp activesp]. rewrite !filter_app, !fmap_app.
    by rewrite (iterateAndNext_kvars _ _ _ _ _ _ E1),
               (iterateAndNext_kvars _ _ _ _ _ _ E2),
               (iterateAndNext_kvars _ _ _ _ _ _ E3).
  - exact Hsub.
Qed.

Lemma visit_AstNodeModule_mstat opt fuel : ∀ modp st st',
  wf st → visit_AstNodeModule opt fuel modp st = Ok st' → mstat st st'.
Proof.
  induction fuel as [|fuel IH]; intros modp st st' Hwf Hvis; [done|].
  destruct (visit_AstNodeModule_parts _ _ _ _ _ Hwf Hvis)
    as (nodep & scopename & stC & nodep' & stF & st1 & st2 & stG & o1 & o2 & o3
        & Hn & HwfB & Hcells & HmC & Hn' & Htail).
  cbv zeta in Htail.
  destruct Htail as (HmF & _ & _ & _ & _ & _ & _ & E1 & E2 & E3 & HmG & _ & Hsub & Hst').
  eapply mstat_trans; [apply mstat_same, (scopeMade_modules modp nodep scopename)|].
  eapply mstat_trans.
  { exact (visit_cells_mstat _ _ (visit_AstNodeModule_ok opt fuel) IH _ _ HwfB Hcells). }
  exact (tail_mstat opt fuel modp stC nodep' stF st1 st2 stG o1 o2 o3 st' _ _ _
           Hn' HmF E1 E2 E3 HmG Hsub Hst').
Qed.

Lemma wf_init nodep : wf_netlist nodep → wf (initState nodep).
Proof.
  intros Hnet. split; simpl; try (intros *; rewrite lookup_empty; done).
  - intros p m Hm. apply elem_of_list_to_map_2 in Hm.
    apply list_elem_of_fmap in Hm as (m' & [= -> ->] & Hin).
    split.
    + unfold wf_netlist in Hnet. rewrite Forall_forall in Hnet. by apply Hnet.
    + intros x Hx. apply Nat.lt_succ_r, max_list_elem_of_le.
      unfold netlist_ptrs. apply elem_of_app. left.
      apply list_elem_of_In, in_concat. exists (module_ptrs m').
      split; [apply in_map, list_elem_of_In, Hin|].
      apply list_elem_of_In. unfold module_ptrs. right. exact Hx.
  - intros p [v Hp]. apply Nat.lt_succ_r, max_list_elem_of_le.
    unfold netlist_ptrs. rewrite !elem_of_app. right. left.
    apply list_elem_of_fmap. exists (p, v). split; [done|].
    by apply elem_of_map_to_list.
  - intros p [v Hp]. apply Nat.lt_succ_r, max_list_elem_of_le.
    unfold netlist_ptrs. rewrite !elem_of_app. right. right.
    apply list_elem_of_fmap. exists (p, v). split; [done|].
    by apply elem_of_map_to_list.
Qed.

Lemma refs_agree_refl m : refs_agree m m.
Proof. intros p. destruct (m !! p); done. Qed.

Lemma refs_agree_trans a b c : refs_agree a b → refs_agree b c → refs_agree a c.
Proof.
  intros H1 H2 p. specialize (H1 p). specialize (H2 p).
  destruct (a !! p), (b !! p), (c !! p); try done.
  destruct H1, H2. split; congruence.
Qed.

Lemma resolve_agree st st' it :
  refs_agree (varrefs st) (varrefs st') → vars st' = vars st →
  m_packageScopes st' = m_packageScopes st → m_varScopes st' = m_varScopes st →
  resolve st' it = resolve st it.
Proof.
  intros Hr Hv Hp Hs. unfold resolve. specialize (Hr it.1).
  destruct (varrefs st !! it.1) as [r|], (varrefs st' !! it.1) as [r'|];
    try done. simpl. destruct Hr as [Hvp Hpk].
  unfold effectiveScope, findVarScope. rewrite Hvp, Hpk, Hv, Hp, Hs. done.
Qed.

Lemma cleanupVarRef_Ok st it st' :
  cleanupVarRef st it = Ok st' →
  ∃ r b, varrefs st !! it.1 = Some r ∧ resolve st it = Ok b
         ∧ st' = set_varrefs (<[it.1 := set_varScopep (Some b) r]> (varrefs st)) st.
Proof.
  unfold cleanupVarRef. intros H.
  apply bind_Ok in H as (r & Hr%deref_Ok & H).
  apply bind_Ok in H as (b & Hb & H). injection H as <-. eauto.
Qed.

Lemma cleanupVarRefs_from_ok l : ∀ st st',
  cleanupVarRefs_from l st = Ok st' → resolved l st st'.
Proof.
  induction l as [|it l IHl]; intros st st' H; simpl in H.
  { injection H as <-. split.
    - by destruct st.
    - apply refs_agree_refl.
    - intros it Hit. by apply elem_of_nil in Hit.
    - intros p r' Hp. left. split; [|done]. apply not_elem_of_nil. }
  apply bind_Ok in H as (st1 & H1 & H).
  apply cleanupVarRef_Ok in H1 as (r & b & Hr & Hb & ->).
  set (st1 := set_varrefs _ st) in *.
  assert (Hag : refs_agree (varrefs st) (varrefs st1)).
  { intros p. unfold st1. simpl. destruct (decide (it.1 = p)) as [<-|Hne].
    - rewrite lookup_insert_eq, Hr. done.
    - rewrite lookup_insert_ne by done. destruct (varrefs st !! p); done. }
  assert (Hres : ∀ x, resolve st1 x = resolve st x).
  { intros x. by apply resolve_agree. }
  destruct (IHl _ _ H) as [Hst Hag' Hall Hbound]. split.
  - rewrite Hst. unfold st1. by destruct st.
  - by eapply refs_agree_trans.
  - intros x [->|Hx]%elem_of_cons; [eauto|].
    destruct (Hall _ Hx) as (b' & Hb'). exists b'. by rewrite <- Hres.
  - intros p r' Hp. destruct (Hbound _ _ Hp) as [[Hnin Hp1]|(s & b' & Hin & Hb' & Hv)].
    + unfold st1 in Hp1. simpl in Hp1.
      apply lookup_insert_Some in Hp1 as [[<- <-]|[Hne Hp1]].
      * right. exists it.2, b. split; [|split; [|done]].
        -- destruct it. simpl. apply elem_of_cons. by left.
        -- by destruct it.
      * left. split; [|done]. rewrite fmap_cons. apply not_elem_of_cons. done.
    + right. exists s, b'. split; [by apply elem_of_cons; right|].
      by rewrite <- Hres.
Qed.

Lemma resolved_wf l st st' : resolved l st st' → wf st → wf st'.
Proof.
  intros [Hst Hag _ _] [? ? ? ? ? ? ? ? ? ? Hrefs]. rewrite Hst. split; simpl; eauto.
  intros p [r' Hp]. apply Hrefs. specialize (Hag p). rewrite Hp in Hag.
  destruct (varrefs st !! p); [by eexists|done].
Qed.

(** The walk and the resolution that make up the first visitor. *)
Lemma ScopeVisitor_Ok opt fuel nodep st :
  wf_netlist nodep → ScopeVisitor opt fuel nodep = Ok st →
  (topModulep nodep = None
   ∧ st = v3error "No top level module found" (initState nodep))
  ∨ (∃ modp stw,
        topModulep nodep = Some modp
        ∧ visit_AstNodeModule opt fuel modp (initState nodep) = Ok stw
        ∧ mstep (initState nodep) stw
        ∧ resolved (m_varRefScopes stw) stw st ∧ wf st).
Proof.
  intros Hnet Hrun. unfold ScopeVisitor, visit_AstNetlist in Hrun.
  destruct (topModulep nodep) as [modp|]; [right|left].
  - apply bind_Ok in Hrun as (stw & Hw & Hc).
    assert (Hw' : visit_AstNodeModule opt fuel modp (initState nodep) = Ok stw)
      by exact Hw.
    pose proof (visit_AstNodeModule_ok opt fuel modp _ _ (wf_init _ Hnet) Hw') as Hm.
    apply cleanupVarRefs_from_ok in Hc.
    exists modp, stw.
    split; [done|split; [exact Hw'|split; [exact Hm|split; [exact Hc|]]]].
    eapply resolved_wf; [exact Hc|]. by destruct Hm.
  - injection Hrun as <-. split; reflexivity.
Qed.

Lemma wf_net_ab : wf_netlist net_ab.
Proof. solve_wf_netlist. Qed.

Lemma run_ab_eq : ScopeVisitor opt_ab 10 net_ab = run_ab.
Proof. vm_compute. reflexivity. Qed.

(** ** What one visit of a declaration does *)

Lemma visit_AstVar_again opt nodep st :
  is_Some (user1p st !! self nodep) → visit_AstVar opt nodep st = Ok ([nodep], st).
Proof. intros [p Hp]. unfold visit_AstVar. by rewrite Hp. Qed.

Lemma visit_AstVar_first opt nodep st ns st' :
  user1p st !! self nodep = None → visit_AstVar opt nodep st = Ok (ns, st') →
  ∃ scp sc v,
    m_scopep st = Some scp ∧ scopes st !! scp = Some sc
    ∧ vars st !! self nodep = Some v ∧ ns = [nodep]
    ∧ next st' = S (next st)
    ∧ user1p st' = <[self nodep := next st]> (user1p st)
    ∧ scopes st' = <[scp := addVarp (mkVarScope (next st) scp (self nodep)
                                       (traceOf (m_aboveCellp st))) sc]> (scopes st)
    ∧ m_varScopes st' = map_insert_new (self nodep, scp) (next st) (m_varScopes st)
    ∧ vars st' = <[self nodep :=
          let pretty := prettyName opt (scope_name sc) (var_name v) in
          let v := if isClocker opt pretty then set_attrClocker CLOCKER_YES v else v in
          if isNoClocker opt pretty then set_attrClocker CLOCKER_NO v else v]> (vars st)
    ∧ varrefs st' = varrefs st ∧ m_varRefScopes st' = m_varRefScopes st.
Proof.
  intros Hu Hvis. unfold visit_AstVar in Hvis. rewrite Hu in Hvis. simpl in Hvis.
  apply bind_Ok in Hvis as (scp & Escp%deref_Ok & Hvis).
  apply bind_Ok in Hvis as (sc & Esc%deref_Ok & Hvis).
  apply bind_Ok in Hvis as (v & Ev%deref_Ok & Hvis).
  apply bind_Ok in Hvis as ([] & _ & Hvis).
  injection Hvis as <- <-. simpl in *.
  exists scp, sc, v. repeat split; done.
Qed.

(** ** C9: no top-level module *)

(** C9.  When the netlist has no top-level module the first visitor
    records the error "No top level module found" and returns at once:
    the state is the initial one but for the error, so no scope and no
    binding exists, the worklist is empty, and no reference was touched. *)
Theorem no_top_module opt fuel nodep :
  topModulep nodep = None →
  ∃ st, ScopeVisitor opt fuel nodep = Ok st
        ∧ st = v3error "No top level module found" (initState nodep)
        ∧ errors st = ["No top level module found"]
        ∧ scopes st = ∅ ∧ m_varScopes st = ∅ ∧ m_packageScopes st = ∅
        ∧ m_varRefScopes st = [] ∧ varrefs st = net_varrefs nodep.
Proof.
  intros Htop. eexists. unfold ScopeVisitor, visit_AstNetlist. rewrite Htop.
  repeat split; reflexivity.
Qed.

Lemma no_top_module_witness :
  ∃ st, ScopeVisitor opt_ab 0 (mkNetlist [] ∅ ∅) = Ok st
        ∧ st = v3error "No top level module found" (initState (mkNetlist [] ∅ ∅))
        ∧ errors st = ["No top level module found"]
        ∧ scopes st = ∅ ∧ m_varScopes st = ∅ ∧ m_packageScopes st = ∅
        ∧ m_varRefScopes st = [] ∧ varrefs st = net_varrefs (mkNetlist [] ∅ ∅).
Proof. apply (no_top_module opt_ab 0 (mkNetlist [] ∅ ∅)). reflexivity. Defined.

(** ** C10: sensitivity blocks *)

(** C10.  The first visitor stops with the fatal internal error "Actives
    now made after scoping" on every [AstActive] node it visits, in any
    state, and the error goes up through the iteration of the siblings
    among which the node stands: once the nodes before it are visited,
    the iteration of the list ends with that error. *)
Theorem visit_AstActive_fatal opt fuel nodep :
  kind nodep = KActive →
  (∀ st, visit opt (S fuel) nodep st = Fatal "Actives now made after scoping")
  ∧ (∀ before after st ns st1,
        iterateAndNext (visit opt (S fuel)) before st = Ok (ns, st1) →
        iterateAndNext (visit opt (S fuel)) (before ++ nodep :: after) st
        = Fatal "Actives now made after scoping")
  ∧ (∀ before after st res,
        iterateAndNext (visit opt (S fuel)) (before ++ nodep :: after) st ≠ Ok res).
Proof.
  intros Hk.
  assert (H1 : ∀ st, visit opt (S fuel) nodep st = Fatal "Actives now made after scoping").
  { intros st. simpl. by rewrite Hk. }
  split; [exact H1|]. split.
  - induction before as [|n l IHl]; intros after st ns st1 Hb.
    + cbn [app iterateAndNext]. by rewrite H1.
    + rewrite <- app_comm_cons. cbn [iterateAndNext] in *.
      apply bind_Ok in Hb as ([ns0 st0] & E0 & Hb). rewrite E0.
      apply bind_Ok in Hb as ([ns2 st2] & E2 & Hb).
      cbn [mbind result_bind]. by rewrite (IHl after st0 ns2 st2 E2).
  - induction before as [|n l IHl]; intros after st res.
    + cbn [app iterateAndNext]. by rewrite H1.
    + rewrite <- app_comm_cons. cbn [iterateAndNext]. intros H.
      apply bind_Ok in H as ([ns0 st0] & E0 & H).
      apply bind_Ok in H as ([ns2 st2] & E2 & H). by eapply IHl.
Qed.

Lemma visit_AstActive_fatal_witness :
  (∀ st, visit opt_ab 1 (leaf KActive 9) st = Fatal "Actives now made after scoping")
  ∧ (∀ before after st ns st1,
        iterateAndNext (visit opt_ab 1) before st = Ok (ns, st1) →
        iterateAndNext (visit opt_ab 1) (before ++ leaf KActive 9 :: after) st
        = Fatal "Actives now made after scoping")
  ∧ (∀ before after st res,
        iterateAndNext (visit opt_ab 1) (before ++ leaf KActive 9 :: after) st ≠ Ok res).
Proof. apply (visit_AstActive_fatal opt_ab 0 (leaf KActive 9)). reflexivity. Defined.

Lemma ScopeVisitor_ab : ScopeVisitor opt_ab 10 net_ab = Ok st_ab.
Proof. vm_compute. reflexivity. Qed.

Lemma traceOf_false c :
  traceOf c = false ↔ ∃ c', c = Some c' ∧ cell_isTrace c' = false.
Proof.
  destruct c as [[p n t]|]; simpl; [destruct t; simpl|]; naive_solver.
Qed.

(** C6.  After the first visitor, the trace flag of every binding is
    decided by the cell that instantiates the binding's own scope and by
    nothing else; and there is a design in which two bindings of one
    declaration, under different cells, have opposite flags. *)
Theorem trace_depends_on_own_cell :
  (∀ opt fuel nodep st,
      wf_netlist nodep → ScopeVisitor opt fuel nodep = Ok st → trace_by_cell st)
  ∧ (∃ opt fuel nodep st sa sb sca scb va vb,
        ScopeVisitor opt fuel nodep = Ok st
        ∧ scopes st !! sa = Some sca ∧ scopes st !! sb = Some scb
        ∧ va ∈ varsp sca ∧ vb ∈ varsp scb
        ∧ vsc_varp va = vsc_varp vb
        ∧ vsc_trace va = true ∧ vsc_trace vb = false).
Proof.
  split.
  - intros opt fuel nodep st Hnet Hrun s sc vs Hs Hvs.
    assert (Hwf : wf st).
    { destruct (ScopeVisitor_Ok _ _ _ _ Hnet Hrun) as [[_ ->]|(?&?&_&_&_&_&?)];
        [exact (wf_init _ Hnet)|done]. }
    destruct (wf_vsc _ _ _ _ _ _ _ Hwf _ _ _ Hs Hvs) as (? & _).
    split; [done|].
    rewrite (wf_trace _ _ _ _ _ _ _ Hwf _ _ _ Hs Hvs). apply traceOf_false.
  - exists opt_ab, 10, net_ab, st_ab, 9, 13.
    eexists _, _, (mkVarScope 10 9 5 true), (mkVarScope 14 13 5 false).
    split; [exact ScopeVisitor_ab|].
    split; [vm_compute; reflexivity|]. split; [vm_compute; reflexivity|].
    split; [apply list_elem_of_singleton; reflexivity|].
    split; [apply list_elem_of_singleton; reflexivity|]. done.
Qed.

Lemma trace_depends_on_own_cell_witness : trace_by_cell st_ab.
Proof.
  apply (proj1 trace_depends_on_own_cell opt_ab 10 net_ab st_ab).
  - solve_wf_netlist.
  - vm_compute. reflexivity.
Defined.

Lemma resolve_Ok st it b :
  resolve st it = Ok b →
  ∃ r e v s, varrefs st !! it.1 = Some r ∧ effectiveScope st r it.2 = Ok e
             ∧ varp r = Some v ∧ e = Some s ∧ m_varScopes st !! (v, s) = Some b.
Proof.
  unfold resolve. intros H.
  apply bind_Ok in H as (r & Hr%deref_Ok & H).
  apply bind_Ok in H as (e & He & H).
  unfold findVarScope in H.
  destruct (varp r) as [v|] eqn:Hv; [|done]. destruct e as [s|]; [|done].
  destruct (m_varScopes st !! (v, s)) as [b'|] eqn:Hb; [|done].
  injection H as <-. exists r, (Some s), v, s. done.
Qed.

Lemma effectiveScope_unqualified st r scopep :
  packagep r = None → effectiveScope st r scopep = Ok scopep.
Proof. intros H. unfold effectiveScope. by rewrite H. Qed.

Lemma wf_one_binding_per_scope st : wf st → one_binding_per_scope st.
Proof.
  intros Hwf s sc Hs. split.
  - by eapply (wf_nodup _ _ _ _ _ _ _ Hwf).
  - intros vs Hvs. by destruct (wf_vsc _ _ _ _ _ _ _ Hwf _ _ _ Hs Hvs).
Qed.

Lemma wf_table_is_bindings st : wf st → table_is_bindings st.
Proof.
  intros Hwf v s b. split.
  - by apply (wf_varScopes _ _ _ _ _ _ _ Hwf).
  - intros (sc & vs & Hs & Hvs & <- & <-).
    by eapply (wf_recorded _ _ _ _ _ _ _ Hwf).
Qed.

Lemma wf_same_scope_same_binding st : wf st → same_scope_same_binding st.
Proof.
  intros Hwf it1 it2 r1 r2 e1 e2 b1 b2 Hr1 Hr2 Hv He1 He2 Hb1 Hb2.
  apply resolve_Ok in Hb1 as (r1' & e1' & v1 & s1 & Hr1' & He1' & Hv1 & -> & Hm1).
  apply resolve_Ok in Hb2 as (r2' & e2' & v2 & s2 & Hr2' & He2' & Hv2 & -> & Hm2).
  assert (r1' = r1) as -> by congruence. assert (r2' = r2) as -> by congruence.
  assert (e1 = Some s1) as -> by congruence.
  assert (e2 = Some s2) as -> by congruence.
  assert (v1 = v2) as -> by congruence.
  split.
  - intros [= ->]. congruence.
  - intros ->.
    destruct (wf_varScopes _ _ _ _ _ _ _ Hwf _ _ _ Hm1) as (sc1 & vs1 & Hs1 & Hin1 & E1 & _).
    destruct (wf_varScopes _ _ _ _ _ _ _ Hwf _ _ _ Hm2) as (sc2 & vs2 & Hs2 & Hin2 & E2 & _).
    assert (vs1 = vs2).
    { eapply (wf_self_inj _ _ _ _ _ _ _ Hwf); [exact Hs1|exact Hs2|done..|congruence]. }
    subst vs2.
    destruct (wf_vsc _ _ _ _ _ _ _ Hwf _ _ _ Hs1 Hin1) as (<- & _).
    destruct (wf_vsc _ _ _ _ _ _ _ Hwf _ _ _ Hs2 Hin2) as (<- & _). done.
Qed.

Lemma ScopeVisitor_wf opt fuel nodep st :
  wf_netlist nodep → ScopeVisitor opt fuel nodep = Ok st → wf st.
Proof.
  intros Hnet Hrun.
  destruct (ScopeVisitor_Ok _ _ _ _ Hnet Hrun) as [[_ ->]|(?&?&_&_&_&_&?)];
    [exact (wf_init _ Hnet)|done].
Qed.

Lemma resolved_same l stw st :
  resolved l stw st →
  m_varRefScopes st = m_varRefScopes stw ∧ ∀ it, resolve st it = resolve stw it.
Proof.
  intros [Hst Hag _ _]. split.
  - rewrite Hst. done.
  - intros it. apply resolve_agree; [done|rewrite Hst; done..].
Qed.

Lemma ScopeVisitor_worklist_bound opt fuel nodep st :
  wf_netlist nodep → ScopeVisitor opt fuel nodep = Ok st → worklist_bound st.
Proof.
  intros Hnet Hrun it Hit.
  destruct (ScopeVisitor_Ok _ _ _ _ Hnet Hrun) as [[_ ->]|(modp&stw&_&_&_&Hres&_)].
  { by apply elem_of_nil in Hit. }
  destruct (resolved_same _ _ _ Hres) as [Hwl Hr]. rewrite Hwl in Hit.
  pose proof Hres as [_ Hag Hall Hbound].
  destruct (Hall _ Hit) as (b & Hb). split; [exists b; by rewrite Hr|].
  apply resolve_Ok in Hb as (r & _ & _ & _ & Hrw & _).
  specialize (Hag it.1). rewrite Hrw in Hag.
  destruct (varrefs st !! it.1) as [r'|] eqn:Hr'; [|done].
  destruct (Hbound _ _ Hr') as [[Hnin _]|(s & b' & Hin & Hb' & Hv)].
  - exfalso. apply Hnin. apply list_elem_of_fmap. by exists it.
  - exists r', s, b'. rewrite Hwl, Hr. done.
Qed.

(** C1.  In a design whose declarations are distinct objects, after the
    first visitor: no scope holds two bindings of one declaration; the
    table of bindings holds exactly the bindings made; every queued
    reference is bound to what it resolves to; and two references to one
    declaration are bound to the same object exactly when they are
    resolved in the same scope, so references without a package
    qualifier queued under one scope share their binding and references
    queued under different scopes do not.  A visit of a declaration whose
    [user1p] is set changes nothing; a visit of a declaration whose
    [user1p] is clear makes one binding in the current scope and records
    it. *)
Theorem one_binding_per_declaration_and_scope opt fuel nodep st :
  wf_netlist nodep → ScopeVisitor opt fuel nodep = Ok st →
  one_binding_per_scope st ∧ table_is_bindings st
  ∧ worklist_bound st ∧ same_scope_same_binding st
  ∧ unqualified_same_scope_same_binding st
  ∧ revisit_changes_nothing opt fuel ∧ first_visit_binds opt fuel.
Proof.
  intros Hnet Hrun. pose proof (ScopeVisitor_wf _ _ _ _ Hnet Hrun) as Hwf.
  split; [by apply wf_one_binding_per_scope|].
  split; [by apply wf_table_is_bindings|].
  split; [by eapply ScopeVisitor_worklist_bound|].
  split; [by apply wf_same_scope_same_binding|].
  split; [|split].
  - intros it1 it2 r1 r2 b1 b2 Hr1 Hr2 Hp1 Hp2 Hv Hb1 Hb2.
    eapply (wf_same_scope_same_binding st Hwf it1 it2 r1 r2); try done;
      by apply effectiveScope_unqualified.
  - intros n st0 Hk Hu. cbn [visit]. rewrite Hk. by apply visit_AstVar_again.
  - intros n st0 ns st1 Hk Hu Hvis. cbn [visit] in Hvis. rewrite Hk in Hvis.
    destruct (visit_AstVar_first _ _ _ _ _ Hu Hvis)
      as (scp & sc & v & ? & ? & ? & ? & ? & Hu1 & ? & ? & _).
    exists scp, sc. repeat split; try done. rewrite Hu1. apply lookup_insert_eq.
Qed.

Lemma one_binding_per_declaration_and_scope_witness :
  one_binding_per_scope st_ab ∧ table_is_bindings st_ab
  ∧ worklist_bound st_ab ∧ same_scope_same_binding st_ab
  ∧ unqualified_same_scope_same_binding st_ab
  ∧ revisit_changes_nothing opt_ab 10 ∧ first_visit_binds opt_ab 10.
Proof.
  apply (one_binding_per_declaration_and_scope opt_ab 10 net_ab st_ab).
  - solve_wf_netlist.
  - vm_compute. reflexivity.
Defined.

Lemma ext_scope_header st st' s sc :
  ext st st' → scopes st !! s = Some sc →
  ∃ sc', scopes st' !! s = Some sc' ∧ scope_name sc' = scope_name sc
         ∧ scope_modp sc' = scope_modp sc ∧ aboveScopep sc' = aboveScopep sc
         ∧ aboveCellp sc' = aboveCellp sc.
Proof.
  intros Hext Hs. destruct (ext_scope _ _ _ _ Hext Hs) as (sc' & Hs' & (?&?&?&?&_)).
  exists sc'. done.
Qed.

Lemma scopeMade_scope modp nodep scopename st :
  scopes (scopeMade modp nodep scopename st) !! next st
  = Some (mkScope scopename (Some modp) (m_aboveScopep st) (m_aboveCellp st) [] []).
Proof.
  unfold scopeMade. destruct (isPackage nodep); simpl; by rewrite lookup_insert_eq.
Qed.

Lemma wf_package_refs_in_recorded_scope st : wf st → package_refs_in_recorded_scope st.
Proof.
  intros Hwf it r pkg vp v b Hr Hpk Hvp Hv Hcm Hb.
  apply resolve_Ok in Hb as (r' & e & v' & s & Hr' & He & Hvp' & -> & Hm).
  assert (r' = r) as -> by congruence. assert (v' = vp) as -> by congruence.
  unfold effectiveScope in He. rewrite Hpk, Hvp in He. simpl in He.
  rewrite Hv in He. simpl in He. rewrite Hcm in He. simpl in He.
  destruct (m_packageScopes st !! pkg) as [s0|] eqn:Hs0; [|done].
  injection He as ->.
  destruct (wf_varScopes _ _ _ _ _ _ _ Hwf _ _ _ Hm) as (sc & vs & Hs & Hin & ? & ?).
  exists s, sc, vs. repeat split; try done.
  by destruct (wf_vsc _ _ _ _ _ _ _ Hwf _ _ _ Hs Hin).
Qed.

Lemma set_attrClocker_annotate opt pretty v :
  (let v1 := if isClocker opt pretty then set_attrClocker CLOCKER_YES v else v in
   if isNoClocker opt pretty then set_attrClocker CLOCKER_NO v1 else v1)
  = set_attrClocker (annotate opt pretty (attrClocker v)) v.
Proof.
  unfold annotate. cbv zeta.
  destruct (isNoClocker opt pretty), (isClocker opt pretty), v; reflexivity.
Qed.

(** C8, as amended.  The visit that makes a binding consults the two
    lists on the pretty name of the new binding and writes the outcome to
    the declaration: "not a clock" if the name is in the second list,
    else "clock" if it is in the first, else the annotation stays.  The
    annotation is stored once for the declaration, so every binding of
    that declaration, in whatever scope, reports the value written last;
    the bindings of other declarations report what they did before. *)
Theorem clock_annotation_on_declaration opt fuel n st ns st' :
  kind n = KVar → user1p st !! self n = None →
  visit opt (S fuel) n st = Ok (ns, st') →
  ∃ scp sc v,
    m_scopep st = Some scp ∧ scopes st !! scp = Some sc
    ∧ vars st !! self n = Some v
    ∧ let a := annotate opt (prettyName opt (scope_name sc) (var_name v))
                        (attrClocker v) in
      vars st' = <[self n := set_attrClocker a v]> (vars st)
      ∧ (∀ vs, vsc_varp vs = self n → clockerOf st' vs = Some a)
      ∧ (∀ vs, vsc_varp vs ≠ self n → clockerOf st' vs = clockerOf st vs).
Proof.
  intros Hk Hu Hvis. cbn [visit] in Hvis. rewrite Hk in Hvis.
  destruct (visit_AstVar_first _ _ _ _ _ Hu Hvis)
    as (scp & sc & v & Hs & Hsc & Hv & _ & _ & _ & _ & _ & Hvars & _).
  exists scp, sc, v. split; [done|]. split; [done|]. split; [done|].
  cbv zeta in Hvars. rewrite set_attrClocker_annotate in Hvars.
  cbv zeta. split; [done|]. split.
  - intros vs E. unfold clockerOf. by rewrite Hvars, E, lookup_insert_eq.
  - intros vs E. unfold clockerOf. by rewrite Hvars, lookup_insert_ne.
Qed.

Lemma clock_annotation_on_declaration_witness :
  ∃ scp sc v,
    m_scopep st_var0 = Some scp ∧ scopes st_var0 !! scp = Some sc
    ∧ vars st_var0 !! self (leaf KVar 5) = Some v
    ∧ let a := annotate opt_ab (prettyName opt_ab (scope_name sc) (var_name v))
                        (attrClocker v) in
      vars st_var1 = <[self (leaf KVar 5) := set_attrClocker a v]> (vars st_var0)
      ∧ (∀ vs, vsc_varp vs = self (leaf KVar 5) → clockerOf st_var1 vs = Some a)
      ∧ (∀ vs, vsc_varp vs ≠ self (leaf KVar 5) →
               clockerOf st_var1 vs = clockerOf st_var0 vs).
Proof.
  apply (clock_annotation_on_declaration opt_ab 0 (leaf KVar 5) st_var0
           [leaf KVar 5] st_var1).
  - reflexivity.
  - vm_compute. reflexivity.
  - vm_compute. reflexivity.
Defined.

(** C8 as worded fails on the design with the cells "a" and "b" when
    "TOP.a.x" is listed as a clock: the binding of "x" under "TOP.b",
    whose own name is in no list, reports "clock" as well. *)
Lemma clock_annotation_shared_counterexample :
  wf_netlist net_ab ∧ ScopeVisitor opt_ab 10 net_ab = Ok st_ab
  ∧ (∃ sc, scopes st_ab !! 13 = Some sc ∧ scope_name sc = "TOP.b"
           ∧ mkVarScope 14 13 5 false ∈ varsp sc
           ∧ isClocker opt_ab (prettyName opt_ab "TOP.b" "x") = false
           ∧ isNoClocker opt_ab (prettyName opt_ab "TOP.b" "x") = false
           ∧ clockerOf st_ab (mkVarScope 14 13 5 false) = Some CLOCKER_YES)
  ∧ ¬ annotation_by_own_name opt_ab net_ab st_ab.
Proof.
  split; [solve_wf_netlist|]. split; [vm_compute; reflexivity|].
  assert (H13 : ∃ sc, scopes st_ab !! 13 = Some sc ∧ scope_name sc = "TOP.b"
                      ∧ mkVarScope 14 13 5 false ∈ varsp sc).
  { eexists. split; [vm_compute; reflexivity|]. split; [reflexivity|].
    apply list_elem_of_singleton. reflexivity. }
  destruct H13 as (sc & Hsc & Hname & Hin).
  split.
  - exists sc. repeat split; try done.
  - intros H.
    specialize (H 13 sc (mkVarScope 14 13 5 false)
                  (mkVar "x" false false CLOCKER_UNKNOWN) Hsc Hin eq_refl).
    rewrite Hname in H. vm_compute in H. discriminate H.
Qed.

Lemma visit_varref_defers_holds opt fuel : visit_varref_defers opt fuel.
Proof.
  intros n st ns st' Hk Hvis. cbn [visit] in Hvis. rewrite Hk in Hvis.
  unfold visit_AstVarRef in Hvis.
  apply bind_Ok in Hvis as (r & Er%deref_Ok & Hvis).
  destruct (varp r) as [vp|] eqn:Evp; [|done].
  apply bind_Ok in Hvis as (v & Ev%deref_Ok & Hvis).
  exists r, vp, v. split; [done|]. split; [done|]. split; [done|].
  destruct (isIfaceRef v); injection Hvis as <- <-; (split; [done|]); simpl.
  - split; [done|]. split; [apply lookup_insert_eq|].
    intros p Hp. by rewrite lookup_insert_ne.
  - split; [done|]. intros x. rewrite elem_of_set_insert. naive_solver.
Qed.

(** C4.  In a design whose references are unbound at the start, no
    reference is bound when the walk over the hierarchy ends; the
    resolution that follows leaves the worklist as the walk made it and
    binds every reference in it.  A visit of a reference during the walk
    binds nothing: a reference to an interface gets a null binding and
    does not enter the worklist, any other reference enters the worklist
    with the current scope. *)
Theorem references_bound_after_walk opt fuel nodep modp stw st :
  wf_netlist nodep → unbound (initState nodep) →
  topModulep nodep = Some modp →
  visit_AstNodeModule opt fuel modp (initState nodep) = Ok stw →
  ScopeVisitor opt fuel nodep = Ok st →
  unbound stw
  ∧ cleanupVarRefs stw = Ok st
  ∧ m_varRefScopes st = m_varRefScopes stw
  ∧ (∀ it, it ∈ m_varRefScopes stw →
       ∃ r b, varrefs st !! it.1 = Some r ∧ varScopep r = Some b)
  ∧ visit_varref_defers opt fuel.
Proof.
  intros Hnet Hub Htop Hwalk Hrun.
  pose proof (visit_AstNodeModule_ok opt fuel modp _ _ (wf_init _ Hnet) Hwalk)
    as [_ _ _ _ _ Hu].
  split; [by apply Hu|].
  assert (Hc : cleanupVarRefs stw = Ok st).
  { unfold ScopeVisitor, visit_AstNetlist in Hrun. rewrite Htop in Hrun.
    apply bind_Ok in Hrun as (stw' & Hw & Hc).
    assert (stw' = stw) as ->; [|done].
    assert (Hw' : visit_AstNodeModule opt fuel modp (initState nodep) = Ok stw')
      by exact Hw.
    congruence. }
  split; [done|].
  pose proof (cleanupVarRefs_from_ok _ _ _ Hc) as Hres.
  destruct (resolved_same _ _ _ Hres) as [Hwl _].
  split; [done|]. split; [|apply visit_varref_defers_holds].
  intros it Hit. rewrite <- Hwl in Hit.
  destruct (ScopeVisitor_worklist_bound _ _ _ _ Hnet Hrun it Hit)
    as (_ & r & s & b & Hr & _ & _ & Hb).
  by exists r, b.
Qed.

Lemma references_bound_after_walk_witness :
  unbound stw_ab
  ∧ cleanupVarRefs stw_ab = Ok st_ab
  ∧ m_varRefScopes st_ab = m_varRefScopes stw_ab
  ∧ (∀ it, it ∈ m_varRefScopes stw_ab →
       ∃ r b, varrefs st_ab !! it.1 = Some r ∧ varScopep r = Some b)
  ∧ visit_varref_defers opt_ab 10.
Proof.
  apply (references_bound_after_walk opt_ab 10 net_ab 1 stw_ab st_ab).
  - solve_wf_netlist.
  - intros p r H. change (({[ 7 := mkVarRef (Some 5) None None ]} : gmap ptr AstVarRef) !! p = Some r) in H.
    apply lookup_singleton_Some in H as [_ <-]. reflexivity.
  - reflexivity.
  - vm_compute. reflexivity.
  - vm_compute. reflexivity.
Defined.

(** ** States built by hand *)

(** A state without bindings is consistent when its objects lie below
    the allocation mark and the declarations of each module are distinct
    objects. *)
Lemma wf_simple nx scs mods vrs rfs :
  map_Forall (λ s sc, s < nx ∧ varsp sc = []) scs →
  map_Forall (λ _ m, NoDup (module_var_ptrs m)
                     ∧ ∀ x, x ∈ module_node_ptrs m → x < nx) mods →
  map_Forall (λ p _, p < nx) vrs → map_Forall (λ p _, p < nx) rfs →
  wf_on nx scs ∅ ∅ mods vrs rfs.
Proof.
  intros Hs Hm Hv Hr.
  assert (Hno : ∀ s sc (vs : AstVarScope), scs !! s = Some sc → vs ∈ varsp sc → False).
  { intros s sc vs H Hin. destruct (Hs _ _ H) as [_ E]. rewrite E in Hin.
    by apply elem_of_nil in Hin. }
  split.
  - intros s sc H. by destruct (Hs _ _ H).
  - intros s sc vs H Hin. destruct (Hno _ _ _ H Hin).
  - intros s sc vs H Hin. destruct (Hno _ _ _ H Hin).
  - intros s sc H. destruct (Hs _ _ H) as [_ ->]. apply NoDup_nil. exact I.
  - intros s1 s2 sc1 sc2 vs1 vs2 H _ Hin. destruct (Hno _ _ _ H Hin).
  - intros v s p H. by rewrite lookup_empty in H.
  - intros s sc vs H Hin. destruct (Hno _ _ _ H Hin).
  - intros pkg s H. by rewrite lookup_empty in H.
  - intros p m H. exact (Hm _ _ H).
  - intros p [v H]. exact (Hv _ _ H).
  - intros p [r H]. exact (Hr _ _ H).
Qed.

Lemma pre_simple vp np st s sc :
  wf st → m_scopep st = Some s → scopes st !! s = Some sc →
  aboveCellp sc = m_aboveCellp st → varsp sc = [] →
  NoDup vp → vp ⊆ np → (∀ p, p ∈ np → p < next st) → pre vp np st.
Proof.
  intros Hwf Hs Hsc Hc Hv Hnd Hsub Hlt. split; try done.
  - intros s' Hs'. exists sc. split; [congruence|done].
  - intros s' sc' vs Hs' Hsc' Hin. assert (s' = s) as -> by congruence.
    assert (sc' = sc) as -> by congruence. rewrite Hv in Hin.
    by apply elem_of_nil in Hin.
Qed.

Lemma scopeName_pathName leaf st name :
  scopeName leaf st = Ok name →
  pathName st (m_aboveScopep st) (match leaf with Ok l => Some l | _ => None end)
  = Some name.
Proof.
  intros H. apply scopeName_Ok in H. unfold pathName.
  destruct (m_aboveScopep st) as [a|]; [|by subst].
  destruct H as (sc & l & -> & -> & ->). done.
Qed.

Lemma visit_AstClass_scope (v : AstNode → State → result (list AstNode * State))
    name n st ns st' :
  visit_ok v → kind n = KClass name →
  pre (var_ptrs n) (node_ptrs n) st → visit_AstClass v name n st = Ok (ns, st') →
  ∃ sc, scopes st !! next st = None ∧ scopes st' !! next st = Some sc
    ∧ scope_modp sc = m_modp st ∧ aboveScopep sc = m_scopep st
    ∧ aboveCellp sc = m_aboveCellp st
    ∧ pathName st (m_scopep st) (Some name) = Some (scope_name sc).
Proof.
  intros Hv Hk Hpre Hvis. unfold visit_AstClass in Hvis.
  apply bind_Ok in Hvis as (scopename & Ename & Hvis).
  apply bind_Ok in Hvis as (scp & Escp%deref_Ok & Hvis).
  apply bind_Ok in Hvis as ([n' st5] & Eit & Hvis). injection Hvis as <- <-.
  simpl in Escp. injection Escp as <-.
  set (st4 := user1ClearTree (newScope _ _ _)) in *.
  set (n0 := Node (kind n) (self n) _ (op2p n) (op3p n) (op4p n)) in *.
  pose proof Hpre as [Hwf Hcur Hnd Hlt Hvp Hdisj].
  assert (Hwf4 : wf st4) by (by apply wf_new_scope).
  assert (Hcv : children_vp n0 = children_vp n).
  { unfold children_vp. simpl op1p. simpl op2p. simpl op3p. simpl op4p.
    rewrite vars_ptrs_app, vars_ptrs_singleton, var_ptrs_leaf by done.
    by rewrite app_nil_r. }
  assert (Hcn : ∀ p, p ∈ children_np n0 ↔ p ∈ children_np n ∨ p = next st).
  { intros p. unfold children_np. simpl op1p. simpl op2p. simpl op3p. simpl op4p.
    rewrite nodes_ptrs_app, nodes_ptrs_singleton, node_ptrs_leaf.
    rewrite !elem_of_app, !list_elem_of_singleton. naive_solver. }
  assert (Hpre4 : pre (children_vp n0) (children_np n0) st4).
  { rewrite Hcv. apply pre_children in Hpre.
    destruct Hpre as [? ? ? Hlt' Hvp' ?]. split; try done.
    - intros s Hs. simpl in Hs. injection Hs as <-. eexists.
      unfold st4. simpl. rewrite lookup_insert_eq. done.
    - intros p Hp. unfold st4. simpl. apply Hcn in Hp as [Hp| ->]; [|lia].
      assert (p < next st) by auto. lia.
    - intros p Hp. apply Hcn. left. auto.
    - intros s sc vs Hs Hsc Hvs. unfold st4 in Hs, Hsc. simpl in Hs, Hsc.
      injection Hs as <-. rewrite lookup_insert_eq in Hsc. injection Hsc as <-.
      by apply elem_of_nil in Hvs. }
  destruct (iterateChildren_ok _ Hv _ _ _ _ Hpre4 Eit) as (Hpost & _ & _).
  destruct Hpost as [_ Pext _ _ _ _ _ _ _ _ _ _].
  assert (H4 : scopes st4 !! next st
               = Some (mkScope scopename (m_modp st) (m_scopep st)
                               (m_aboveCellp st) [] [])).
  { unfold st4. simpl. by rewrite lookup_insert_eq. }
  destruct (ext_scope_header _ _ _ _ Pext H4) as (sc & Hsc & Hn & Hm & Ha & Hc).
  exists sc. simpl in *.
  split; [by apply (wf_fresh_scope _ _ _ _ _ _ _ Hwf)|].
  split; [done|]. split; [done|]. split; [done|]. split; [done|].
  rewrite Hn. exact (scopeName_pathName _ _ _ Ename).
Qed.

Lemma wf_st_mod0 : wf st_mod0.
Proof.
  apply wf_simple.
  - apply map_Forall_singleton. split; [cbn; lia|reflexivity].
  - apply map_Forall_singleton. split; [vm_compute; solve_NoDup|].
    intros x Hx. vm_compute in Hx. apply list_elem_of_singleton in Hx. cbn. lia.
  - apply map_Forall_singleton. cbn. lia.
  - apply map_Forall_empty.
Qed.

Lemma wf_st_cls0 : wf st_cls0.
Proof.
  apply wf_simple.
  - apply map_Forall_singleton. split; [cbn; lia|reflexivity].
  - apply map_Forall_empty.
  - apply map_Forall_singleton. cbn. lia.
  - apply map_Forall_empty.
Qed.

Lemma pre_st_cls0 n :
  NoDup (var_ptrs n) → (∀ p, p ∈ node_ptrs n → p < 10) →
  pre (var_ptrs n) (node_ptrs n) st_cls0.
Proof.
  intros Hnd Hlt.
  apply (pre_simple _ _ st_cls0 8 (mkScope "TOP" (Some 1) None None [] []));
    try done.
  - apply wf_st_cls0.
  - apply var_ptrs_subseteq.
Qed.

(** C5.  A visit of a module makes a scope for that module whose name is
    "TOP" when there is no scope above, else the name of the scope above,
    a dot and the name of the instantiating cell.  A visit of a class
    makes a scope whose parent is the current scope and whose name is
    "TOP" when there is no current scope, else the name of the current
    scope, a dot and the name of the class.  The scope keeps that name
    until the visit returns. *)
Theorem scope_path_names opt fuel :
  (∀ modp st st',
      wf st → visit_AstNodeModule opt (S fuel) modp st = Ok st' →
      ∃ sc, scopes st !! next st = None ∧ scopes st' !! next st = Some sc
        ∧ scope_modp sc = Some modp ∧ aboveScopep sc = m_aboveScopep st
        ∧ aboveCellp sc = m_aboveCellp st
        ∧ pathName st (m_aboveScopep st) (cell_name <$> m_aboveCellp st)
          = Some (scope_name sc))
  ∧ (∀ name n st ns st',
        kind n = KClass name → pre (var_ptrs n) (node_ptrs n) st →
        visit opt (S fuel) n st = Ok (ns, st') →
        ∃ sc, scopes st !! next st = None ∧ scopes st' !! next st = Some sc
          ∧ scope_modp sc = m_modp st ∧ aboveScopep sc = m_scopep st
          ∧ aboveCellp sc = m_aboveCellp st
          ∧ pathName st (m_scopep st) (Some name) = Some (scope_name sc)).
Proof.
  split.
  - intros modp st st' Hwf Hvis.
    destruct (visit_AstNodeModule_body opt fuel (visit_AstNodeModule_ok opt fuel)
                modp st st' Hwf Hvis) as (nodep & name & _ & Hname & _ & Hext & _).
    destruct (ext_scope_header _ _ _ _ Hext (scopeMade_scope modp nodep name st))
      as (sc & Hsc & Hn & Hm & Ha & Hc).
    exists sc. split; [by apply (wf_fresh_scope _ _ _ _ _ _ _ Hwf)|].
    split; [done|]. split; [done|]. split; [done|]. split; [done|].
    rewrite Hn. simpl. apply scopeName_pathName in Hname.
    by destruct (m_aboveCellp st).
  - intros name n st ns st' Hk Hpre Hvis. cbn [visit] in Hvis. rewrite Hk in Hvis.
    eapply visit_AstClass_scope; [apply visit_visit_ok|done..].
Qed.

Lemma scope_path_names_witness :
  (∃ sc, scopes st_mod0 !! 10 = None ∧ scopes st_mod1 !! 10 = Some sc
     ∧ scope_modp sc = Some 2 ∧ aboveScopep sc = Some 8
     ∧ aboveCellp sc = Some (mkCell 3 "a" true)
     ∧ pathName st_mod0 (Some 8) (Some "a") = Some (scope_name sc))
  ∧ (∃ sc, scopes st_cls0 !! 10 = None ∧ scopes st_cls1 !! 10 = Some sc
       ∧ scope_modp sc = Some 1 ∧ aboveScopep sc = Some 8
       ∧ aboveCellp sc = None
       ∧ pathName st_cls0 (Some 8) (Some "C") = Some (scope_name sc)).
Proof.
  split.
  - apply (proj1 (scope_path_names opt_ab 2) 2 st_mod0 st_mod1).
    + apply wf_st_mod0.
    + vm_compute. reflexivity.
  - apply (proj2 (scope_path_names opt_ab 2) "C" class_C st_cls0 ns_cls1 st_cls1).
    + reflexivity.
    + apply pre_st_cls0; [vm_compute; solve_NoDup|].
      intros p Hp. vm_compute in Hp.
      repeat (apply elem_of_cons in Hp as [->|Hp]; [lia|]).
      by apply elem_of_nil in Hp.
    + vm_compute. reflexivity.
Defined.

(** ** C7: tasks and functions *)

(** The block that [linkAndIterate] puts under the current scope is there
    when it returns, at the end of the blocks the scope had. *)
Lemma linkAndIterate_block (v : AstNode → State → result (list AstNode * State))
    c st st' :
  visit_ok v → pre (children_vp c) (children_np c) st →
  linkAndIterate v c st = Ok st' →
  ∃ scp sc sc' b,
    m_scopep st = Some scp ∧ scopes st !! scp = Some sc
    ∧ scopes st' !! scp = Some sc'
    ∧ blocksp sc' !! length (blocksp sc) = Some b
    ∧ kind b = kind c ∧ self b = self c.
Proof.
  intros Hv Hpre Hl. unfold linkAndIterate in Hl.
  apply bind_Ok in Hl as (scp & Escp%deref_Ok & Hl).
  apply bind_Ok in Hl as (sc & Esc%deref_Ok & Hl).
  apply bind_Ok in Hl as ([c' st4] & Eit & Hl).
  apply bind_Ok in Hl as (sc4 & Esc4%deref_Ok & Hl).
  injection Hl as <-.
  set (st3 := set_scopes (<[scp:=addActivep c sc]> (scopes st)) st) in *.
  assert (S1 : step (next st) [] [] st st3).
  { eapply step_set_blocks; [by destruct Hpre|done..| |done].
    apply scope_ext_addActivep. }
  assert (Hpre3 : pre (children_vp c) (children_np c) st3).
  { eapply pre_step; [done|exact S1|done|].
    intros p Hp. by apply elem_of_nil in Hp. }
  destruct (iterateChildren_ok _ Hv _ _ _ _ Hpre3 Eit) as (Hpost & Hk & Hself).
  destruct Hpost as [_ Pext _ _ _ _ _ _ _ _ _ _].
  assert (H3 : scopes st3 !! scp = Some (addActivep c sc)).
  { unfold st3. simpl. apply lookup_insert_eq. }
  destruct (ext_scope _ _ _ _ Pext H3) as (sc4' & Hsc4' & (_&_&_&_&_&Hlen)).
  assert (sc4' = sc4) as -> by congruence.
  simpl in Hlen. rewrite length_app in Hlen. simpl in Hlen.
  exists scp, sc, (setActivep (length (blocksp sc)) c' sc4), c'.
  split; [done|]. split; [done|].
  split; [simpl; apply lookup_insert_eq|].
  split; [|done]. simpl. apply list_lookup_insert_eq. lia.
Qed.




Lemma bind_ext {A B} (r : result A) (f g : A → result B) :
  (∀ a, f a = g a) → r ≫= f = r ≫= g.
Proof. intros H. destruct r; simpl; auto. Qed.

Section Cleanup.
Context (user2p : gmap ptr ptr).

Import ScopeCleanupVisitor.

Lemma iterate_eq : ∀ l st,
  (fix iterate (l : list AstNode) (st : State) : result (list AstNode * State) :=
     match l with
     | [] => Ok ([], st)
     | n :: l' =>
         '(ns, st) ← visit user2p n st;
         '(ns', st) ← iterate l' st;
         Ok (ns ++ ns', st)
     end) l st = iterateAndNext (visit user2p) l st.
Proof.
  induction l as [|n l IHl]; intros st; [done|].
  cbn [iterateAndNext]. destruct (visit user2p n st) as [[ns st1]| | |]; try done.
  cbn [mbind result_bind]. by rewrite IHl.
Qed.

(** The dispatch of the second visitor on the node type. *)
Lemma visit_eq n st :
  visit user2p n st =
  let ic := iterateChildren (visit user2p) in
  match kind n with
  | KScope => visit_AstScope ic n st
  | KNodeProcedure | KAssignAlias | KAssignVarScope | KAssignW
  | KAlwaysPublic | KCoverToggle | KNodeFTask _ | KCFunc _ =>
      movedDeleteOrIterate ic n st
  | KVarXRef _ => visit_AstVarXRef n st
  | KNodeFTaskRef isMethodCall taskp packagep =>
      visit_AstNodeFTaskRef user2p ic isMethodCall taskp packagep n st
  | KModportFTaskRef _ => visit_AstModportFTaskRef ic n st
  | _ => visit_AstNode ic n st
  end.
Proof.
  destruct n as [k p o1 o2 o3 o4]. cbv zeta.
  destruct k; cbn [visit kind];
    unfold visit_AstScope, movedDeleteOrIterate, visit_AstNodeFTaskRef,
      visit_AstModportFTaskRef, visit_AstNode, iterateChildren;
    cbn [op1p op2p op3p op4p kind self];
    try destruct (m_scopep st);
    repeat first [ reflexivity | rewrite iterate_eq
                 | apply bind_ext; intros [? ?]
                 | apply bind_ext; intros ? | f_equal ].
Qed.

Lemma forallb_Forall {A} (f : A → bool) l :
  forallb f l = true ↔ Forall (λ x, f x = true) l.
Proof.
  induction l as [|x l IHl]; simpl.
  - split; [constructor|done].
  - rewrite andb_true_iff, Forall_cons, IHl. done.
Qed.

End Cleanup.

(** ** Module visits: what stays *)

(** X1.  A module visit keeps the stores consistent, allocates at least
    one object, leaves the scopes that existed before it as they were
    (the scope an earlier visit made for the same module included), and
    removes or changes no entry of the tables, no queued reference, and
    neither the name and flags of a declaration nor the target and
    package of a reference. *)
Theorem module_visit_frame opt fuel modp st st' :
  wf st → visit_AstNodeModule opt fuel modp st = Ok st' →
  wf st' ∧ next st < next st'
  ∧ (∀ s, s < next st → scopes st' !! s = scopes st !! s)
  ∧ m_varScopes st ⊆ m_varScopes st'
  ∧ m_packageScopes st ⊆ m_packageScopes st'
  ∧ (∀ x, x ∈ m_varRefScopes st → x ∈ m_varRefScopes st')
  ∧ (∀ p v, vars st !! p = Some v →
       ∃ v', vars st' !! p = Some v' ∧ var_name v' = var_name v
             ∧ isIfaceRef v' = isIfaceRef v ∧ isClassMember v' = isClassMember v)
  ∧ (∀ p r, varrefs st !! p = Some r →
       ∃ r', varrefs st' !! p = Some r' ∧ varp r' = varp r
             ∧ packagep r' = packagep r).
Proof.
  intros Hwf Hvis. destruct fuel as [|fuel]; [done|].
  destruct (visit_AstNodeModule_body opt fuel (visit_AstNodeModule_ok opt fuel)
              modp st st' Hwf Hvis) as (nodep & name & _ & _ & _ & Hext & Hm & _).
  destruct Hm as [Hwf' [Hn _ Hvs Hpk Hwl Hv Hr] Hframe _ _ _].
  split; [done|]. split.
  - destruct (ext_scope_header _ _ _ _ Hext (scopeMade_scope modp nodep name st))
      as (sc & Hsc & _).
    by eapply (wf_scope_lt _ _ _ _ _ _ _ Hwf').
  - repeat (split; [done|]). done.
Qed.

Lemma module_visit_frame_witness :
  wf st_mod1 ∧ next st_mod0 < next st_mod1
  ∧ (∀ s, s < next st_mod0 → scopes st_mod1 !! s = scopes st_mod0 !! s)
  ∧ m_varScopes st_mod0 ⊆ m_varScopes st_mod1
  ∧ m_packageScopes st_mod0 ⊆ m_packageScopes st_mod1
  ∧ (∀ x, x ∈ m_varRefScopes st_mod0 → x ∈ m_varRefScopes st_mod1)
  ∧ (∀ p v, vars st_mod0 !! p = Some v →
       ∃ v', vars st_mod1 !! p = Some v' ∧ var_name v' = var_name v
             ∧ isIfaceRef v' = isIfaceRef v ∧ isClassMember v' = isClassMember v)
  ∧ (∀ p r, varrefs st_mod0 !! p = Some r →
       ∃ r', varrefs st_mod1 !! p = Some r' ∧ varp r' = varp r
             ∧ packagep r' = packagep r).
Proof.
  apply (module_visit_frame opt_ab 3 2 st_mod0 st_mod1).
  - apply wf_st_mod0.
  - vm_compute. reflexivity.
Defined.

(** ** Module visits: cells without a module *)

Lemma visit_cells_app vm l1 l2 st :
  visit_cells vm (l1 ++ l2) st = visit_cells vm l1 st ≫= visit_cells vm l2.
Proof.
  revert st. induction l1 as [|n l1 IH]; intros st; [done|].
  rewrite <- app_comm_cons. cbn [visit_cells].
  destruct (kind n); try apply IH. destruct modp as [modp|]; [|done].
  destruct (vm modp _) as [st1| | |]; try done. cbn [mbind result_bind]. apply IH.
Qed.

Lemma visit_cells_no_cells vm l st :
  Forall (λ n, ∀ name modp isTrace, kind n ≠ KCell name modp isTrace) l →
  visit_cells vm l st = Ok st.
Proof.
  induction 1 as [|n l Hn Hl IH]; [done|]. cbn [visit_cells].
  destruct (kind n) eqn:E; try apply IH. by destruct (Hn name modp isTrace).
Qed.

(** X2.  The loop over the cells of a module stops with the fatal error
    "Unlinked mod" at the first cell that names no module, once the cells
    before it are visited; and a visit of a module whose first cell names
    no module ends with that error. *)
Theorem unlinked_cell_fatal opt fuel modp m st name isTrace p o1 o2 o3 o4 before after :
  modules st !! modp = Some m →
  stmtsp m = before ++ Node (KCell name None isTrace) p o1 o2 o3 o4 :: after →
  Forall (λ n, ∀ name modp isTrace, kind n ≠ KCell name modp isTrace) before →
  above_ok st →
  (∀ vm l st0 st1,
      visit_cells vm l st0 = Ok st1 →
      visit_cells vm (l ++ Node (KCell name None isTrace) p o1 o2 o3 o4 :: after) st0
      = Fatal "Unlinked mod")
  ∧ visit_AstNodeModule opt (S fuel) modp st = Fatal "Unlinked mod".
Proof.
  intros Hm Hstmts Hbefore Habove.
  assert (H1 : ∀ vm l st0 st1,
      visit_cells vm l st0 = Ok st1 →
      visit_cells vm (l ++ Node (KCell name None isTrace) p o1 o2 o3 o4 :: after) st0
      = Fatal "Unlinked mod").
  { intros vm l st0 st1 Hl. rewrite visit_cells_app, Hl. reflexivity. }
  split; [exact H1|].
  cbn [visit_AstNodeModule]. rewrite Hm. cbn [deref mbind result_bind].
  assert (Hname : ∃ nm, scopeName (cell_name <$> deref (m_aboveCellp st)) st = Ok nm).
  { unfold scopeName, above_ok in *. destruct (m_aboveScopep st) as [a|]; [|by eexists].
    destruct Habove as [[sc ->] [c ->]]. by eexists. }
  destruct Hname as [nm ->]. cbn [mbind result_bind].
  rewrite Hstmts.
  change (deref (m_scopep (newScope nm (Some modp) (user1ClearTree st))))
    with (Ok (next st) : result ptr).
  cbn [mbind result_bind].
  match goal with
  | |- context [visit_cells ?vm (before ++ ?c :: after) ?s] =>
      rewrite (H1 vm before s s (visit_cells_no_cells vm before s Hbefore))
  end.
  by destruct (isPackage m).
Qed.

Lemma unlinked_cell_fatal_witness :
  (∀ vm l st0 st1,
      visit_cells vm l st0 = Ok st1 →
      visit_cells vm (l ++ unlinked_cell :: []) st0 = Fatal "Unlinked mod")
  ∧ visit_AstNodeModule opt_ab 3 1 st_unlinked = Fatal "Unlinked mod".
Proof.
  apply (unlinked_cell_fatal opt_ab 2 1
           (mkModule 1 "Top" false true [] [leaf KVar 5; unlinked_cell] [])
           st_unlinked "u" true 4 [] [] [] [] [leaf KVar 5] []).
  - reflexivity.
  - reflexivity.
  - apply Forall_cons. split; [intros ? ? ?; discriminate|apply Forall_nil; exact I].
  - exact I.
Defined.

(** ** The resolution of the queued references *)

Lemma cleanupVarRef_resolve st it r b :
  varrefs st !! it.1 = Some r → resolve st it = Ok b →
  cleanupVarRef st it
  = Ok (set_varrefs (<[it.1 := set_varScopep (Some b) r]> (varrefs st)) st).
Proof. intros Hr Hb. unfold cleanupVarRef. by rewrite Hr, Hb. Qed.

Lemma resolve_after_bind st p r vs it :
  varrefs st !! p = Some r →
  resolve (set_varrefs (<[p := set_varScopep vs r]> (varrefs st)) st) it
  = resolve st it.
Proof.
  intros Hr. apply resolve_agree; try done.
  intros q. simpl. destruct (decide (p = q)) as [<-|Hne].
  - rewrite lookup_insert_eq, Hr. done.
  - rewrite lookup_insert_ne by done. destruct (varrefs st !! q); done.
Qed.

Lemma cleanupVarRefs_from_total l : ∀ st,
  (∀ it, it ∈ l → ∃ b, resolve st it = Ok b) →
  ∃ st', cleanupVarRefs_from l st = Ok st'.
Proof.
  induction l as [|it l IHl]; intros st Hall; [by eexists|].
  destruct (Hall it) as (b & Hb); [by left|].
  destruct (resolve_Ok _ _ _ Hb) as (r & _ & _ & _ & Hr & _).
  cbn [cleanupVarRefs_from]. rewrite (cleanupVarRef_resolve _ _ _ _ Hr Hb).
  cbn [mbind result_bind]. apply IHl.
  intros x Hx. rewrite resolve_after_bind by done. apply Hall. by right.
Qed.

Lemma cleanupVarRefs_from_fatal before : ∀ st it after r msg,
  (∀ x, x ∈ before → ∃ b, resolve st x = Ok b) →
  varrefs st !! it.1 = Some r → resolve st it = Fatal msg →
  cleanupVarRefs_from (before ++ it :: after) st = Fatal msg.
Proof.
  induction before as [|x l IHl]; intros st it after r msg Hall Hr Hf.
  - cbn [app cleanupVarRefs_from]. unfold cleanupVarRef. by rewrite Hr, Hf.
  - destruct (Hall x) as (b & Hb); [by left|].
    destruct (resolve_Ok _ _ _ Hb) as (rx & _ & _ & _ & Hrx & _).
    rewrite <- app_comm_cons. cbn [cleanupVarRefs_from].
    rewrite (cleanupVarRef_resolve _ _ _ _ Hrx Hb). cbn [mbind result_bind].
    destruct (decide (x.1 = it.1)) as [E|Hne].
    + eapply (IHl _ _ _ (set_varScopep (Some b) r)).
      * intros y Hy. rewrite resolve_after_bind by done. apply Hall. by right.
      * simpl. rewrite E, lookup_insert_eq. f_equal. congruence.
      * by rewrite resolve_after_bind.
    + eapply (IHl _ _ _ r).
      * intros y Hy. rewrite resolve_after_bind by done. apply Hall. by right.
      * simpl. by rewrite lookup_insert_ne.
      * by rewrite resolve_after_bind.
Qed.

(** Why a queued reference that exists does not resolve. *)
Lemma resolve_Fatal st it r msg :
  varrefs st !! it.1 = Some r → resolve st it = Fatal msg →
  (msg = "Can't locate package scope"
   ∧ ∃ pkg vp v, packagep r = Some pkg ∧ varp r = Some vp ∧ vars st !! vp = Some v
                 ∧ isClassMember v = false ∧ m_packageScopes st !! pkg = None)
  ∨ (msg = "Can't locate varref scope"
     ∧ ∃ e, effectiveScope st r it.2 = Ok e
            ∧ ∀ vp s, varp r = Some vp → e = Some s → m_varScopes st !! (vp, s) = None).
Proof.
  intros Hr Hf. unfold resolve in Hf. rewrite Hr in Hf. cbn [deref mbind result_bind] in Hf.
  destruct (effectiveScope st r it.2) as [e|m| |] eqn:He; cbn [mbind result_bind] in Hf;
    try done.
  - right. unfold findVarScope in Hf.
    assert (msg = "Can't locate varref scope" ∧
            ∀ vp s, varp r = Some vp → e = Some s → m_varScopes st !! (vp, s) = None)
      as [-> Hno].
    { destruct (varp r) as [vp|], e as [s|]; try (injection Hf as <-; by split).
      destruct (m_varScopes st !! (vp, s)) eqn:E; [done|]. injection Hf as <-.
      split; [done|]. congruence. }
    split; [done|]. by exists e.
  - left. injection Hf as ->. unfold effectiveScope in He.
    destruct (packagep r) as [pkg|]; [|done].
    destruct (varp r) as [vp|]; [|done]. cbn [deref mbind result_bind] in He.
    destruct (vars st !! vp) as [v|] eqn:Hv; [|done]. cbn [deref mbind result_bind] in He.
    destruct (isClassMember v) eqn:Hcm; [done|]. cbn [negb] in He.
    destruct (m_packageScopes st !! pkg) eqn:Hp; [done|]. injection He as <-.
    split; [done|]. by exists pkg, vp, v.
Qed.

(** X3.  The resolution at the end of the first visitor succeeds exactly
    when every queued pair of a reference and a scope resolves: the
    reference exists, its package (if it names one and its target is no
    class member) has a scope in the table, and its target has a binding
    in the scope looked up. *)
Theorem cleanupVarRefs_succeeds_iff st :
  (∃ st', cleanupVarRefs st = Ok st')
  ↔ ∀ it, it ∈ m_varRefScopes st → ∃ b, resolve st it = Ok b.
Proof.
  split.
  - intros [st' H]. by destruct (cleanupVarRefs_from_ok _ _ _ H).
  - apply cleanupVarRefs_from_total.
Qed.

(** X4.  When a queued reference does not resolve and the entries queued
    before it do, the resolution stops with the fatal error of that
    entry.  The error is "Can't locate package scope" exactly when the
    reference names a package without a scope in the table and its target
    is no class member; otherwise it is "Can't locate varref scope", the
    target having no binding in the scope looked up. *)
Theorem cleanupVarRefs_first_failure st before it after r msg :
  m_varRefScopes st = before ++ it :: after →
  (∀ x, x ∈ before → ∃ b, resolve st x = Ok b) →
  varrefs st !! it.1 = Some r → resolve st it = Fatal msg →
  cleanupVarRefs st = Fatal msg
  ∧ (msg = "Can't locate package scope" ∨ msg = "Can't locate varref scope")
  ∧ (msg = "Can't locate package scope"
     ↔ ∃ pkg vp v, packagep r = Some pkg ∧ varp r = Some vp
                   ∧ vars st !! vp = Some v ∧ isClassMember v = false
                   ∧ m_packageScopes st !! pkg = None).
Proof.
  intros Hwl Hall Hr Hf. split.
  - unfold cleanupVarRefs. rewrite Hwl. by eapply cleanupVarRefs_from_fatal.
  - destruct (resolve_Fatal _ _ _ _ Hr Hf) as [[-> H]|[-> H]].
    + split; [by left|]. done.
    + split; [by right|]. split; [done|].
      intros (pkg & vp & v & Hp & Hvp & Hv & Hcm & Hno). exfalso.
      unfold resolve in Hf. rewrite Hr in Hf. cbn [deref mbind result_bind] in Hf.
      unfold effectiveScope in Hf. rewrite Hp, Hvp in Hf.
      cbn [deref mbind result_bind] in Hf. rewrite Hv in Hf.
      cbn [deref mbind result_bind] in Hf. rewrite Hcm, Hno in Hf. discriminate Hf.
Qed.

Lemma cleanupVarRefs_first_failure_witness :
  cleanupVarRefs st_nopkg = Fatal "Can't locate package scope"
  ∧ ("Can't locate package scope" = "Can't locate package scope"
     ∨ "Can't locate package scope" = "Can't locate varref scope")
  ∧ ("Can't locate package scope" = "Can't locate package scope"
     ↔ ∃ pkg vp v, packagep (mkVarRef (Some 7) (Some 2) None) = Some pkg
                   ∧ varp (mkVarRef (Some 7) (Some 2) None) = Some vp
                   ∧ vars st_nopkg !! vp = Some v ∧ isClassMember v = false
                   ∧ m_packageScopes st_nopkg !! pkg = None).
Proof.
  apply (cleanupVarRefs_first_failure st_nopkg [] (9, Some 8) []
           (mkVarRef (Some 7) (Some 2) None) "Can't locate package scope").
  - reflexivity.
  - intros x Hx. by apply elem_of_nil in Hx.
  - reflexivity.
  - reflexivity.
Defined.

(** X5.  The resolution changes nothing but the bindings of references:
    every other part of the state is as before, a reference that is not
    queued is as before, and a queued reference keeps its target and its
    package. *)
Theorem cleanupVarRefs_frame st st' :
  cleanupVarRefs st = Ok st' →
  st' = set_varrefs (varrefs st') st
  ∧ (∀ p, p ∉ (m_varRefScopes st).*1 → varrefs st' !! p = varrefs st !! p)
  ∧ (∀ p r, varrefs st !! p = Some r →
       ∃ r', varrefs st' !! p = Some r' ∧ varp r' = varp r
             ∧ packagep r' = packagep r)
  ∧ (∀ p, varrefs st' !! p = None ↔ varrefs st !! p = None).
Proof.
  intros H. destruct (cleanupVarRefs_from_ok _ _ _ H) as [Hst Hag _ Hb].
  split; [done|]. split; [|split].
  - intros p Hp. specialize (Hag p).
    destruct (varrefs st' !! p) as [r'|] eqn:E'.
    + destruct (Hb _ _ E') as [[_ E]|(s & b & Hin & _)]; [done|].
      exfalso. apply Hp. apply list_elem_of_fmap. by exists (p, s).
    + by destruct (varrefs st !! p).
  - intros p r Hr. specialize (Hag p). rewrite Hr in Hag.
    destruct (varrefs st' !! p) as [r'|]; [|done]. by exists r'.
  - intros p. specialize (Hag p).
    destruct (varrefs st !! p), (varrefs st' !! p); done.
Qed.

Lemma cleanupVarRefs_frame_witness :
  st_ab = set_varrefs (varrefs st_ab) stw_ab
  ∧ (∀ p, p ∉ (m_varRefScopes stw_ab).*1 → varrefs st_ab !! p = varrefs stw_ab !! p)
  ∧ (∀ p r, varrefs stw_ab !! p = Some r →
       ∃ r', varrefs st_ab !! p = Some r' ∧ varp r' = varp r
             ∧ packagep r' = packagep r)
  ∧ (∀ p, varrefs st_ab !! p = None ↔ varrefs stw_ab !! p = None).
Proof.
  apply (cleanupVarRefs_frame stw_ab st_ab). vm_compute. reflexivity.
Defined.

(** X6.  After the first visitor, a resolved reference to a class member
    is bound to the binding of the member in the scope the reference was
    queued under, whether or not the reference names a package. *)
Theorem class_member_refs_resolve_in_queued_scope opt fuel nodep st :
  wf_netlist nodep → ScopeVisitor opt fuel nodep = Ok st →
  class_member_refs_in_queued_scope st.
Proof.
  intros Hnet Hrun p s r vp v b Hr Hvp Hv Hcm Hb.
  pose proof (ScopeVisitor_wf _ _ _ _ Hnet Hrun) as Hwf.
  apply resolve_Ok in Hb as (r' & e & vp' & s0 & Hr' & He & Hvp' & -> & Hm).
  simpl in Hr', He. assert (r' = r) as -> by congruence.
  assert (vp' = vp) as -> by congruence.
  assert (s = Some s0) as ->.
  { unfold effectiveScope in He. destruct (packagep r); [|congruence].
    rewrite Hvp in He. cbn [deref mbind result_bind] in He. rewrite Hv in He.
    cbn [deref mbind result_bind] in He. rewrite Hcm in He. simpl in He. congruence. }
  destruct (wf_varScopes _ _ _ _ _ _ _ Hwf _ _ _ Hm) as (sc & vs & Hs & Hin & ? & ?).
  exists s0, sc, vs. repeat (split; [done|]).
  by destruct (wf_vsc _ _ _ _ _ _ _ Hwf _ _ _ Hs Hin).
Qed.

Lemma class_member_refs_resolve_in_queued_scope_witness :
  class_member_refs_in_queued_scope st_cm.
Proof.
  apply (class_member_refs_resolve_in_queued_scope opt_ab 10 net_cm st_cm).
  - solve_wf_netlist.
  - vm_compute. reflexivity.
Defined.

(** ** Blocks *)

(** What the visitors that clone leave: the clone, or the node that
    stands for it, is the last block of the current scope and a new
    object; [user2p] of the original points to it; and the bindings the
    visit adds to the current scope are bindings of new objects. *)
Lemma cloned_block (v : visitor) n st c st1 c' st' :
  visit_ok v → pre (var_ptrs n) (node_ptrs n) st →
  cloneTree n st = (c, st1) →
  children_vp c' = children_vp c → children_np c' = children_np c →
  self c' = self c →
  linkAndIterate v c' (set_user2p (<[self n := self c]> (user2p st1)) st1) = Ok st' →
  ∃ scp sc sc' b,
    m_scopep st = Some scp ∧ scopes st !! scp = Some sc
    ∧ scopes st' !! scp = Some sc'
    ∧ blocksp sc' !! length (blocksp sc) = Some b
    ∧ kind b = kind c' ∧ self b = next st ∧ self n < next st
    ∧ user2p st' !! self n = Some (next st)
    ∧ (∀ vs, vs ∈ varsp sc' → vs ∈ varsp sc ∨ next st ≤ vsc_varp vs).
Proof.
  intros Hv Hpre Hc Hcv Hcn Hcs Hl.
  pose proof Hpre as [Hwf Hcur Hnd Hlt Hvp Hdisj].
  pose proof (clone_pre _ _ _ _ Hpre Hc) as Hpre2.
  rewrite <- Hcv, <- Hcn in Hpre2.
  destruct (cloneTree_ok _ _ _ _ Hwf Hc)
    as (Hwf1 & Hext1 & Hsbh & Hub & Hkc & Hself & Hnext & Hrange & Hndc).
  destruct Hsbh as [_ Hscopes _ _ _ (C1 & _) _ _ _].
  destruct (linkAndIterate_block _ _ _ _ Hv Hpre2 Hl)
    as (scp & sc & sc' & b & Hs & Hsc & Hsc' & Hb & Hkb & Hsb).
  simpl in Hs, Hsc. rewrite C1 in Hs. rewrite Hscopes in Hsc.
  assert (Hn : self n < next st) by apply Hlt, self_node_ptrs.
  exists scp, sc, sc', b. rewrite Hsb, Hcs, Hself.
  repeat (split; [done|]).
  assert (Hle : next st ≤ next (set_user2p (<[self n:=self c]> (user2p st1)) st1)).
  { simpl. lia. }
  pose proof (linkAndIterate_step _ (next st) _ _ _ Hv Hpre2 Hle Hl)
    as [_ _ _ _ _ _ Hcurv Hu2 _].
  split.
  - rewrite Hu2; [simpl; by rewrite lookup_insert_eq, Hself|done|].
    rewrite Hcn. intros Hin. apply children_np_node_ptrs, Hrange in Hin. lia.
  - intros vs Hvs.
    assert (Hs2 : m_scopep (set_user2p (<[self n:=self c]> (user2p st1)) st1) = Some scp).
    { simpl. by rewrite C1. }
    assert (Hsc2 : scopes (set_user2p (<[self n:=self c]> (user2p st1)) st1) !! scp
                   = Some sc).
    { simpl. by rewrite Hscopes. }
    destruct (Hcurv _ _ _ _ Hs2 Hsc2 Hsc' Hvs) as [?|[Hin|?]]; [by left| |by right].
    right. rewrite Hcv in Hin.
    apply children_vp_subseteq, children_np_node_ptrs, Hrange in Hin. lia.
Qed.

(** X7.  A visit of a compiled function leaves the function where it is
    and puts a copy at the end of the blocks of the current scope; the
    copy is a new object that names the current scope as its scope,
    [user2p] of the original points to the copy, and the bindings added
    to the current scope are bindings of new objects, not of the
    declarations of the original. *)
Theorem cfunc_cloned_into_scope opt fuel scopep0 n st ns st' :
  kind n = KCFunc scopep0 → pre (var_ptrs n) (node_ptrs n) st →
  visit opt (S fuel) n st = Ok (ns, st') →
  ns = [n]
  ∧ ∃ scp sc sc' b,
      m_scopep st = Some scp ∧ scopes st !! scp = Some sc
      ∧ scopes st' !! scp = Some sc'
      ∧ blocksp sc' !! length (blocksp sc) = Some b
      ∧ kind b = KCFunc (Some scp) ∧ self b = next st ∧ self n < next st
      ∧ user2p st' !! self n = Some (next st)
      ∧ (∀ vs, vs ∈ varsp sc' → vs ∈ varsp sc ∨ next st ≤ vsc_varp vs).
Proof.
  intros Hk Hpre Hvis. cbn [visit] in Hvis. rewrite Hk in Hvis.
  unfold visit_AstCFunc in Hvis.
  destruct (cloneTree n st) as [c st1] eqn:Hc.
  apply bind_Ok in Hvis as (st2 & Hl & Hvis). injection Hvis as <- <-.
  split; [done|].
  set (c' := Node (KCFunc _) (self c) _ _ _ _) in Hl.
  destruct (cloned_block _ _ _ _ _ c' _ (visit_visit_ok opt fuel) Hpre Hc
              eq_refl eq_refl eq_refl Hl)
    as (scp & sc & sc' & b & Hs & Hsc & Hsc' & Hb & Hkb & Hrest).
  exists scp, sc, sc', b. repeat (split; [done|]).
  split; [|done]. rewrite Hkb. simpl.
  pose proof Hpre as [Hwf _ _ _ _ _].
  destruct (cloneTree_ok _ _ _ _ Hwf Hc) as (_ & _ & Hsbh & _).
  destruct Hsbh as [_ _ _ _ _ (C1 & _) _ _ _]. by rewrite C1, Hs.
Qed.

Lemma cfunc_cloned_into_scope_witness :
  [cfunc_f] = [cfunc_f]
  ∧ ∃ scp sc sc' b,
      m_scopep st_cls0 = Some scp ∧ scopes st_cls0 !! scp = Some sc
      ∧ scopes st_cfunc1 !! scp = Some sc'
      ∧ blocksp sc' !! length (blocksp sc) = Some b
      ∧ kind b = KCFunc (Some scp) ∧ self b = next st_cls0
      ∧ self cfunc_f < next st_cls0
      ∧ user2p st_cfunc1 !! self cfunc_f = Some (next st_cls0)
      ∧ (∀ vs, vs ∈ varsp sc' → vs ∈ varsp sc ∨ next st_cls0 ≤ vsc_varp vs).
Proof.
  apply (cfunc_cloned_into_scope opt_ab 2 None cfunc_f st_cls0 [cfunc_f] st_cfunc1).
  - reflexivity.
  - apply pre_st_cls0; [vm_compute; solve_NoDup|].
    intros p Hp. vm_compute in Hp.
    repeat (apply elem_of_cons in Hp as [->|Hp]; [lia|]).
    by apply elem_of_nil in Hp.
  - vm_compute. reflexivity.
Defined.

(** X8.  A visit of a procedure, an alias, a continuous or var-scope
    assignment, an always-public block or a cover-toggle probe leaves the
    node where it is and puts a copy of the same kind at the end of the
    blocks of the current scope; the copy is a new object, [user2p] of
    the original points to it, and the bindings added to the current
    scope are bindings of new objects: the children are iterated under
    the copy, not under the original. *)
Theorem block_cloned_into_scope opt fuel n st ns st' :
  plain_block (kind n) = true → pre (var_ptrs n) (node_ptrs n) st →
  visit opt (S fuel) n st = Ok (ns, st') →
  ns = [n]
  ∧ ∃ scp sc sc' b,
      m_scopep st = Some scp ∧ scopes st !! scp = Some sc
      ∧ scopes st' !! scp = Some sc'
      ∧ blocksp sc' !! length (blocksp sc) = Some b
      ∧ kind b = kind n ∧ self b = next st ∧ self n < next st
      ∧ user2p st' !! self n = Some (next st)
      ∧ (∀ vs, vs ∈ varsp sc' → vs ∈ varsp sc ∨ next st ≤ vsc_varp vs).
Proof.
  intros Hk Hpre Hvis.
  assert (Hvis' : visit_block (visit opt fuel) n st = Ok (ns, st')).
  { cbn [visit] in Hvis. by destruct (kind n). }
  clear Hvis. unfold visit_block in Hvis'.
  destruct (cloneTree n st) as [c st1] eqn:Hc.
  apply bind_Ok in Hvis' as (st2 & Hl & Hvis). injection Hvis as <- <-.
  split; [done|].
  destruct (cloned_block _ _ _ _ _ _ _ (visit_visit_ok opt fuel) Hpre Hc
              eq_refl eq_refl eq_refl Hl)
    as (scp & sc & sc' & b & Hs & Hsc & Hsc' & Hb & Hkb & Hrest).
  exists scp, sc, sc', b. repeat (split; [done|]).
  split; [|done]. rewrite Hkb.
  pose proof Hpre as [Hwf _ _ _ _ _].
  by destruct (cloneTree_ok _ _ _ _ Hwf Hc) as (_ & _ & _ & _ & ? & _).
Qed.

Lemma block_cloned_into_scope_witness :
  [always_a] = [always_a]
  ∧ ∃ scp sc sc' b,
      m_scopep st_cls0 = Some scp ∧ scopes st_cls0 !! scp = Some sc
      ∧ scopes st_always1 !! scp = Some sc'
      ∧ blocksp sc' !! length (blocksp sc) = Some b
      ∧ kind b = kind always_a ∧ self b = next st_cls0
      ∧ self always_a < next st_cls0
      ∧ user2p st_always1 !! self always_a = Some (next st_cls0)
      ∧ (∀ vs, vs ∈ varsp sc' → vs ∈ varsp sc ∨ next st_cls0 ≤ vsc_varp vs).
Proof.
  apply (block_cloned_into_scope opt_ab 2 always_a st_cls0 [always_a] st_always1).
  - reflexivity.
  - apply pre_st_cls0; [vm_compute; solve_NoDup|].
    intros p Hp. vm_compute in Hp.
    repeat (apply elem_of_cons in Hp as [->|Hp]; [lia|]).
    by apply elem_of_nil in Hp.
  - vm_compute. reflexivity.
Defined.

(** X9.  A visit of a scope-name node puts a new text node that reads
    "__DOT__" followed by the name of the current scope in front of the
    scope attributes and another in front of the scope entries; the nodes
    that were there follow, iterated in their order, attributes first. *)
Theorem scope_name_prefixed opt fuel n st ns st' :
  kind n = KScopeName → visit opt (S fuel) n st = Ok (ns, st') →
  ∃ scp sc o1 o2 o3 o4 stA stB stC,
    m_scopep st = Some scp ∧ scopes st !! scp = Some sc
    ∧ ns = [Node KScopeName (self n)
              (Node (KText ("__DOT__" +:+ scope_name sc)) (next st) [] [] [] [] :: o1)
              (Node (KText ("__DOT__" +:+ scope_name sc)) (S (next st)) [] [] [] []
                 :: o2)
              o3 o4]
    ∧ iterateAndNext (visit opt fuel) (op1p n) (set_next (S (S (next st))) st)
      = Ok (o1, stA)
    ∧ iterateAndNext (visit opt fuel) (op2p n) stA = Ok (o2, stB)
    ∧ iterateAndNext (visit opt fuel) (op3p n) stB = Ok (o3, stC)
    ∧ iterateAndNext (visit opt fuel) (op4p n) stC = Ok (o4, st').
Proof.
  intros Hk Hvis. cbn [visit] in Hvis. rewrite Hk in Hvis.
  unfold visit_AstScopeName in Hvis.
  apply bind_Ok in Hvis as (scp & Escp%deref_Ok & Hvis).
  apply bind_Ok in Hvis as (sc & Esc%deref_Ok & Hvis).
  cbn [alloc] in Hvis.
  apply bind_Ok in Hvis as ([n' st5] & Eit & Hvis). injection Hvis as <- <-.
  destruct fuel as [|fuel]; [done|].
  unfold iterateChildren in Eit. cbn [op1p op2p op3p op4p kind self] in Eit.
  assert (Ht : ∀ t p l s,
    iterateAndNext (visit opt (S fuel)) (Node (KText t) p [] [] [] [] :: l) s
    = '(ns', s') ← iterateAndNext (visit opt (S fuel)) l s;
      Ok (Node (KText t) p [] [] [] [] :: ns', s')).
  { intros t p l s. reflexivity. }
  rewrite Ht in Eit.
  apply bind_Ok in Eit as ([o1' stA] & E1 & Eit).
  apply bind_Ok in E1 as ([o1 stA'] & E1 & H1). injection H1 as <- <-.
  rewrite Ht in Eit.
  apply bind_Ok in Eit as ([o2' stB] & E2 & Eit).
  apply bind_Ok in E2 as ([o2 stB'] & E2 & H2). injection H2 as <- <-.
  apply bind_Ok in Eit as ([o3 stC] & E3 & Eit).
  apply bind_Ok in Eit as ([o4 stD] & E4 & Eit). injection Eit as <- <-.
  exists scp, sc, o1, o2, o3, o4, stA', stB', stC. rewrite Hk.
  repeat (split; [done|]). done.
Qed.

Lemma scope_name_prefixed_witness :
  ∃ scp sc o1 o2 o3 o4 stA stB stC,
    m_scopep st_cls0 = Some scp ∧ scopes st_cls0 !! scp = Some sc
    ∧ ns_scopename1
      = [Node KScopeName (self scopename_n)
           (Node (KText ("__DOT__" +:+ scope_name sc)) (next st_cls0) [] [] [] [] :: o1)
           (Node (KText ("__DOT__" +:+ scope_name sc)) (S (next st_cls0)) [] [] [] []
              :: o2)
           o3 o4]
    ∧ iterateAndNext (visit opt_ab 2) (op1p scopename_n)
                     (set_next (S (S (next st_cls0))) st_cls0) = Ok (o1, stA)
    ∧ iterateAndNext (visit opt_ab 2) (op2p scopename_n) stA = Ok (o2, stB)
    ∧ iterateAndNext (visit opt_ab 2) (op3p scopename_n) stB = Ok (o3, stC)
    ∧ iterateAndNext (visit opt_ab 2) (op4p scopename_n) stC = Ok (o4, st_scopename1).
Proof.
  apply (scope_name_prefixed opt_ab 2 scopename_n st_cls0 ns_scopename1 st_scopename1).
  - reflexivity.
  - vm_compute. reflexivity.
Defined.

(** ** The worklist is a set *)

Lemma pair_ltb_irrefl x : pair_ltb x x = false.
Proof.
  unfold pair_ltb, scope_ltb. rewrite Nat.ltb_irrefl, Nat.eqb_refl.
  destruct x.2; [apply Nat.ltb_irrefl|done].
Qed.

Lemma set_insert_idem x l : set_insert x (set_insert x l) = set_insert x l.
Proof.
  induction l as [|y l IHl]; cbn [set_insert].
  - by rewrite pair_ltb_irrefl.
  - destruct (pair_ltb x y) eqn:E1.
    + cbn [set_insert]. by rewrite pair_ltb_irrefl.
    + destruct (pair_ltb y x) eqn:E2; cbn [set_insert]; rewrite E1, E2; [|done].
      by rewrite IHl.
Qed.

(** X14.  A second visit of a reference in the state the first visit
    left changes nothing: the pair of the reference and the current scope
    is in the worklist once, however often the reference is met under
    that scope. *)
Theorem varref_visit_idempotent opt fuel n st ns st1 :
  kind n = KVarRef → visit opt (S fuel) n st = Ok (ns, st1) →
  visit opt (S fuel) n st1 = Ok (ns, st1).
Proof.
  intros Hk Hvis. cbn [visit] in *. rewrite Hk in *.
  unfold visit_AstVarRef in *.
  apply bind_Ok in Hvis as (r & Er%deref_Ok & Hvis).
  destruct (varp r) as [vp|] eqn:Evp; [|done].
  apply bind_Ok in Hvis as (v & Ev%deref_Ok & Hvis).
  destruct (isIfaceRef v) eqn:Hi; injection Hvis as <- <-; simpl.
  - rewrite lookup_insert_eq. cbn [deref mbind result_bind varp set_varScopep].
    rewrite Evp, Ev. cbn [deref mbind result_bind]. rewrite Hi.
    rewrite insert_insert_eq. reflexivity.
  - rewrite Er. cbn [deref mbind result_bind]. rewrite Evp, Ev.
    cbn [deref mbind result_bind]. rewrite Hi, set_insert_idem. reflexivity.
Qed.

Lemma varref_visit_idempotent_witness :
  visit opt_ab 1 (leaf KVarRef 7) st_ref1 = Ok ([leaf KVarRef 7], st_ref1).
Proof.
  apply (varref_visit_idempotent opt_ab 0 (leaf KVarRef 7) st_ref0).
  - reflexivity.
  - vm_compute. reflexivity.
Defined.

(** X10.  A visit of a reference to a task or function that names a
    package stops with the fatal error "Unlinked" when the reference has
    no target and with "No clone for package function" when the target
    has no copy.  A visit that returns leaves one node in place of the
    reference, the same object, whose target is the copy of the old
    target when the reference names a package, nothing when it names no
    package and is no method call, and the old target otherwise. *)
Theorem ftaskref_retargeted user2p n st isMethodCall taskp packagep :
  kind n = KNodeFTaskRef isMethodCall taskp packagep →
  (is_Some packagep → taskp = None →
   ScopeCleanupVisitor.visit user2p n st = Fatal "Unlinked")
  ∧ (is_Some packagep → ∀ t, taskp = Some t → user2p !! t = None →
     ScopeCleanupVisitor.visit user2p n st = Fatal "No clone for package function")
  ∧ (∀ ns st', ScopeCleanupVisitor.visit user2p n st = Ok (ns, st') →
       ∃ n', ns = [n'] ∧ self n' = self n
             ∧ kind n' = KNodeFTaskRef isMethodCall
                           (newTaskp user2p isMethodCall taskp packagep) packagep
             ∧ (is_Some packagep →
                is_Some (newTaskp user2p isMethodCall taskp packagep))).
Proof.
  intros Hk. rewrite visit_eq. cbv zeta. rewrite Hk.
  unfold ScopeCleanupVisitor.visit_AstNodeFTaskRef.
  split; [|split].
  - intros [pk ->] ->. reflexivity.
  - intros [pk ->] t -> Ht. by rewrite Ht.
  - intros ns st' Hvis.
    apply bind_Ok in Hvis as (t' & Ht & Hvis).
    apply bind_Ok in Hvis as ([n' st1] & Eit & Hvis). injection Hvis as <- <-.
    unfold iterateChildren in Eit.
    apply bind_Ok in Eit as ([o1 s1] & _ & Eit).
    apply bind_Ok in Eit as ([o2 s2] & _ & Eit).
    apply bind_Ok in Eit as ([o3 s3] & _ & Eit).
    apply bind_Ok in Eit as ([o4 s4] & _ & Eit). injection Eit as <- <-.
    eexists. split; [done|]. split; [done|]. cbn [kind].
    assert (t' = newTaskp user2p isMethodCall taskp packagep
            ∧ (is_Some packagep → is_Some t')) as [<- ?]; [|done].
    unfold newTaskp. destruct packagep as [pk|].
    + destruct taskp as [t|]; [|done]. cbn [mbind option_bind].
      destruct (user2p !! t) as [c|]; [|done]. injection Ht as <-. by split.
    + injection Ht as <-. split; [by destruct isMethodCall|]. by intros [? ?].
Qed.

Lemma ftaskref_retargeted_witness :
  (is_Some (Some 2) → Some 20 = None →
   ScopeCleanupVisitor.visit {[ 20 := 40 ]} ftaskref_pkg
     (ScopeCleanupVisitor.mkState None []) = Fatal "Unlinked")
  ∧ (is_Some (Some 2) → ∀ t, Some 20 = Some t → ({[ 20 := 40 ]} : gmap ptr ptr) !! t = None →
     ScopeCleanupVisitor.visit {[ 20 := 40 ]} ftaskref_pkg
       (ScopeCleanupVisitor.mkState None []) = Fatal "No clone for package function")
  ∧ (∀ ns st',
       ScopeCleanupVisitor.visit {[ 20 := 40 ]} ftaskref_pkg
         (ScopeCleanupVisitor.mkState None []) = Ok (ns, st') →
       ∃ n', ns = [n'] ∧ self n' = self ftaskref_pkg
             ∧ kind n' = KNodeFTaskRef false
                           (newTaskp {[ 20 := 40 ]} false (Some 20) (Some 2)) (Some 2)
             ∧ (is_Some (Some 2) →
                is_Some (newTaskp {[ 20 := 40 ]} false (Some 20) (Some 2)))).
Proof.
  apply (ftaskref_retargeted {[ 20 := 40 ]} ftaskref_pkg
           (ScopeCleanupVisitor.mkState None []) false (Some 20) (Some 2)).
  reflexivity.
Defined.

Section Clean.
Context (user2p : gmap ptr ptr).

Import ScopeCleanupVisitor.

Lemma refs_clean_node k p o1 o2 o3 o4 :
  refs_clean user2p (Node k p o1 o2 o3 o4)
  ↔ ref_clean user2p k ∧ Forall (refs_clean user2p) o1
    ∧ Forall (refs_clean user2p) o2 ∧ Forall (refs_clean user2p) o3
    ∧ Forall (refs_clean user2p) o4.
Proof.
  unfold refs_clean. rewrite subnodes_eq. cbn [kind op1p op2p op3p op4p].
  rewrite Forall_cons, !Forall_app.
  assert (Hb : ∀ l : list AstNode,
    Forall (λ x, ref_clean user2p (kind x)) (l ≫= subnodes)
    ↔ Forall (λ n, Forall (λ x, ref_clean user2p (kind x)) (subnodes n)) l).
  { induction l as [|x l IHl].
    - split; constructor.
    - rewrite bind_cons, Forall_app, Forall_cons, IHl. done. }
  rewrite !Hb. done.
Qed.

Lemma iterateAndNext_clean l :
  Forall (visit_clean user2p) l →
  ∀ st ns st', iterateAndNext (visit user2p) l st = Ok (ns, st') →
    Forall (refs_clean user2p) ns.
Proof.
  induction 1 as [|n l Hn Hl IHl]; intros st ns st' Hit; cbn [iterateAndNext] in Hit.
  - injection Hit as <- <-. constructor.
  - apply bind_Ok in Hit as ([ns1 st1] & E1 & Hit).
    apply bind_Ok in Hit as ([ns2 st2] & E2 & Hit). injection Hit as <- <-.
    apply Forall_app. split; [by eapply Hn|by eapply IHl].
Qed.

Lemma iterateChildren_clean k p o1 o2 o3 o4 st n' st' :
  Forall (visit_clean user2p) o1 → Forall (visit_clean user2p) o2 →
  Forall (visit_clean user2p) o3 → Forall (visit_clean user2p) o4 →
  ref_clean user2p k →
  iterateChildren (visit user2p) (Node k p o1 o2 o3 o4) st = Ok (n', st') →
  refs_clean user2p n'.
Proof.
  intros H1 H2 H3 H4 Hk Hit. unfold iterateChildren in Hit.
  cbn [kind self op1p op2p op3p op4p] in Hit.
  apply bind_Ok in Hit as ([o1' st1] & E1 & Hit).
  apply bind_Ok in Hit as ([o2' st2] & E2 & Hit).
  apply bind_Ok in Hit as ([o3' st3] & E3 & Hit).
  apply bind_Ok in Hit as ([o4' st4] & E4 & Hit). injection Hit as <- <-.
  apply refs_clean_node. split; [done|].
  split; [exact (iterateAndNext_clean _ H1 _ _ _ E1)|].
  split; [exact (iterateAndNext_clean _ H2 _ _ _ E2)|].
  split; [exact (iterateAndNext_clean _ H3 _ _ _ E3)|].
  exact (iterateAndNext_clean _ H4 _ _ _ E4).
Qed.

Lemma visit_visit_clean n : xref_leaves n = true → visit_clean user2p n.
Proof.
  induction n as [k p o1 o2 o3 o4 H1 H2 H3 H4] using AstNode_ind'.
  intros Hx. cbn [xref_leaves] in Hx.
  rewrite !andb_true_iff, !forallb_Forall in Hx.
  destruct Hx as ((((Hleaf & X1) & X2) & X3) & X4).
  assert (Hl : ∀ l, Forall (λ n, xref_leaves n = true → visit_clean user2p n) l →
                    Forall (λ x, xref_leaves x = true) l →
                    Forall (visit_clean user2p) l).
  { intros l HP Hb. induction Hb as [|x l Hx Hb IH]; [constructor|].
    apply Forall_cons in HP as [Px Pl]. constructor; eauto. }
  pose proof (Hl _ H1 X1) as V1. pose proof (Hl _ H2 X2) as V2.
  pose proof (Hl _ H3 X3) as V3. pose proof (Hl _ H4 X4) as V4.
  clear Hl H1 H2 H3 H4 X1 X2 X3 X4.
  intros st ns st' Hvis. rewrite visit_eq in Hvis. cbv zeta in Hvis.
  assert (Hic : ∀ k', ref_clean user2p k' →
            ∀ st0 n' st1,
              iterateChildren (visit user2p) (Node k' p o1 o2 o3 o4) st0
              = Ok (n', st1) → Forall (refs_clean user2p) [n']).
  { intros k' Hk' st0 n' st1 Hit. apply Forall_singleton.
    exact (iterateChildren_clean _ _ _ _ _ _ _ _ _ V1 V2 V3 V4 Hk' Hit). }
  assert (Hblock :
            movedDeleteOrIterate (iterateChildren (visit user2p))
                                 (Node k p o1 o2 o3 o4) st
            = Ok (ns, st') → ref_clean user2p k → Forall (refs_clean user2p) ns).
  { intros Hm Hk. unfold movedDeleteOrIterate in Hm.
    destruct (m_scopep st) as [s|].
    - apply bind_Ok in Hm as ([n' st1] & Eit & Hm). injection Hm as <- <-.
      by eapply Hic.
    - injection Hm as <- <-. constructor. }
  destruct k; cbn [kind] in Hvis; try (by apply Hblock);
    try (unfold visit_AstNode, visit_AstScope in Hvis;
         apply bind_Ok in Hvis as ([n' st1] & Eit & Hvis);
         injection Hvis as <- <-;
         refine (Hic _ _ _ _ _ Eit); exact I).
  - (* AstVarXRef *)
    unfold visit_AstVarXRef in Hvis. injection Hvis as <- <-.
    apply Forall_singleton. cbn [op1p op2p op3p op4p self].
    destruct o1, o2, o3, o4; try done.
    apply refs_clean_node. by repeat split.
  - (* AstNodeFTaskRef *)
    unfold visit_AstNodeFTaskRef in Hvis.
    apply bind_Ok in Hvis as (t' & Ht & Hvis).
    apply bind_Ok in Hvis as ([n' st1] & Eit & Hvis). injection Hvis as <- <-.
    refine (Hic _ _ _ _ _ Eit). cbn [ref_clean].
    match goal with |- match ?pk with _ => _ end => destruct pk as [pk|] end.
    + match type of Ht with
      | match ?tp with _ => _ end = _ => destruct tp as [t|]; [|done]
      end.
      destruct (user2p !! t) as [c|] eqn:E; [|done]. injection Ht as <-.
      by exists t, c.
    + injection Ht as <-.
      match goal with |- ?mc = true ∨ _ => destruct mc; [by left|by right] end.
  - (* AstModportFTaskRef *)
    unfold visit_AstModportFTaskRef in Hvis.
    apply bind_Ok in Hvis as ([n' st1] & Eit & Hvis). injection Hvis as <- <-.
    refine (Hic _ _ _ _ _ Eit). reflexivity.
Qed.

Lemma visit_modules_clean l : ∀ st l' st',
  Forall (λ m, Forall (λ n, xref_leaves n = true) (module_children m)) l →
  visit_modules user2p l st = Ok (l', st') →
  Forall (λ m, Forall (refs_clean user2p) (module_children m)) l'.
Proof.
  induction l as [|m l IHl]; intros st l' st' Hx Hvis; cbn [visit_modules] in Hvis.
  - injection Hvis as <- <-. constructor.
  - apply Forall_cons in Hx as [Xm Xl].
    apply bind_Ok in Hvis as ([m1 st1] & E1 & Hvis).
    apply bind_Ok in Hvis as ([l1 st2] & E2 & Hvis). injection Hvis as <- <-.
    constructor; [|by eapply IHl].
    unfold visit_module in E1. unfold module_children in Xm.
    apply Forall_app in Xm as (X1 & Xm). apply Forall_app in Xm as (X2 & X3).
    assert (Hl : ∀ l, Forall (λ x, xref_leaves x = true) l →
                      Forall (visit_clean user2p) l).
    { intros l0 Hl0. eapply Forall_impl; [exact Hl0|].
      intros x. apply visit_visit_clean. }
    apply bind_Ok in E1 as ([o1 s1] & F1 & E1).
    apply bind_Ok in E1 as ([o2 s2] & F2 & E1).
    apply bind_Ok in E1 as ([o3 s3] & F3 & E1). injection E1 as <- <-.
    unfold module_children. cbn [inlinesp stmtsp activesp].
    apply Forall_app. split; [exact (iterateAndNext_clean _ (Hl _ X1) _ _ _ F1)|].
    apply Forall_app. split; [exact (iterateAndNext_clean _ (Hl _ X2) _ _ _ F2)|].
    exact (iterateAndNext_clean _ (Hl _ X3) _ _ _ F3).
Qed.
End Clean.

(** X11.  When the second visitor has walked the modules of a design
    whose cross references are leaves, no node left in the tree keeps a
    target the first visitor made stale: every cross reference to a
    variable and every task reference of a modport has no target, every
    reference to a task or function that names a package points to a
    copy recorded in [user2p], and every other such reference that is no
    method call has no target. *)
Theorem cleanup_clears_cross_references user2p modulesp mods' st' :
  Forall (λ m, Forall (λ n, xref_leaves n = true) (module_children m)) modulesp →
  ScopeCleanupVisitor.ScopeCleanupVisitor user2p modulesp = Ok (mods', st') →
  Forall (λ m, Forall (refs_clean user2p) (module_children m)) mods'.
Proof.
  intros Hx Hrun. unfold ScopeCleanupVisitor.ScopeCleanupVisitor in Hrun.
  by eapply visit_modules_clean.
Qed.

Lemma cleanup_clears_cross_references_witness :
  Forall (λ m, Forall (refs_clean ∅) (module_children m)) mods_xref'.
Proof.
  apply (cleanup_clears_cross_references ∅ mods_xref mods_xref' st_xref').
  - repeat constructor.
  - vm_compute. reflexivity.
Defined.

Lemma perm_interleave {A} (a1 a2 d1 d2 : list A) :
  (a1 ++ a2) ++ (d1 ++ d2) ≡ₚ (a1 ++ d1) ++ (a2 ++ d2).
Proof.
  rewrite <- !app_assoc. f_equiv. rewrite !app_assoc. f_equiv.
  apply Permutation_app_comm.
Qed.

Lemma conserves_refl st : conserves [] st st [].
Proof. exists []. by rewrite app_nil_r. Qed.

Lemma conserves_seq np1 np2 st st1 st2 ns1 ns2 :
  conserves np1 st st1 ns1 → conserves np2 st1 st2 ns2 →
  conserves (np1 ++ np2) st st2 (ns1 ++ ns2).
Proof.
  intros (ds1 & D1 & P1) (ds2 & D2 & P2). exists (ds1 ++ ds2).
  split; [by rewrite D2, D1, app_assoc|].
  rewrite !nodes_ptrs_app, perm_interleave. by rewrite P1, P2.
Qed.

Section Conserve.
Context (user2p : gmap ptr ptr).

Import ScopeCleanupVisitor.

Lemma iterateAndNext_conserves l :
  Forall (visit_conserves user2p) l →
  ∀ st ns st', iterateAndNext (visit user2p) l st = Ok (ns, st') →
    conserves (nodes_ptrs l) st st' ns.
Proof.
  induction 1 as [|n l Hn Hl IHl]; intros st ns st' Hit; cbn [iterateAndNext] in Hit.
  - injection Hit as <- <-. apply conserves_refl.
  - apply bind_Ok in Hit as ([ns1 st1] & E1 & Hit).
    apply bind_Ok in Hit as ([ns2 st2] & E2 & Hit). injection Hit as <- <-.
    rewrite nodes_ptrs_cons. eapply conserves_seq; eauto.
Qed.

Lemma iterateChildren_conserves k p o1 o2 o3 o4 st n' st' :
  Forall (visit_conserves user2p) o1 → Forall (visit_conserves user2p) o2 →
  Forall (visit_conserves user2p) o3 → Forall (visit_conserves user2p) o4 →
  iterateChildren (visit user2p) (Node k p o1 o2 o3 o4) st = Ok (n', st') →
  kind n' = k
  ∧ conserves (node_ptrs (Node k p o1 o2 o3 o4)) st st' [n'].
Proof.
  intros H1 H2 H3 H4 Hit. unfold iterateChildren in Hit.
  cbn [kind self op1p op2p op3p op4p] in Hit.
  apply bind_Ok in Hit as ([o1' st1] & E1 & Hit).
  apply bind_Ok in Hit as ([o2' st2] & E2 & Hit).
  apply bind_Ok in Hit as ([o3' st3] & E3 & Hit).
  apply bind_Ok in Hit as ([o4' st4] & E4 & Hit). injection Hit as <- <-.
  split; [done|].
  pose proof (conserves_seq _ _ _ _ _ _ _
                (iterateAndNext_conserves _ H1 _ _ _ E1)
                (conserves_seq _ _ _ _ _ _ _
                   (iterateAndNext_conserves _ H2 _ _ _ E2)
                   (conserves_seq _ _ _ _ _ _ _
                      (iterateAndNext_conserves _ H3 _ _ _ E3)
                      (iterateAndNext_conserves _ H4 _ _ _ E4))))
    as (ds & D & P).
  exists ds. split; [done|].
  rewrite nodes_ptrs_singleton, !node_ptrs_eq. cbn [self op1p op2p op3p op4p].
  rewrite <- app_comm_cons. f_equiv.
  rewrite !nodes_ptrs_app in P. exact P.
Qed.

Lemma visit_visit_conserves n : visit_conserves user2p n.
Proof.
  induction n as [k p o1 o2 o3 o4 V1 V2 V3 V4] using AstNode_ind'.
  intros st ns st' Hvis. rewrite visit_eq in Hvis. cbv zeta in Hvis.
  assert (Hic : ∀ k' st0 n' st1,
            iterateChildren (visit user2p) (Node k' p o1 o2 o3 o4) st0
            = Ok (n', st1) →
            conserves (node_ptrs (Node k p o1 o2 o3 o4)) st0 st1 [n']).
  { intros k' st0 n' st1 Hit.
    destruct (iterateChildren_conserves _ _ _ _ _ _ _ _ _ V1 V2 V3 V4 Hit)
      as (_ & ds & D & P).
    exists ds. split; [done|]. by rewrite P, !node_ptrs_eq. }
  assert (Hblock :
            movedDeleteOrIterate (iterateChildren (visit user2p))
                                 (Node k p o1 o2 o3 o4) st
            = Ok (ns, st') →
            conserves (node_ptrs (Node k p o1 o2 o3 o4)) st st' ns).
  { intros Hm. unfold movedDeleteOrIterate in Hm.
    destruct (m_scopep st) as [s|].
    - apply bind_Ok in Hm as ([n' st1] & Eit & Hm). injection Hm as <- <-.
      by eapply Hic.
    - injection Hm as <- <-. eexists [_]. split; [done|].
      by rewrite nodes_ptrs_singleton. }
  destruct k; cbn [kind] in Hvis; try (by apply Hblock);
    try (unfold visit_AstNode, visit_AstModportFTaskRef, visit_AstScope in Hvis;
         apply bind_Ok in Hvis as ([n' st1] & Eit & Hvis);
         injection Hvis as <- <-; exact (Hic _ _ _ _ Eit)).
  - (* AstVarXRef *)
    unfold visit_AstVarXRef in Hvis. injection Hvis as <- <-.
    exists []. split; [by rewrite app_nil_r|].
    by rewrite app_nil_r, nodes_ptrs_singleton, !node_ptrs_eq.
  - (* AstNodeFTaskRef *)
    unfold visit_AstNodeFTaskRef in Hvis.
    apply bind_Ok in Hvis as (t' & Ht & Hvis).
    apply bind_Ok in Hvis as ([n' st1] & Eit & Hvis). injection Hvis as <- <-.
    exact (Hic _ _ _ _ Eit).
Qed.

Lemma visit_modules_conserves l : ∀ st l' st',
  visit_modules user2p l st = Ok (l', st') →
  mod_self <$> l' = mod_self <$> l
  ∧ ∃ ds, deleteps st' = deleteps st ++ ds
          ∧ (l' ≫= module_node_ptrs) ++ nodes_ptrs ds ≡ₚ l ≫= module_node_ptrs.
Proof.
  induction l as [|m l IHl]; intros st l' st' Hvis; cbn [visit_modules] in Hvis.
  - injection Hvis as <- <-. split; [done|]. exists []. by rewrite app_nil_r.
  - apply bind_Ok in Hvis as ([m1 st1] & E1 & Hvis).
    apply bind_Ok in Hvis as ([l1 st2] & E2 & Hvis). injection Hvis as <- <-.
    destruct (IHl _ _ _ E2) as (Hself & ds2 & D2 & P2).
    unfold visit_module in E1.
    assert (Hl : ∀ l0, Forall (visit_conserves user2p) l0).
    { intros l0. apply Forall_forall. intros x _. apply visit_visit_conserves. }
    apply bind_Ok in E1 as ([o1 s1] & F1 & E1).
    apply bind_Ok in E1 as ([o2 s2] & F2 & E1).
    apply bind_Ok in E1 as ([o3 s3] & F3 & E1). injection E1 as <- <-.
    pose proof (conserves_seq _ _ _ _ _ _ _
                  (iterateAndNext_conserves _ (Hl _) _ _ _ F1)
                  (conserves_seq _ _ _ _ _ _ _
                     (iterateAndNext_conserves _ (Hl _) _ _ _ F2)
                     (iterateAndNext_conserves _ (Hl _) _ _ _ F3)))
      as (ds1 & D1 & P1).
    split; [cbn [fmap list_fmap mod_self]; by f_equal|].
    exists (ds1 ++ ds2). split; [by rewrite D2, D1, app_assoc|].
    rewrite !bind_cons, nodes_ptrs_app, perm_interleave, P2.
    f_equiv. unfold module_node_ptrs. cbn [inlinesp stmtsp activesp].
    rewrite !nodes_ptrs_app in P1. exact P1.
Qed.
End Conserve.

(** X12.  The second visitor makes no node and loses none: the modules
    it returns are the modules it was given, in their order, and the
    addresses of the nodes left below them together with those of the
    nodes handed to [pushDeletep] (each with its subtree) are, up to
    order, the addresses of the nodes it started from. *)
Theorem cleanup_conserves_nodes user2p modulesp mods' st' :
  ScopeCleanupVisitor.ScopeCleanupVisitor user2p modulesp = Ok (mods', st') →
  mod_self <$> mods' = mod_self <$> modulesp
  ∧ (mods' ≫= module_node_ptrs)
    ++ nodes_ptrs (ScopeCleanupVisitor.deleteps st')
    ≡ₚ modulesp ≫= module_node_ptrs.
Proof.
  intros Hrun. unfold ScopeCleanupVisitor.ScopeCleanupVisitor in Hrun.
  destruct (visit_modules_conserves user2p _ _ _ _ Hrun) as (Hs & ds & D & P).
  split; [done|]. rewrite D. exact P.
Qed.

Lemma cleanup_conserves_nodes_witness :
  mod_self <$> mods_c3' = mod_self <$> mods_c3
  ∧ (mods_c3' ≫= module_node_ptrs)
    ++ nodes_ptrs (ScopeCleanupVisitor.deleteps st_c3')
    ≡ₚ mods_c3 ≫= module_node_ptrs.
Proof.
  apply (cleanup_conserves_nodes ∅ mods_c3 mods_c3' st_c3').
  vm_compute. reflexivity.
Defined.

Lemma visit_block_outside user2p b st :
  clonable (kind b) = true → ScopeCleanupVisitor.m_scopep st = None →
  ScopeCleanupVisitor.visit user2p b st
  = Ok ([], ScopeCleanupVisitor.mkState
              None (ScopeCleanupVisitor.deleteps st ++ [b])).
Proof.
  intros Hb Hs. rewrite visit_eq. cbv zeta.
  destruct (kind b); try discriminate Hb;
    unfold ScopeCleanupVisitor.movedDeleteOrIterate; by rewrite Hs.
Qed.

(** X13.  A visit of a scope node iterates the children of the node with
    that scope as the current one and then leaves the visitor outside any
    scope, whatever scope it was in before: the scope it came from is not
    restored, so a clonable block that is visited next is handed to
    [pushDeletep]. *)
Theorem scope_visit_ends_outside user2p n st ns st' b :
  kind n = KScope → clonable (kind b) = true →
  ScopeCleanupVisitor.visit user2p n st = Ok (ns, st') →
  ScopeCleanupVisitor.m_scopep st' = None
  ∧ (∃ n' st1,
       iterateChildren (ScopeCleanupVisitor.visit user2p) n
         (ScopeCleanupVisitor.mkState (Some (self n)) (ScopeCleanupVisitor.deleteps st))
       = Ok (n', st1)
       ∧ ns = [n']
       ∧ ScopeCleanupVisitor.deleteps st' = ScopeCleanupVisitor.deleteps st1)
  ∧ iterateAndNext (ScopeCleanupVisitor.visit user2p) [n; b] st
    = Ok (ns, ScopeCleanupVisitor.mkState
                None (ScopeCleanupVisitor.deleteps st' ++ [b])).
Proof.
  intros Hk Hb Hvis.
  assert (H1 : ScopeCleanupVisitor.m_scopep st' = None
    ∧ ∃ n' st1,
        iterateChildren (ScopeCleanupVisitor.visit user2p) n
          (ScopeCleanupVisitor.mkState (Some (self n)) (ScopeCleanupVisitor.deleteps st))
        = Ok (n', st1)
        ∧ ns = [n']
        ∧ ScopeCleanupVisitor.deleteps st' = ScopeCleanupVisitor.deleteps st1).
  { rewrite visit_eq in Hvis. cbv zeta in Hvis. rewrite Hk in Hvis.
    unfold ScopeCleanupVisitor.visit_AstScope in Hvis.
    apply bind_Ok in Hvis as ([n' st1] & Eit & Hvis). injection Hvis as <- <-.
    split; [done|]. by exists n', st1. }
  destruct H1 as (Hs & H1). split; [done|]. split; [done|].
  cbn [iterateAndNext]. rewrite Hvis. cbn [mbind result_bind].
  rewrite (visit_block_outside user2p b st' Hb Hs). cbn [mbind result_bind].
  by rewrite app_nil_r.
Qed.

Lemma scope_visit_ends_outside_witness :
  ScopeCleanupVisitor.m_scopep st_scope1 = None
  ∧ (∃ n' st1,
       iterateChildren (ScopeCleanupVisitor.visit ∅) scope_s
         (ScopeCleanupVisitor.mkState (Some (self scope_s))
            (ScopeCleanupVisitor.deleteps st_in50))
       = Ok (n', st1)
       ∧ ns_scope1 = [n']
       ∧ ScopeCleanupVisitor.deleteps st_scope1 = ScopeCleanupVisitor.deleteps st1)
  ∧ iterateAndNext (ScopeCleanupVisitor.visit ∅) [scope_s; block_b] st_in50
    = Ok (ns_scope1, ScopeCleanupVisitor.mkState
                       None (ScopeCleanupVisitor.deleteps st_scope1 ++ [block_b])).
Proof.
  apply (scope_visit_ends_outside ∅ scope_s st_in50 ns_scope1 st_scope1 block_b).
  - reflexivity.
  - reflexivity.
  - vm_compute. reflexivity.
Defined.

Section Keep.
Context (user2p : gmap ptr ptr).

Import ScopeCleanupVisitor.

Lemma iterateAndNext_keeps l :
  Forall (visit_keeps user2p) l →
  ∀ st ns st', is_Some (m_scopep st) →
    iterateAndNext (visit user2p) l st = Ok (ns, st') → kept st st'.
Proof.
  induction 1 as [|n l Hn Hl IHl]; intros st ns st' Hs Hit; cbn [iterateAndNext] in Hit.
  - injection Hit as <- <-. by split.
  - apply bind_Ok in Hit as ([ns1 st1] & E1 & Hit).
    apply bind_Ok in Hit as ([ns2 st2] & E2 & Hit). injection Hit as <- <-.
    destruct (Hn _ _ _ Hs E1) as [[K1 K2] _].
    assert (Hs1 : is_Some (m_scopep st1)) by (by rewrite K1).
    destruct (IHl _ _ _ Hs1 E2) as [L1 L2].
    split; congruence.
Qed.

Lemma iterateChildren_keeps k p o1 o2 o3 o4 st n' st' :
  Forall (visit_keeps user2p) o1 → Forall (visit_keeps user2p) o2 →
  Forall (visit_keeps user2p) o3 → Forall (visit_keeps user2p) o4 →
  is_Some (m_scopep st) →
  iterateChildren (visit user2p) (Node k p o1 o2 o3 o4) st = Ok (n', st') →
  kept st st' ∧ self n' = p.
Proof.
  intros H1 H2 H3 H4 Hs Hit. unfold iterateChildren in Hit.
  cbn [kind self op1p op2p op3p op4p] in Hit.
  apply bind_Ok in Hit as ([o1' st1] & E1 & Hit).
  apply bind_Ok in Hit as ([o2' st2] & E2 & Hit).
  apply bind_Ok in Hit as ([o3' st3] & E3 & Hit).
  apply bind_Ok in Hit as ([o4' st4] & E4 & Hit). injection Hit as <- <-.
  destruct (iterateAndNext_keeps _ H1 _ _ _ Hs E1) as [A1 A2].
  assert (Hs1 : is_Some (m_scopep st1)) by (by rewrite A1).
  destruct (iterateAndNext_keeps _ H2 _ _ _ Hs1 E2) as [B1 B2].
  assert (Hs2 : is_Some (m_scopep st2)) by (by rewrite B1).
  destruct (iterateAndNext_keeps _ H3 _ _ _ Hs2 E3) as [C1 C2].
  assert (Hs3 : is_Some (m_scopep st3)) by (by rewrite C1).
  destruct (iterateAndNext_keeps _ H4 _ _ _ Hs3 E4) as [D1 D2].
  split; [split; congruence|done].
Qed.

Lemma visit_visit_keeps n : scope_free n = true → visit_keeps user2p n.
Proof.
  induction n as [k p o1 o2 o3 o4 H1 H2 H3 H4] using AstNode_ind'.
  intros Hx. cbn [scope_free] in Hx.
  rewrite !andb_true_iff, !forallb_Forall in Hx.
  destruct Hx as ((((Hk & X1) & X2) & X3) & X4).
  assert (Hl : ∀ l, Forall (λ n, scope_free n = true → visit_keeps user2p n) l →
                    Forall (λ x, scope_free x = true) l →
                    Forall (visit_keeps user2p) l).
  { intros l HP Hb. induction Hb as [|x l Hx Hb IH]; [constructor|].
    apply Forall_cons in HP as [Px Pl]. constructor; eauto. }
  pose proof (Hl _ H1 X1) as V1. pose proof (Hl _ H2 X2) as V2.
  pose proof (Hl _ H3 X3) as V3. pose proof (Hl _ H4 X4) as V4.
  clear Hl H1 H2 H3 H4 X1 X2 X3 X4.
  intros st ns st' Hs Hvis. rewrite visit_eq in Hvis. cbv zeta in Hvis.
  assert (Hic : ∀ k' n' st1,
            iterateChildren (visit user2p) (Node k' p o1 o2 o3 o4) st
            = Ok (n', st1) → kept st st1 ∧ ∃ n'', [n'] = [n''] ∧ self n'' = p).
  { intros k' n' st1 Hit.
    destruct (iterateChildren_keeps _ _ _ _ _ _ _ _ _ V1 V2 V3 V4 Hs Hit) as [? ?].
    split; [done|]. by exists n'. }
  assert (Hblock :
            movedDeleteOrIterate (iterateChildren (visit user2p))
                                 (Node k p o1 o2 o3 o4) st
            = Ok (ns, st') → kept st st' ∧ ∃ n', ns = [n'] ∧ self n' = p).
  { intros Hm. unfold movedDeleteOrIterate in Hm. destruct Hs as [s Hs].
    rewrite Hs in Hm.
    apply bind_Ok in Hm as ([n' st1] & Eit & Hm). injection Hm as <- <-.
    by eapply Hic. }
  destruct k; cbn [kind] in Hvis; try discriminate Hk; try (by apply Hblock);
    try (unfold visit_AstNode, visit_AstModportFTaskRef in Hvis;
         apply bind_Ok in Hvis as ([n' st1] & Eit & Hvis);
         injection Hvis as <- <-; exact (Hic _ _ _ Eit)).
  - (* AstVarXRef *)
    unfold visit_AstVarXRef in Hvis. injection Hvis as <- <-.
    split; [by split|]. by eexists.
  - (* AstNodeFTaskRef *)
    unfold visit_AstNodeFTaskRef in Hvis.
    apply bind_Ok in Hvis as (t' & Ht & Hvis).
    apply bind_Ok in Hvis as ([n' st1] & Eit & Hvis). injection Hvis as <- <-.
    exact (Hic _ _ _ Eit).
Qed.
End Keep.

(** X21.  A visit of a scope node below which there is no other scope
    node hands nothing to [pushDeletep]: the scope node stays, and every
    node below it stays below it. *)
Theorem scope_contents_kept user2p n st ns st' :
  kind n = KScope →
  forallb scope_free (op1p n ++ op2p n ++ op3p n ++ op4p n) = true →
  ScopeCleanupVisitor.visit user2p n st = Ok (ns, st') →
  ScopeCleanupVisitor.deleteps st' = ScopeCleanupVisitor.deleteps st
  ∧ (∃ n', ns = [n'] ∧ kind n' = KScope ∧ self n' = self n)
  ∧ nodes_ptrs ns ≡ₚ node_ptrs n.
Proof.
  intros Hk Hfree Hvis.
  destruct (visit_visit_conserves user2p n st ns st' Hvis) as (ds & D & P).
  assert (H1 : ScopeCleanupVisitor.deleteps st' = ScopeCleanupVisitor.deleteps st
               ∧ ∃ n', ns = [n'] ∧ kind n' = KScope ∧ self n' = self n).
  { destruct n as [k p o1 o2 o3 o4]. cbn [kind op1p op2p op3p op4p self] in *. subst k.
    rewrite visit_eq in Hvis. cbv zeta in Hvis. cbn [kind] in Hvis.
    unfold ScopeCleanupVisitor.visit_AstScope in Hvis.
    apply bind_Ok in Hvis as ([n' st1] & Eit & Hvis). injection Hvis as <- <-.
    rewrite !forallb_app, !andb_true_iff, !forallb_Forall in Hfree.
    destruct Hfree as (F1 & F2 & F3 & F4).
    assert (Hl : ∀ l, Forall (λ x, scope_free x = true) l →
                      Forall (visit_keeps user2p) l).
    { intros l Hl. eapply Forall_impl; [exact Hl|]. intros x. apply visit_visit_keeps. }
    destruct (iterateChildren_keeps user2p _ _ _ _ _ _ _ _ _
                (Hl _ F1) (Hl _ F2) (Hl _ F3) (Hl _ F4)
                (ltac:(by eexists) : is_Some (ScopeCleanupVisitor.m_scopep
                    (ScopeCleanupVisitor.mkState (Some p)
                       (ScopeCleanupVisitor.deleteps st)))) Eit)
      as [[_ K2] Hself].
    destruct (iterateChildren_kind _ _ _ _ _ Eit) as [Hkind _].
    split; [exact K2|]. by exists n'. }
  destruct H1 as (Hd & Hn). split; [done|]. split; [done|].
  assert (ds = []) as ->.
  { rewrite Hd in D. apply (f_equal length) in D. rewrite length_app in D.
    destruct ds; [done|]. simpl in D. lia. }
  by rewrite app_nil_r in P.
Qed.

Lemma scope_contents_kept_witness :
  ScopeCleanupVisitor.deleteps st_scope2
  = ScopeCleanupVisitor.deleteps (ScopeCleanupVisitor.mkState None [])
  ∧ (∃ n', ns_scope2 = [n'] ∧ kind n' = KScope ∧ self n' = self scope_s)
  ∧ nodes_ptrs ns_scope2 ≡ₚ node_ptrs scope_s.
Proof.
  apply (scope_contents_kept ∅ scope_s (ScopeCleanupVisitor.mkState None [])
           ns_scope2 st_scope2).
  - reflexivity.
  - reflexivity.
  - vm_compute. reflexivity.
Defined.

Lemma list_bind_nil {A B} (f : A → list B) : [] ≫= f = [].
Proof. done. Qed.

Lemma block_owners_eq above n :
  block_owners above n
  = (if clonable (kind n) then [(self n, above)] else [])
    ++ (children n ≫= block_owners
          (match kind n with KScope => self n :: above | _ => above end)).
Proof.
  destruct n as [k p o1 o2 o3 o4]. cbn [block_owners kind self]. f_equal.
  unfold children. cbn [op1p op2p op3p op4p]. by rewrite !bind_app.
Qed.

Lemma outer_blocks_eq n :
  outer_blocks n
  = if clonable (kind n) then [n]
    else match kind n with
         | KScope => []
         | _ => children n ≫= outer_blocks
         end.
Proof.
  destruct n as [k p o1 o2 o3 o4]. cbn [outer_blocks kind].
  destruct (clonable k); [done|].
  unfold children. cbn [op1p op2p op3p op4p]. rewrite !bind_app.
  by destruct k.
Qed.

Lemma scope_free_eq n :
  scope_free n = match kind n with KScope => false | _ => true end
                 && forallb scope_free (children n).
Proof.
  destruct n as [k p o1 o2 o3 o4]. cbn [scope_free kind]. unfold children.
  cbn [op1p op2p op3p op4p]. rewrite !forallb_app.
  destruct k; cbn [andb]; by rewrite ?andb_assoc.
Qed.

Lemma shallow_eq n :
  shallow n = if clonable (kind n) || bool_decide (kind n = KScope)
              then forallb scope_free (children n)
              else forallb shallow (children n).
Proof.
  destruct n as [k p o1 o2 o3 o4]. cbn [shallow kind]. unfold children.
  cbn [op1p op2p op3p op4p]. rewrite !forallb_app.
  destruct (clonable k || bool_decide (k = KScope)); by rewrite ?andb_assoc.
Qed.

Lemma xref_leaves_eq n :
  xref_leaves n = match kind n, children n with
                  | KVarXRef _, [] => true
                  | KVarXRef _, _ => false
                  | _, _ => true
                  end && forallb xref_leaves (children n).
Proof.
  destruct n as [k p o1 o2 o3 o4]. cbn [xref_leaves kind]. unfold children.
  cbn [op1p op2p op3p op4p]. rewrite !forallb_app, <- !andb_assoc. f_equal.
  destruct k; try done. by destruct o1, o2, o3, o4.
Qed.

(** Every owner list below [above] ends in [above]. *)
Lemma block_owners_suffix n : ∀ above,
  Forall (λ x, above `suffix_of` x.2) (block_owners above n).
Proof.
  induction n as [k p o1 o2 o3 o4 H1 H2 H3 H4] using AstNode_ind'.
  intros above. rewrite block_owners_eq. cbn [kind self].
  apply Forall_app. split.
  - destruct (clonable k); [|constructor]. by apply Forall_singleton.
  - unfold children. cbn [op1p op2p op3p op4p].
    assert (Hsuf : above `suffix_of`
                   match k with KScope => p :: above | _ => above end).
    { destruct k; try done. by apply suffix_cons_r. }
    assert (Hl : ∀ l, Forall (λ n, ∀ above,
                   Forall (λ x, above `suffix_of` x.2) (block_owners above n)) l →
               Forall (λ x, above `suffix_of` x.2)
                 (l ≫= block_owners
                    (match k with KScope => p :: above | _ => above end))).
    { intros l Hl. induction Hl as [|x l Hx Hl IH]; [constructor|].
      rewrite bind_cons. apply Forall_app. split; [|done].
      eapply Forall_impl; [apply Hx|]. intros y Hy. cbv beta in *.
      by etrans. }
    rewrite !bind_app, !Forall_app. auto.
Qed.

Lemma block_owners_in_scope n s above :
  Forall in_scope (block_owners (s :: above) n).
Proof.
  eapply Forall_impl; [apply block_owners_suffix|].
  intros x [pre Hx]. unfold in_scope. rewrite Hx. by destruct pre.
Qed.

(** Below a subtree without scope nodes the owners are the ones above. *)
Lemma block_owners_scope_free n : ∀ above,
  scope_free n = true → Forall (λ x, x.2 = above) (block_owners above n).
Proof.
  induction n as [k p o1 o2 o3 o4 H1 H2 H3 H4] using AstNode_ind'.
  intros above. rewrite scope_free_eq, block_owners_eq. cbn [kind self].
  rewrite andb_true_iff, forallb_Forall. intros [Hk Hc].
  apply Forall_app. split.
  - destruct (clonable k); [|constructor]. by apply Forall_singleton.
  - assert (E : match k with KScope => p :: above | _ => above end = above).
    { by destruct k. }
    rewrite E. unfold children in *. cbn [op1p op2p op3p op4p] in *.
    assert (Hl : ∀ l, Forall (λ n, ∀ above, scope_free n = true →
                   Forall (λ x, x.2 = above) (block_owners above n)) l →
               Forall (λ x, scope_free x = true) l →
               Forall (λ x, x.2 = above) (l ≫= block_owners above)).
    { intros l Hl Hf. induction Hl as [|x l Hx Hl IH]; [constructor|].
      apply Forall_cons in Hf as [Fx Fl].
      rewrite bind_cons. apply Forall_app. split; auto. }
    rewrite !Forall_app in Hc. destruct Hc as (C1 & C2 & C3 & C4).
    rewrite !bind_app, !Forall_app. auto.
Qed.

Lemma blocks_owners_scope_free l above :
  forallb scope_free l = true →
  Forall (λ x, x.2 = above) (l ≫= block_owners above).
Proof.
  rewrite forallb_Forall. induction 1 as [|x l Hx Hl IH]; [constructor|].
  rewrite bind_cons. apply Forall_app. split; [|done].
  by apply block_owners_scope_free.
Qed.

Lemma blocks_owners_in_scope l s above :
  Forall in_scope (l ≫= block_owners (s :: above)).
Proof.
  induction l as [|x l IH]; [constructor|].
  rewrite bind_cons. apply Forall_app. split; [|done].
  apply block_owners_in_scope.
Qed.

Lemma filter_all {A} (P : A → Prop) `{∀ x, Decision (P x)} (l : list A) :
  Forall P l → filter P l = l.
Proof.
  induction 1 as [|x l Hx Hl IH]; [done|]. by rewrite filter_cons_True, IH.
Qed.

Lemma filter_none {A} (P : A → Prop) `{∀ x, Decision (P x)} (l : list A) :
  Forall (λ x, ¬ P x) l → filter P l = [].
Proof.
  induction 1 as [|x l Hx Hl IH]; [done|]. by rewrite filter_cons_False.
Qed.

(** In a shallow tree no block has two scope nodes above it. *)
Lemma block_owners_shallow n :
  shallow n = true → Forall (λ x, length x.2 ≤ 1) (block_owners [] n).
Proof.
  induction n as [k p o1 o2 o3 o4 H1 H2 H3 H4] using AstNode_ind'.
  rewrite shallow_eq, block_owners_eq. cbn [kind self]. intros Hs.
  apply Forall_app. split.
  { destruct (clonable k); [|constructor]. apply Forall_singleton. simpl. lia. }
  assert (Hfree : ∀ l above, length above ≤ 1 →
            forallb scope_free l = true →
            Forall (λ x, length x.2 ≤ 1) (l ≫= block_owners above)).
  { intros l above Hlen Hf. rewrite forallb_Forall in Hf.
    induction Hf as [|x l Hx Hl IH]; [constructor|].
    rewrite bind_cons. apply Forall_app. split; [|done].
    eapply Forall_impl; [exact (block_owners_scope_free x above Hx)|].
    intros y ->. done. }
  destruct (clonable k) eqn:Hc; cbn [orb] in Hs.
  { apply Hfree; [|done]. destruct k; try discriminate Hc; simpl; lia. }
  destruct (bool_decide (k = KScope)) eqn:Hk.
  { apply bool_decide_eq_true in Hk as ->. apply Hfree; [simpl; lia|done]. }
  apply bool_decide_eq_false in Hk.
  assert (E : match k with KScope => p :: [] | _ => [] end = ([] : list ptr)).
  { by destruct k. }
  rewrite E. unfold children in *. cbn [op1p op2p op3p op4p] in *.
  rewrite !forallb_app, !andb_true_iff, !forallb_Forall in Hs.
  destruct Hs as (S1 & S2 & S3 & S4).
  assert (Hl : ∀ l, Forall (λ n, shallow n = true →
                 Forall (λ x, length x.2 ≤ 1) (block_owners [] n)) l →
               Forall (λ x, shallow x = true) l →
               Forall (λ x, length x.2 ≤ 1) (l ≫= block_owners [])).
  { intros l Hl Hf. induction Hl as [|x l Hx Hl IH]; [constructor|].
    apply Forall_cons in Hf as [Fx Fl].
    rewrite bind_cons. apply Forall_app. split; auto. }
  rewrite !bind_app, !Forall_app. auto.
Qed.

Section Owners.
Context (user2p : gmap ptr ptr).

Import ScopeCleanupVisitor.

Lemma iterateAndNext_inside l :
  Forall (inside_ok user2p) l →
  ∀ st ns st', is_Some (m_scopep st) →
    iterateAndNext (visit user2p) l st = Ok (ns, st') →
    kept st st' ∧ ∀ above, ns ≫= block_owners above = l ≫= block_owners above.
Proof.
  induction 1 as [|n l Hn Hl IHl]; intros st ns st' Hs Hit; cbn [iterateAndNext] in Hit.
  - injection Hit as <- <-. by split.
  - apply bind_Ok in Hit as ([ns1 st1] & E1 & Hit).
    apply bind_Ok in Hit as ([ns2 st2] & E2 & Hit). injection Hit as <- <-.
    destruct (Hn _ _ _ Hs E1) as [[K1 K2] B1].
    assert (Hs1 : is_Some (m_scopep st1)) by (by rewrite K1).
    destruct (IHl _ _ _ Hs1 E2) as [[L1 L2] B2].
    split; [split; congruence|].
    intros above. by rewrite bind_app, bind_cons, B1, B2.
Qed.

Lemma iterateChildren_inside n st n' st' :
  Forall (inside_ok user2p) (children n) → is_Some (m_scopep st) →
  iterateChildren (visit user2p) n st = Ok (n', st') →
  kept st st' ∧ kind n' = kind n ∧ self n' = self n
  ∧ ∀ above, children n' ≫= block_owners above = children n ≫= block_owners above.
Proof.
  unfold children. rewrite !Forall_app. intros (H1 & H2 & H3 & H4) Hs Hit.
  unfold iterateChildren in Hit.
  apply bind_Ok in Hit as ([o1' st1] & E1 & Hit).
  apply bind_Ok in Hit as ([o2' st2] & E2 & Hit).
  apply bind_Ok in Hit as ([o3' st3] & E3 & Hit).
  apply bind_Ok in Hit as ([o4' st4] & E4 & Hit). injection Hit as <- <-.
  destruct (iterateAndNext_inside _ H1 _ _ _ Hs E1) as [[A1 A2] B1].
  assert (Hs1 : is_Some (m_scopep st1)) by (by rewrite A1).
  destruct (iterateAndNext_inside _ H2 _ _ _ Hs1 E2) as [[A3 A4] B2].
  assert (Hs2 : is_Some (m_scopep st2)) by (by rewrite A3).
  destruct (iterateAndNext_inside _ H3 _ _ _ Hs2 E3) as [[A5 A6] B3].
  assert (Hs3 : is_Some (m_scopep st3)) by (by rewrite A5).
  destruct (iterateAndNext_inside _ H4 _ _ _ Hs3 E4) as [[A7 A8] B4].
  split; [split; congruence|]. split; [done|]. split; [done|].
  intros above. cbn [op1p op2p op3p op4p].
  by rewrite !bind_app, B1, B2, B3, B4.
Qed.

Lemma Forall_inside l :
  Forall (λ n, scope_free n = true → inside_ok user2p n) l →
  forallb scope_free l = true → Forall (inside_ok user2p) l.
Proof.
  rewrite forallb_Forall. intros HP Hb.
  induction Hb as [|x l Hx Hb IH]; [constructor|].
  apply Forall_cons in HP as [Px Pl]. constructor; eauto.
Qed.

(** Inside a scope a subtree without scope nodes stays as it is, block
    for block. *)
Lemma visit_inside n : scope_free n = true → inside_ok user2p n.
Proof.
  induction n as [k p o1 o2 o3 o4 H1 H2 H3 H4] using AstNode_ind'.
  rewrite scope_free_eq. cbn [kind]. rewrite andb_true_iff. intros [Hk Hfree].
  assert (Hc : Forall (inside_ok user2p) (children (Node k p o1 o2 o3 o4))).
  { apply Forall_inside; [|done]. unfold children. cbn [op1p op2p op3p op4p].
    rewrite !Forall_app. done. }
  clear H1 H2 H3 H4 Hfree.
  intros st ns st' Hs Hvis. rewrite visit_eq in Hvis. cbv zeta in Hvis.
  assert (Hnode : ∀ k' n' st1,
            clonable k' = clonable k → k' ≠ KScope →
            iterateChildren (visit user2p) (Node k' p o1 o2 o3 o4) st
            = Ok (n', st1) →
            kept st st1
            ∧ ∀ above, [n'] ≫= block_owners above
                       = block_owners above (Node k p o1 o2 o3 o4)).
  { intros k' n' st1 Hck Hk' Hit.
    destruct (iterateChildren_inside (Node k' p o1 o2 o3 o4) _ _ _ Hc Hs Hit)
      as (Hkept & Ek & Es & Hb).
    split; [done|]. intros above. rewrite bind_singleton.
    rewrite !block_owners_eq, Ek, Es. cbn [kind self]. rewrite Hck.
    assert (E1 : match k' with KScope => p :: above | _ => above end = above)
      by (by destruct k').
    assert (E2 : match k with KScope => p :: above | _ => above end = above)
      by (by destruct k).
    rewrite E1, E2, Hb. done. }
  assert (Hblock :
            movedDeleteOrIterate (iterateChildren (visit user2p))
                                 (Node k p o1 o2 o3 o4) st
            = Ok (ns, st') →
            kept st st'
            ∧ ∀ above, ns ≫= block_owners above
                       = block_owners above (Node k p o1 o2 o3 o4)).
  { intros Hm. unfold movedDeleteOrIterate in Hm. destruct Hs as [s Hs].
    rewrite Hs in Hm.
    apply bind_Ok in Hm as ([n' st1] & Eit & Hm). injection Hm as <- <-.
    apply (Hnode k); [done| |done]. by destruct k. }
  destruct k; cbn [kind] in Hvis; try discriminate Hk; try (by apply Hblock);
    try (unfold visit_AstNode, visit_AstModportFTaskRef in Hvis;
         apply bind_Ok in Hvis as ([n' st1] & Eit & Hvis);
         injection Hvis as <- <-;
         refine (Hnode _ _ _ _ _ Eit); [reflexivity|discriminate]).
  - (* AstVarXRef *)
    unfold visit_AstVarXRef in Hvis. injection Hvis as <- <-.
    split; [by split|]. intros above.
    rewrite bind_singleton. by rewrite !block_owners_eq.
  - (* AstNodeFTaskRef *)
    unfold visit_AstNodeFTaskRef in Hvis.
    apply bind_Ok in Hvis as (t' & Ht & Hvis).
    apply bind_Ok in Hvis as ([n' st1] & Eit & Hvis). injection Hvis as <- <-.
    refine (Hnode _ _ _ _ _ Eit); [reflexivity|discriminate].
Qed.

Lemma iterateAndNext_outside l :
  Forall (outside_ok user2p) l →
  ∀ st ns st', m_scopep st = None →
    iterateAndNext (visit user2p) l st = Ok (ns, st') →
    m_scopep st' = None
    ∧ deleteps st' = deleteps st ++ (l ≫= outer_blocks)
    ∧ ns ≫= block_owners [] = filter in_scope (l ≫= block_owners []).
Proof.
  induction 1 as [|n l Hn Hl IHl]; intros st ns st' Hs Hit; cbn [iterateAndNext] in Hit.
  - injection Hit as <- <-. split; [done|]. split; [|done].
    by rewrite list_bind_nil, app_nil_r.
  - apply bind_Ok in Hit as ([ns1 st1] & E1 & Hit).
    apply bind_Ok in Hit as ([ns2 st2] & E2 & Hit). injection Hit as <- <-.
    destruct (Hn _ _ _ Hs E1) as (N1 & D1 & B1).
    destruct (IHl _ _ _ N1 E2) as (N2 & D2 & B2).
    split; [done|]. split.
    + by rewrite D2, D1, bind_cons, app_assoc.
    + by rewrite bind_app, !bind_cons, filter_app, B1, B2.
Qed.

(** Outside every scope a shallow subtree loses its outer blocks and
    keeps the blocks below its scope nodes, each under its scope. *)
Lemma visit_outside n :
  shallow n = true → xref_leaves n = true → outside_ok user2p n.
Proof.
  induction n as [k p o1 o2 o3 o4 H1 H2 H3 H4] using AstNode_ind'.
  rewrite shallow_eq, xref_leaves_eq. cbn [kind].
  intros Hsh Hx. apply andb_true_iff in Hx as [Hleaf Hx].
  assert (HP : Forall (λ n, shallow n = true → xref_leaves n = true →
                           outside_ok user2p n)
                 (children (Node k p o1 o2 o3 o4))).
  { unfold children. cbn [op1p op2p op3p op4p]. rewrite !Forall_app. done. }
  clear H1 H2 H3 H4.
  set (n := Node k p o1 o2 o3 o4) in *.
  intros st ns st' Hs Hvis. rewrite visit_eq in Hvis. cbv zeta in Hvis.
  cbn [kind n] in Hvis.
  assert (Hblock : clonable k = true →
            movedDeleteOrIterate (iterateChildren (visit user2p)) n st
            = Ok (ns, st') →
            m_scopep st' = None
            ∧ deleteps st' = deleteps st ++ outer_blocks n
            ∧ ns ≫= block_owners [] = filter in_scope (block_owners [] n)).
  { intros Hc Hm. unfold movedDeleteOrIterate in Hm. rewrite Hs in Hm.
    injection Hm as <- <-. cbn [m_scopep deleteps].
    split; [done|]. rewrite outer_blocks_eq. cbn [kind n]. rewrite Hc.
    split; [done|]. rewrite list_bind_nil. symmetry. apply filter_none.
    rewrite Hc in Hsh. cbn [orb] in Hsh.
    rewrite block_owners_eq. cbn [kind self n]. rewrite Hc.
    assert (E : match k with KScope => p :: [] | _ => [] end = ([] : list ptr)).
    { destruct k; try done. }
    rewrite E. apply Forall_app. split.
    - apply Forall_singleton. unfold in_scope. simpl. tauto.
    - eapply Forall_impl; [exact (blocks_owners_scope_free _ [] Hsh)|].
      intros y Hy. unfold in_scope. rewrite Hy. tauto. }
  assert (Hplain : ∀ k' n' st1,
            clonable k = false → k ≠ KScope →
            clonable k' = false → k' ≠ KScope →
            (∀ v, k ≠ KVarXRef v) →
            iterateChildren (visit user2p) (Node k' p o1 o2 o3 o4) st
            = Ok (n', st1) →
            m_scopep st1 = None
            ∧ deleteps st1 = deleteps st ++ outer_blocks n
            ∧ [n'] ≫= block_owners [] = filter in_scope (block_owners [] n)).
  { intros k' n' st1 Hc Hk Hc' Hk' Hnx Hit.
    rewrite Hc in Hsh. cbn [orb] in Hsh.
    rewrite bool_decide_eq_false_2 in Hsh by done.
    assert (Hout : Forall (outside_ok user2p) (children n)).
    { rewrite forallb_Forall in Hsh, Hx. clear -HP Hsh Hx.
      induction HP as [|x l Px Pl IH]; [constructor|].
      apply Forall_cons in Hsh as [? ?]. apply Forall_cons in Hx as [? ?].
      constructor; auto. }
    unfold children in Hout. cbn [op1p op2p op3p op4p n] in Hout.
    rewrite !Forall_app in Hout. destruct Hout as (O1 & O2 & O3 & O4).
    unfold iterateChildren in Hit. cbn [kind self op1p op2p op3p op4p] in Hit.
    apply bind_Ok in Hit as ([o1' s1] & E1 & Hit).
    apply bind_Ok in Hit as ([o2' s2] & E2 & Hit).
    apply bind_Ok in Hit as ([o3' s3] & E3 & Hit).
    apply bind_Ok in Hit as ([o4' s4] & E4 & Hit). injection Hit as <- <-.
    destruct (iterateAndNext_outside _ O1 _ _ _ Hs E1) as (N1 & D1 & B1).
    destruct (iterateAndNext_outside _ O2 _ _ _ N1 E2) as (N2 & D2 & B2).
    destruct (iterateAndNext_outside _ O3 _ _ _ N2 E3) as (N3 & D3 & B3).
    destruct (iterateAndNext_outside _ O4 _ _ _ N3 E4) as (N4 & D4 & B4).
    split; [done|]. split.
    - rewrite outer_blocks_eq. cbn [kind n]. rewrite Hc.
      assert (E : match k with KScope => [] | _ => children n ≫= outer_blocks end
                  = children n ≫= outer_blocks) by (by destruct k).
      rewrite E. unfold children. cbn [op1p op2p op3p op4p n].
      rewrite !bind_app, D4, D3, D2, D1, <- !app_assoc. done.
    - rewrite bind_singleton, !block_owners_eq.
      cbn [kind self n]. rewrite Hc, Hc'.
      assert (E1' : match k' with KScope => p :: [] | _ => [] end = ([] : list ptr))
        by (by destruct k').
      assert (E2' : match k with KScope => p :: [] | _ => [] end = ([] : list ptr))
        by (by destruct k).
      rewrite E1', E2'. unfold children. cbn [op1p op2p op3p op4p].
      rewrite !app_nil_l, !bind_app, !filter_app, B1, B2, B3, B4. done. }
  destruct k; cbn [kind] in Hvis; try (by apply Hblock);
    try (unfold visit_AstNode, visit_AstModportFTaskRef in Hvis;
         apply bind_Ok in Hvis as ([n' st1] & Eit & Hvis);
         injection Hvis as <- <-;
         refine (Hplain _ _ _ _ _ _ _ _ Eit);
         [reflexivity|discriminate|reflexivity|discriminate|intros ?; discriminate]).
  - (* AstScope *)
    unfold visit_AstScope in Hvis.
    apply bind_Ok in Hvis as ([n' st1] & Eit & Hvis). injection Hvis as <- <-.
    cbn [clonable orb] in Hsh. rewrite bool_decide_eq_true_2 in Hsh by done.
    assert (Hin : Forall (inside_ok user2p) (children n)).
    { rewrite forallb_Forall in Hsh. eapply Forall_impl; [exact Hsh|].
      intros x. apply visit_inside. }
    destruct (iterateChildren_inside n _ _ _ Hin
                (ltac:(by eexists) : is_Some (m_scopep (mkState (Some (self n))
                                                          (deleteps st)))) Eit)
      as ([_ K2] & Ek & Es & Hb).
    cbn [m_scopep deleteps] in *. split; [done|].
    rewrite outer_blocks_eq. cbn [kind n clonable]. rewrite app_nil_r.
    split; [done|].
    rewrite bind_singleton, !block_owners_eq, Ek, Es.
    cbn [kind self n clonable]. rewrite !app_nil_l, Hb.
    symmetry. apply filter_all, blocks_owners_in_scope.
  - (* AstVarXRef *)
    unfold visit_AstVarXRef in Hvis. injection Hvis as <- <-.
    split; [done|]. rewrite outer_blocks_eq. cbn [kind n clonable].
    destruct (children n) as [|c l] eqn:Hch; [|done].
    rewrite list_bind_nil, app_nil_r. split; [done|].
    rewrite bind_singleton, !block_owners_eq.
    cbn [kind self clonable]. unfold children in *.
    cbn [op1p op2p op3p op4p n] in *. rewrite Hch. done.
  - (* AstNodeFTaskRef *)
    unfold visit_AstNodeFTaskRef in Hvis.
    apply bind_Ok in Hvis as (t' & Ht & Hvis).
    apply bind_Ok in Hvis as ([n' st1] & Eit & Hvis). injection Hvis as <- <-.
    refine (Hplain _ _ _ _ _ _ _ _ Eit);
      [reflexivity|discriminate|reflexivity|discriminate|intros ?; discriminate].
Qed.

Lemma visit_modules_outside l : ∀ st l' st',
  Forall (λ m, Forall (λ n, shallow n = true ∧ xref_leaves n = true)
                      (module_children m)) l →
  m_scopep st = None →
  visit_modules user2p l st = Ok (l', st') →
  m_scopep st' = None
  ∧ deleteps st' = deleteps st ++ design_outer_blocks l
  ∧ design_block_owners l' = filter in_scope (design_block_owners l).
Proof.
  induction l as [|m l IHl]; intros st l' st' Hx Hs Hvis; cbn [visit_modules] in Hvis.
  - injection Hvis as <- <-. split; [done|]. split; [|done].
    unfold design_outer_blocks. by rewrite list_bind_nil, app_nil_r.
  - apply Forall_cons in Hx as [Xm Xl].
    apply bind_Ok in Hvis as ([m1 st1] & E1 & Hvis).
    apply bind_Ok in Hvis as ([l1 st2] & E2 & Hvis). injection Hvis as <- <-.
    assert (Hm : m_scopep st1 = None
                 ∧ deleteps st1 = deleteps st ++ (module_children m ≫= outer_blocks)
                 ∧ module_children m1 ≫= block_owners []
                   = filter in_scope (module_children m ≫= block_owners [])).
    { assert (Hout : Forall (outside_ok user2p) (module_children m)).
      { eapply Forall_impl; [exact Xm|]. intros x [? ?]. by apply visit_outside. }
      unfold module_children in Hout. rewrite !Forall_app in Hout.
      destruct Hout as (O1 & O2 & O3).
      unfold visit_module in E1.
      apply bind_Ok in E1 as ([o1 s1] & F1 & E1).
      apply bind_Ok in E1 as ([o2 s2] & F2 & E1).
      apply bind_Ok in E1 as ([o3 s3] & F3 & E1). injection E1 as <- <-.
      destruct (iterateAndNext_outside _ O1 _ _ _ Hs F1) as (N1 & D1 & B1).
      destruct (iterateAndNext_outside _ O2 _ _ _ N1 F2) as (N2 & D2 & B2).
      destruct (iterateAndNext_outside _ O3 _ _ _ N2 F3) as (N3 & D3 & B3).
      split; [done|]. unfold module_children. cbn [inlinesp stmtsp activesp].
      split.
      - rewrite !bind_app, D3, D2, D1, <- !app_assoc. done.
      - rewrite !bind_app, !filter_app, B1, B2, B3. done. }
    destruct Hm as (N1 & D1 & B1).
    destruct (IHl _ _ _ Xl N1 E2) as (N2 & D2 & B2).
    split; [done|]. unfold design_outer_blocks, design_block_owners in *. split.
    + rewrite bind_cons, D2, D1, <- app_assoc. done.
    + rewrite !bind_cons, filter_app, B1, B2. done.
Qed.
End Owners.

Lemma design_block_owners_shallow l :
  Forall (λ m, Forall (λ n, shallow n = true) (module_children m)) l →
  Forall (λ x, length x.2 ≤ 1) (design_block_owners l).
Proof.
  intros Hl. unfold design_block_owners.
  induction Hl as [|m l Hm Hl IH]; [constructor|].
  rewrite bind_cons. apply Forall_app. split; [|done].
  induction Hm as [|n c Hn Hc IHc]; [constructor|].
  rewrite bind_cons. apply Forall_app. split; [|done].
  by apply block_owners_shallow.
Qed.

(** C3.  Take a design in which scope nodes are not nested, none lies
    below a clonable block, and cross references are leaves, and let the
    second visitor walk its modules.  Every clonable block that had a
    scope node above it is still in the tree, in the same order and
    under the same scope node, and the walk went through it: no
    reference left in the tree, inside the kept blocks or elsewhere,
    keeps a stale target.  Every clonable block that had neither a scope
    node nor another block above it was taken out of the tree and handed
    to [pushDeletep], in the order of the walk, and nothing else was.
    Afterwards no module has a clonable block as a child, and every
    clonable block left in the tree has exactly one scope node above
    it. *)
Theorem cleanup_blocks_under_scopes user2p modulesp mods' st' :
  Forall (λ m, Forall (λ n, shallow n = true ∧ xref_leaves n = true)
                      (module_children m)) modulesp →
  ScopeCleanupVisitor.ScopeCleanupVisitor user2p modulesp = Ok (mods', st') →
  design_block_owners mods' = filter in_scope (design_block_owners modulesp)
  ∧ Forall (λ m, Forall (refs_clean user2p) (module_children m)) mods'
  ∧ ScopeCleanupVisitor.deleteps st' = design_outer_blocks modulesp
  ∧ Forall (λ m, Forall (λ n, clonable (kind n) = false) (module_children m)) mods'
  ∧ Forall (λ x, ∃ s, x.2 = [s]) (design_block_owners mods').
Proof.
  intros Hx Hrun. unfold ScopeCleanupVisitor.ScopeCleanupVisitor in Hrun.
  destruct (visit_modules_outside user2p _ (ScopeCleanupVisitor.mkState None [])
              _ _ Hx eq_refl Hrun) as (_ & D & B).
  assert (Hone : Forall (λ x, ∃ s, x.2 = [s]) (design_block_owners mods')).
  { rewrite B. apply Forall_forall. intros x Hin.
    apply list_elem_of_filter in Hin as [Hs Hin].
    assert (Hsh : Forall (λ m, Forall (λ n, shallow n = true) (module_children m))
                    modulesp).
    { eapply Forall_impl; [exact Hx|]. intros m Hm.
      eapply Forall_impl; [exact Hm|]. by intros n [? _]. }
    pose proof (design_block_owners_shallow _ Hsh) as Hlen.
    rewrite Forall_forall in Hlen. specialize (Hlen _ Hin).
    unfold in_scope in Hs. destruct (x.2) as [|s [|]]; [done|by eexists|].
    simpl in Hlen. lia. }
  split; [done|]. split; [|split; [exact D|split; [|done]]].
  - eapply visit_modules_clean; [|exact Hrun].
    eapply Forall_impl; [exact Hx|]. intros m Hm.
    eapply Forall_impl; [exact Hm|]. by intros n [_ ?].
  - apply Forall_forall. intros m Hm. apply Forall_forall. intros n Hn.
    destruct (clonable (kind n)) eqn:Hc; [|done]. exfalso.
    rewrite Forall_forall in Hone.
    destruct (Hone (self n, [])) as [s Hs]; [|done].
    unfold design_block_owners. apply list_elem_of_bind. exists m. split; [|done].
    apply list_elem_of_bind. exists n. split; [|done].
    rewrite block_owners_eq, Hc. apply elem_of_app. left.
    by apply list_elem_of_singleton.
Qed.

Lemma cleanup_blocks_under_scopes_witness :
  design_block_owners mods_c3x' = filter in_scope (design_block_owners mods_c3x)
  ∧ Forall (λ m, Forall (refs_clean ∅) (module_children m)) mods_c3x'
  ∧ ScopeCleanupVisitor.deleteps st_c3x' = design_outer_blocks mods_c3x
  ∧ Forall (λ m, Forall (λ n, clonable (kind n) = false) (module_children m)) mods_c3x'
  ∧ Forall (λ x, ∃ s, x.2 = [s]) (design_block_owners mods_c3x').
Proof.
  apply (cleanup_blocks_under_scopes ∅ mods_c3x mods_c3x' st_c3x').
  - repeat constructor.
  - vm_compute. reflexivity.
Defined.

Lemma wf_st_modi0 : wf st_modi0.
Proof.
  apply wf_simple.
  - apply map_Forall_singleton. split; [cbn; lia|reflexivity].
  - apply map_Forall_singleton. split; [vm_compute; solve_NoDup|].
    intros x Hx. vm_compute in Hx.
    repeat (apply elem_of_cons in Hx as [->|Hx]; [cbn; lia|]).
    by apply elem_of_nil in Hx.
  - apply map_Forall_singleton. cbn. lia.
  - apply map_Forall_empty.
Qed.

(** X15.  A module visit hands the scope it made back to its caller: when
    it returns the current scope is the new scope and the current module
    is the visited one, while the cell and the scope above are what they
    were at entry.  The loop over the cells of a module restores all
    three of the current scope, the cell above and the scope above after
    each cell. *)
Theorem module_visit_cursor opt fuel modp st st' :
  wf st → visit_AstNodeModule opt fuel modp st = Ok st' →
  m_scopep st' = Some (next st) ∧ is_Some (scopes st' !! next st)
  ∧ m_modp st' = Some modp
  ∧ m_aboveCellp st' = m_aboveCellp st ∧ m_aboveScopep st' = m_aboveScopep st
  ∧ (∀ l st1 st2,
       wf st1 → visit_cells (visit_AstNodeModule opt fuel) l st1 = Ok st2 →
       m_scopep st2 = m_scopep st1 ∧ m_aboveCellp st2 = m_aboveCellp st1
       ∧ m_aboveScopep st2 = m_aboveScopep st1).
Proof.
  intros Hwf Hvis. destruct fuel as [|fuel]; [done|].
  destruct (visit_AstNodeModule_body opt fuel (visit_AstNodeModule_ok opt fuel)
              modp st st' Hwf Hvis)
    as (nodep & name & _ & _ & _ & Hext & Hm & Hs & Hmod & _).
  destruct Hm as [_ _ _ Hc Ha _].
  split; [done|]. split.
  { destruct (ext_scope_header _ _ _ _ Hext (scopeMade_scope modp nodep name st))
      as (sc & Hsc & _). by exists sc. }
  repeat (split; [done|]).
  intros l st1 st2 Hwf1 Hl.
  destruct (visit_cells_ok _ l (visit_AstNodeModule_ok opt (S fuel)) _ _ Hwf1 Hl)
    as [[_ _ _ Hc' Ha' _] Hs'].
  done.
Qed.

Lemma module_visit_cursor_witness :
  m_scopep st_modi1 = Some (next st_modi0) ∧ is_Some (scopes st_modi1 !! next st_modi0)
  ∧ m_modp st_modi1 = Some 2
  ∧ m_aboveCellp st_modi1 = m_aboveCellp st_modi0
  ∧ m_aboveScopep st_modi1 = m_aboveScopep st_modi0
  ∧ (∀ l st1 st2,
       wf st1 → visit_cells (visit_AstNodeModule opt_ab 3) l st1 = Ok st2 →
       m_scopep st2 = m_scopep st1 ∧ m_aboveCellp st2 = m_aboveCellp st1
       ∧ m_aboveScopep st2 = m_aboveScopep st1).
Proof.
  apply (module_visit_cursor opt_ab 3 2 st_modi0 st_modi1).
  - apply wf_st_modi0.
  - vm_compute. reflexivity.
Defined.

(** X16.  When a module visit returns, every inlined-cell marker directly
    under the visited module names the scope this visit made; a marker
    left by an earlier visit of the same module is written over. *)
Theorem module_inlines_name_new_scope opt fuel modp st st' :
  wf st → visit_AstNodeModule opt fuel modp st = Ok st' →
  ∃ m', modules st' !! modp = Some m'
        ∧ ∀ n sp, n ∈ inlinesp m' → kind n = KCellInline sp → sp = Some (next st).
Proof.
  intros Hwf Hvis. destruct fuel as [|fuel]; [done|].
  destruct (visit_AstNodeModule_body opt fuel (visit_AstNodeModule_ok opt fuel)
              modp st st' Hwf Hvis)
    as (nodep & name & _ & _ & _ & _ & _ & _ & _ & m' & rest & p & Hm' & Hin & _).
  exists m'. split; [done|]. intros n sp Hn Hk.
  rewrite Forall_forall in Hin. by apply (Hin n Hn).
Qed.

Lemma module_inlines_name_new_scope_witness :
  ∃ m', modules st_modi1 !! 2 = Some m'
        ∧ ∀ n sp, n ∈ inlinesp m' → kind n = KCellInline sp
                  → sp = Some (next st_modi0).
Proof.
  apply (module_inlines_name_new_scope opt_ab 3 2 st_modi0 st_modi1).
  - apply wf_st_modi0.
  - vm_compute. reflexivity.
Defined.

(** X17.  When a module visit returns, the last statement of the visited
    module is the scope this visit made, wrapped in a new top-scope node
    when the module is the top one. *)
Theorem module_scope_appended opt fuel modp st st' :
  wf st → visit_AstNodeModule opt fuel modp st = Ok st' →
  ∃ m' rest p,
    modules st' !! modp = Some m'
    ∧ stmtsp m' = rest ++ [scopeNodeOf (isTop m') p (next st)]
    ∧ next st < p.
Proof.
  intros Hwf Hvis. destruct fuel as [|fuel]; [done|].
  destruct (visit_AstNodeModule_body opt fuel (visit_AstNodeModule_ok opt fuel)
              modp st st' Hwf Hvis)
    as (nodep & name & _ & _ & _ & _ & _ & _ & _ & m' & rest & p & Hm' & _ & Hs & Hp & _).
  by exists m', rest, p.
Qed.

Lemma module_scope_appended_witness :
  ∃ m' rest p,
    modules st_modi1 !! 2 = Some m'
    ∧ stmtsp m' = rest ++ [scopeNodeOf (isTop m') p (next st_modi0)]
    ∧ next st_modi0 < p.
Proof.
  apply (module_scope_appended opt_ab 3 2 st_modi0 st_modi1).
  - apply wf_st_modi0.
  - vm_compute. reflexivity.
Defined.

(** ** The scope of the top module *)

(** X18.  When the netlist has a top module, the first visitor starts
    there with no cell and no scope above: the first object it allocates
    is the scope of the top module, whose name is "TOP", which has no
    scope and no cell above, and whose bindings all have tracing
    enabled. *)
Theorem top_scope_is_TOP opt fuel nodep modp st :
  wf_netlist nodep → topModulep nodep = Some modp →
  ScopeVisitor opt fuel nodep = Ok st →
  ∃ sc, scopes st !! next (initState nodep) = Some sc
        ∧ scope_name sc = "TOP" ∧ scope_modp sc = Some modp
        ∧ aboveScopep sc = None ∧ aboveCellp sc = None
        ∧ ∀ vs, vs ∈ varsp sc → vsc_trace vs = true.
Proof.
  intros Hnet Htop Hrun.
  destruct (ScopeVisitor_Ok _ _ _ _ Hnet Hrun)
    as [[Hno _]|(modp' & stw & Htop' & Hw & _ & Hres & Hwf)]; [congruence|].
  assert (modp' = modp) as -> by congruence.
  destruct fuel as [|fuel]; [done|].
  destruct (visit_AstNodeModule_body opt fuel (visit_AstNodeModule_ok opt fuel)
              modp _ stw (wf_init _ Hnet) Hw)
    as (m & name & _ & Hname & _ & Hext & _).
  apply scopeName_Ok in Hname. cbn in Hname. subst name.
  destruct (ext_scope_header _ _ _ _ Hext (scopeMade_scope modp m "TOP" (initState nodep)))
    as (sc & Hsc & Hn & Hm & Ha & Hc).
  destruct Hres as [Hst _ _ _].
  assert (Hsc' : scopes st !! next (initState nodep) = Some sc).
  { rewrite Hst. exact Hsc. }
  exists sc. repeat (split; [done|]).
  intros vs Hvs. rewrite (wf_trace _ _ _ _ _ _ _ Hwf _ _ _ Hsc' Hvs).
  cbn in Hc. by rewrite Hc.
Qed.

Lemma top_scope_is_TOP_witness :
  ∃ sc, scopes st_ab !! next (initState net_ab) = Some sc
        ∧ scope_name sc = "TOP" ∧ scope_modp sc = Some 1
        ∧ aboveScopep sc = None ∧ aboveCellp sc = None
        ∧ ∀ vs, vs ∈ varsp sc → vsc_trace vs = true.
Proof.
  apply (top_scope_is_TOP opt_ab 10 net_ab 1 st_ab).
  - solve_wf_netlist.
  - reflexivity.
  - vm_compute. reflexivity.
Defined.

(** ** Visits below a module *)

(** X19.  A visit of a node below a module, entered in a consistent
    state, returns in a consistent state with the current scope, the
    current module, the cell above and the scope above as they were; it
    leaves the modules and the table of package scopes untouched, changes
    no scope that existed but the current one, changes [user2p] of no
    node outside the visited subtree, and frees no address. *)
Theorem visit_below_module_frame opt fuel n st ns st' :
  pre (var_ptrs n) (node_ptrs n) st → visit opt fuel n st = Ok (ns, st') →
  wf st' ∧ next st ≤ next st'
  ∧ m_scopep st' = m_scopep st ∧ m_aboveCellp st' = m_aboveCellp st
  ∧ m_aboveScopep st' = m_aboveScopep st ∧ m_modp st' = m_modp st
  ∧ modules st' = modules st ∧ m_packageScopes st' = m_packageScopes st
  ∧ (∀ s, s < next st → m_scopep st ≠ Some s → scopes st' !! s = scopes st !! s)
  ∧ (∀ p, p < next st → p ∉ node_ptrs n → user2p st' !! p = user2p st !! p).
Proof.
  intros Hpre Hvis.
  destruct (visit_visit_ok opt fuel n st ns st' Hpre Hvis)
    as [Hwf Hext (C1 & C2 & C3 & C4) Hmod Hpkg Hframe _ Hu2 _ _ _ _].
  split; [done|]. split; [exact (ext_next' _ _ Hext)|].
  repeat (split; [done|]). done.
Qed.

Lemma visit_below_module_frame_witness :
  wf st_cls1 ∧ next st_cls0 ≤ next st_cls1
  ∧ m_scopep st_cls1 = m_scopep st_cls0 ∧ m_aboveCellp st_cls1 = m_aboveCellp st_cls0
  ∧ m_aboveScopep st_cls1 = m_aboveScopep st_cls0 ∧ m_modp st_cls1 = m_modp st_cls0
  ∧ modules st_cls1 = modules st_cls0
  ∧ m_packageScopes st_cls1 = m_packageScopes st_cls0
  ∧ (∀ s, s < next st_cls0 → m_scopep st_cls0 ≠ Some s →
          scopes st_cls1 !! s = scopes st_cls0 !! s)
  ∧ (∀ p, p < next st_cls0 → p ∉ node_ptrs class_C →
          user2p st_cls1 !! p = user2p st_cls0 !! p).
Proof.
  apply (visit_below_module_frame opt_ab 3 class_C st_cls0 ns_cls1 st_cls1).
  - apply pre_st_cls0; [vm_compute; solve_NoDup|].
    intros p Hp. vm_compute in Hp.
    repeat (apply elem_of_cons in Hp as [->|Hp]; [lia|]).
    by apply elem_of_nil in Hp.
  - vm_compute. reflexivity.
Defined.

(** X20.  A visit of a class leaves the class in place, the same object,
    with the new scope as its last member after the members it had: the
    members before the scope are the members at entry, the same objects
    of the same types in the same order, without the tasks and functions
    with [classMethod()] set, which unlink themselves; the other operands
    are kept likewise.  The visit restores the current scope, the cell
    above and the scope above it found at entry. *)
Theorem class_scope_appended opt fuel name n st ns st' :
  kind n = KClass name → visit opt (S fuel) n st = Ok (ns, st') →
  (∃ n' rest, ns = [n'] ∧ kind n' = KClass name ∧ self n' = self n
              ∧ op1p n' = rest ++ [Node KScope (next st) [] [] [] []]
              ∧ header <$> rest
                = header <$> filter (λ x, unlinksItself x = false) (op1p n)
              ∧ header <$> op2p n'
                = header <$> filter (λ x, unlinksItself x = false) (op2p n)
              ∧ header <$> op3p n'
                = header <$> filter (λ x, unlinksItself x = false) (op3p n)
              ∧ header <$> op4p n'
                = header <$> filter (λ x, unlinksItself x = false) (op4p n))
  ∧ m_scopep st' = m_scopep st ∧ m_aboveCellp st' = m_aboveCellp st
  ∧ m_aboveScopep st' = m_aboveScopep st.
Proof.
  intros Hk Hvis. cbn [visit] in Hvis. rewrite Hk in Hvis.
  unfold visit_AstClass in Hvis.
  apply bind_Ok in Hvis as (scopename & _ & Hvis).
  apply bind_Ok in Hvis as (scp & Escp%deref_Ok & Hvis).
  apply bind_Ok in Hvis as ([n' st5] & Eit & Hvis). injection Hvis as <- <-.
  simpl in Escp. injection Escp as <-.
  split; [|done].
  unfold iterateChildren in Eit. cbn [kind self op1p op2p op3p op4p] in Eit.
  apply bind_Ok in Eit as ([o1 s1] & E1 & Eit).
  apply bind_Ok in Eit as ([o2 s2] & E2 & Eit).
  apply bind_Ok in Eit as ([o3 s3] & E3 & Eit).
  apply bind_Ok in Eit as ([o4 s4] & E4 & Eit). injection Eit as <- <-.
  apply iterateAndNext_app in E1 as (rest & stX & r & F1 & F2 & ->).
  cbn [iterateAndNext] in F2.
  apply bind_Ok in F2 as ([r1 stY] & G1 & F2). injection F2 as <- <-.
  destruct fuel as [|fuel]; [done|]. injection G1 as <- <-.
  exists (Node (kind n) (self n) (rest ++ [Node KScope (next st) [] [] [] []] ++ [])
               o2 o3 o4), rest.
  split; [done|]. split; [done|]. split; [done|]. split; [reflexivity|].
  cbn [op2p op3p op4p].
  split; [exact (iterateAndNext_out _ _ _ _ _ _ F1)|].
  split; [exact (iterateAndNext_out _ _ _ _ _ _ E2)|].
  split; [exact (iterateAndNext_out _ _ _ _ _ _ E3)|].
  exact (iterateAndNext_out _ _ _ _ _ _ E4).
Qed.

Lemma class_scope_appended_witness :
  (∃ n' rest, ns_clsD1 = [n'] ∧ kind n' = KClass "D" ∧ self n' = self class_D
              ∧ op1p n' = rest ++ [Node KScope (next st_cls0) [] [] [] []]
              ∧ header <$> rest
                = header <$> filter (λ x, unlinksItself x = false) (op1p class_D)
              ∧ header <$> op2p n'
                = header <$> filter (λ x, unlinksItself x = false) (op2p class_D)
              ∧ header <$> op3p n'
                = header <$> filter (λ x, unlinksItself x = false) (op3p class_D)
              ∧ header <$> op4p n'
                = header <$> filter (λ x, unlinksItself x = false) (op4p class_D))
  ∧ m_scopep st_clsD1 = m_scopep st_cls0 ∧ m_aboveCellp st_clsD1 = m_aboveCellp st_cls0
  ∧ m_aboveScopep st_clsD1 = m_aboveScopep st_cls0.
Proof.
  apply (class_scope_appended opt_ab 2 "D" class_D st_cls0 ns_clsD1 st_clsD1).
  - reflexivity.
  - vm_compute. reflexivity.
Defined.

Lemma user1_ok_refl lo vp st : user1_ok lo vp st st.
Proof. split; [done|]. auto. Qed.

Lemma user1_ok_trans lo vp st st1 st2 :
  user1_ok lo vp st st1 → user1_ok lo vp st1 st2 → user1_ok lo vp st st2.
Proof.
  intros [N1 U1] [N2 U2]. split; [lia|].
  intros p Hp. destruct (U2 _ Hp) as [H|H]; [|by right]. by apply U1.
Qed.

Lemma user1_ok_weaken lo vp vp' st st' :
  user1_ok lo vp st st' → (∀ p, p ∈ vp → p ∈ vp' ∨ lo ≤ p) → user1_ok lo vp' st st'.
Proof.
  intros [N U] H. split; [done|].
  intros p Hp. destruct (U _ Hp) as [?|[?|?]]; auto.
Qed.

Lemma user1_ok_same lo vp st st' :
  next st ≤ next st' → user1p st' = user1p st → user1_ok lo vp st st'.
Proof. intros N E. split; [done|]. rewrite E. auto. Qed.

Lemma cloneTree_plain n st c st1 :
  cloneTree n st = (c, st1) →
  user1p st1 = user1p st ∧ next st ≤ next st1
  ∧ (∀ p, p ∈ node_ptrs c → next st ≤ p) ∧ kind c = kind n.
Proof.
  intros Hc. unfold cloneTree in Hc.
  destruct (cloneTreeIter_spec n (next st)) as (c' & m & E & Hk & Hs & Hp & Hm & _).
  rewrite E in Hc. injection Hc as <- <-.
  unfold cloneRelink.
  assert (Hrange : ∀ p, p ∈ m.*2 → next st ≤ p < next st + length (subnodes n)).
  { intros p. rewrite Hm, elem_of_seq. done. }
  pose proof (cloneRelink_spec (list_to_map m) (next st)
                (next st + length (subnodes n)) m
                (set_next (next st + length (subnodes n)) st) Hrange) as Hspec.
  cbv zeta in Hspec.
  set (st1 := foldl _ _ m) in *. clearbody st1.
  destruct Hspec as (Hsbh & Hn & _). simpl in *.
  split; [by destruct Hsbh|]. split; [lia|]. split; [|done].
  intros p. rewrite Hp, elem_of_seq. lia.
Qed.

Lemma iterateAndNext_u1 v : visit_u1 v →
  ∀ lo l st ns st', lo ≤ next st → iterateAndNext v l st = Ok (ns, st') →
    user1_ok lo (vars_ptrs l) st st' ∧ Forall (λ x, kind x = KVar → x ∈ l) ns.
Proof.
  intros Hv lo. induction l as [|n l IHl]; intros st ns st' Hlo Hit;
    cbn [iterateAndNext] in Hit.
  - injection Hit as <- <-. split; [apply user1_ok_refl|constructor].
  - apply bind_Ok in Hit as ([ns1 st1] & E1 & Hit).
    apply bind_Ok in Hit as ([ns2 st2] & E2 & Hit). injection Hit as <- <-.
    destruct (Hv lo _ _ _ _ Hlo E1) as [U1 F1].
    assert (Hlo1 : lo ≤ next st1) by (destruct U1; lia).
    destruct (IHl _ _ _ Hlo1 E2) as [U2 F2].
    split.
    + rewrite vars_ptrs_cons. eapply user1_ok_trans.
      * eapply user1_ok_weaken; [exact U1|]. intros p Hp. left. apply elem_of_app. by left.
      * eapply user1_ok_weaken; [exact U2|]. intros p Hp. left. apply elem_of_app. by right.
    + apply Forall_app. split.
      * eapply Forall_impl; [exact F1|]. intros x Hx Hk. rewrite (Hx Hk). by left.
      * eapply Forall_impl; [exact F2|]. intros x Hx Hk. right. by apply Hx.
Qed.

Lemma iterateChildren_u1 v : visit_u1 v →
  ∀ lo n st n' st', lo ≤ next st → iterateChildren v n st = Ok (n', st') →
    user1_ok lo (children_vp n) st st'.
Proof.
  intros Hv lo n st n' st' Hlo Hit. unfold iterateChildren in Hit.
  apply bind_Ok in Hit as ([o1 st1] & E1 & Hit).
  apply bind_Ok in Hit as ([o2 st2] & E2 & Hit).
  apply bind_Ok in Hit as ([o3 st3] & E3 & Hit).
  apply bind_Ok in Hit as ([o4 st4] & E4 & Hit). injection Hit as <- <-.
  destruct (iterateAndNext_u1 v Hv lo _ _ _ _ Hlo E1) as [U1 _].
  assert (Hlo1 : lo ≤ next st1) by (destruct U1; lia).
  destruct (iterateAndNext_u1 v Hv lo _ _ _ _ Hlo1 E2) as [U2 _].
  assert (Hlo2 : lo ≤ next st2) by (destruct U2; lia).
  destruct (iterateAndNext_u1 v Hv lo _ _ _ _ Hlo2 E3) as [U3 _].
  assert (Hlo3 : lo ≤ next st3) by (destruct U3; lia).
  destruct (iterateAndNext_u1 v Hv lo _ _ _ _ Hlo3 E4) as [U4 _].
  unfold children_vp.
  eapply user1_ok_trans; [eapply user1_ok_weaken; [exact U1|]|].
  { intros p Hp. left. rewrite !elem_of_app. auto. }
  eapply user1_ok_trans; [eapply user1_ok_weaken; [exact U2|]|].
  { intros p Hp. left. rewrite !elem_of_app. auto. }
  eapply user1_ok_trans; [eapply user1_ok_weaken; [exact U3|]|].
  { intros p Hp. left. rewrite !elem_of_app. auto. }
  eapply user1_ok_weaken; [exact U4|].
  intros p Hp. left. rewrite !elem_of_app. auto.
Qed.

Lemma linkAndIterate_u1 v : visit_u1 v →
  ∀ lo c st st', lo ≤ next st → linkAndIterate v c st = Ok st' →
    user1_ok lo (children_vp c) st st'.
Proof.
  intros Hv lo c st st' Hlo Hl. unfold linkAndIterate in Hl.
  apply bind_Ok in Hl as (scp & _ & Hl).
  apply bind_Ok in Hl as (sc & _ & Hl).
  apply bind_Ok in Hl as ([c' st4] & Eit & Hl).
  apply bind_Ok in Hl as (sc4 & _ & Hl). injection Hl as <-.
  assert (Hlo1 : lo ≤ next (set_scopes (<[scp:=addActivep c sc]> (scopes st)) st))
    by (simpl; lia).
  pose proof (iterateChildren_u1 v Hv lo _ _ _ _ Hlo1 Eit) as [N U].
  simpl in N, U. split; [simpl; exact N|simpl; exact U].
Qed.

(** A copy is iterated: what is marked are objects of the copy. *)
Lemma clone_u1 v : visit_u1 v →
  ∀ lo n st c st1 c' st', lo ≤ next st →
    cloneTree n st = (c, st1) → children_vp c' = children_vp c →
    linkAndIterate v c' (set_user2p (<[self n := self c]> (user2p st1)) st1) = Ok st' →
    user1_ok lo (var_ptrs n) st st'.
Proof.
  intros Hv lo n st c st1 c' st' Hlo Hc Hcv Hl.
  destruct (cloneTree_plain _ _ _ _ Hc) as (Hu & Hn & Hrange & _).
  assert (Hlo1 : lo ≤ next (set_user2p (<[self n := self c]> (user2p st1)) st1)).
  { simpl. lia. }
  pose proof (linkAndIterate_u1 v Hv lo _ _ _ Hlo1 Hl) as [N U].
  simpl in N, U. split; [lia|].
  intros p Hp. destruct (U _ Hp) as [H|[H|H]].
  - left. by rewrite <- Hu.
  - right. right. rewrite Hcv in H.
    apply children_vp_subseteq, children_np_node_ptrs, Hrange in H. lia.
  - by right; right.
Qed.

Lemma visit_visit_u1 opt fuel : visit_u1 (visit opt fuel).
Proof.
  induction fuel as [|fuel IH]; intros lo n st ns st' Hlo Hvis; [done|].
  cbn [visit] in Hvis.
  assert (Hout : ∀ m, kind m ≠ KVar → Forall (λ x, kind x = KVar → x = n) [m]).
  { intros m Hm. apply Forall_singleton. intros E. by destruct Hm. }
  assert (Hic : ∀ m s m' s', lo ≤ next s → kind m ≠ KVar →
            children_vp m = children_vp n →
            iterateChildren (visit opt fuel) m s = Ok (m', s') →
            user1_ok lo (var_ptrs n) s s'
            ∧ Forall (λ x, kind x = KVar → x = n) [m']).
  { intros m s m' s' Hs Hk Hcv Hit.
    pose proof (iterateChildren_u1 _ IH lo _ _ _ _ Hs Hit) as U.
    destruct (iterateChildren_kind _ _ _ _ _ Hit) as [E _].
    split; [|apply Hout; congruence].
    eapply user1_ok_weaken; [exact U|]. intros p Hp. left.
    rewrite Hcv in Hp. by apply children_vp_var_ptrs. }
  assert (Hclone : ∀ c st1 c' s', cloneTree n st = (c, st1) →
            children_vp c' = children_vp c →
            linkAndIterate (visit opt fuel) c'
              (set_user2p (<[self n := self c]> (user2p st1)) st1) = Ok s' →
            user1_ok lo (var_ptrs n) st s').
  { intros c st1 c' s' Hc Hcv Hl. by eapply (clone_u1 _ IH). }
  destruct (kind n) eqn:Hk;
    try (unfold visit_AstNode in Hvis;
         apply bind_Ok in Hvis as ([n' s1] & Eit & Hvis); injection Hvis as <- <-;
         refine (Hic _ _ _ _ Hlo _ eq_refl Eit); rewrite Hk; discriminate);
    try (unfold visit_block in Hvis; destruct (cloneTree n st) as [c st1] eqn:Hc;
         apply bind_Ok in Hvis as (s2 & Hl & Hvis); injection Hvis as <- <-;
         split; [exact (Hclone _ _ _ _ eq_refl eq_refl Hl)
                |apply Forall_singleton; done]).
  - (* AstClass *)
    unfold visit_AstClass in Hvis.
    apply bind_Ok in Hvis as (nm & _ & Hvis).
    apply bind_Ok in Hvis as (scp & _ & Hvis).
    apply bind_Ok in Hvis as ([n' s1] & Eit & Hvis). injection Hvis as <- <-.
    match type of Eit with iterateChildren _ ?m ?s = _ =>
      destruct (Hic m s n' s1) as [[N U] F]; [simpl; lia|cbn [kind]; rewrite Hk; discriminate| |exact Eit|]
    end.
    + unfold children_vp. cbn [op1p op2p op3p op4p].
      rewrite vars_ptrs_app, vars_ptrs_singleton, var_ptrs_leaf by done.
      by rewrite app_nil_r.
    + split; [|done]. simpl in N, U. split; [simpl; lia|].
      intros p Hp. simpl in Hp. destruct (U _ Hp) as [H|H]; [|by right].
      simpl in H. rewrite lookup_empty in H. by destruct H.
  - (* AstCellInline *)
    unfold visit_AstCellInline in Hvis. injection Hvis as <- <-.
    split; [apply user1_ok_refl|]. apply Hout. discriminate.
  - (* AstActive *) done.
  - (* AstCFunc *)
    unfold visit_AstCFunc in Hvis. destruct (cloneTree n st) as [c st1] eqn:Hc.
    apply bind_Ok in Hvis as (s2 & Hl & Hvis). injection Hvis as <- <-.
    split; [|apply Forall_singleton; done].
    eapply (Hclone c st1); [done| |exact Hl]. done.
  - (* AstNodeFTask *)
    unfold visit_AstNodeFTask in Hvis. destruct classMethod.
    + apply bind_Ok in Hvis as (s2 & Hl & Hvis). injection Hvis as <- <-.
      split; [|constructor].
      assert (Hlo1 : lo ≤ next (set_user2p (<[self n := self n]> (user2p st)) st))
        by (simpl; lia).
      pose proof (linkAndIterate_u1 _ IH lo _ _ _ Hlo1 Hl) as U.
      eapply user1_ok_weaken; [exact U|]. intros p Hp. left.
      by apply children_vp_var_ptrs.
    + destruct (cloneTree n st) as [c st1] eqn:Hc.
      apply bind_Ok in Hvis as (s2 & Hl & Hvis). injection Hvis as <- <-.
      split; [exact (Hclone _ _ _ _ eq_refl eq_refl Hl)|apply Forall_singleton; done].
  - (* AstVar *)
    unfold visit_AstVar in Hvis. destruct (user1p st !! self n) eqn:Hu.
    + injection Hvis as <- <-. split; [apply user1_ok_refl|apply Forall_singleton; done].
    + cbn [alloc] in Hvis.
      apply bind_Ok in Hvis as (scp & _ & Hvis).
      apply bind_Ok in Hvis as (sc & _ & Hvis).
      apply bind_Ok in Hvis as (v & _ & Hvis).
      apply bind_Ok in Hvis as ([] & _ & Hvis). injection Hvis as <- <-.
      split; [|apply Forall_singleton; done].
      split; [simpl; lia|]. simpl. intros p Hp.
      destruct (decide (p = self n)) as [->|Hne].
      * right. left. rewrite var_ptrs_children. apply elem_of_app. left.
        unfold head_vp. rewrite decide_True by done. by apply list_elem_of_singleton.
      * left. by rewrite lookup_insert_ne in Hp.
  - (* AstVarRef *)
    unfold visit_AstVarRef in Hvis.
    apply bind_Ok in Hvis as (r & _ & Hvis).
    destruct (varp r); [|done].
    apply bind_Ok in Hvis as (v & _ & Hvis).
    destruct (isIfaceRef v); injection Hvis as <- <-;
      (split; [by apply user1_ok_same|apply Forall_singleton; done]).
  - (* AstScopeName *)
    unfold visit_AstScopeName in Hvis.
    apply bind_Ok in Hvis as (scp & _ & Hvis).
    apply bind_Ok in Hvis as (sc & _ & Hvis). cbn [alloc] in Hvis.
    apply bind_Ok in Hvis as ([n' s1] & Eit & Hvis). injection Hvis as <- <-.
    match type of Eit with iterateChildren _ ?m ?s = _ =>
      destruct (Hic m s n' s1) as [[N U] F]; [simpl; lia|cbn [kind]; rewrite Hk; discriminate| |exact Eit|]
    end.
    + unfold children_vp. cbn [op1p op2p op3p op4p].
      rewrite !vars_ptrs_cons, !var_ptrs_leaf by done. done.
    + split; [|done]. simpl in N, U. split; [lia|exact U].
  - (* AstScope *)
    unfold visit_AstScope in Hvis. injection Hvis as <- <-.
    split; [apply user1_ok_refl|apply Forall_singleton; done].
Qed.

Lemma map_insert_new_is_Some `{Countable K} {V} (k : K) (v : V) (m : gmap K V) :
  is_Some (map_insert_new k v m !! k).
Proof.
  unfold map_insert_new. destruct (m !! k) eqn:E; [by rewrite E|].
  by rewrite lookup_insert_eq.
Qed.

(** Iterating over siblings none of whose declarations is marked binds
    every declaration among them in the current scope. *)
Lemma iterateAndNext_bound opt fuel lo cur : ∀ l st ns st',
  pre (vars_ptrs l) (nodes_ptrs l) st → lo ≤ next st →
  m_scopep st = Some cur →
  (∀ p, p ∈ vars_ptrs l → p < lo ∧ user1p st !! p = None) →
  iterateAndNext (visit opt fuel) l st = Ok (ns, st') →
  ∀ n, n ∈ ns → kind n = KVar → is_Some (m_varScopes st' !! (self n, cur)).
Proof.
  induction l as [|n0 l IHl]; intros st ns st' Hpre Hlo Hcur Hfree Hit n Hn Hk;
    cbn [iterateAndNext] in Hit.
  { injection Hit as <- <-. by apply elem_of_nil in Hn. }
  apply bind_Ok in Hit as ([ns1 st1] & E1 & Hit).
  apply bind_Ok in Hit as ([ns2 st2] & E2 & Hit). injection Hit as <- <-.
  rewrite vars_ptrs_cons, nodes_ptrs_cons in Hpre.
  pose proof (visit_visit_ok opt fuel) as Hv.
  pose proof (pre_app_l _ _ _ _ _ (var_ptrs_subseteq n0) Hpre) as Hpre1.
  pose proof (Hv _ _ _ _ Hpre1 E1) as P1.
  pose proof (pre_app_r _ _ _ _ _ _ _ _ (vars_ptrs_subseteq l) Hpre P1) as Hpre2.
  pose proof (iterateAndNext_ok _ Hv _ _ _ _ Hpre2 E2) as P2.
  destruct (visit_visit_u1 opt fuel lo _ _ _ _ Hlo E1) as [[N1 U1] F1].
  apply elem_of_app in Hn as [Hn|Hn].
  - (* the head is the declaration *)
    rewrite Forall_forall in F1. pose proof (F1 _ Hn Hk) as ->.
    destruct fuel as [|fuel]; [done|]. cbn [visit] in E1. rewrite Hk in E1.
    assert (Hnone : user1p st !! self n0 = None).
    { apply Hfree. rewrite vars_ptrs_cons. apply elem_of_app. left.
      rewrite var_ptrs_children. apply elem_of_app. left.
      unfold head_vp. rewrite Hk. by apply list_elem_of_singleton. }
    destruct (visit_AstVar_first _ _ _ _ _ Hnone E1)
      as (scp & sc & v & Hs & _ & _ & _ & _ & _ & _ & Hvs & _).
    assert (scp = cur) as -> by congruence.
    assert (H1 : is_Some (m_varScopes st1 !! (self n0, cur))).
    { rewrite Hvs. apply map_insert_new_is_Some. }
    destruct H1 as [b Hb]. exists b.
    destruct P2 as [_ E _ _ _ _ _ _ _ _ _ _].
    eapply lookup_weaken; [exact Hb|]. by destruct E.
  - (* a later sibling *)
    destruct P1 as [_ _ (C1 & _) _ _ _ _ _ _ _ _ _].
    eapply (IHl st1 ns2 st2); [exact Hpre2|lia|congruence| |exact E2|exact Hn|exact Hk].
    intros p Hp.
    assert (Hin : p ∈ vars_ptrs (n0 :: l)).
    { rewrite vars_ptrs_cons. apply elem_of_app. by right. }
    destruct (Hfree _ Hin) as [Hlt Hnone]. split; [done|].
    destruct (user1p st1 !! p) eqn:Hu; [|done]. exfalso.
    destruct (U1 p) as [H|[H|H]]; [by rewrite Hu| | |].
    + rewrite Hnone in H. by destruct H.
    + destruct Hpre as [_ _ Hnd _ _ _].
      apply NoDup_app in Hnd as (_ & Hdisj & _). by apply (Hdisj p).
    + lia.
Qed.

(** X22.  When a module visit returns, every variable declaration that
    is a direct child of the visited module has a binding in the scope
    this visit made, and the table of bindings maps the declaration and
    that scope to it. *)
Theorem module_declarations_bound opt fuel modp st st' :
  wf st → visit_AstNodeModule opt fuel modp st = Ok st' →
  ∃ m', modules st' !! modp = Some m' ∧ declarations_bound m' (next st) st'.
Proof.
  intros Hwf Hvis. destruct fuel as [|fuel]; [done|].
  destruct (visit_AstNodeModule_body opt fuel (visit_AstNodeModule_ok opt fuel)
              modp st st' Hwf Hvis)
    as (nodep & name & _ & _ & _ & _ & Hm & _ & _ & m' & rest & p & Hm' & _ & _ & _
        & l & stF & stG & Hpre & Hcur & Hu1 & Hit & Hvs).
  exists m'. split; [done|]. intros n Hn Hk.
  assert (Hb : is_Some (m_varScopes st' !! (self n, next st))).
  { rewrite Hvs.
    eapply (iterateAndNext_bound opt fuel (next stF) (next st) l stF);
      [exact Hpre|done|exact Hcur| |exact Hit|exact Hn|exact Hk].
    intros q Hq. split; [|by rewrite Hu1, lookup_empty].
    destruct Hpre as [_ _ _ Hlt Hsub _]. by apply Hlt, Hsub. }
  destruct Hb as [b Hb]. destruct Hm as [Hwf' _ _ _ _ _].
  destruct (wf_varScopes _ _ _ _ _ _ _ Hwf' _ _ _ Hb) as (sc & vs & Hsc & Hin & <- & Hv).
  exists sc, vs. repeat (split; [done|]).
  split; [|done]. by destruct (wf_vsc _ _ _ _ _ _ _ Hwf' _ _ _ Hsc Hin).
Qed.

Lemma module_declarations_bound_witness :
  ∃ m', modules st_modi1 !! 2 = Some m'
        ∧ declarations_bound m' (next st_modi0) st_modi1.
Proof.
  apply (module_declarations_bound opt_ab 3 2 st_modi0 st_modi1).
  - apply wf_st_modi0.
  - vm_compute. reflexivity.
Defined.

Lemma occ_app v l1 l2 : occ v (l1 ++ l2) = occ v l1 + occ v l2.
Proof. unfold occ. by rewrite filter_app, length_app. Qed.

Lemma occ_nil v : occ v [] = 0.
Proof. done. Qed.

Lemma occ_notin v l : v ∉ l → occ v l = 0.
Proof.
  intros Hn. unfold occ. induction l as [|x l IH]; [done|].
  apply not_elem_of_cons in Hn as [Hne Hn].
  rewrite filter_cons_False by congruence. auto.
Qed.

Lemma occ_NoDup v l : NoDup l → occ v l ≤ 1.
Proof.
  induction 1 as [|x l Hx Hl IH]; [unfold occ; simpl; lia|].
  unfold occ in *. rewrite filter_cons. destruct (decide (x = v)) as [->|Hne]; [|done].
  simpl. fold (occ v l). rewrite (occ_notin _ _ Hx). lia.
Qed.

Lemma occ_above v lo l : v < lo → (∀ p, p ∈ l → lo ≤ p) → occ v l = 0.
Proof.
  intros Hv Hl. apply occ_notin. intros Hin. apply Hl in Hin. lia.
Qed.

Lemma nkeys_insert_new (v a s b : ptr) (m : gmap (ptr * ptr) ptr) :
  length (filter (λ kv : ptr * ptr * ptr, kv.1.1 = v)
            (map_to_list (map_insert_new (a, s) b m)))
  ≤ length (filter (λ kv : ptr * ptr * ptr, kv.1.1 = v) (map_to_list m))
    + occ v [a].
Proof.
  unfold map_insert_new.
  destruct (m !! (a, s)) eqn:E; [lia|].
  rewrite (map_to_list_insert _ _ _ E), filter_cons. cbn [fst].
  unfold occ. rewrite filter_cons, filter_nil.
  destruct (decide (a = v)); simpl; lia.
Qed.

Lemma keys_ok_refl v st : keys_ok v [] st st.
Proof. split; [done|]. rewrite occ_nil. lia. Qed.

Lemma keys_ok_seq v vp1 vp2 st st1 st2 :
  keys_ok v vp1 st st1 → keys_ok v vp2 st1 st2 → keys_ok v (vp1 ++ vp2) st st2.
Proof. intros [N1 K1] [N2 K2]. split; [lia|]. rewrite occ_app. lia. Qed.

Lemma keys_ok_same v vp st st' :
  next st ≤ next st' → m_varScopes st' = m_varScopes st → keys_ok v vp st st'.
Proof. intros N E. split; [done|]. unfold nkeys. rewrite E. lia. Qed.

Lemma keys_ok_le v vp vp' st st' :
  keys_ok v vp st st' → occ v vp ≤ occ v vp' → keys_ok v vp' st st'.
Proof. intros [N K] H. split; [done|lia]. Qed.

Lemma cloneTree_varScopes n st c st1 :
  cloneTree n st = (c, st1) → m_varScopes st1 = m_varScopes st.
Proof.
  intros Hc. unfold cloneTree in Hc.
  destruct (cloneTreeIter_spec n (next st)) as (c' & m & E & Hk & Hs & Hp & Hm & _).
  rewrite E in Hc. injection Hc as <- <-.
  unfold cloneRelink.
  assert (Hrange : ∀ p, p ∈ m.*2 → next st ≤ p < next st + length (subnodes n)).
  { intros p. rewrite Hm, elem_of_seq. done. }
  pose proof (cloneRelink_spec (list_to_map m) (next st)
                (next st + length (subnodes n)) m
                (set_next (next st + length (subnodes n)) st) Hrange) as Hspec.
  cbv zeta in Hspec. destruct Hspec as (Hsbh & _). by destruct Hsbh.
Qed.

Lemma iterateAndNext_keys v lo vis : visit_keys v lo vis →
  ∀ l st ns st', lo ≤ next st → iterateAndNext vis l st = Ok (ns, st') →
    keys_ok v (vars_ptrs l) st st'.
Proof.
  intros Hvis. induction l as [|n l IHl]; intros st ns st' Hlo Hit;
    cbn [iterateAndNext] in Hit.
  - injection Hit as <- <-. apply keys_ok_refl.
  - apply bind_Ok in Hit as ([ns1 st1] & E1 & Hit).
    apply bind_Ok in Hit as ([ns2 st2] & E2 & Hit). injection Hit as <- <-.
    pose proof (Hvis _ _ _ _ Hlo E1) as K1.
    assert (Hlo1 : lo ≤ next st1) by (destruct K1; lia).
    rewrite vars_ptrs_cons. eapply keys_ok_seq; [exact K1|]. by eapply IHl.
Qed.

Lemma iterateChildren_keys v lo vis : visit_keys v lo vis →
  ∀ n st n' st', lo ≤ next st → iterateChildren vis n st = Ok (n', st') →
    keys_ok v (children_vp n) st st'.
Proof.
  intros Hvis n st n' st' Hlo Hit. unfold iterateChildren in Hit.
  apply bind_Ok in Hit as ([o1 st1] & E1 & Hit).
  apply bind_Ok in Hit as ([o2 st2] & E2 & Hit).
  apply bind_Ok in Hit as ([o3 st3] & E3 & Hit).
  apply bind_Ok in Hit as ([o4 st4] & E4 & Hit). injection Hit as <- <-.
  pose proof (iterateAndNext_keys v lo vis Hvis _ _ _ _ Hlo E1) as K1.
  assert (Hlo1 : lo ≤ next st1) by (destruct K1; lia).
  pose proof (iterateAndNext_keys v lo vis Hvis _ _ _ _ Hlo1 E2) as K2.
  assert (Hlo2 : lo ≤ next st2) by (destruct K2; lia).
  pose proof (iterateAndNext_keys v lo vis Hvis _ _ _ _ Hlo2 E3) as K3.
  assert (Hlo3 : lo ≤ next st3) by (destruct K3; lia).
  pose proof (iterateAndNext_keys v lo vis Hvis _ _ _ _ Hlo3 E4) as K4.
  unfold children_vp.
  eapply keys_ok_seq; [exact K1|]. eapply keys_ok_seq; [exact K2|].
  eapply keys_ok_seq; [exact K3|]. exact K4.
Qed.

Lemma linkAndIterate_keys v lo vis : visit_keys v lo vis →
  ∀ c st st', lo ≤ next st → linkAndIterate vis c st = Ok st' →
    keys_ok v (children_vp c) st st'.
Proof.
  intros Hvis c st st' Hlo Hl. unfold linkAndIterate in Hl.
  apply bind_Ok in Hl as (scp & _ & Hl).
  apply bind_Ok in Hl as (sc & _ & Hl).
  apply bind_Ok in Hl as ([c' st4] & Eit & Hl).
  apply bind_Ok in Hl as (sc4 & _ & Hl). injection Hl as <-.
  assert (Hlo1 : lo ≤ next (set_scopes (<[scp:=addActivep c sc]> (scopes st)) st))
    by (simpl; lia).
  pose proof (iterateChildren_keys v lo vis Hvis _ _ _ _ Hlo1 Eit) as [N K].
  split; [exact N|exact K].
Qed.

(** A copy is iterated: its declarations are new objects. *)
Lemma clone_keys v lo vis : v < lo → visit_keys v lo vis →
  ∀ n st c st1 c' st' vp, lo ≤ next st →
    cloneTree n st = (c, st1) → children_vp c' = children_vp c →
    linkAndIterate vis c' (set_user2p (<[self n := self c]> (user2p st1)) st1)
    = Ok st' →
    keys_ok v vp st st'.
Proof.
  intros Hv Hvis n st c st1 c' st' vp Hlo Hc Hcv Hl.
  destruct (cloneTree_plain _ _ _ _ Hc) as (_ & Hn & Hrange & _).
  pose proof (cloneTree_varScopes _ _ _ _ Hc) as Hvs.
  assert (Hlo1 : lo ≤ next (set_user2p (<[self n := self c]> (user2p st1)) st1)).
  { simpl. lia. }
  pose proof (linkAndIterate_keys v lo vis Hvis _ _ _ Hlo1 Hl) as [N K].
  simpl in N. split; [lia|].
  assert (E : occ v (children_vp c') = 0).
  { apply (occ_above v lo); [done|]. intros p Hp. rewrite Hcv in Hp.
    apply children_vp_subseteq, children_np_node_ptrs, Hrange in Hp. lia. }
  rewrite E in K.
  assert (E1 : nkeys v (set_user2p (<[self n := self c]> (user2p st1)) st1)
               = nkeys v st).
  { unfold nkeys. cbn [m_varScopes set_user2p]. by rewrite Hvs. }
  lia.
Qed.

Lemma visit_visit_keys v lo opt fuel : v < lo → visit_keys v lo (visit opt fuel).
Proof.
  intros Hv. induction fuel as [|fuel IH]; intros n st ns st' Hlo Hvis; [done|].
  cbn [visit] in Hvis.
  assert (Hic : ∀ m s m' s', lo ≤ next s →
            occ v (children_vp m) ≤ occ v (var_ptrs n) →
            iterateChildren (visit opt fuel) m s = Ok (m', s') →
            keys_ok v (var_ptrs n) s s').
  { intros m s m' s' Hs Hocc Hit.
    eapply keys_ok_le; [exact (iterateChildren_keys v lo _ IH _ _ _ _ Hs Hit)|done]. }
  assert (Hch : occ v (children_vp n) ≤ occ v (var_ptrs n)).
  { rewrite var_ptrs_children, occ_app. lia. }
  assert (Hclone : ∀ c st1 c' s', cloneTree n st = (c, st1) →
            children_vp c' = children_vp c →
            linkAndIterate (visit opt fuel) c'
              (set_user2p (<[self n := self c]> (user2p st1)) st1) = Ok s' →
            keys_ok v (var_ptrs n) st s').
  { intros c st1 c' s' Hc Hcv Hl. by eapply (clone_keys v lo _ Hv IH). }
  destruct (kind n) eqn:Hk;
    try (unfold visit_AstNode in Hvis;
         apply bind_Ok in Hvis as ([n' s1] & Eit & Hvis); injection Hvis as <- <-;
         exact (Hic _ _ _ _ Hlo Hch Eit));
    try (unfold visit_block in Hvis; destruct (cloneTree n st) as [c st1] eqn:Hc;
         apply bind_Ok in Hvis as (s2 & Hl & Hvis); injection Hvis as <- <-;
         exact (Hclone _ _ _ _ eq_refl eq_refl Hl)).
  - (* AstClass *)
    unfold visit_AstClass in Hvis.
    apply bind_Ok in Hvis as (nm & _ & Hvis).
    apply bind_Ok in Hvis as (scp & _ & Hvis).
    apply bind_Ok in Hvis as ([n' s1] & Eit & Hvis). injection Hvis as <- <-.
    match type of Eit with iterateChildren _ ?m ?s = _ =>
      destruct (Hic m s n' s1) as [N K]; [simpl; lia| |exact Eit|]
    end.
    + unfold children_vp at 1. cbn [op1p op2p op3p op4p].
      rewrite vars_ptrs_app, vars_ptrs_singleton, var_ptrs_leaf by done.
      rewrite app_nil_r. exact Hch.
    + simpl in N. split; [simpl; lia|exact K].
  - (* AstCellInline *)
    unfold visit_AstCellInline in Hvis. injection Hvis as <- <-.
    by apply keys_ok_same.
  - (* AstActive *) done.
  - (* AstCFunc *)
    unfold visit_AstCFunc in Hvis. destruct (cloneTree n st) as [c st1] eqn:Hc.
    apply bind_Ok in Hvis as (s2 & Hl & Hvis). injection Hvis as <- <-.
    eapply (Hclone c st1); [done| |exact Hl]. done.
  - (* AstNodeFTask *)
    unfold visit_AstNodeFTask in Hvis. destruct classMethod.
    + apply bind_Ok in Hvis as (s2 & Hl & Hvis). injection Hvis as <- <-.
      assert (Hlo1 : lo ≤ next (set_user2p (<[self n := self n]> (user2p st)) st))
        by (simpl; lia).
      pose proof (linkAndIterate_keys v lo _ IH _ _ _ Hlo1 Hl) as [N K].
      split; [exact N|]. simpl in K.
      assert (E1 : nkeys v (set_user2p (<[self n := self n]> (user2p st)) st)
                   = nkeys v st) by reflexivity.
      lia.
    + destruct (cloneTree n st) as [c st1] eqn:Hc.
      apply bind_Ok in Hvis as (s2 & Hl & Hvis). injection Hvis as <- <-.
      exact (Hclone _ _ _ _ eq_refl eq_refl Hl).
  - (* AstVar *)
    unfold visit_AstVar in Hvis. destruct (user1p st !! self n) eqn:Hu.
    + injection Hvis as <- <-. by apply keys_ok_same.
    + cbn [alloc] in Hvis.
      apply bind_Ok in Hvis as (scp & _ & Hvis).
      apply bind_Ok in Hvis as (sc & _ & Hvis).
      apply bind_Ok in Hvis as (v0 & _ & Hvis).
      apply bind_Ok in Hvis as ([] & _ & Hvis). injection Hvis as <- <-.
      split; [simpl; lia|].
      assert (E1 : occ v [self n] ≤ occ v (var_ptrs n)).
      { rewrite var_ptrs_children, occ_app. unfold head_vp.
        rewrite decide_True by done. lia. }
      unfold nkeys.
      cbn [m_varScopes set_scopes set_m_varScopes set_vars set_user1p set_next].
      etrans; [apply nkeys_insert_new|]. lia.
  - (* AstVarRef *)
    unfold visit_AstVarRef in Hvis.
    apply bind_Ok in Hvis as (r & _ & Hvis).
    destruct (varp r); [|done].
    apply bind_Ok in Hvis as (v0 & _ & Hvis).
    destruct (isIfaceRef v0); injection Hvis as <- <-; by apply keys_ok_same.
  - (* AstScopeName *)
    unfold visit_AstScopeName in Hvis.
    apply bind_Ok in Hvis as (scp & _ & Hvis).
    apply bind_Ok in Hvis as (sc & _ & Hvis). cbn [alloc] in Hvis.
    apply bind_Ok in Hvis as ([n' s1] & Eit & Hvis). injection Hvis as <- <-.
    match type of Eit with iterateChildren _ ?m ?s = _ =>
      destruct (Hic m s n' s1) as [N K]; [simpl; lia| |exact Eit|]
    end.
    + unfold children_vp at 1. cbn [op1p op2p op3p op4p].
      rewrite !vars_ptrs_cons, !var_ptrs_leaf by done. exact Hch.
    + simpl in N. split; [lia|exact K].
  - (* AstScope *)
    unfold visit_AstScope in Hvis. injection Hvis as <- <-.
    by apply keys_ok_same.
Qed.

Lemma bound_in_mono st st' p s :
  mstat st st' → m_varScopes st ⊆ m_varScopes st' →
  bound_in st p s → bound_in st' p s.
Proof.
  intros Hm Hv Hb m' a Hm' Ha. destruct (Hm p) as (_ & _ & Hk).
  destruct (Hk _ Hm') as (m & Hm0 & _ & Ekv & _). rewrite Ekv in Ha.
  destruct (Hb _ _ Hm0 Ha) as [b Hb']. exists b. by eapply lookup_weaken.
Qed.

Lemma pstep_refl p v st : pstep p v 0 st st.
Proof.
  split; try done.
  - apply mstat_refl.
  - exists []. rewrite app_nil_r. split; [done|]. split; [done|]. split; [auto|].
    intros s Hs. by apply elem_of_nil in Hs.
  - intros. lia.
Qed.

Lemma pstep_trans p v k1 k2 st st1 st2 :
  pstep p v k1 st st1 → pstep p v k2 st1 st2 → pstep p v (k1 + k2) st st2.
Proof.
  intros [N1 Ms1 V1 F1 M1 P1 (n1 & S1 & L1 & T1 & B1) R1 K1]
         [N2 Ms2 V2 F2 M2 P2 (n2 & S2 & L2 & T2 & B2) R2 K2].
  split.
  - lia.
  - by eapply mstat_trans.
  - by etrans.
  - auto.
  - by etrans.
  - auto.
  - exists (n1 ++ n2). split; [by rewrite S2, S1, app_assoc|].
    split; [rewrite length_app; lia|]. split.
    { intros Hnone. destruct (T1 Hnone) as [H1|(s & Hs & H1)].
      + destruct (T2 H1) as [H2|(s & Hs & H2)]; [by left|].
        right. exists s. split; [|done]. apply elem_of_app. by right.
      + right. exists s. split; [apply elem_of_app; by left|].
        by eapply lookup_weaken. }
    intros s [Hs|Hs]%elem_of_app; [|by apply B2].
    eapply bound_in_mono; [exact Ms2|exact V2|by apply B1].
  - intros Hp Hk. destruct (decide (k1 = 0)) as [->|Hk1].
    + apply R2; [auto|lia].
    + destruct (R1 Hp Hk1) as [s Hs]. exists s. by eapply lookup_weaken.
  - intros Hlt Hf. specialize (K1 Hlt Hf).
    assert (Hlt1 : v < next st1) by lia. specialize (K2 Hlt1 (F1 Hf)). lia.
Qed.

(** Only the modules and the two tables matter. *)
Lemma pstep_same p v k sa sb sa' sb' :
  next sa' = next sa → modules sa' = modules sa →
  m_packageScopes sa' = m_packageScopes sa → m_varScopes sa' = m_varScopes sa →
  next sb' = next sb → modules sb' = modules sb →
  m_packageScopes sb' = m_packageScopes sb → m_varScopes sb' = m_varScopes sb →
  pstep p v k sa sb → pstep p v k sa' sb'.
Proof.
  intros A0 A1 A2 A3 B0 B1 B2 B3 [N Ms V F M P S R K].
  split; unfold mscopes, is_pkg, nkeys, foreign, mstat, bound_in in *;
    rewrite ?A0, ?A1, ?A2, ?A3, ?B0, ?B1, ?B2, ?B3; done.
Qed.

Lemma mstat_is_pkg st st' p : mstat st st' → is_pkg st p → is_pkg st' p.
Proof.
  intros Hm (m & Hp & Hk). destruct (Hm p) as (_ & Hs & Hv).
  destruct Hs as [m' Hm']; [by eexists|].
  destruct (Hv _ Hm') as (m0 & Hm0 & Hk' & _).
  exists m'. split; [done|]. congruence.
Qed.

Lemma mstat_foreign st st' p v : mstat st st' → foreign st p v → foreign st' p v.
Proof.
  intros Hm Hf x m' Hx Hne Hin. destruct (Hm x) as (_ & _ & Hv).
  destruct (Hv _ Hx) as (m & Hm0 & _ & _ & Hsub).
  apply (Hf _ _ Hm0 Hne). by eapply elem_of_sublist.
Qed.

Section Paths.
Context (opt : V3Global) (p v : ptr).

Lemma visit_cells_pstep fuel :
  (∀ q st st', wf st →
     visit_AstNodeModule opt fuel q st = Ok st' →
     pstep p v (paths fuel (modules st) q p) st st') →
  ∀ l st st', wf st →
    visit_cells (visit_AstNodeModule opt fuel) l st = Ok st' →
    pstep p v (sum_list ((λ c, match c with
                               | Some c => paths fuel (modules st) c p
                               | None => 0
                               end) <$> cellsOf l)) st st'.
Proof.
  intros IH. induction l as [|n l IHl]; intros st st' Hwf Hvis;
    simpl in Hvis.
  { injection Hvis as <-. apply pstep_refl. }
  unfold cellsOf. cbn [omap list_omap]. fold (cellsOf l). unfold cellOf at 1.
  destruct (kind n) eqn:Hk; try (by apply IHl).
  destruct modp as [modp|]; [|done].
  apply bind_Ok in Hvis as (st1 & Evm & Hvis).
  set (st0 := set_m_aboveScopep _ (set_m_aboveCellp _ st)) in *.
  pose proof (visit_AstNodeModule_ok opt fuel modp st0 st1 Hwf Evm)
    as [W1 E1 _ _ _ _].
  pose proof (visit_AstNodeModule_mstat opt fuel modp st0 st1 Hwf Evm) as M1.
  pose proof (IH modp st0 st1 Hwf Evm) as P1.
  pose proof (λ W, IHl _ _ W Hvis) as P2.
  specialize (P2 W1).
  cbn [fmap list_fmap sum_list sum_list_with].
  assert (E : (λ c, match c with
                    | Some c => paths fuel (modules st1) c p
                    | None => 0
                    end) <$> cellsOf l
              = (λ c, match c with
                      | Some c => paths fuel (modules st) c p
                      | None => 0
                      end) <$> cellsOf l).
  { apply list_fmap_ext. intros _ [c|] _; [|done].
    apply paths_ext. intros x. by destruct (M1 x) as [? _]. }
  cbn [modules set_m_scopep set_m_aboveCellp set_m_aboveScopep] in P2.
  rewrite E in P2.
  eapply (pstep_trans p v _ _ st st1 st').
  - by eapply (pstep_same p v _ st0 st1); [..|exact P1].
  - by eapply (pstep_same p v _ _ st'); [..|exact P2].
Qed.

Lemma visit_AstNodeModule_pstep fuel : ∀ q st st',
  wf st →
  visit_AstNodeModule opt fuel q st = Ok st' →
  pstep p v (paths fuel (modules st) q p) st st'.
Proof.
  induction fuel as [|fuel IH]; intros q st st' Hwf Hvis; [done|].
  pose proof (visit_AstNodeModule_mstat opt _ _ _ _ Hwf Hvis) as Hms.
  pose proof (visit_AstNodeModule_ok opt _ _ _ _ Hwf Hvis) as [_ Eall _ _ _ _].
  destruct (visit_AstNodeModule_parts _ _ _ _ _ Hwf Hvis)
    as (nodep & scopename & stC & nodep' & stF & st1 & st2 & stG & o1 & o2 & o3
        & Hn & HwfB & Hcells & HmC & Hn' & Htail).
  cbv zeta in Htail.
  destruct Htail as (HmF & HvF & HpF & HnF & HcurF & Hu1F & HpreF & E1 & E2 & E3
                     & HmG & HpG & Hsub & Hst').
  pose proof (tail_mstat opt fuel q stC nodep' stF st1 st2 stG o1 o2 o3 st' _ _ _
                Hn' HmF E1 E2 E3 HmG Hsub Hst') as MsT.
  set (stB := scopeMade q nodep scopename st) in *.
  set (nodep2 := addStmtp (scopeNodeOf (isTop nodep') (next stC) (next st)) nodep')
    in *.
  pose proof (scopeMade_modules q nodep scopename st) as HmB.
  pose proof (scopeMade_varScopes q nodep scopename st) as HvB.
  pose proof (scopeMade_next q nodep scopename st) as HnB.
  pose proof (scopeMade_packageScopes q nodep scopename st) as HpB.
  fold stB in HmB, HvB, HnB, HpB.
  (* the cells *)
  assert (HfB : foreign st p v → foreign stB p v).
  { intros Hf x m Hx. rewrite HmB in Hx. by apply Hf. }
  pose proof (visit_cells_pstep fuel IH _ _ _ HwfB Hcells) as Pc.
  rewrite HmB in Pc.
  set (kc := sum_list _) in Pc.
  assert (Hk : paths (S fuel) (modules st) q p
               = (if decide (q = p) then 1 else 0) + kc).
  { cbn [paths]. rewrite Hn. reflexivity. }
  rewrite Hk. clear Hk.
  destruct Pc as [Nc _ Vc Fc Mc Pkc (newsc & Sc & Lc & Tc & Bc) Rc Kc].
  pose proof (visit_cells_mstat _ _ (visit_AstNodeModule_ok opt fuel)
                (visit_AstNodeModule_mstat opt fuel) _ _ HwfB Hcells) as MsC.
  pose proof HmC as [WC EC _ _ _ _].
  (* the table of package scopes *)
  assert (HpS : m_packageScopes st' = m_packageScopes stC).
  { rewrite Hst'. cbn [m_packageScopes set_modules]. congruence. }
  assert (HmonoB : m_packageScopes st ⊆ m_packageScopes stB).
  { rewrite HpB. destruct (isPackage nodep); [|done].
    apply map_insert_new_subseteq. }
  (* the bindings *)
  assert (Hkeys : v < next st → foreign st p v →
            nkeys v st' ≤ nkeys v stC + (if decide (q = p) then 1 else 0)).
  { intros Hlt Hf. assert (HltF : v < next stF).
    { pose proof (ext_next' _ _ EC). lia. }
    pose proof (visit_visit_keys v (next stF) opt fuel HltF) as Hvk.
    pose proof (iterateAndNext_keys v (next stF) _ Hvk _ _ _ _ (le_n _) E1) as K1.
    assert (L1 : next stF ≤ next st1) by (by destruct K1).
    pose proof (iterateAndNext_keys v (next stF) _ Hvk _ _ _ _ L1 E2) as K2.
    assert (L2 : next stF ≤ next st2) by (destruct K2; lia).
    pose proof (iterateAndNext_keys v (next stF) _ Hvk _ _ _ _ L2 E3) as K3.
    pose proof (keys_ok_seq _ _ _ _ _ _ K1 (keys_ok_seq _ _ _ _ _ _ K2 K3))
      as [_ K].
    change (vars_ptrs (inlinesp nodep2) ++ vars_ptrs (stmtsp nodep2)
            ++ vars_ptrs (activesp nodep2)) with (module_var_ptrs nodep2) in K.
    unfold nodep2 in K.
    rewrite module_var_ptrs_addStmtp in K by apply var_ptrs_scopeNodeOf.
    assert (EF : nkeys v stF = nkeys v stC) by (unfold nkeys; by rewrite HvF).
    assert (EG : nkeys v st' = nkeys v stG) by (by rewrite Hst').
    assert (Hocc : occ v (module_var_ptrs nodep')
                   ≤ if decide (q = p) then 1 else 0).
    { destruct (decide (q = p)) as [->|Hne].
      - apply occ_NoDup. by destruct (wf_modules _ _ _ _ _ _ _ WC _ _ Hn').
      - rewrite occ_notin; [done|].
        apply (mstat_foreign stB stC p v MsC (HfB Hf) q nodep' Hn' Hne). }
    lia. }
  assert (EB : nkeys v stB = nkeys v st) by (unfold nkeys; by rewrite HvB).
  (* the scopes under [p] *)
  assert (HsB : mscopes stB p = mscopes st p) by (unfold mscopes; by rewrite HmB).
  assert (Hscopes : mscopes st' p
                    = mscopes stC p ++ (if decide (q = p) then [next st] else [])).
  { unfold mscopes. rewrite Hst'. cbn [modules set_modules]. rewrite HmG, HmF.
    destruct (decide (q = p)) as [->|Hne].
    - rewrite lookup_insert_eq, Hn'.
      transitivity (module_scopes nodep2).
      + exact (iterateAndNext_scopesOf _ _ _ _ _ _ E2).
      + unfold nodep2. by rewrite module_scopes_addStmtp, scopesOf_scopeNodeOf.
    - rewrite !lookup_insert_ne by done. by rewrite app_nil_r. }
  assert (HvS : m_varScopes stC ⊆ m_varScopes st').
  { assert (Hv1 : m_varScopes stF ⊆ m_varScopes stG).
    { pose proof (visit_visit_ok opt fuel) as Hvo.
      pose proof (vars_ptrs_subseteq (inlinesp nodep2)) as S1.
      pose proof (vars_ptrs_subseteq (stmtsp nodep2)) as S2.
      pose proof (vars_ptrs_subseteq (activesp nodep2)) as S3.
      assert (S23 : vars_ptrs (stmtsp nodep2) ++ vars_ptrs (activesp nodep2)
                    ⊆ nodes_ptrs (stmtsp nodep2) ++ nodes_ptrs (activesp nodep2)).
      { clear -S2 S3. set_solver. }
      pose proof HpreF as HpreF'.
      unfold module_var_ptrs, module_node_ptrs in HpreF'.
      pose proof (pre_app_l _ _ _ _ _ S1 HpreF') as Hpre1.
      pose proof (iterateAndNext_ok _ Hvo _ _ _ _ Hpre1 E1) as P1.
      pose proof (pre_app_r _ _ _ _ _ _ _ _ S23 HpreF' P1) as Hpre23.
      pose proof (pre_app_l _ _ _ _ _ S2 Hpre23) as Hpre2.
      pose proof (iterateAndNext_ok _ Hvo _ _ _ _ Hpre2 E2) as P2.
      pose proof (pre_app_r _ _ _ _ _ _ _ _ S3 Hpre23 P2) as Hpre3.
      pose proof (iterateAndNext_ok _ Hvo _ _ _ _ Hpre3 E3) as P3.
      destruct P1 as [_ X1 _ _ _ _ _ _ _ _ _ _].
      destruct P2 as [_ X2 _ _ _ _ _ _ _ _ _ _].
      destruct P3 as [_ X3 _ _ _ _ _ _ _ _ _ _].
      destruct X1 as [_ _ Y1 _ _ _ _], X2 as [_ _ Y2 _ _ _ _], X3 as [_ _ Y3 _ _ _ _].
      etrans; [exact Y1|]. by etrans. }
    rewrite Hst'. cbn [m_varScopes set_modules]. by rewrite <- HvF. }
  (* the declarations of [p] are bound in the new scope *)
  assert (Hbound : q = p → bound_in st' p (next st)).
  { intros -> m a Hm Ha. rewrite Hst' in Hm. cbn [modules set_modules] in Hm.
    rewrite lookup_insert_eq in Hm. injection Hm as <-.
    unfold kvars in Ha. cbn [inlinesp stmtsp activesp] in Ha.
    apply list_elem_of_fmap in Ha as (n & -> & Hin).
    apply list_elem_of_filter in Hin as [Hk Hin].
    rewrite Hst'. cbn [m_varScopes set_modules].
    pose proof (iterateAndNext_app_intro _ _ _ _ _ _ _ _ E1
                  (iterateAndNext_app_intro _ _ _ _ _ _ _ _ E2 E3)) as Eall'.
    eapply (iterateAndNext_bound opt fuel (next stF) (next st) _ stF);
      [|done|exact HcurF| |exact Eall'|exact Hin|exact Hk].
    - rewrite !vars_ptrs_app, !nodes_ptrs_app. exact HpreF.
    - intros x Hx. split; [|by rewrite Hu1F, lookup_empty].
      destruct HpreF as [_ _ _ Hl Hsubs _]. apply Hl, Hsubs.
      unfold module_var_ptrs. by rewrite <- !vars_ptrs_app. }
  split.
  - exact (ext_next' _ _ Eall).
  - done.
  - by destruct Eall.
  - exact (mstat_foreign st st' p v Hms).
  - rewrite HpS. by etrans.
  - exact (mstat_is_pkg st st' p Hms).
  - exists (newsc ++ if decide (q = p) then [next st] else []).
    split; [by rewrite Hscopes, Sc, HsB, app_assoc|].
    split; [rewrite length_app, Lc; destruct (decide (q = p)); simpl; lia|].
    split.
    { intros Hnone. rewrite HpS.
      destruct (decide (q = p)) as [->|Hne].
      + destruct (isPackage nodep) eqn:Hpk.
        * right. exists (next st). split; [apply elem_of_app; right; by left|].
          eapply lookup_weaken; [|exact Mc]. rewrite HpB. unfold map_insert_new.
          rewrite Hnone. apply lookup_insert_eq.
        * rewrite HpB in Tc. destruct (Tc Hnone) as [?|(s & Hs & ?)]; [by left|].
          right. exists s. split; [apply elem_of_app; by left|done].
      + assert (HnoneB : m_packageScopes stB !! p = None).
        { rewrite HpB. destruct (isPackage nodep); [|done].
          unfold map_insert_new. destruct (m_packageScopes st !! q); [done|].
          by rewrite lookup_insert_ne. }
        destruct (Tc HnoneB) as [?|(s & Hs & ?)]; [by left|].
        right. exists s. split; [apply elem_of_app; by left|done]. }
    intros s [Hs|Hs]%elem_of_app.
    + eapply bound_in_mono; [exact MsT|exact HvS|by apply Bc].
    + destruct (decide (q = p)) as [E|E]; [|by apply elem_of_nil in Hs].
      apply list_elem_of_singleton in Hs as ->. by apply Hbound.
  - intros Hp Hk. rewrite HpS.
    destruct (decide (q = p)) as [->|Hne].
    + destruct Hp as (m & Hm & Hpk). assert (m = nodep) as -> by congruence.
      assert (Hs : is_Some (m_packageScopes stB !! p)).
      { rewrite HpB, Hpk. unfold map_insert_new.
        destruct (m_packageScopes st !! p) eqn:E; [by rewrite E|].
        by rewrite lookup_insert_eq. }
      destruct Hs as [s Hs]. exists s. by eapply lookup_weaken.
    + apply Rc; [|simpl in Hk; lia].
      destruct Hp as (m & Hm & Hpk). exists m. by rewrite HmB.
  - intros Hlt Hf. specialize (Hkeys Hlt Hf).
    assert (HltB : v < next stB) by lia. specialize (Kc HltB (HfB Hf)).
    destruct (decide (q = p)); lia.
Qed.
End Paths.

Lemma two_elems {A} (l : list A) x y :
  NoDup l → x ∈ l → y ∈ l → x ≠ y → 2 ≤ length l.
Proof.
  intros Hnd Hx Hy Hne. apply elem_of_Permutation in Hx as [l' Hl'].
  rewrite Hl' in Hy. apply elem_of_cons in Hy as [->|Hy]; [done|].
  rewrite Hl'. destruct l'; [by apply elem_of_nil in Hy|]. simpl. lia.
Qed.

Lemma nkeys_one v st s1 s2 :
  nkeys v st ≤ 1 →
  is_Some (m_varScopes st !! (v, s1)) → is_Some (m_varScopes st !! (v, s2)) →
  s1 = s2.
Proof.
  intros Hn [b1 H1] [b2 H2]. destruct (decide (s1 = s2)) as [|Hne]; [done|].
  exfalso. unfold nkeys in Hn.
  assert (2 ≤ length (filter (λ kv : ptr * ptr * ptr, kv.1.1 = v)
                        (map_to_list (m_varScopes st)))); [|lia].
  apply (two_elems _ ((v, s1), b1) ((v, s2), b2)).
  - apply NoDup_filter, NoDup_map_to_list.
  - apply list_elem_of_filter. split; [done|]. by apply elem_of_map_to_list.
  - apply list_elem_of_filter. split; [done|]. by apply elem_of_map_to_list.
  - congruence.
Qed.

Lemma initState_module nodep x mx :
  modules (initState nodep) !! x = Some mx → mx ∈ modulesp nodep ∧ mod_self mx = x.
Proof.
  intros Hm. cbn [modules initState] in Hm. apply elem_of_list_to_map_2 in Hm.
  apply list_elem_of_fmap in Hm as (m' & [= -> ->] & Hin). done.
Qed.

(** C2.  Take a design in which one instantiation path leads from the
    top module to the package [p] (packages are not instantiated
    hierarchically) and the declarations of the package are below no
    other module.  When the first visitor has run, one scope has been
    put under the package after the scope nodes it had; that scope was
    made for the package and is the one the table of package scopes
    records; every resolved reference that names the package, to a
    declaration that is no class member, is bound to the binding of the
    declaration in that scope, whatever scope the reference was queued
    under; no declaration below the package has two bindings; and every
    declaration that is a child of the package has its binding in that
    scope. *)
Theorem package_members_resolve_in_single_scope opt fuel nodep st p m :
  wf_netlist nodep → ScopeVisitor opt fuel nodep = Ok st →
  modules (initState nodep) !! p = Some m → isPackage m = true →
  instantiated_once fuel nodep p → declares_alone nodep p m →
  single_package_scope st p m.
Proof.
  intros Hnet Hrun Hm Hpk (top & Htop & Hpaths) Halone.
  destruct (ScopeVisitor_Ok _ _ _ _ Hnet Hrun)
    as [[Hno _]|(modp & stw & Htop' & Hvis & Hms & Hres & Hwf)]; [congruence|].
  assert (modp = top) as -> by congruence.
  pose proof (wf_init _ Hnet) as Hwf0.
  pose proof Hres as [Hst _ _ _]. pose proof Hms as [Hwfw _ _ _ _ _].
  assert (Hfor : ∀ v, v ∈ module_var_ptrs m → foreign (initState nodep) p v).
  { intros v Hv x mx Hx Hne. apply initState_module in Hx as [Hin Hself].
    unfold declares_alone in Halone. rewrite Forall_forall in Halone.
    destruct (Halone _ Hin) as [?|Hd]; [congruence|].
    rewrite Forall_forall in Hd. by apply Hd. }
  assert (Hlt : ∀ v, v ∈ module_var_ptrs m → v < next (initState nodep)).
  { intros v Hv. destruct (wf_modules _ _ _ _ _ _ _ Hwf0 _ _ Hm) as [_ Hlt].
    apply Hlt. unfold module_var_ptrs, module_node_ptrs in *.
    pose proof (vars_ptrs_subseteq (inlinesp m)).
    pose proof (vars_ptrs_subseteq (stmtsp m)).
    pose proof (vars_ptrs_subseteq (activesp m)).
    rewrite !elem_of_app in *. naive_solver. }
  (* the scope and the table; the declaration plays no part here *)
  pose proof (visit_AstNodeModule_pstep opt p 0 fuel top _ _ Hwf0 Hvis) as Ps.
  rewrite Hpaths in Ps.
  destruct Ps as [_ Ms _ _ _ Pk (news & Sn & Ln & Tn & Bn) Rn _].
  assert (Hp0 : is_pkg (initState nodep) p) by (by exists m).
  destruct news as [|s [|]]; try discriminate Ln. clear Ln.
  destruct (Pk Hp0) as (m' & Hm' & _).
  assert (Hs : m_packageScopes stw !! p = Some s).
  { destruct (Rn Hp0 ltac:(lia)) as [s' Hs'].
    destruct (Tn eq_refl) as [Hnone|(s0 & Hs0 & Hsome)]; [congruence|].
    apply list_elem_of_singleton in Hs0 as ->. done. }
  destruct (wf_packageScopes _ _ _ _ _ _ _ Hwfw _ _ Hs) as (sc & Hsc & Hmod).
  assert (Em : modules st = modules stw) by (by rewrite Hst).
  assert (Es : scopes st = scopes stw) by (by rewrite Hst).
  assert (Ep : m_packageScopes st = m_packageScopes stw) by (by rewrite Hst).
  assert (Ev : m_varScopes st = m_varScopes stw) by (by rewrite Hst).
  exists s, sc, m'. rewrite Em, Es, Ep.
  split; [done|]. split.
  { unfold mscopes in Sn. rewrite Hm', Hm in Sn. done. }
  split; [done|]. split; [done|]. split; [done|]. split; [|split].
  - intros it r vp v b Hr Hpkr Hvp Hv Hcm Hb.
    destruct (wf_package_refs_in_recorded_scope st Hwf _ _ _ _ _ _ Hr Hpkr Hvp Hv Hcm Hb)
      as (s' & sc' & vs & Hs' & Hsc' & Hin & Hb' & Hvs & Hsp).
    rewrite Ep in Hs'. rewrite Es in Hsc'.
    assert (s' = s) as -> by congruence. assert (sc' = sc) as -> by congruence.
    by exists vs.
  - intros sa sb sca scb va vb Ha Hb Hva Hvb Hin Heq. rewrite Es in Ha, Hb.
    pose proof (visit_AstNodeModule_pstep opt p (vsc_varp va) fuel top _ _ Hwf0 Hvis)
      as [_ _ _ _ _ _ _ _ Kn].
    rewrite Hpaths in Kn. specialize (Kn (Hlt _ Hin) (Hfor _ Hin)).
    assert (E0 : nkeys (vsc_varp va) (initState nodep) = 0).
    { unfold nkeys. cbn [m_varScopes initState]. by rewrite map_to_list_empty. }
    pose proof (wf_recorded _ _ _ _ _ _ _ Hwfw _ _ _ Ha Hva) as Ra.
    pose proof (wf_recorded _ _ _ _ _ _ _ Hwfw _ _ _ Hb Hvb) as Rb.
    rewrite <- Heq in Rb.
    assert (sa = sb) as <-.
    { apply (nkeys_one (vsc_varp va) stw); [lia|by eexists..]. }
    assert (sca = scb) as <- by congruence.
    apply (wf_self_inj _ _ _ _ _ _ _ Hwfw sa sa sca sca); try done. congruence.
  - intros a Ha. rewrite Ev.
    assert (Ha' : a ∈ kvars m').
    { destruct (Ms p) as (_ & _ & Hk). destruct (Hk _ Hm') as (m0 & Hm0 & _ & Ekv & _).
      assert (m0 = m) as -> by congruence. by rewrite Ekv. }
    destruct (Bn s ltac:(by apply list_elem_of_singleton) _ _ Hm' Ha') as [b Hb].
    destruct (wf_varScopes _ _ _ _ _ _ _ Hwfw _ _ _ Hb) as (sc' & vs & Hsc' & Hin & <- & Hv).
    assert (sc' = sc) as -> by congruence.
    exists vs. split; [done|]. split; [done|]. split; [|done].
    by destruct (wf_vsc _ _ _ _ _ _ _ Hwfw _ _ _ Hsc Hin).
Qed.

Lemma package_members_resolve_in_single_scope_witness :
  single_package_scope st_pkg 2 mod_pkg.
Proof.
  apply (package_members_resolve_in_single_scope opt_ab 10 net_pkg st_pkg 2 mod_pkg).
  - solve_wf_netlist.
  - vm_compute. reflexivity.
  - vm_compute. reflexivity.
  - reflexivity.
  - exists 1. split; [reflexivity|]. vm_compute. reflexivity.
  - unfold declares_alone. cbn [modulesp net_pkg].
    change (module_var_ptrs mod_pkg) with [7].
    apply Forall_cons. split.
    { right. apply Forall_singleton. intros H. vm_compute in H. inversion H. }
    apply Forall_cons. split; [by left|].
    apply Forall_cons. split; [|constructor].
    right. apply Forall_singleton. intros H. vm_compute in H. inversion H.
Defined.
